(** * GoPing: the scan engine of [main.go], embedded and verified

    The development follows the layout of [main.go]:
    - the part of Go's [net], [netip], [strconv] and [strings] packages that
      the program calls, modelled on bytes and strings;
    - the range expander ([parseCIDR], [inc], [splitIntoSubnets]);
    - the probe ([pingIP]) and the dispatcher ([pingAllWithConcurrency]) as
      an interleaving transition system over goroutines and channels;
    - the progress monitor ([showProgress]);
    - the result reporter ([getLastOctet], the comparison given to
      [sort.Slice], [sort.Slice] itself, [printResults],
      [saveSortedResultsToLog]);
    - the command line ([splitCIDRs], [isValidCIDR], the checks of [main]),
      [formatDuration], and the text of the grid and of the log
      ([logToFile]).

    A loop that may not end takes fuel; the statements on such a loop say
    either that enough fuel makes it return or that no fuel does.

    Integers of Go are [Z] with their wrap-around written out; a [byte] is a
    [Z] in [0, 256); a Go string is a [string] of bytes; a nil slice is the
    empty list. *)

From Stdlib Require Import String Ascii.
From Stdlib Require Import ZArith List Bool Lia PeanoNat.
From Stdlib Require Import Permutation Sorted QArith.
Import ListNotations.
Open Scope string_scope.
Open Scope list_scope.
Open Scope Z_scope.

(* ================================================================= *)
(** ** Machine integers and slices *)

Definition byte := Z.

Definition u8 (z : Z) : byte := z mod 256.
Definition u32 (z : Z) : Z := z mod 2 ^ 32.

Definition is_byte (b : Z) : Prop := 0 <= b < 256.

(** [s[i]] on a byte slice that is long enough, and [s[i] = v]. *)
Definition idx (s : list Z) (i : nat) : Z := nth i s 0.

Fixpoint upd (s : list Z) (i : nat) (v : Z) : list Z :=
  match s, i with
  | [], _ => []
  | _ :: t, O => v :: t
  | x :: t, S j => x :: upd t j v
  end.

(** A computation that loops: [OutOfFuel] when the loop has not left after
    [fuel] iterations, [Unmodelled] when it reaches library code that is not
    embedded here (Go's IPv6 text parser, some branches of its sort). *)
Inductive run (A : Type) : Type :=
| Ret (a : A)
| OutOfFuel
| Unmodelled.
Arguments Ret {A} a.
Arguments OutOfFuel {A}.
Arguments Unmodelled {A}.

Definition run_bind {A B} (m : run A) (k : A -> run B) : run B :=
  match m with
  | Ret a => k a
  | OutOfFuel => OutOfFuel
  | Unmodelled => Unmodelled
  end.

(* ================================================================= *)
(** ** Package [net]: addresses, masks, networks *)

Definition IP := list byte.
Definition IPMask := list byte.
Record IPNet := mkIPNet { IPNet_IP : IP; IPNet_Mask : IPMask }.

Definition IPv4len : nat := 4.
Definition IPv6len : nat := 16.
Definition v4InV6Prefix : list byte := [0; 0; 0; 0; 0; 0; 0; 0; 0; 0; 255; 255].

Definition is_nil (s : list Z) : bool :=
  match s with [] => true | _ => false end.

Fixpoint bytes_eqb (a b : list Z) : bool :=
  match a, b with
  | [], [] => true
  | x :: a', y :: b' => (x =? y) && bytes_eqb a' b'
  | _, _ => false
  end.

Definition isZeros (p : list Z) : bool := forallb (fun b => b =? 0) p.
Definition allFF (p : list Z) : bool := forallb (fun b => b =? 255) p.

(** [ip.To4()] *)
Definition IP_To4 (ip : IP) : IP :=
  if (length ip =? IPv4len)%nat then ip
  else if (length ip =? IPv6len)%nat && isZeros (firstn 10 ip)
          && (idx ip 10 =? 255) && (idx ip 11 =? 255)
       then skipn 12 ip
       else [].

(** [net.CIDRMask(ones, bits)]; the loop over the mask bytes. *)
Fixpoint CIDRMask_loop (l : nat) (n : Z) : IPMask :=
  match l with
  | O => []
  | S l' =>
      if 8 <=? n then 255 :: CIDRMask_loop l' (n - 8)
      else Z.lxor 255 (Z.shiftr 255 n) :: CIDRMask_loop l' 0
  end.

Definition net_CIDRMask (ones bits : Z) : IPMask :=
  if negb (bits =? 32) && negb (bits =? 128) then []
  else if (ones <? 0) || (bits <? ones) then []
  else CIDRMask_loop (Z.to_nat (bits / 8)) ones.

(** [ip.Mask(mask)] *)
Definition IP_Mask (ip : IP) (mask : IPMask) : IP :=
  let mask :=
    if (length mask =? IPv6len)%nat && (length ip =? IPv4len)%nat
       && allFF (firstn 12 mask)
    then skipn 12 mask else mask in
  let ip :=
    if (length mask =? IPv4len)%nat && (length ip =? IPv6len)%nat
       && bytes_eqb (firstn 12 ip) v4InV6Prefix
    then skipn 12 ip else ip in
  if negb (length ip =? length mask)%nat then []
  else map (fun p => Z.land (fst p) (snd p)) (combine ip mask).

(** [simpleMaskLength(mask)]: the number of leading one bits, or -1 when the
    mask is not of the form 1...10...0. *)
Fixpoint leading_ones (k : nat) (v : Z) (n : Z) : Z * Z :=
  match k with
  | O => (v, n)
  | S k' => if negb (Z.land v 128 =? 0) then leading_ones k' (u8 (Z.shiftl v 1)) (n + 1)
            else (v, n)
  end.

Fixpoint simpleMaskLength_from (mask : IPMask) (n : Z) : Z :=
  match mask with
  | [] => n
  | v :: rest =>
      if v =? 255 then simpleMaskLength_from rest (n + 8)
      else
        let '(v', n') := leading_ones 8 v n in
        if negb (v' =? 0) then -1
        else if isZeros rest then n' else -1
  end.

Definition simpleMaskLength (mask : IPMask) : Z := simpleMaskLength_from mask 0.

(** [mask.Size()] *)
Definition IPMask_Size (m : IPMask) : Z * Z :=
  let ones := simpleMaskLength m in
  if ones =? -1 then (0, 0) else (ones, Z.of_nat (length m) * 8).

(** [networkNumberAndMask(n)] *)
Definition networkNumberAndMask (n : IPNet) : IP * IPMask :=
  let ip4 := IP_To4 (IPNet_IP n) in
  let ip := if is_nil ip4 then IPNet_IP n else ip4 in
  if is_nil ip4 && negb (length ip =? IPv6len)%nat then ([], [])
  else if (length (IPNet_Mask n) =? IPv4len)%nat then
         if negb (length ip =? IPv4len)%nat then ([], []) else (ip, IPNet_Mask n)
  else if (length (IPNet_Mask n) =? IPv6len)%nat then
         if (length ip =? IPv4len)%nat then (ip, skipn 12 (IPNet_Mask n))
         else (ip, IPNet_Mask n)
  else ([], []).

(** [n.Contains(ip)] *)
Fixpoint masked_eqb (nn : IP) (m : IPMask) (ip : IP) : bool :=
  match nn, ip with
  | a :: nn', b :: ip' =>
      let mi := match m with [] => 0 | x :: _ => x end in
      if negb (Z.land a mi =? Z.land b mi) then false
      else masked_eqb nn' (tl m) ip'
  | _, _ => true
  end.

Definition IPNet_Contains (n : IPNet) (ip : IP) : bool :=
  let '(nn, m) := networkNumberAndMask n in
  let x := IP_To4 ip in
  let ip := if is_nil x then ip else x in
  if negb (length ip =? length nn)%nat then false
  else masked_eqb nn m ip.

(* ================================================================= *)
(** ** Decimal text *)

Definition digit_char (d : Z) : ascii := ascii_of_nat (48 + Z.to_nat d).

(** [appendDecimal] of package [netip]: one octet in decimal. *)
Definition appendDecimal (x : byte) : string :=
  let s := String (digit_char (x mod 10)) "" in
  let s := if 10 <=? x then String (digit_char (x / 10 mod 10)) s else s in
  if 100 <=? x then String (digit_char (x / 100)) s else s.

(** [itoa.Uitoa]: the buffer holds 20 digits. *)
Fixpoint Uitoa_loop (room : nat) (val : Z) (buf : string) : string :=
  match room with
  | O => buf
  | S room' =>
      if 10 <=? val
      then Uitoa_loop room' (val / 10) (String (digit_char (val - val / 10 * 10)) buf)
      else String (digit_char val) buf
  end.

Definition Uitoa (val : Z) : string :=
  if val =? 0 then "0" else Uitoa_loop 20 val "".

(** [ip.String()]: dotted decimal for a four-byte address.  The textual
    form of a sixteen-byte address that is not IPv4-mapped is not embedded. *)
Definition IP_String (ip : IP) : string :=
  match ip with
  | [] => "<nil>"
  | _ =>
      match IP_To4 ip with
      | [a; b; c; d] =>
          (appendDecimal a ++ "." ++ appendDecimal b ++ "." ++
           appendDecimal c ++ "." ++ appendDecimal d)%string
      | _ => "?"
      end
  end.

(** [n.String()] for a network whose mask is a prefix mask. *)
Definition IPNet_String (n : IPNet) : string :=
  let '(nn, m) := networkNumberAndMask n in
  if is_nil nn || is_nil m then "<nil>"
  else
    let l := simpleMaskLength m in
    if l =? -1 then (IP_String nn ++ "/" ++ "?")%string
    else (IP_String nn ++ "/" ++ Uitoa l)%string.

(* ================================================================= *)
(** ** Parsing: [netip.ParseAddr], [dtoi], [net.ParseCIDR] *)

Definition is_digit (c : ascii) : bool :=
  let n := nat_of_ascii c in (48 <=? n)%nat && (n <=? 57)%nat.

Definition digit_val (c : ascii) : Z := Z.of_nat (nat_of_ascii c) - 48.

Definition chr_dot : ascii := "."%char.
Definition chr_colon : ascii := ":"%char.
Definition chr_percent : ascii := "%"%char.
Definition chr_slash : ascii := "/"%char.

(** The state of the loop of [parseIPv4Fields]: the value and digit count of
    the current field, the index of the field, the fields stored so far. *)
Record v4state := mkV4 { v4_val : Z; v4_pos : nat; v4_digLen : nat; v4_fields : list Z }.

(** One character [c] at index [i] of [s]; [prev] is [s[i-1]], [last] tells
    whether [i = len(s)-1].  [None] is a [parseAddrError]. *)
Definition parseIPv4_char (st : v4state) (first last : bool) (prev c : ascii)
  : option v4state :=
  if is_digit c then
    if (v4_digLen st =? 1)%nat && (v4_val st =? 0) then None
    else
      let val := v4_val st * 10 + digit_val c in
      if 255 <? val then None
      else Some (mkV4 val (v4_pos st) (S (v4_digLen st)) (v4_fields st))
  else if Ascii.eqb c chr_dot then
    if first || last || Ascii.eqb prev chr_dot then None
    else if (v4_pos st =? 3)%nat then None
    else Some (mkV4 0 (S (v4_pos st)) 0 (v4_fields st ++ [u8 (v4_val st)]))
  else None.

Definition no_more (s : list ascii) : bool :=
  match s with [] => true | _ :: _ => false end.

Fixpoint parseIPv4_loop (st : v4state) (first : bool) (prev : ascii) (s : list ascii)
  : option v4state :=
  match s with
  | [] => Some st
  | c :: rest =>
      match parseIPv4_char st first (no_more rest) prev c with
      | None => None
      | Some st' => parseIPv4_loop st' false c rest
      end
  end.

(** [parseIPv4]: the four fields of a dotted-decimal address. *)
Definition parseIPv4 (s : list ascii) : option (list Z) :=
  match parseIPv4_loop (mkV4 0 0 0 []) true zero s with
  | None => None
  | Some st =>
      if (v4_pos st <? 3)%nat then None
      else Some (v4_fields st ++ [u8 (v4_val st)])
  end.

(** [netip.ParseAddr]: the first of '.', ':' and '%' selects the parser. *)
Inductive addr_parse : Type :=
| AddrError
| AddrV4 (fields : list Z)
| AddrV6Text.

Fixpoint ParseAddr_scan (whole rest : list ascii) : addr_parse :=
  match rest with
  | [] => AddrError
  | c :: rest' =>
      if Ascii.eqb c chr_dot then
        match parseIPv4 whole with Some f => AddrV4 f | None => AddrError end
      else if Ascii.eqb c chr_colon then AddrV6Text
      else if Ascii.eqb c chr_percent then AddrError
      else ParseAddr_scan whole rest'
  end.

Definition ParseAddr (s : list ascii) : addr_parse := ParseAddr_scan s s.

(** [dtoi]: a decimal prefix of [s]; the result is (n, i, ok). *)
Definition big : Z := 16777215.

Fixpoint dtoi_loop (s : list ascii) (n : Z) (i : nat) : Z * nat * bool :=
  match s with
  | c :: rest =>
      if is_digit c then
        let n' := n * 10 + digit_val c in
        if big <=? n' then (big, i, false) else dtoi_loop rest n' (S i)
      else if (i =? 0)%nat then (0, 0%nat, false) else (n, i, true)
  | [] => if (i =? 0)%nat then (0, 0%nat, false) else (n, i, true)
  end.

Definition dtoi (s : list ascii) : Z * nat * bool := dtoi_loop s 0 0%nat.

(** [s[:i]] and [s[i+1:]] at the first '/'. *)
Fixpoint cut_slash (s : list ascii) : option (list ascii * list ascii) :=
  match s with
  | [] => None
  | c :: rest =>
      if Ascii.eqb c chr_slash then Some ([], rest)
      else match cut_slash rest with
           | Some (a, m) => Some (c :: a, m)
           | None => None
           end
  end.

(** [net.ParseCIDR], as in the Go releases that the README asks for (a
    field with a leading zero is an error).  An IPv4 address comes back in
    its sixteen-byte form, the network with a four-byte address and a
    four-byte mask. *)
Inductive cidr_parse : Type :=
| CIDRError
| CIDROk (ip : IP) (ipNet : IPNet)
| CIDRv6Text.

Definition net_ParseCIDR (s : string) : cidr_parse :=
  match cut_slash (list_ascii_of_string s) with
  | None => CIDRError
  | Some (addr, mask) =>
      match ParseAddr addr with
      | AddrError => CIDRError
      | AddrV6Text => CIDRv6Text
      | AddrV4 f =>
          let '(n, i, ok) := dtoi mask in
          if negb ok || negb (i =? length mask)%nat || (n <? 0) || (32 <? n)
          then CIDRError
          else
            let m := net_CIDRMask n 32 in
            let addr16 := v4InV6Prefix ++ f in
            CIDROk addr16 (mkIPNet (IP_Mask addr16 m) m)
      end
  end.

(* ================================================================= *)
(** ** The range expander of [main.go] *)

Inductive error : Type :=
| ErrInvalidCIDR        (* "invalid CIDR format: ..." *)
| ErrIPv6NotSupported   (* "IPv6 not supported, please use IPv4 CIDR" *)
| ErrNetworkTooSmall.   (* "network too small for scanning" *)

Inductive result (A : Type) : Type :=
| Ok (a : A)
| Err (e : error).
Arguments Ok {A} a.
Arguments Err {A} e.

(** [inc(ip)]: the loop over [j = len(ip)-1 .. 0]; [inc_from j ip] runs it
    from index [j-1] downwards. *)
Fixpoint inc_from (j : nat) (ip : IP) : IP :=
  match j with
  | O => ip
  | S j' =>
      let ip' := upd ip j' (u8 (idx ip j' + 1)) in
      if 0 <? idx ip' j' then ip' else inc_from j' ip'
  end.

Definition inc (ip : IP) : IP := inc_from (length ip) ip.

(** The [for] loop of [parseCIDR]. *)
Fixpoint parseCIDR_loop (fuel : nat) (ipNet : IPNet) (ip : IP) (ips : list string)
  : run (list string) :=
  match fuel with
  | O => OutOfFuel
  | S fuel' =>
      if IPNet_Contains ipNet ip
      then parseCIDR_loop fuel' ipNet (inc ip) (ips ++ [IP_String ip])
      else Ret ips
  end.

(** [ips[1 : len(ips)-1]] *)
Definition drop_ends {A} (l : list A) : list A := removelast (tl l).

Definition parseCIDR (fuel : nat) (cidr : string) : run (result (list string)) :=
  match net_ParseCIDR cidr with
  | CIDRError => Ret (Err ErrInvalidCIDR)
  | CIDRv6Text => Unmodelled
  | CIDROk ip ipNet =>
      if is_nil (IP_To4 ip) then Ret (Err ErrIPv6NotSupported)
      else
        run_bind (parseCIDR_loop fuel ipNet (IP_Mask ip (IPNet_Mask ipNet)) [])
          (fun ips =>
             if (length ips <? 2)%nat then Ret (Err ErrNetworkTooSmall)
             else Ret (Ok (drop_ends ips)))
  end.

(** The [for] loop of [splitIntoSubnets]. *)
Definition ip_to_uint32 (current : IP) : Z :=
  Z.lor (Z.lor (Z.lor (u32 (Z.shiftl (idx current 0) 24))
                      (u32 (Z.shiftl (idx current 1) 16)))
               (u32 (Z.shiftl (idx current 2) 8)))
        (idx current 3).

Definition store_uint32 (current : IP) (ipInt : Z) : IP :=
  let current := upd current 0 (u8 (Z.shiftr ipInt 24)) in
  let current := upd current 1 (u8 (Z.shiftr ipInt 16)) in
  let current := upd current 2 (u8 (Z.shiftr ipInt 8)) in
  upd current 3 (u8 ipInt).

Definition step : Z := Z.shiftl 1 (32 - 24).

Fixpoint splitIntoSubnets_loop (fuel : nat) (ipNet : IPNet) (current : IP)
  (subnets : list string) : run (list string) :=
  match fuel with
  | O => OutOfFuel
  | S fuel' =>
      let subnet := mkIPNet current (net_CIDRMask 24 32) in
      let subnets := subnets ++ [IPNet_String subnet] in
      let ipInt := u32 (ip_to_uint32 current + u32 step) in
      let current := store_uint32 current ipInt in
      if negb (IPNet_Contains ipNet current) then Ret subnets
      else splitIntoSubnets_loop fuel' ipNet current subnets
  end.

Definition splitIntoSubnets (fuel : nat) (cidr : string) : run (list string) :=
  match net_ParseCIDR cidr with
  | CIDRError => Ret []
  | CIDRv6Text => Unmodelled
  | CIDROk ip ipNet =>
      let '(ones, bits) := IPMask_Size (IPNet_Mask ipNet) in
      if (24 <=? ones) || negb (bits =? 32) then Ret [cidr]
      else
        let start := IP_To4 (IP_Mask ip (IPNet_Mask ipNet)) in
        if is_nil start then Ret [cidr]
        else splitIntoSubnets_loop fuel ipNet start []
  end.

(* ================================================================= *)
(** ** The probe: [pingIP] over the go-ping library *)

Record PingResult := mkPingResult { PingResult_IP : string; Alive : bool }.

Record Statistics := mkStatistics { PacketsRecv : Z }.

Record Pinger := mkPinger {
  pinger_addr : string;
  pinger_privileged : bool;
  pinger_Count : Z;
  pinger_Timeout : Z;       (* a time.Duration, in nanoseconds *)
  pinger_network : string
}.

(** What the library and the network do: [ping.NewPinger] resolves the target
    or returns an error ([None]); [pinger.Run], when it returns, returns an
    error ([None]) or ends with the statistics that [pinger.Statistics]
    reports.  A run that does not return, because the time limit of the
    pinger is not positive, is the matter of [pinger_Run] below. *)
Record PingLib := mkPingLib {
  ping_NewPinger : string -> option Pinger;
  ping_Run : Pinger -> option Statistics
}.

Definition wrap64 (z : Z) : Z := (z + 2 ^ 63) mod 2 ^ 64 - 2 ^ 63.

Definition Millisecond : Z := 1000000.

Definition configure (p : Pinger) (timeoutMs : Z) : Pinger :=
  mkPinger (pinger_addr p) true 1 (wrap64 (timeoutMs * Millisecond)) "ip4".

Definition pingIP (lib : PingLib) (ip : string) (timeoutMs : Z) : PingResult :=
  match ping_NewPinger lib ip with
  | None => mkPingResult ip false
  | Some pinger =>
      match ping_Run lib (configure pinger timeoutMs) with
      | None => mkPingResult ip false
      | Some stats => mkPingResult ip (0 <? PacketsRecv stats)
      end
  end.

(** *** A time limit that is not positive

    [pinger.Run] of go-ping opens its socket and then starts its loop with
    [time.NewTicker(p.Timeout)], and [time.NewTicker] panics when the duration
    is not positive ("non-positive interval for NewTicker").  The panic rises
    in a goroutine of the library, nothing recovers it, and the process ends:
    a run of such a pinger returns only when it fails before its loop.  For
    such a pinger [ping_Run lib p = None] is that failure, and
    [ping_Run lib p = Some _] says that the run gets to its loop. *)
Inductive Run_end : Type :=
| RunError                              (* [err != nil] *)
| RunStatistics (stats : Statistics)    (* [err == nil], then [pinger.Statistics()] *)
| RunPanic.                             (* the process ends *)

Definition pinger_Run (lib : PingLib) (p : Pinger) : Run_end :=
  match ping_Run lib p with
  | None => RunError
  | Some stats => if pinger_Timeout p <=? 0 then RunPanic else RunStatistics stats
  end.

(** A call of [pingIP]: it returns an outcome, or the process ends in it.
    [pingIP] above is the outcome of a call that returns; the transition
    system of the dispatcher takes its probe steps from it. *)
Inductive call_end : Type :=
| Returns (r : PingResult)
| Panics.

Definition pingIP_call (lib : PingLib) (ip : string) (timeoutMs : Z) : call_end :=
  match ping_NewPinger lib ip with
  | None => Returns (mkPingResult ip false)
  | Some pinger =>
      match pinger_Run lib (configure pinger timeoutMs) with
      | RunError => Returns (mkPingResult ip false)
      | RunStatistics stats => Returns (mkPingResult ip (0 <? PacketsRecv stats))
      | RunPanic => Panics
      end
  end.

(* ================================================================= *)
(** ** The dispatcher: [pingAllWithConcurrency] as a transition system

    One goroutine per address, the goroutine that waits on the wait group and
    closes [results], the collecting loop of the caller, and the receiving end
    of [progress] ([showProgress], started by [processCIDR]).  A step is one
    channel operation, one wait-group operation or one probe. *)

Inductive task_pc : Type :=
| TAcquire                    (* semaphore <- struct{}{} *)
| TPing                       (* result := pingIP(ip, timeoutMs): the probe runs *)
| TSend (r : PingResult)      (* results <- result *)
| TRelease (r : PingResult)   (* <-semaphore *)
| TProgress (r : PingResult)  (* progress <- 1 *)
| TDone (r : PingResult)      (* the deferred wg.Done() *)
| TExit (r : PingResult).

Record task := mkTask { t_ip : string; t_pc : task_pc }.

Inductive main_pc : Type :=
| MSpawn (k : nat)   (* the range loop at index k: wg.Add(1); go func(ip) *)
| MCollect           (* for res := range results *)
| MReturned.         (* return pingResults *)

Inductive waiter_pc : Type :=
| WNotStarted
| WWait              (* wg.Wait() *)
| WClose             (* close(results) *)
| WExit.

Record state := mkState {
  st_main : main_pc;
  st_tasks : list task;
  st_waiter : waiter_pc;
  st_wg : nat;                       (* the counter of the wait group *)
  st_sem : nat;                      (* len(semaphore) *)
  st_results : list PingResult;      (* the buffer of results *)
  st_closed : bool;                  (* results is closed *)
  st_progress : nat;                 (* len(progress) *)
  st_pingResults : list PingResult
}.

(** The arguments of [pingAllWithConcurrency].  [make(chan struct{},
    maxThreads)] panics on a negative size; [main] replaces a thread count
    that is not positive by the default, so that the dispatcher is entered
    with a ceiling of at least 1. *)
Record config := mkConfig {
  cfg_ips : list string;
  cfg_timeoutMs : Z;
  cfg_maxThreads : Z
}.

Definition defaultConcurrency : Z := 100.
Definition defaultTimeout : Z := 800.

(** The validation of the flags [-t] and [-n] in [main]. *)
Definition checked_timeout (timeout : Z) : Z :=
  if timeout <=? 0 then defaultTimeout else timeout.

Definition checked_threads (threads : Z) : Z :=
  if threads <=? 0 then defaultConcurrency else threads.

(** [cap(results)], and [cap(progress)] as [processCIDR] makes it. *)
Definition results_cap (c : config) : nat := length (cfg_ips c).
Definition progress_cap (c : config) : nat := length (cfg_ips c).

Definition init : state :=
  mkState (MSpawn 0) [] WNotStarted 0 0 [] false 0 [].

Inductive event : Type :=
| ESpawn (i : nat)
| ESpawnWaiter
| EAcquire (i : nat)
| EProbe (i : nat) (r : PingResult)
| ESendResult (i : nat)
| ERelease (i : nat)
| EProgress (i : nat)
| EDone (i : nat)
| EWaitDone
| EClose
| ECollect (r : PingResult)
| EReturn
| EMonitor.

Fixpoint set_task (ts : list task) (i : nat) (t : task) : list task :=
  match ts, i with
  | [], _ => []
  | _ :: r, O => t :: r
  | x :: r, S j => x :: set_task r j t
  end.

Definition with_task (s : state) (i : nat) (ip : string) (pc : task_pc) : state :=
  mkState (st_main s) (set_task (st_tasks s) i (mkTask ip pc)) (st_waiter s)
          (st_wg s) (st_sem s) (st_results s) (st_closed s) (st_progress s)
          (st_pingResults s).

Inductive step_rel (c : config) : state -> event -> state -> Prop :=
| step_spawn : forall s k ip,
    st_main s = MSpawn k ->
    nth_error (cfg_ips c) k = Some ip ->
    step_rel c s (ESpawn k)
      (mkState (MSpawn (S k)) (st_tasks s ++ [mkTask ip TAcquire]) (st_waiter s)
               (S (st_wg s)) (st_sem s) (st_results s) (st_closed s)
               (st_progress s) (st_pingResults s))
| step_spawn_waiter : forall s k,
    st_main s = MSpawn k ->
    nth_error (cfg_ips c) k = None ->
    step_rel c s ESpawnWaiter
      (mkState MCollect (st_tasks s) WWait (st_wg s) (st_sem s) (st_results s)
               (st_closed s) (st_progress s) (st_pingResults s))
| step_acquire : forall s i ip,
    nth_error (st_tasks s) i = Some (mkTask ip TAcquire) ->
    Z.of_nat (st_sem s) < cfg_maxThreads c ->
    step_rel c s (EAcquire i)
      (mkState (st_main s) (set_task (st_tasks s) i (mkTask ip TPing)) (st_waiter s)
               (st_wg s) (S (st_sem s)) (st_results s) (st_closed s)
               (st_progress s) (st_pingResults s))
| step_probe : forall s i ip lib,
    nth_error (st_tasks s) i = Some (mkTask ip TPing) ->
    step_rel c s (EProbe i (pingIP lib ip (cfg_timeoutMs c)))
      (with_task s i ip (TSend (pingIP lib ip (cfg_timeoutMs c))))
| step_send : forall s i ip r,
    nth_error (st_tasks s) i = Some (mkTask ip (TSend r)) ->
    st_closed s = false ->
    (length (st_results s) < results_cap c)%nat ->
    step_rel c s (ESendResult i)
      (mkState (st_main s) (set_task (st_tasks s) i (mkTask ip (TRelease r)))
               (st_waiter s) (st_wg s) (st_sem s) (st_results s ++ [r])
               (st_closed s) (st_progress s) (st_pingResults s))
| step_release : forall s i ip r n,
    nth_error (st_tasks s) i = Some (mkTask ip (TRelease r)) ->
    st_sem s = S n ->
    step_rel c s (ERelease i)
      (mkState (st_main s) (set_task (st_tasks s) i (mkTask ip (TProgress r)))
               (st_waiter s) (st_wg s) n (st_results s) (st_closed s)
               (st_progress s) (st_pingResults s))
| step_progress : forall s i ip r,
    nth_error (st_tasks s) i = Some (mkTask ip (TProgress r)) ->
    (st_progress s < progress_cap c)%nat ->
    step_rel c s (EProgress i)
      (mkState (st_main s) (set_task (st_tasks s) i (mkTask ip (TDone r)))
               (st_waiter s) (st_wg s) (st_sem s) (st_results s) (st_closed s)
               (S (st_progress s)) (st_pingResults s))
| step_done : forall s i ip r n,
    nth_error (st_tasks s) i = Some (mkTask ip (TDone r)) ->
    st_wg s = S n ->
    step_rel c s (EDone i)
      (mkState (st_main s) (set_task (st_tasks s) i (mkTask ip (TExit r)))
               (st_waiter s) n (st_sem s) (st_results s) (st_closed s)
               (st_progress s) (st_pingResults s))
| step_wait_done : forall s,
    st_waiter s = WWait ->
    st_wg s = O ->
    step_rel c s EWaitDone
      (mkState (st_main s) (st_tasks s) WClose (st_wg s) (st_sem s) (st_results s)
               (st_closed s) (st_progress s) (st_pingResults s))
| step_close : forall s,
    st_waiter s = WClose ->
    st_closed s = false ->
    step_rel c s EClose
      (mkState (st_main s) (st_tasks s) WExit (st_wg s) (st_sem s) (st_results s)
               true (st_progress s) (st_pingResults s))
| step_collect : forall s r rest,
    st_main s = MCollect ->
    st_results s = r :: rest ->
    step_rel c s (ECollect r)
      (mkState MCollect (st_tasks s) (st_waiter s) (st_wg s) (st_sem s) rest
               (st_closed s) (st_progress s) (st_pingResults s ++ [r]))
| step_return : forall s,
    st_main s = MCollect ->
    st_results s = [] ->
    st_closed s = true ->
    step_rel c s EReturn
      (mkState MReturned (st_tasks s) (st_waiter s) (st_wg s) (st_sem s) []
               (st_closed s) (st_progress s) (st_pingResults s))
| step_monitor : forall s n,
    st_progress s = S n ->
    step_rel c s EMonitor
      (mkState (st_main s) (st_tasks s) (st_waiter s) (st_wg s) (st_sem s)
               (st_results s) (st_closed s) n (st_pingResults s)).

(** An execution from the call of [pingAllWithConcurrency], with the events
    in the order in which they happened. *)
Inductive exec (c : config) : list event -> state -> Prop :=
| exec_init : exec c [] init
| exec_step : forall tr s e s',
    exec c tr s -> step_rel c s e s' -> exec c (tr ++ [e]) s'.

(** The probes that are running: goroutines inside [pingIP]. *)
Definition probing (t : task) : bool :=
  match t_pc t with TPing => true | _ => false end.

(** The goroutines that hold an admission slot. *)
Definition holds_slot (t : task) : bool :=
  match t_pc t with TPing | TSend _ | TRelease _ => true | _ => false end.

Definition count (p : task -> bool) (ts : list task) : nat :=
  length (filter p ts).

Definition in_flight (s : state) : nat := count probing (st_tasks s).

Definition is_release (i : nat) (e : event) : bool :=
  match e with ERelease j => (i =? j)%nat | _ => false end.
Definition is_progress (i : nat) (e : event) : bool :=
  match e with EProgress j => (i =? j)%nat | _ => false end.
Definition is_probe (i : nat) (e : event) : bool :=
  match e with EProbe j _ => (i =? j)%nat | _ => false end.

Definition occurrences (p : event -> bool) (tr : list event) : nat :=
  length (filter p tr).

(** Some [b] event comes later in the trace than some [a] event. *)
Fixpoint occurs_before (a b : event -> bool) (tr : list event) : bool :=
  match tr with
  | [] => false
  | e :: rest => if a e then existsb b rest else occurs_before a b rest
  end.

(* ================================================================= *)
(** ** The progress monitor: [showProgress]

    The [select] loop consumes what the scheduler delivers: a value from
    [progress], the closing of [progress], or [done].  Each delivery carries
    the reading of the clock, as [time.Since(startTime)] in nanoseconds.
    A [float64] is an exact rational or a non-finite value (an infinity or
    NaN, which is what a division by zero gives); rounding is left out. *)

Inductive mon_event : Type :=
| ProgressValue (elapsed : Z)
| ProgressClosed
| DoneClosed (elapsed : Z).

Inductive float64 : Type :=
| Finite (q : Q)
| NonFinite.

Definition float64_of_int (z : Z) : float64 := Finite (inject_Z z).

Definition fdiv (x y : float64) : float64 :=
  match x, y with
  | Finite a, Finite b => if Qeq_bool b 0 then NonFinite else Finite (a / b)
  | _, _ => NonFinite
  end.

Definition fmul (x y : float64) : float64 :=
  match x, y with
  | Finite a, Finite b => Finite (a * b)
  | _, _ => NonFinite
  end.

Inductive status_line : Type :=
| Running (percent : float64) (count total elapsed : Z) (remaining : float64)
| Completed (total elapsed : Z).

Fixpoint showProgress_loop (total count : Z) (evs : list mon_event) : list status_line :=
  match evs with
  | [] => []
  | ProgressClosed :: _ => []
  | ProgressValue elapsed :: rest =>
      let count := wrap64 (count + 1) in
      let percent :=
        fmul (fdiv (float64_of_int count) (float64_of_int total)) (Finite 100) in
      let remaining :=
        fmul (fdiv (float64_of_int elapsed) (float64_of_int count))
             (float64_of_int (wrap64 (total - count))) in
      Running percent count total elapsed remaining
        :: showProgress_loop total count rest
  | DoneClosed elapsed :: _ => [Completed total elapsed]
  end.

Definition showProgress (total : Z) (evs : list mon_event) : list status_line :=
  showProgress_loop total 0 evs.

(* ================================================================= *)
(** ** The result reporter *)

(** [strings.Split(s, ".")] *)
Fixpoint strings_Split_dot (s : string) : list string :=
  match s with
  | EmptyString => [EmptyString]
  | String c rest =>
      if Ascii.eqb c chr_dot then EmptyString :: strings_Split_dot rest
      else match strings_Split_dot rest with
           | p :: ps => String c p :: ps
           | [] => [String c EmptyString]
           end
  end.

Definition getLastOctet (ip : string) : string :=
  let parts := strings_Split_dot ip in
  if (length parts =? 0)%nat then ip else last parts EmptyString.

(** [strconv.Atoi]: the value and whether the error is nil.  A syntax error
    gives 0, a value out of the range of [int] gives the nearest bound. *)
Definition chr_minus : ascii := "-"%char.
Definition chr_plus : ascii := "+"%char.

Definition strconv_Atoi (s : string) : Z * bool :=
  let cs := list_ascii_of_string s in
  let '(neg, ds) :=
    match cs with
    | c :: r => if Ascii.eqb c chr_minus then (true, r)
                else if Ascii.eqb c chr_plus then (false, r)
                else (false, cs)
    | [] => (false, cs)
    end in
  if no_more ds || negb (forallb is_digit ds) then (0, false)
  else
    let v := fold_left (fun n c => n * 10 + digit_val c) ds 0 in
    if neg then (if 2 ^ 63 <? v then (- 2 ^ 63, false) else (- v, true))
    else (if 2 ^ 63 <=? v then (2 ^ 63 - 1, false) else (v, true)).

(** The key of the comparison: [numI, _ := strconv.Atoi(getLastOctet(ip))]. *)
Definition lastOctetNum (r : PingResult) : Z :=
  fst (strconv_Atoi (getLastOctet (PingResult_IP r))).

(** The [less] function that [printResults] and [saveSortedResultsToLog]
    give to [sort.Slice]. *)
Definition lessLastOctet (a b : PingResult) : bool :=
  lastOctetNum a <? lastOctetNum b.

(** [sort.Slice] is Go's library.  What its documentation promises is that
    the slice is rearranged into an order in which no element is less than an
    earlier one; it does not promise to keep equal elements in place.  A
    sorter is a function that does this, or runs out of fuel or into a branch
    that is not embedded. *)
Definition sorter : Type :=
  forall A : Type, (A -> A -> bool) -> list A -> run (list A).

Definition ordering {A} (less : A -> A -> bool) : Prop :=
  (forall a, less a a = false) /\
  (forall a b c, less a b = true -> less b c = true -> less a c = true) /\
  (forall a b c, less a b = false -> less b c = false -> less a c = false).

Definition sort_Slice_contract (sort_Slice : sorter) : Prop :=
  forall A (less : A -> A -> bool) l,
    ordering less ->
    exists l',
      sort_Slice A less l = Ret l' /\
      Permutation l' l /\
      StronglySorted (fun a b => less b a = false) l'.

(** Two sorters that keep the contract: insertion after the equal elements,
    which keeps them in the order of the input, and insertion before them. *)
Fixpoint insert_after {A} (less : A -> A -> bool) (x : A) (l : list A) : list A :=
  match l with
  | [] => [x]
  | y :: t => if less x y then x :: y :: t else y :: insert_after less x t
  end.

Definition insertion_order {A} (less : A -> A -> bool) (l : list A) : list A :=
  fold_left (fun acc x => insert_after less x acc) l [].

Definition insertion_sort : sorter := fun A less l => Ret (insertion_order less l).

Fixpoint insert_before {A} (less : A -> A -> bool) (x : A) (l : list A) : list A :=
  match l with
  | [] => [x]
  | y :: t => if less y x then y :: insert_before less x t else x :: y :: t
  end.

Definition reversing_sort : sorter :=
  fun A less l => Ret (fold_left (fun acc x => insert_before less x acc) l []).

(** *** The algorithm of [sort.Slice]

    [sort.Slice] runs [pdqsort_func] of package [sort] (Go 1.19 and later,
    which the README asks for).  The branches that a slice of fewer than 50
    elements with a balanced first partition takes are embedded:
    [insertionSort_func], [choosePivot_func] with [median_func],
    [partialInsertionSort_func], [partitionEqual_func], [partition_func].
    The heap sort fallback, [breakPatterns_func], the ninther and the
    reversal of a decreasing run are [Unmodelled].  An index out of range,
    which would panic, does not occur. *)
Section PdqSort.
Context {A : Type} (less : A -> A -> bool).

Definition Less (data : list A) (i j : nat) : bool :=
  match nth_error data i, nth_error data j with
  | Some x, Some y => less x y
  | _, _ => false
  end.

Fixpoint put (data : list A) (i : nat) (x : A) : list A :=
  match data, i with
  | [], _ => []
  | _ :: t, O => x :: t
  | y :: t, S k => y :: put t k x
  end.

Definition Swap (data : list A) (i j : nat) : list A :=
  match nth_error data i, nth_error data j with
  | Some x, Some y => put (put data i y) j x
  | _, _ => data
  end.

(** [for j := i; j > a && data.Less(j, j-1); j--] *)
Fixpoint insertionSort_inner (a j : nat) (data : list A) : list A :=
  match j with
  | O => data
  | S j' =>
      if (a <? S j')%nat && Less data (S j') j'
      then insertionSort_inner a j' (Swap data (S j') j')
      else data
  end.

(** [for i := a + 1; i < b; i++], with [n] iterations left. *)
Fixpoint insertionSort_outer (n a i : nat) (data : list A) : list A :=
  match n with
  | O => data
  | S n' => insertionSort_outer n' a (S i) (insertionSort_inner a i data)
  end.

Definition insertionSort_func (data : list A) (a b : nat) : list A :=
  insertionSort_outer (b - (a + 1)) a (a + 1) data.

Definition order2_func (data : list A) (a b swaps : nat) : nat * nat * nat :=
  if Less data b a then (b, a, S swaps) else (a, b, swaps).

Definition median_func (data : list A) (a b c swaps : nat) : nat * nat :=
  let '(a, b, swaps) := order2_func data a b swaps in
  let '(b, c, swaps) := order2_func data b c swaps in
  let '(a, b, swaps) := order2_func data a b swaps in
  (b, swaps).

Inductive sortedHint : Type := unknownHint | increasingHint | decreasingHint.

Definition shortestNinther : nat := 50.
Definition maxSwaps : nat := 4 * 3.

Definition choosePivot_func (data : list A) (a b : nat) : run (nat * sortedHint) :=
  let l := (b - a)%nat in
  let i := (a + l / 4 * 1)%nat in
  let j := (a + l / 4 * 2)%nat in
  let k := (a + l / 4 * 3)%nat in
  if (8 <=? l)%nat then
    if (shortestNinther <=? l)%nat then Unmodelled
    else
      let '(j, swaps) := median_func data i j k 0 in
      Ret (j, if (swaps =? 0)%nat then increasingHint
              else if (swaps =? maxSwaps)%nat then decreasingHint
              else unknownHint)
  else Ret (j, increasingHint).

(** [for i <= j && p(i) { i++ }] and [for i <= j && p(j) { j-- }], which
    end within [n] steps when [n] exceeds the length of the slice. *)
Fixpoint scan_up (n : nat) (p : nat -> bool) (i j : nat) : nat :=
  match n with
  | O => i
  | S n' => if (i <=? j)%nat && p i then scan_up n' p (S i) j else i
  end.

Fixpoint scan_down (n : nat) (p : nat -> bool) (i j : nat) : nat :=
  match n with
  | O => j
  | S n' => if (i <=? j)%nat && p j then scan_down n' p i (j - 1) else j
  end.

(** The [for] loop of [partition_func]; the result is the slice and [j]. *)
Fixpoint partition_loop (n : nat) (data : list A) (a i j : nat) : list A * nat :=
  match n with
  | O => (data, j)
  | S n' =>
      let i := scan_up (S (length data)) (fun i => Less data i a) i j in
      let j := scan_down (S (length data)) (fun j => negb (Less data j a)) i j in
      if (j <? i)%nat then (data, j)
      else partition_loop n' (Swap data i j) a (S i) (j - 1)
  end.

Definition partition_func (data : list A) (a b pivot : nat) : list A * nat * bool :=
  let data := Swap data a pivot in
  let i := (a + 1)%nat in
  let j := (b - 1)%nat in
  let i := scan_up (S (length data)) (fun i => Less data i a) i j in
  let j := scan_down (S (length data)) (fun j => negb (Less data j a)) i j in
  if (j <? i)%nat then (Swap data j a, j, true)
  else
    let data := Swap data i j in
    let '(data, j) := partition_loop (S (length data)) data a (S i) (j - 1) in
    (Swap data j a, j, false).

Fixpoint partitionEqual_loop (n : nat) (data : list A) (a i j : nat) : list A * nat :=
  match n with
  | O => (data, i)
  | S n' =>
      let i := scan_up (S (length data)) (fun i => negb (Less data a i)) i j in
      let j := scan_down (S (length data)) (fun j => Less data a j) i j in
      if (j <? i)%nat then (data, i)
      else partitionEqual_loop n' (Swap data i j) a (S i) (j - 1)
  end.

Definition partitionEqual_func (data : list A) (a b pivot : nat) : list A * nat :=
  let data := Swap data a pivot in
  partitionEqual_loop (S (length data)) data a (a + 1) (b - 1).

(** [for i < b && !data.Less(i, i-1) { i++ }] *)
Fixpoint ascending_prefix (n : nat) (data : list A) (i b : nat) : nat :=
  match n with
  | O => i
  | S n' =>
      if (i <? b)%nat && negb (Less data i (i - 1))
      then ascending_prefix n' data (S i) b else i
  end.

Definition shortestShifting : nat := 50.

(** [partialInsertionSort_func]: on a slice below [shortestShifting] it
    only tells whether the slice is in order. *)
Definition partialInsertionSort_func (data : list A) (a b : nat) : run bool :=
  let i := ascending_prefix (S (length data)) data (a + 1) b in
  if (i =? b)%nat then Ret true
  else if (b - a <? shortestShifting)%nat then Ret false
  else Unmodelled.

Definition maxInsertion : nat := 12.

Fixpoint pdqsort_func (fuel : nat) (data : list A) (a b limit : nat)
  (wasBalanced wasPartitioned : bool) : run (list A) :=
  match fuel with
  | O => OutOfFuel
  | S fuel' =>
      let length := (b - a)%nat in
      if (length <=? maxInsertion)%nat then Ret (insertionSort_func data a b)
      else if (limit =? 0)%nat then Unmodelled
      else if negb wasBalanced then Unmodelled
      else
        run_bind (choosePivot_func data a b) (fun ph =>
          let '(pivot, hint) := ph in
          match hint with
          | decreasingHint => Unmodelled
          | _ =>
              run_bind
                (match hint with
                 | increasingHint =>
                     if wasBalanced && wasPartitioned
                     then partialInsertionSort_func data a b else Ret false
                 | _ => Ret false
                 end)
                (fun sorted =>
                   if sorted then Ret data
                   else if (0 <? a)%nat && negb (Less data (a - 1) pivot) then
                     let '(data, mid) := partitionEqual_func data a b pivot in
                     pdqsort_func fuel' data mid b limit wasBalanced wasPartitioned
                   else
                     let '(data, mid, alreadyPartitioned) :=
                       partition_func data a b pivot in
                     let leftLen := (mid - a)%nat in
                     let rightLen := (b - mid)%nat in
                     let balanceThreshold := (length / 8)%nat in
                     if (leftLen <? rightLen)%nat then
                       run_bind (pdqsort_func fuel' data a mid limit true true)
                         (fun data =>
                            pdqsort_func fuel' data (mid + 1) b limit
                              (balanceThreshold <=? leftLen)%nat alreadyPartitioned)
                     else
                       run_bind (pdqsort_func fuel' data (mid + 1) b limit true true)
                         (fun data =>
                            pdqsort_func fuel' data a mid limit
                              (balanceThreshold <=? rightLen)%nat alreadyPartitioned))
          end)
  end.
End PdqSort.

(** [bits.Len] *)
Definition bits_Len (n : nat) : nat :=
  match n with O => O | _ => S (Nat.log2 n) end.

Definition sort_Slice_go : sorter :=
  fun A less x =>
    pdqsort_func less (2 * length x + 1) x 0 (length x) (bits_Len (length x)) true true.

(** The order among equal keys is the order of the input. *)
Definition keeps_input_order (input output : list PingResult) : Prop :=
  forall k, filter (fun r => lastOctetNum r =? k) output
            = filter (fun r => lastOctetNum r =? k) input.

Definition columns : nat := 20.

(** The rows of the grid: [output[i:end]] for [i] in steps of [columns]. *)
Fixpoint rows_of {A} (n : nat) (l : list A) : list (list A) :=
  match n with
  | O => []
  | S n' =>
      match l with
      | [] => []
      | _ => firstn columns l :: rows_of n' (skipn columns l)
      end
  end.

Record console := mkConsole {
  con_grid : list (list (bool * string));   (* the colour and the last octet *)
  con_alive : Z;
  con_dead : Z;
  con_total : Z;
  con_timeout : Z
}.

Definition render (results : list PingResult) (timeoutMs : Z) : console :=
  let output := map (fun res => (Alive res, getLastOctet (PingResult_IP res))) results in
  let aliveCount := Z.of_nat (length (filter Alive results)) in
  mkConsole (rows_of (length output) output) aliveCount
            (Z.of_nat (length results) - aliveCount) (Z.of_nat (length results))
            timeoutMs.

(** [printResults] sorts the slice of the caller in place: the sorted slice
    comes back with what is printed. *)
Definition printResults (sort_Slice : sorter) (results : list PingResult) (timeoutMs : Z)
  : run (list PingResult * console) :=
  run_bind (sort_Slice PingResult lessLastOctet results)
           (fun results => Ret (results, render results timeoutMs)).

(** [saveSortedResultsToLog]: the rows of the table, address and status. *)
Definition table (results : list PingResult) : list (string * string) :=
  map (fun res => (PingResult_IP res, if Alive res then "UP" else "DOWN")) results.

Definition saveSortedResultsToLog (sort_Slice : sorter) (results : list PingResult)
  : run (list PingResult * list (string * string)) :=
  run_bind (sort_Slice PingResult lessLastOctet results)
           (fun results => Ret (results, table results)).

(** Thirteen outcomes, 10.0.0.1 before 10.0.1.1, and the order in which
    [pdqsort_func] leaves them. *)
Definition thirteen : list PingResult :=
  map (fun ip => mkPingResult ip false)
    ["10.0.0.0"; "10.0.0.9"; "10.0.0.1"; "10.0.0.2"; "10.0.1.2"; "10.0.2.2";
     "10.0.0.5"; "10.0.0.7"; "10.0.1.7"; "10.0.2.7"; "10.0.3.7"; "10.0.4.7";
     "10.0.1.1"].

Definition thirteen_sorted : list PingResult :=
  map (fun ip => mkPingResult ip false)
    ["10.0.0.0"; "10.0.1.1"; "10.0.0.1"; "10.0.0.2"; "10.0.1.2"; "10.0.2.2";
     "10.0.0.5"; "10.0.0.7"; "10.0.1.7"; "10.0.2.7"; "10.0.3.7"; "10.0.4.7";
     "10.0.0.9"].

(* ================================================================= *)
(** ** [processCIDR] and the loop of [main] *)

(** What [processCIDR] does with one chunk: it reports the error of
    [parseCIDR], or that there is nothing to scan, or it runs the dispatcher
    to its return and hands the outcomes to [printResults] and
    [saveSortedResultsToLog], whose output is a function of these outcomes. *)
Inductive chunk_report : Type :=
| ParseFailed (e : error)                (* "Error parsing CIDR ..." *)
| NoIPs                                  (* "Warning: No IPs to scan ..." *)
| Scanned (results : list PingResult).   (* the outcomes of the dispatcher *)

Inductive processCIDR (timeoutMs maxThreads : Z) (cidr : string)
  : chunk_report -> Prop :=
| process_error : forall fuel e,
    parseCIDR fuel cidr = Ret (Err e) ->
    processCIDR timeoutMs maxThreads cidr (ParseFailed e)
| process_empty : forall fuel,
    parseCIDR fuel cidr = Ret (Ok []) ->
    processCIDR timeoutMs maxThreads cidr NoIPs
| process_scan : forall fuel ips tr s,
    parseCIDR fuel cidr = Ret (Ok ips) ->
    ips <> [] ->
    exec (mkConfig ips timeoutMs maxThreads) tr s ->
    st_main s = MReturned ->
    processCIDR timeoutMs maxThreads cidr (Scanned (st_pingResults s)).

Definition outcomes_of (r : chunk_report) : list PingResult :=
  match r with Scanned results => results | _ => [] end.

(** The loop of [main] over [cidrList], the CIDRs that [splitCIDRs] kept:
    each is subdivided, and each chunk is processed in turn. *)
Inductive main_item : Type :=
| NoSubnets (cidr : string)              (* "Warning: No subnets found ..." *)
| Chunk (subnet : string) (r : chunk_report).

Inductive process_subnets (timeoutMs maxThreads : Z)
  : list string -> list main_item -> Prop :=
| subnets_nil : process_subnets timeoutMs maxThreads [] []
| subnets_cons : forall subnet rest r out,
    processCIDR timeoutMs maxThreads subnet r ->
    process_subnets timeoutMs maxThreads rest out ->
    process_subnets timeoutMs maxThreads (subnet :: rest) (Chunk subnet r :: out).

Inductive main_loop (timeoutMs maxThreads : Z)
  : list string -> list main_item -> Prop :=
| main_nil : main_loop timeoutMs maxThreads [] []
| main_no_subnets : forall fuel cidr rest out,
    splitIntoSubnets fuel cidr = Ret [] ->
    main_loop timeoutMs maxThreads rest out ->
    main_loop timeoutMs maxThreads (cidr :: rest) (NoSubnets cidr :: out)
| main_subnets : forall fuel cidr rest subnets items out,
    splitIntoSubnets fuel cidr = Ret subnets ->
    subnets <> [] ->
    process_subnets timeoutMs maxThreads subnets items ->
    main_loop timeoutMs maxThreads rest out ->
    main_loop timeoutMs maxThreads (cidr :: rest) (items ++ out).

(* ================================================================= *)
(** ** Vocabulary of the statements *)

(** The four bytes of a 32-bit value, most significant first, as the
    program stores them, and the value of four bytes. *)
Definition addr (v : Z) : IP :=
  [u8 (Z.shiftr v 24); u8 (Z.shiftr v 16); u8 (Z.shiftr v 8); u8 v].

Definition val4 (a b c d : Z) : Z := a * 2 ^ 24 + b * 2 ^ 16 + c * 2 ^ 8 + d.

Definition bytes_upto : list Z := map Z.of_nat (seq 0 256).

(** The invariant of the loop of [parseIPv4Fields]. *)
Definition v4_good (st : v4state) : Prop :=
  length (v4_fields st) = v4_pos st /\ Forall is_byte (v4_fields st) /\
  (v4_pos st <= 3)%nat.

(** What [net.ParseCIDR] returns for the address [a.b.c.d] and the prefix
    length [p]; a string is a valid IPv4 CIDR when it parses to that. *)
Definition cidr_ip (a b c d : Z) : IP := v4InV6Prefix ++ [a; b; c; d].

Definition cidr_net (a b c d p : Z) : IPNet :=
  mkIPNet (IP_Mask (cidr_ip a b c d) (net_CIDRMask p 32)) (net_CIDRMask p 32).

Definition valid_ipv4_cidr (s : string) (a b c d p : Z) : Prop :=
  net_ParseCIDR s = CIDROk (cidr_ip a b c d) (cidr_net a b c d p) /\
  is_byte a /\ is_byte b /\ is_byte c /\ is_byte d /\ 0 <= p <= 32.

(** The first address of the block of [a.b.c.d/p], as a 32-bit value, and
    the number of addresses of the block. *)
Definition block_size (p : Z) : Z := 2 ^ (32 - p).

Definition network (a b c d p : Z) : Z :=
  val4 a b c d / block_size p * block_size p.

(** [lo, lo+1, ..., lo+n-1] and [lo, lo+k, ..., lo+(n-1)k]. *)
Definition zrange (lo : Z) (n : nat) : list Z :=
  map (fun i => lo + Z.of_nat i) (seq 0 n).

Definition zrange_by (k lo : Z) (n : nat) : list Z :=
  map (fun i => lo + k * Z.of_nat i) (seq 0 n).

(** The text of the addresses [lo .. lo+n-1], and of the /24 blocks at
    [lo, lo+256, ...]. *)
Definition host_strings (lo : Z) (n : nat) : list string :=
  map (fun x => IP_String (addr x)) (zrange lo n).

Definition chunk_string (x : Z) : string := (IP_String (addr x) ++ "/24")%string.

Definition chunk_strings (lo : Z) (n : nat) : list string :=
  map chunk_string (zrange_by 256 lo n).

(* ================================================================= *)
(** ** Vocabulary of the dispatcher's invariants *)

Definition b2n (b : bool) : nat := if b then 1%nat else 0%nat.

Definition not_exited (t : task) : bool :=
  match t_pc t with TExit _ => false | _ => true end.

Definition has_sent (t : task) : bool :=
  match t_pc t with
  | TRelease _ | TProgress _ | TDone _ | TExit _ => true
  | _ => false
  end.

Definition has_signalled (t : task) : bool :=
  match t_pc t with TDone _ | TExit _ => true | _ => false end.

(** The outcome that a goroutine has put into [results]. *)
Definition sent_of (t : task) : list PingResult :=
  match t_pc t with
  | TRelease r | TProgress r | TDone r | TExit r => [r]
  | _ => []
  end.

Definition sent_results (ts : list task) : list PingResult := flat_map sent_of ts.

(** The local variable [result] of a goroutine, once the probe is over. *)
Definition result_of (t : task) : option PingResult :=
  match t_pc t with
  | TSend r | TRelease r | TProgress r | TDone r | TExit r => Some r
  | _ => None
  end.

Definition result_ok (t : task) : Prop :=
  match result_of t with
  | Some r => PingResult_IP r = t_ip t
  | None => True
  end.

Record invariant (c : config) (s : state) : Prop := mkInvariant {
  inv_spawned :
    match st_main s with
    | MSpawn k => length (st_tasks s) = k /\ st_waiter s = WNotStarted
    | _ => length (st_tasks s) = length (cfg_ips c) /\ st_waiter s <> WNotStarted
    end;
  inv_ips : map t_ip (st_tasks s) = firstn (length (st_tasks s)) (cfg_ips c);
  inv_wg : st_wg s = count not_exited (st_tasks s);
  inv_sem : st_sem s = count holds_slot (st_tasks s);
  inv_ceiling : st_sem s = 0%nat \/ Z.of_nat (st_sem s) <= cfg_maxThreads c;
  inv_results :
    Permutation (st_pingResults s ++ st_results s) (sent_results (st_tasks s));
  inv_progress : (st_progress s <= count has_signalled (st_tasks s))%nat;
  inv_waiter :
    match st_waiter s with
    | WClose => st_wg s = 0%nat /\ st_closed s = false
    | WExit => st_wg s = 0%nat /\ st_closed s = true
    | _ => st_closed s = false
    end;
  inv_returned : st_main s = MReturned -> st_closed s = true /\ st_results s = [];
  inv_ip : Forall result_ok (st_tasks s)
}.

(** The number of steps that are left at most. *)
Definition weight (t : task) : nat :=
  match t_pc t with
  | TAcquire => 8 | TPing => 7 | TSend _ => 6 | TRelease _ => 4
  | TProgress _ => 3 | TDone _ => 1 | TExit _ => 0
  end%nat.

Definition total (w : task -> nat) (ts : list task) : nat :=
  fold_right (fun t n => (w t + n)%nat) 0%nat ts.

Definition measure (c : config) (s : state) : nat :=
  (match st_main s with
   | MSpawn k => 9 * (length (cfg_ips c) - k) + 4
   | MCollect => 1
   | MReturned => 0
   end
   + match st_waiter s with
     | WNotStarted => 3 | WWait => 2 | WClose => 1 | WExit => 0
     end
   + total weight (st_tasks s) + length (st_results s) + st_progress s)%nat.

(** The event-by-event interpreter of the transition system: the state
    after [e], when [e] is enabled.  For a probe the event names the
    outcome, whose address has to be the one of the goroutine. *)
Definition do_task (c : config) (s : state) (i : nat)
  (f : string -> task_pc -> option state) : option state :=
  match nth_error (st_tasks s) i with
  | Some t => f (t_ip t) (t_pc t)
  | None => None
  end.

Definition do_step (c : config) (s : state) (e : event) : option state :=
  match e with
  | ESpawn k =>
      match st_main s, nth_error (cfg_ips c) k with
      | MSpawn k', Some ip =>
          if (k =? k')%nat then
            Some (mkState (MSpawn (S k)) (st_tasks s ++ [mkTask ip TAcquire])
                    (st_waiter s) (S (st_wg s)) (st_sem s) (st_results s)
                    (st_closed s) (st_progress s) (st_pingResults s))
          else None
      | _, _ => None
      end
  | ESpawnWaiter =>
      match st_main s with
      | MSpawn k =>
          match nth_error (cfg_ips c) k with
          | None =>
              Some (mkState MCollect (st_tasks s) WWait (st_wg s) (st_sem s)
                      (st_results s) (st_closed s) (st_progress s) (st_pingResults s))
          | Some _ => None
          end
      | _ => None
      end
  | EAcquire i =>
      do_task c s i (fun ip pc =>
        match pc with
        | TAcquire =>
            if Z.of_nat (st_sem s) <? cfg_maxThreads c then
              Some (mkState (st_main s) (set_task (st_tasks s) i (mkTask ip TPing))
                      (st_waiter s) (st_wg s) (S (st_sem s)) (st_results s)
                      (st_closed s) (st_progress s) (st_pingResults s))
            else None
        | _ => None
        end)
  | EProbe i r =>
      do_task c s i (fun ip pc =>
        match pc with
        | TPing =>
            if String.eqb (PingResult_IP r) ip
            then Some (with_task s i ip (TSend r)) else None
        | _ => None
        end)
  | ESendResult i =>
      do_task c s i (fun ip pc =>
        match pc with
        | TSend r =>
            if negb (st_closed s) && (length (st_results s) <? results_cap c)%nat then
              Some (mkState (st_main s) (set_task (st_tasks s) i (mkTask ip (TRelease r)))
                      (st_waiter s) (st_wg s) (st_sem s) (st_results s ++ [r])
                      (st_closed s) (st_progress s) (st_pingResults s))
            else None
        | _ => None
        end)
  | ERelease i =>
      do_task c s i (fun ip pc =>
        match pc, st_sem s with
        | TRelease r, S n =>
            Some (mkState (st_main s) (set_task (st_tasks s) i (mkTask ip (TProgress r)))
                    (st_waiter s) (st_wg s) n (st_results s) (st_closed s)
                    (st_progress s) (st_pingResults s))
        | _, _ => None
        end)
  | EProgress i =>
      do_task c s i (fun ip pc =>
        match pc with
        | TProgress r =>
            if (st_progress s <? progress_cap c)%nat then
              Some (mkState (st_main s) (set_task (st_tasks s) i (mkTask ip (TDone r)))
                      (st_waiter s) (st_wg s) (st_sem s) (st_results s) (st_closed s)
                      (S (st_progress s)) (st_pingResults s))
            else None
        | _ => None
        end)
  | EDone i =>
      do_task c s i (fun ip pc =>
        match pc, st_wg s with
        | TDone r, S n =>
            Some (mkState (st_main s) (set_task (st_tasks s) i (mkTask ip (TExit r)))
                    (st_waiter s) n (st_sem s) (st_results s) (st_closed s)
                    (st_progress s) (st_pingResults s))
        | _, _ => None
        end)
  | EWaitDone =>
      match st_waiter s, st_wg s with
      | WWait, O =>
          Some (mkState (st_main s) (st_tasks s) WClose (st_wg s) (st_sem s)
                  (st_results s) (st_closed s) (st_progress s) (st_pingResults s))
      | _, _ => None
      end
  | EClose =>
      match st_waiter s, st_closed s with
      | WClose, false =>
          Some (mkState (st_main s) (st_tasks s) WExit (st_wg s) (st_sem s)
                  (st_results s) true (st_progress s) (st_pingResults s))
      | _, _ => None
      end
  | ECollect r =>
      match st_main s, st_results s with
      | MCollect, r' :: rest =>
          if String.eqb (PingResult_IP r) (PingResult_IP r') && Bool.eqb (Alive r) (Alive r')
          then Some (mkState MCollect (st_tasks s) (st_waiter s) (st_wg s) (st_sem s)
                       rest (st_closed s) (st_progress s) (st_pingResults s ++ [r']))
          else None
      | _, _ => None
      end
  | EReturn =>
      match st_main s, st_results s, st_closed s with
      | MCollect, [], true =>
          Some (mkState MReturned (st_tasks s) (st_waiter s) (st_wg s) (st_sem s) []
                  (st_closed s) (st_progress s) (st_pingResults s))
      | _, _, _ => None
      end
  | EMonitor =>
      match st_progress s with
      | S n =>
          Some (mkState (st_main s) (st_tasks s) (st_waiter s) (st_wg s) (st_sem s)
                  (st_results s) (st_closed s) n (st_pingResults s))
      | O => None
      end
  end.

Fixpoint do_steps (c : config) (s : state) (tr : list event) : option state :=
  match tr with
  | [] => Some s
  | e :: rest =>
      match do_step c s e with
      | Some s' => do_steps c s' rest
      | None => None
      end
  end.

(** A library whose probe of every address has the given outcome. *)
Definition lib_answering (alive : bool) : PingLib :=
  mkPingLib (fun a => Some (mkPinger a false 0 0 ""))
            (fun _ => Some (mkStatistics (if alive then 1 else 0))).

(** A run with two addresses and one slot, the second probe waiting for the
    slot of the first. *)
Definition two_ips : config := mkConfig ["10.0.0.1"; "10.0.0.2"] 800 1.

Definition two_ips_trace : list event :=
  [ESpawn 0; ESpawn 1; EAcquire 1; ESpawnWaiter;
   EProbe 1 (mkPingResult "10.0.0.2" false); ESendResult 1; ERelease 1;
   EAcquire 0; EProgress 1; ECollect (mkPingResult "10.0.0.2" false);
   EProbe 0 (mkPingResult "10.0.0.1" true); EMonitor; EDone 1; ESendResult 0;
   ERelease 0; EProgress 0; EDone 0; EWaitDone;
   ECollect (mkPingResult "10.0.0.1" true); EClose; EReturn].

Definition two_ips_final : state :=
  mkState MReturned
    [mkTask "10.0.0.1" (TExit (mkPingResult "10.0.0.1" true));
     mkTask "10.0.0.2" (TExit (mkPingResult "10.0.0.2" false))]
    WExit 0 0 [] true 1
    [mkPingResult "10.0.0.2" false; mkPingResult "10.0.0.1" true].


(** How far the goroutine of address [i] has got: 0 before its probe is
    over, 1 once it has an outcome, 2 once it has released its slot, 3 once it
    has sent its progress signal. *)
Definition stage_of (t : option task) : nat :=
  match t with
  | None => 0
  | Some t =>
      match t_pc t with
      | TAcquire | TPing => 0
      | TSend _ | TRelease _ => 1
      | TProgress _ => 2
      | TDone _ | TExit _ => 3
      end
  end%nat.

Definition stage_at (s : state) (i : nat) : nat := stage_of (nth_error (st_tasks s) i).

Record trace_ok (tr : list event) (stage i : nat) : Prop := mkTraceOk {
  tr_probes : occurrences (is_probe i) tr = b2n (1 <=? stage)%nat;
  tr_releases : occurrences (is_release i) tr = b2n (2 <=? stage)%nat;
  tr_signals : occurrences (is_progress i) tr = b2n (3 <=? stage)%nat;
  tr_probe_release : occurs_before (is_probe i) (is_release i) tr = (2 <=? stage)%nat;
  tr_release_signal : occurs_before (is_release i) (is_progress i) tr = (3 <=? stage)%nat;
  tr_release_probe : occurs_before (is_release i) (is_probe i) tr = false;
  tr_signal_release : occurs_before (is_progress i) (is_release i) tr = false
}.

(** What the claim on the estimate asks of a rendered line: the divisor is
    at least 1 and the estimate is the finite quotient. *)
Definition estimate_ok (total : Z) (line : status_line) : Prop :=
  match line with
  | Running _ count _ elapsed remaining =>
      1 <= count /\
      exists q, remaining = Finite q /\
                q == inject_Z elapsed * inject_Z (total - count) / inject_Z count
  | Completed _ _ => True
  end.

(** The order by the numeric last octet. *)
Definition octet_le (a b : PingResult) : Prop := lastOctetNum a <= lastOctetNum b.

(** A text without '.', and the sorting key of an address text. *)
Definition no_dot (s : string) : bool :=
  forallb (fun c => negb (Ascii.eqb c chr_dot)) (list_ascii_of_string s).

Definition octet_of_ip (ip : string) : Z := fst (strconv_Atoi (getLastOctet ip)).

(** The digits that [appendDecimal] writes, a character that is a decimal
    digit and none of the separators, and the characters of [a.b.c.d]. *)
Definition digits_of (x : Z) : list ascii :=
  if 100 <=? x then [digit_char (x / 100); digit_char (x / 10 mod 10); digit_char (x mod 10)]
  else if 10 <=? x then [digit_char (x / 10 mod 10); digit_char (x mod 10)]
  else [digit_char (x mod 10)].

Definition plain_digit (c : ascii) : Prop :=
  is_digit c = true /\ Ascii.eqb c chr_dot = false /\ Ascii.eqb c chr_slash = false /\
  Ascii.eqb c chr_colon = false /\ Ascii.eqb c chr_percent = false.

Definition dotted (a b c d : Z) : list ascii :=
  digits_of a ++ chr_dot :: digits_of b ++ chr_dot :: digits_of c ++ chr_dot :: digits_of d.

(** The outcomes of a scanned chunk have pairwise distinct last octets. *)
Definition distinct_octets (item : main_item) : Prop :=
  match item with
  | Chunk _ (Scanned results) => NoDup (map lastOctetNum results)
  | _ => True
  end.

(* ================================================================= *)
(** ** The command line: [splitCIDRs] and [isValidCIDR]

    With the two functions of package [strings] that [splitCIDRs] calls. *)

Definition chr_comma : ascii := ","%char.
Definition chr_space : ascii := " "%char.

(** [strings.FieldsFunc(s, f)].  The loop goes over the runes of [s]; for an
    [f] that holds of ASCII characters only, as the one of [splitCIDRs], the
    fields are cut at the same bytes.  [start] is the field that is open,
    [s[start:end]], if there is one. *)
Fixpoint FieldsFunc_loop (f : ascii -> bool) (s : string) (start : option string)
  : list string :=
  match s with
  | EmptyString => match start with Some field => [field] | None => [] end
  | String r rest =>
      if f r then
        match start with
        | Some field => field :: FieldsFunc_loop f rest None
        | None => FieldsFunc_loop f rest None
        end
      else
        match start with
        | Some field => FieldsFunc_loop f rest (Some (field ++ String r "")%string)
        | None => FieldsFunc_loop f rest (Some (String r ""))
        end
  end.

Definition strings_FieldsFunc (s : string) (f : ascii -> bool) : list string :=
  FieldsFunc_loop f s None.

(** [strings.TrimSpace]: the two loops over ASCII bytes.  A byte from
    [utf8.RuneSelf] on sends it to [TrimFunc] with [unicode.IsSpace], which
    is not embedded. *)
Definition RuneSelf : nat := 128.

Definition asciiSpace (c : ascii) : bool :=
  let n := nat_of_ascii c in
  ((9 <=? n) && (n <=? 13) || (n =? 32))%nat.

Fixpoint trim_scan (s : list ascii) : run (list ascii) :=
  match s with
  | [] => Ret []
  | c :: rest =>
      if (RuneSelf <=? nat_of_ascii c)%nat then Unmodelled
      else if asciiSpace c then trim_scan rest
      else Ret s
  end.

Definition strings_TrimSpace (s : string) : run string :=
  run_bind (trim_scan (list_ascii_of_string s)) (fun from_start =>
  run_bind (trim_scan (rev from_start)) (fun reversed =>
  Ret (string_of_list_ascii (rev reversed)))).

(** [isValidCIDR].  For the text of an IPv6 address [net.ParseCIDR] is not
    embedded, and neither is what [isValidCIDR] and [splitCIDRs] do with
    it. *)
Definition isValidCIDR (cidr : string) : run bool :=
  match net_ParseCIDR cidr with
  | CIDRError => Ret false
  | CIDROk _ _ => Ret true
  | CIDRv6Text => Unmodelled
  end.

(** [splitCIDRs]: the function that it gives to [strings.FieldsFunc], and
    its loop over the parts. *)
Definition is_separator (r : ascii) : bool :=
  Ascii.eqb r chr_comma || Ascii.eqb r chr_space.

Fixpoint splitCIDRs_loop (parts cidrs : list string) : run (list string) :=
  match parts with
  | [] => Ret cidrs
  | part :: rest =>
      run_bind (strings_TrimSpace part) (fun part =>
        if negb (String.eqb part "") then
          run_bind (isValidCIDR part) (fun valid =>
            if valid then splitCIDRs_loop rest (cidrs ++ [part])
            else splitCIDRs_loop rest cidrs)
        else splitCIDRs_loop rest cidrs)
  end.

Definition splitCIDRs (input : string) : run (list string) :=
  splitCIDRs_loop (strings_FieldsFunc input is_separator) [].

(* ================================================================= *)
(** ** [main] *)

(** What a run of [main] comes to.  The flags are given as [flag.Parse]
    leaves them; [mkdir_ok] and [open_ok] tell whether [os.MkdirAll] and
    [os.OpenFile] succeed. *)
Inductive main_outcome : Type :=
| MissingParameter     (* "Error: Missing required -c parameter", the usage *)
| DirectoryError       (* "Error creating directory: ..." *)
| LogFileError         (* "Error opening log file: ..." *)
| NoValidCIDRs         (* "Error: No valid CIDRs provided" *)
| Scans (timeout threads : Z) (items : list main_item).

Inductive main (cidrs : string) (mkdir_ok open_ok : bool) (timeout threads : Z)
  : main_outcome -> Prop :=
| main_missing :
    cidrs = "" ->
    main cidrs mkdir_ok open_ok timeout threads MissingParameter
| main_mkdir :
    cidrs <> "" -> mkdir_ok = false ->
    main cidrs mkdir_ok open_ok timeout threads DirectoryError
| main_open :
    cidrs <> "" -> mkdir_ok = true -> open_ok = false ->
    main cidrs mkdir_ok open_ok timeout threads LogFileError
| main_no_cidrs :
    cidrs <> "" -> mkdir_ok = true -> open_ok = true ->
    splitCIDRs cidrs = Ret [] ->
    main cidrs mkdir_ok open_ok timeout threads NoValidCIDRs
| main_scans : forall cidrList items,
    cidrs <> "" -> mkdir_ok = true -> open_ok = true ->
    splitCIDRs cidrs = Ret cidrList -> cidrList <> [] ->
    main_loop (checked_timeout timeout) (checked_threads threads) cidrList items ->
    main cidrs mkdir_ok open_ok timeout threads
         (Scans (checked_timeout timeout) (checked_threads threads) items).

(* ================================================================= *)
(** ** Durations: [formatDuration] and the conversions of package [time] *)

Definition Second : Z := 1000 * Millisecond.
Definition Minute : Z := 60 * Second.

Definition fadd (x y : float64) : float64 :=
  match x, y with
  | Finite a, Finite b => Finite (a + b)
  | _, _ => NonFinite
  end.

(** [d.Milliseconds()], [d.Seconds()], [d.Minutes()]; Go's [/] and [%] on
    integers truncate towards zero. *)
Definition Duration_Milliseconds (d : Z) : Z := Z.quot d 1000000.

Definition Duration_Seconds (d : Z) : float64 :=
  let sec := Z.quot d Second in
  let nsec := Z.rem d Second in
  fadd (float64_of_int sec) (fdiv (float64_of_int nsec) (Finite (inject_Z 1000000000))).

Definition Duration_Minutes (d : Z) : float64 :=
  let min := Z.quot d Minute in
  let nsec := Z.rem d Minute in
  fadd (float64_of_int min)
       (fdiv (float64_of_int nsec) (Finite (inject_Z 60 * inject_Z 1000000000))).

(** What [formatDuration] hands to [fmt.Sprintf]: the number and the unit. *)
Inductive duration_text : Type :=
| InMs (n : Z)            (* "%dms" *)
| InSeconds (x : float64) (* "%.1fs" *)
| InMinutes (x : float64) (* "%.1fmin" *).

Definition formatDuration (d : Z) : duration_text :=
  if d <? Second then InMs (Duration_Milliseconds d)
  else if d <? Minute then InSeconds (Duration_Seconds d)
  else InMinutes (Duration_Minutes d).

(** [time.Duration(x)] for a [float64]: the fraction is dropped; the result
    for a value outside [int64] depends on the platform. *)
Definition Duration_of_float64 (x : float64) : run Z :=
  match x with
  | Finite q =>
      let z := Z.quot (Qnum q) (Zpos (Qden q)) in
      if (- 2 ^ 63 <=? z) && (z <? 2 ^ 63) then Ret z else Unmodelled
  | NonFinite => Unmodelled
  end.

(** The two durations of a status line, as [showProgress] formats them. *)
Definition line_durations (l : status_line) : run (duration_text * option duration_text) :=
  match l with
  | Running _ _ _ elapsed remaining =>
      run_bind (Duration_of_float64 remaining)
               (fun r => Ret (formatDuration elapsed, Some (formatDuration r)))
  | Completed _ elapsed => Ret (formatDuration elapsed, None)
  end.

(* ================================================================= *)
(** ** The text of the reports

    The grid that [printResults] prints and the table that
    [saveSortedResultsToLog] writes, with the verbs of package [fmt] that
    they use. *)

Definition chr_esc : ascii := ascii_of_nat 27.
Definition chr_newline : ascii := ascii_of_nat 10.

Definition ColorReset : string := String chr_esc "[0m".
Definition ColorGreen : string := String chr_esc "[32m".
Definition ColorRed : string := String chr_esc "[31m".

Fixpoint spaces (n : nat) : string :=
  match n with
  | O => ""
  | S k => String " " (spaces k)
  end.

Definition is_ascii (c : ascii) : bool := (nat_of_ascii c <? 128)%nat.

(** The verb [%-Ns] of package [fmt]: the text, then spaces up to [width]
    runes.  The runes of a text of ASCII bytes are its bytes; the count of
    the runes of any other text is not embedded. *)
Definition fmt_left (width : nat) (s : string) : run string :=
  if forallb is_ascii (list_ascii_of_string s)
  then Ret (s ++ spaces (width - String.length s))%string
  else Unmodelled.

(** The verb [%d]. *)
Definition fmt_d (z : Z) : string :=
  if z <? 0 then ("-" ++ Uitoa (- z))%string else Uitoa z.

Fixpoint run_map {A B} (f : A -> run B) (l : list A) : run (list B) :=
  match l with
  | [] => Ret []
  | x :: rest =>
      run_bind (f x) (fun y => run_bind (run_map f rest) (fun ys => Ret (y :: ys)))
  end.

(** The grid of [printResults]: [output[i]], the loop over a row that
    builds [line], and the lines given to [fmt.Println]. *)
Definition colored (res : PingResult) : string :=
  ((if Alive res then ColorGreen else ColorRed)
   ++ getLastOctet (PingResult_IP res) ++ ColorReset)%string.

Fixpoint line_loop (row : list string) (line : string) : run string :=
  match row with
  | [] => Ret line
  | result :: rest =>
      run_bind (fmt_left 15 result) (fun cell => line_loop rest (line ++ cell)%string)
  end.

Definition grid_lines (results : list PingResult) : run (list string) :=
  let output := map colored results in
  run_map (fun row => line_loop row "") (rows_of (length output) output).

(** [logToFile]: the log file as the list of the texts handed to
    [file.WriteString].  A write that fails makes [logToFile] print an error;
    nothing else in the program depends on it. *)
Definition logToFile (file : list string) (message : string) : list string :=
  file ++ [(message ++ String chr_newline "")%string].

Definition status_of (res : PingResult) : string :=
  if Alive res then "UP" else "DOWN".

(** The loop of [saveSortedResultsToLog] over the sorted outcomes. *)
Fixpoint log_rows (file : list string) (results : list PingResult) : run (list string) :=
  match results with
  | [] => Ret file
  | res :: rest =>
      run_bind (fmt_left 15 (PingResult_IP res))
               (fun ip => log_rows (logToFile file (ip ++ " " ++ status_of res)%string) rest)
  end.

(** [saveSortedResultsToLog] with the file: the sorted slice and the file
    after the writes. *)
Definition saveSortedResultsToLog_file (sort_Slice : sorter) (logFile : list string)
  (results : list PingResult) (cidr : string) (timeoutMs : Z)
  : run (list PingResult * list string) :=
  run_bind (sort_Slice PingResult lessLastOctet results) (fun results =>
    let logFile :=
      logToFile logFile ("=== Results for Subnet: " ++ cidr ++ " (Timeout: "
                         ++ fmt_d timeoutMs ++ " ms) ===")%string in
    let logFile := logToFile logFile "IP Address      Status" in
    let logFile := logToFile logFile "-----------------------" in
    run_bind (log_rows logFile results) (fun logFile =>
      Ret (results, logToFile logFile "======================="))).

(** What [processCIDR] writes to the log for a chunk, by what it reports: an
    error of [parseCIDR] and an empty list of addresses make it return
    before its first write; after a scan it writes the opening line, the
    table of [saveSortedResultsToLog], over the slice that [printResults]
    has sorted, and the closing line. *)
Definition processCIDR_file (sort_Slice : sorter) (logFile : list string)
  (cidr : string) (timeoutMs : Z) (r : chunk_report) : run (list string) :=
  match r with
  | ParseFailed _ => Ret logFile
  | NoIPs => Ret logFile
  | Scanned results =>
      let logFile :=
        logToFile logFile
          (String chr_newline ("=== Processing Subnet: " ++ cidr ++ " ==="))%string in
      run_bind (sort_Slice PingResult lessLastOctet results) (fun results =>
      run_bind (saveSortedResultsToLog_file sort_Slice logFile results cidr timeoutMs)
        (fun saved =>
           Ret (logToFile (snd saved)
                  ("=== Completed Subnet: " ++ cidr ++ " ===" ++ String chr_newline "")%string)))
  end.

(* ================================================================= *)
(** ** Vocabulary of the further statements *)

(** The characters of an IPv4 CIDR: digits, '.' and '/'. *)
Definition cidr_char (c : ascii) : bool :=
  is_digit c || Ascii.eqb c chr_dot || Ascii.eqb c chr_slash.

Definition cidr_text (s : string) : bool :=
  forallb cidr_char (list_ascii_of_string s).

Definition separator_text (s : string) : bool :=
  forallb is_separator (list_ascii_of_string s).

(** A text of ASCII bytes without ':'.  On such a value of [-c] neither
    [strings.TrimSpace] nor [net.ParseCIDR] leaves what is embedded: no field
    has a byte from [utf8.RuneSelf] on at its edge, and none is the text of
    an IPv6 address. *)
Definition plain_char (c : ascii) : bool := is_ascii c && negb (Ascii.eqb c chr_colon).

Definition plain_text (s : string) : bool := forallb plain_char (list_ascii_of_string s).

(** A list of CIDRs, each followed by its separators, as one text; the
    separators between two CIDRs are not empty. *)
Fixpoint join_fields (items : list (string * string)) : string :=
  match items with
  | [] => ""
  | (s, sep) :: rest => (s ++ sep ++ join_fields rest)%string
  end.

Fixpoint well_separated (items : list (string * string)) : bool :=
  match items with
  | [] => true
  | (s, sep) :: rest =>
      separator_text sep
      && match rest with [] => true | _ :: _ => negb (String.eqb sep "") end
      && well_separated rest
  end.

(** What [main] can print for one item of its loop: never the warning that
    no subnets were found; a chunk is a valid IPv4 CIDR of prefix length 24
    or more, its report is not an error of the format of the CIDR, and the
    outcomes of a scan have pairwise distinct last octets. *)
Definition item_ok (item : main_item) : Prop :=
  match item with
  | NoSubnets _ => False
  | Chunk subnet r =>
      (exists a b c d p, valid_ipv4_cidr subnet a b c d p /\ 24 <= p) /\
      r <> ParseFailed ErrInvalidCIDR /\ r <> ParseFailed ErrIPv6NotSupported /\
      distinct_octets item
  end.

(** The number that a byte slice spells, most significant byte first. *)
Definition be_value (ip : list Z) : Z := fold_left (fun acc b => acc * 256 + b) ip 0.

(** [strings.Join(parts, ".")] *)
Fixpoint join_dot (parts : list string) : string :=
  match parts with
  | [] => ""
  | [p] => p
  | p :: rest => (p ++ String chr_dot (join_dot rest))%string
  end.

(** A text of ASCII bytes. *)
Definition ascii_text (s : string) : bool := forallb is_ascii (list_ascii_of_string s).

(** An outcome whose address is the text of four bytes, as [parseCIDR]
    produces it. *)
Definition dotted_outcome (res : PingResult) : Prop :=
  exists x, 0 <= x < 2 ^ 32 /\ PingResult_IP res = IP_String (addr x).

(** A cell of the grid, with its padding. *)
Definition cell15 (res : PingResult) : string :=
  (colored res ++ spaces (15 - String.length (colored res)))%string.

(** A row of the table in the log, with its padding. *)
Definition table_row (res : PingResult) : string :=
  (PingResult_IP res ++ spaces (15 - String.length (PingResult_IP res))
   ++ " " ++ status_of res ++ String chr_newline "")%string.

(** What the [k]-th status line of a scan of [total] addresses has to show. *)
Definition line_shows (total k : Z) (line : status_line) : Prop :=
  match line with
  | Running percent count tot elapsed remaining =>
      count = k /\ tot = total /\
      (exists p, percent = Finite p /\
                 p == inject_Z (100 * k) / inject_Z total /\
                 (0 < p)%Q /\ (p <= inject_Z 100)%Q) /\
      (exists eta, line_durations line
                   = Ret (formatDuration elapsed, Some (formatDuration eta)) /\
                   0 <= eta <= elapsed * (total - k) /\
                   (k = total -> eta = 0))
  | Completed _ _ => False
  end.

(** The monitor takes a signal from [progress]. *)
Definition is_monitor (e : event) : bool :=
  match e with EMonitor => true | _ => false end.

(** A run of [two_ips] up to the end of the first probe, the goroutine about
    to send its outcome. *)
Definition probe_over_trace : list event :=
  [ESpawn 0; EAcquire 0; EProbe 0 (mkPingResult "10.0.0.1" true)].

Definition probe_over : state :=
  mkState (MSpawn 1) [mkTask "10.0.0.1" (TSend (mkPingResult "10.0.0.1" true))]
          WNotStarted 1 1 [] false 0 [].

(** A ceiling of 0, which [main] never passes: the goroutine waits for a slot
    and the caller for the outcomes. *)
Definition no_slot : config := mkConfig ["10.0.0.1"] 800 0.

Definition no_slot_stuck : state :=
  mkState MCollect [mkTask "10.0.0.1" TAcquire] WWait 1 0 [] false 0 [].

(** Two outcomes, as a scan of 10.0.0.0/30 can return them. *)
Definition two_outcomes : list PingResult :=
  [mkPingResult "10.0.0.2" false; mkPingResult "10.0.0.1" true].

(** The writes of [processCIDR] for a scan whose sorted outcomes are
    [sorted]. *)
Definition chunk_log (cidr : string) (timeoutMs : Z) (sorted : list PingResult)
  : list string :=
  [(String chr_newline ("=== Processing Subnet: " ++ cidr ++ " ===")
    ++ String chr_newline "")%string;
   ("=== Results for Subnet: " ++ cidr ++ " (Timeout: " ++ fmt_d timeoutMs
    ++ " ms) ===" ++ String chr_newline "")%string;
   ("IP Address      Status" ++ String chr_newline "")%string;
   ("-----------------------" ++ String chr_newline "")%string]
  ++ map table_row sorted
  ++ [("=======================" ++ String chr_newline "")%string;
      (("=== Completed Subnet: " ++ cidr ++ " ===" ++ String chr_newline "")
       ++ String chr_newline "")%string].

(* ================================================================= *)
(** * Facts about the embedding *)

(** ** Bytes and 32-bit values *)

Ltac div_lia := Z.div_mod_to_equations; lia.

Ltac pow2_consts :=
  change (2 ^ 32) with 4294967296 in *; change (2 ^ 24) with 16777216 in *;
  change (2 ^ 16) with 65536 in *; change (2 ^ 8) with 256 in *.

Lemma in_bytes_upto x : is_byte x -> In x bytes_upto.
Proof.
  unfold is_byte, bytes_upto. intros H. apply in_map_iff. exists (Z.to_nat x).
  split; [lia|]. apply in_seq. lia.
Qed.

Lemma byte_cases (P : Z -> bool) :
  forallb P bytes_upto = true -> forall x, is_byte x -> P x = true.
Proof.
  intros H x Hx. rewrite forallb_forall in H. apply H, in_bytes_upto, Hx.
Qed.

Lemma land_mask_byte x j :
  is_byte x -> 0 <= j <= 8 -> Z.land x (256 - 2 ^ j) = x - x mod 2 ^ j.
Proof.
  intros Hx Hj.
  assert (Hc : j = 0 \/ j = 1 \/ j = 2 \/ j = 3 \/ j = 4 \/ j = 5 \/ j = 6 \/ j = 7 \/ j = 8)
    by lia.
  revert x Hx.
  repeat (destruct Hc as [-> | Hc]); try subst j; intros x Hx;
    apply Z.eqb_eq;
    apply (byte_cases (fun x => Z.land x _ =? x - x mod _)); auto;
    vm_compute; reflexivity.
Qed.

Lemma addr_val4 a b c d :
  is_byte a -> is_byte b -> is_byte c -> is_byte d ->
  addr (val4 a b c d) = [a; b; c; d].
Proof.
  unfold is_byte, addr, val4, u8. intros.
  rewrite !Z.shiftr_div_pow2 by lia. pow2_consts.
  f_equal; [|f_equal; [|f_equal; [|f_equal]]]; div_lia.
Qed.

Lemma val4_range a b c d :
  is_byte a -> is_byte b -> is_byte c -> is_byte d ->
  0 <= val4 a b c d < 2 ^ 32.
Proof. unfold is_byte, val4. lia. Qed.

Example parse_10_30 : parseCIDR 10 "10.0.0.0/30" = Ret (Ok ["10.0.0.1"; "10.0.0.2"]).
Proof. vm_compute. reflexivity. Qed.
Example split_23 : splitIntoSubnets 10 "10.0.0.77/23" = Ret ["10.0.0.0/24"; "10.0.1.0/24"].
Proof. vm_compute. reflexivity. Qed.
Example parse_31 : parseCIDR 10 "192.168.1.0/31" = Ret (Ok []).
Proof. vm_compute. reflexivity. Qed.
Example parse_32 : parseCIDR 10 "192.168.1.7/32" = Ret (Err ErrNetworkTooSmall).
Proof. vm_compute. reflexivity. Qed.
Example parse_wrap : parseCIDR 10 "255.255.255.252/30" = Ret (Ok ["255.255.255.253"; "255.255.255.254"]).
Proof. vm_compute. reflexivity. Qed.
Example split_hi : splitIntoSubnets 10 "255.255.254.0/23" = Ret ["255.255.254.0/24"; "255.255.255.0/24"].
Proof. vm_compute. reflexivity. Qed.
Example parse_bad : parseCIDR 10 "10.0.0.01/30" = Ret (Err ErrInvalidCIDR).
Proof. vm_compute. reflexivity. Qed.

(** ** What [net.ParseCIDR] returns for dotted-decimal text *)

Lemma u8_is_byte z : is_byte (u8 z).
Proof. unfold is_byte, u8. apply Z.mod_pos_bound. lia. Qed.

Lemma parseIPv4_char_good st first last prev c st' :
  v4_good st -> parseIPv4_char st first last prev c = Some st' -> v4_good st'.
Proof.
  unfold parseIPv4_char, v4_good. intros (Hl & Hb & Hp) H.
  destruct (is_digit c).
  - destruct ((v4_digLen st =? 1)%nat && (v4_val st =? 0)); [discriminate|].
    destruct (255 <? v4_val st * 10 + digit_val c); [discriminate|].
    inversion H; subst; cbn. auto.
  - destruct (Ascii.eqb c chr_dot); [|discriminate].
    destruct (first || last || Ascii.eqb prev chr_dot); [discriminate|].
    destruct (Nat.eqb_spec (v4_pos st) 3); [discriminate|].
    inversion H; subst; cbn. rewrite length_app, Hl. cbn.
    repeat split; [lia | | lia].
    apply Forall_app. split; [assumption|]. constructor; [apply u8_is_byte|constructor].
Qed.

Lemma parseIPv4_loop_good s : forall st first prev st',
  v4_good st -> parseIPv4_loop st first prev s = Some st' -> v4_good st'.
Proof.
  induction s as [|c rest IH]; cbn; intros st first prev st' Hg H.
  - inversion H; subst; assumption.
  - destruct (parseIPv4_char st first (no_more rest) prev c) as [st1|] eqn:E; [|discriminate].
    eapply IH; [|exact H]. eapply parseIPv4_char_good; eauto.
Qed.

Lemma parseIPv4_fields s f :
  parseIPv4 s = Some f ->
  exists a b c d, f = [a; b; c; d] /\ is_byte a /\ is_byte b /\ is_byte c /\ is_byte d.
Proof.
  unfold parseIPv4. intros H.
  destruct (parseIPv4_loop _ _ _ s) as [st|] eqn:E; [|discriminate].
  apply parseIPv4_loop_good in E; [|repeat split; cbn; auto].
  destruct E as (Hl & Hb & Hp).
  destruct (Nat.ltb_spec (v4_pos st) 3); [discriminate|].
  inversion H; subst; clear H.
  destruct (v4_fields st) as [|a [|b [|c [|x l]]]]; cbn in Hl; try lia.
  exists a, b, c, (u8 (v4_val st)).
  inversion Hb as [|? ? Ha Hb1]; subst. inversion Hb1 as [|? ? Hb' Hb2]; subst.
  inversion Hb2 as [|? ? Hc' Hb3]; subst.
  pose proof (u8_is_byte (v4_val st)). tauto.
Qed.

Lemma ParseAddr_scan_v4 whole rest f :
  ParseAddr_scan whole rest = AddrV4 f -> parseIPv4 whole = Some f.
Proof.
  induction rest as [|c rest IH]; cbn; [discriminate|].
  destruct (Ascii.eqb c chr_dot).
  - destruct (parseIPv4 whole); [|discriminate]. intros H; inversion H; reflexivity.
  - destruct (Ascii.eqb c chr_colon); [discriminate|].
    destruct (Ascii.eqb c chr_percent); [discriminate|]. assumption.
Qed.

Lemma net_ParseCIDR_ok s ip ipNet :
  net_ParseCIDR s = CIDROk ip ipNet ->
  exists a b c d p, valid_ipv4_cidr s a b c d p /\
                    ip = cidr_ip a b c d /\ ipNet = cidr_net a b c d p.
Proof.
  unfold valid_ipv4_cidr. intros H. pose proof H as H0. revert H0.
  unfold net_ParseCIDR.
  destruct (cut_slash _) as [[addr0 mask]|]; [|discriminate].
  destruct (ParseAddr addr0) as [|f|] eqn:E; try discriminate.
  apply ParseAddr_scan_v4, parseIPv4_fields in E.
  destruct E as (a & b & c & d & -> & Ha & Hb & Hc & Hd).
  destruct (dtoi mask) as [[n i] ok].
  destruct (negb ok || negb (i =? length mask)%nat || (n <? 0) || (32 <? n)) eqn:G;
    [discriminate|].
  intros H0. inversion H0; subst.
  exists a, b, c, d, n.
  rewrite !Bool.orb_false_iff in G. destruct G as [[[_ _] G3] G4].
  apply Z.ltb_ge in G3, G4.
  split; [|split; reflexivity].
  split; [reflexivity|]. repeat (split; [assumption|]). lia.
Qed.

(** ** Masks and containment on 32-bit values *)

Lemma prefix_cases p : 0 <= p <= 32 -> In p (map Z.of_nat (seq 0 33)).
Proof.
  intros H. apply in_map_iff. exists (Z.to_nat p). split; [lia|]. apply in_seq. lia.
Qed.

Ltac each_prefix Hp :=
  apply prefix_cases in Hp;
  cbv [map seq Z.of_nat In Pos.of_succ_nat Pos.succ] in Hp;
  repeat (destruct Hp as [<- | Hp]); [ .. | contradiction ].

Lemma land_eqb_div x y j :
  is_byte x -> is_byte y -> 0 <= j <= 8 ->
  (Z.land x (256 - 2 ^ j) =? Z.land y (256 - 2 ^ j)) = (x / 2 ^ j =? y / 2 ^ j).
Proof.
  intros Hx Hy Hj.
  rewrite !land_mask_byte by assumption.
  assert (0 < 2 ^ j) by (apply Z.pow_pos_nonneg; lia).
  pose proof (Z.div_mod x (2 ^ j) ltac:(lia)).
  pose proof (Z.div_mod y (2 ^ j) ltac:(lia)).
  destruct (Z.eqb_spec (x / 2 ^ j) (y / 2 ^ j)) as [E|E].
  - apply Z.eqb_eq. rewrite E in *. lia.
  - apply Z.eqb_neq. intros E'. apply E.
    apply (Z.mul_reg_l _ _ (2 ^ j)); lia.
Qed.

Lemma chain4 (e0 e1 e2 e3 : bool) :
  (if (if e0 then false else true) then false else
   if (if e1 then false else true) then false else
   if (if e2 then false else true) then false else
   if (if e3 then false else true) then false else true) = true
  <-> e0 = true /\ e1 = true /\ e2 = true /\ e3 = true.
Proof. destruct e0, e1, e2, e3; cbn; intuition congruence. Qed.

Ltac mask_literal :=
  match goal with
  | |- context [net_CIDRMask ?p 32] =>
      let m := eval vm_compute in (net_CIDRMask p 32) in
      change (net_CIDRMask p 32) with m
  end.

Ltac mask_bytes_as_powers :=
  change 255 with (256 - 2 ^ 0); change 254 with (256 - 2 ^ 1);
  change 252 with (256 - 2 ^ 2); change 248 with (256 - 2 ^ 3);
  change 240 with (256 - 2 ^ 4); change 224 with (256 - 2 ^ 5);
  change 192 with (256 - 2 ^ 6); change 128 with (256 - 2 ^ 7);
  change (Z.land ?u 0) with (Z.land u (256 - 2 ^ 8)).

Lemma contains_val4 p x0 x1 x2 x3 y0 y1 y2 y3 :
  0 <= p <= 32 ->
  is_byte x0 -> is_byte x1 -> is_byte x2 -> is_byte x3 ->
  is_byte y0 -> is_byte y1 -> is_byte y2 -> is_byte y3 ->
  IPNet_Contains (mkIPNet [x0; x1; x2; x3] (net_CIDRMask p 32)) [y0; y1; y2; y3]
  = (val4 x0 x1 x2 x3 / 2 ^ (32 - p) =? val4 y0 y1 y2 y3 / 2 ^ (32 - p)).
Proof.
  intros Hp X0 X1 X2 X3 Y0 Y1 Y2 Y3.
  apply eq_true_iff_eq. rewrite Z.eqb_eq.
  each_prefix Hp; mask_literal;
    cbv [IPNet_Contains networkNumberAndMask IP_To4 IPNet_IP IPNet_Mask length Nat.eqb
         IPv4len IPv6len is_nil andb negb masked_eqb tl];
    rewrite chain4; mask_bytes_as_powers;
    rewrite !land_eqb_div by (assumption || lia);
    rewrite !Z.eqb_eq; unfold is_byte, val4 in *; cbn -[Z.div Z.mul];
    split; intros; div_lia.
Qed.

Lemma masked_byte x j : is_byte x -> 0 <= j <= 8 -> is_byte (x - x mod 2 ^ j).
Proof.
  unfold is_byte. intros Hx Hj.
  assert (0 < 2 ^ j) by (apply Z.pow_pos_nonneg; lia).
  pose proof (Z.mod_pos_bound x (2 ^ j) ltac:(lia)).
  pose proof (Z.mod_le x (2 ^ j) ltac:(lia) ltac:(lia)). lia.
Qed.

Lemma IP_Mask_cidr_ip a b c d m0 m1 m2 m3 :
  IP_Mask (cidr_ip a b c d) [m0; m1; m2; m3]
  = [Z.land a m0; Z.land b m1; Z.land c m2; Z.land d m3].
Proof. reflexivity. Qed.

Lemma IP_Mask_network a b c d p :
  is_byte a -> is_byte b -> is_byte c -> is_byte d -> 0 <= p <= 32 ->
  IP_Mask (cidr_ip a b c d) (net_CIDRMask p 32) = addr (network a b c d p).
Proof.
  intros Ha Hb Hc Hd Hp. unfold network, block_size.
  each_prefix Hp; mask_literal;
    rewrite IP_Mask_cidr_ip; mask_bytes_as_powers;
    rewrite !land_mask_byte by (assumption || lia);
    match goal with
    | |- [?x; ?y; ?z; ?t] = addr ?v =>
        replace v with (val4 x y z t);
        [ apply eq_sym, addr_val4; apply masked_byte; (assumption || lia) | ]
    end;
    unfold is_byte, val4 in *; cbn -[Z.div Z.mul Z.modulo]; div_lia.
Qed.

Lemma IPMask_Size_prefix p :
  0 <= p <= 32 -> IPMask_Size (net_CIDRMask p 32) = (p, 32).
Proof. intros Hp. each_prefix Hp; vm_compute; reflexivity. Qed.

(** ** [inc] is the successor modulo 2^32 *)

Lemma addr_bytes v :
  0 <= v < 2 ^ 32 ->
  exists a b c d,
    is_byte a /\ is_byte b /\ is_byte c /\ is_byte d /\
    addr v = [a; b; c; d] /\ val4 a b c d = v.
Proof.
  intros Hv.
  exists (u8 (Z.shiftr v 24)), (u8 (Z.shiftr v 16)), (u8 (Z.shiftr v 8)), (u8 v).
  repeat (split; [apply u8_is_byte|]). split; [reflexivity|].
  unfold val4, u8. rewrite !Z.shiftr_div_pow2 by lia. pow2_consts. div_lia.
Qed.

Lemma inc_bytes a b c d :
  is_byte a -> is_byte b -> is_byte c -> is_byte d ->
  inc [a; b; c; d] = addr ((val4 a b c d + 1) mod 2 ^ 32).
Proof.
  intros Ha Hb Hc Hd. unfold inc. cbn [length inc_from upd idx nth].
  assert (B0 : is_byte 0) by (unfold is_byte; lia).
  destruct (Z.ltb_spec 0 (u8 (d + 1))) as [D|D].
  { rewrite <- (addr_val4 a b c (u8 (d + 1))) by (assumption || apply u8_is_byte).
    f_equal. unfold is_byte, val4, u8 in *. pow2_consts. div_lia. }
  destruct (Z.ltb_spec 0 (u8 (c + 1))) as [C|C].
  { rewrite <- (addr_val4 a b (u8 (c + 1)) (u8 (d + 1))) by (assumption || apply u8_is_byte).
    f_equal. unfold is_byte, val4, u8 in *. pow2_consts. div_lia. }
  destruct (Z.ltb_spec 0 (u8 (b + 1))) as [B|B].
  { rewrite <- (addr_val4 a (u8 (b + 1)) (u8 (c + 1)) (u8 (d + 1))) by (assumption || apply u8_is_byte).
    f_equal. unfold is_byte, val4, u8 in *. pow2_consts. div_lia. }
  assert (Hif : forall (X : IP), (if 0 <? u8 (a + 1) then X else X) = X)
    by (intros; destruct (0 <? u8 (a + 1)); reflexivity).
  rewrite Hif.
  rewrite <- (addr_val4 (u8 (a + 1)) (u8 (b + 1)) (u8 (c + 1)) (u8 (d + 1)))
    by apply u8_is_byte.
  f_equal. unfold is_byte, val4, u8 in *. pow2_consts. div_lia.
Qed.

Lemma inc_addr v :
  0 <= v < 2 ^ 32 -> inc (addr v) = addr ((v + 1) mod 2 ^ 32).
Proof.
  intros Hv. destruct (addr_bytes v Hv) as (a & b & c & d & Ha & Hb & Hc & Hd & E & V).
  rewrite E, <- V. apply inc_bytes; assumption.
Qed.

(** ** Blocks of addresses *)

Lemma block_size_pos p : 0 <= p <= 32 -> 0 < block_size p.
Proof. intros. unfold block_size. apply Z.pow_pos_nonneg; lia. Qed.

Lemma block_size_total p : 0 <= p <= 32 -> block_size p * 2 ^ p = 2 ^ 32.
Proof.
  intros. unfold block_size. rewrite <- Z.pow_add_r by lia. f_equal. lia.
Qed.

Lemma network_block a b c d p :
  is_byte a -> is_byte b -> is_byte c -> is_byte d -> 0 <= p <= 32 ->
  0 <= network a b c d p /\ network a b c d p + block_size p <= 2 ^ 32 /\
  network a b c d p <= val4 a b c d < network a b c d p + block_size p.
Proof.
  intros Ha Hb Hc Hd Hp. unfold network.
  pose proof (block_size_pos p Hp) as HS.
  pose proof (block_size_total p Hp) as HT.
  pose proof (val4_range a b c d Ha Hb Hc Hd) as HV.
  set (S := block_size p) in *. set (A := val4 a b c d) in *.
  pose proof (Z.div_mod A S ltac:(lia)) as E.
  pose proof (Z.mod_pos_bound A S HS) as R.
  assert (0 <= A / S) by (apply Z.div_pos; lia).
  assert (HP : 0 < 2 ^ p) by (apply Z.pow_pos_nonneg; lia).
  assert (A / S < 2 ^ p).
  { apply Z.div_lt_upper_bound; lia. }
  split; [nia|]. split; [nia|]. nia.
Qed.

Lemma in_block_div q S w :
  0 < S -> q * S <= w < q * S + S -> w / S = q.
Proof.
  intros HS Hw. symmetry. apply (Z.div_unique w S q (w - q * S)); lia.
Qed.

Lemma network_div a b c d p :
  0 <= p <= 32 -> network a b c d p / block_size p = val4 a b c d / block_size p.
Proof.
  intros Hp. unfold network. apply Z.div_mul. pose proof (block_size_pos p Hp). lia.
Qed.

Lemma contains_addr a b c d p w :
  is_byte a -> is_byte b -> is_byte c -> is_byte d -> 0 <= p <= 32 ->
  0 <= w < 2 ^ 32 ->
  IPNet_Contains (cidr_net a b c d p) (addr w)
  = (val4 a b c d / block_size p =? w / block_size p).
Proof.
  intros Ha Hb Hc Hd Hp Hw. unfold cidr_net.
  rewrite IP_Mask_network by assumption.
  destruct (network_block a b c d p Ha Hb Hc Hd Hp) as (N0 & N1 & _).
  pose proof (block_size_pos p Hp).
  destruct (addr_bytes (network a b c d p) ltac:(lia))
    as (x0 & x1 & x2 & x3 & X0 & X1 & X2 & X3 & EX & VX).
  destruct (addr_bytes w Hw) as (y0 & y1 & y2 & y3 & Y0 & Y1 & Y2 & Y3 & EY & VY).
  rewrite EX, EY, contains_val4 by assumption.
  rewrite VX, VY. fold (block_size p). rewrite network_div by assumption. reflexivity.
Qed.

(** ** The loop of [parseCIDR] *)

Lemma zrange_S lo n : zrange lo (S n) = lo :: zrange (lo + 1) n.
Proof.
  unfold zrange. cbn [seq map]. f_equal; [lia|].
  rewrite <- seq_shift, map_map. apply map_ext. intros i. lia.
Qed.

Lemma zrange_length lo n : length (zrange lo n) = n.
Proof. unfold zrange. rewrite length_map, length_seq. reflexivity. Qed.

Lemma zrange_snoc lo n : zrange lo (S n) = zrange lo n ++ [lo + Z.of_nat n].
Proof.
  unfold zrange. rewrite seq_S, map_app. reflexivity.
Qed.

Lemma drop_ends_map {A B} (f : A -> B) l : drop_ends (map f l) = map f (drop_ends l).
Proof.
  unfold drop_ends. destruct l as [|x l]; [reflexivity|]. cbn [map tl].
  induction l as [|y l IH]; [reflexivity|].
  cbn [map removelast]. destruct l; [reflexivity|]. cbn [map] in *. rewrite IH. reflexivity.
Qed.

Lemma drop_ends_zrange lo n : drop_ends (zrange lo (S (S n))) = zrange (lo + 1) n.
Proof.
  unfold drop_ends. rewrite zrange_S. cbn [tl].
  rewrite zrange_snoc, removelast_last. reflexivity.
Qed.

Section Block.
Variables a b c d p : Z.
Hypothesis Ha : is_byte a.
Hypothesis Hb : is_byte b.
Hypothesis Hc : is_byte c.
Hypothesis Hd : is_byte d.
Hypothesis Hp : 0 <= p <= 32.

Let net := network a b c d p.
Let size := block_size p.

Lemma contains_in_block w :
  net <= w < net + size -> IPNet_Contains (cidr_net a b c d p) (addr w) = true.
Proof.
  intros Hw. subst net size.
  destruct (network_block a b c d p Ha Hb Hc Hd Hp) as (N0 & N1 & N2).
  pose proof (block_size_pos p Hp) as HS.
  rewrite contains_addr by (assumption || lia).
  apply Z.eqb_eq. rewrite <- network_div by assumption.
  unfold network in *.
  rewrite (in_block_div (val4 a b c d / block_size p) (block_size p) w) by lia.
  apply Z.div_mul. lia.
Qed.

Lemma contains_past_block :
  1 <= p ->
  IPNet_Contains (cidr_net a b c d p) (addr ((net + size) mod 2 ^ 32)) = false.
Proof.
  intros Hp1. subst net size.
  destruct (network_block a b c d p Ha Hb Hc Hd Hp) as (N0 & N1 & N2).
  pose proof (block_size_pos p Hp) as HS.
  pose proof (block_size_total p Hp) as HT.
  assert (HM : 0 <= (network a b c d p + block_size p) mod 2 ^ 32 < 2 ^ 32)
    by (apply Z.mod_pos_bound; lia).
  rewrite contains_addr by assumption.
  apply Z.eqb_neq. rewrite <- network_div by assumption.
  unfold network in *.
  set (q := val4 a b c d / block_size p) in *.
  set (S := block_size p) in *.
  rewrite Z.div_mul by lia.
  assert (H2 : 2 <= 2 ^ p).
  { change 2 with (2 ^ 1) at 1. apply Z.pow_le_mono_r; lia. }
  destruct (Z.eq_dec (q * S + S) (2 ^ 32)) as [E|E].
  - rewrite E, Z.mod_same, Z.div_0_l by lia. nia.
  - rewrite Z.mod_small by lia.
    rewrite (in_block_div (q + 1) S (q * S + S)) by lia. lia.
Qed.

Lemma parseCIDR_loop_block :
  1 <= p ->
  forall n w acc fuel,
    net <= w -> w + Z.of_nat n = net + size -> (n < fuel)%nat ->
    parseCIDR_loop fuel (cidr_net a b c d p) (addr (w mod 2 ^ 32)) acc
    = Ret (acc ++ map (fun x => IP_String (addr x)) (zrange w n)).
Proof.
  intros Hp1.
  destruct (network_block a b c d p Ha Hb Hc Hd Hp) as (N0 & N1 & N2).
  fold net size in N0, N1, N2.
  induction n as [|n IH]; intros w acc fuel Hw Hn Hf;
    (destruct fuel as [|fuel]; [lia|]); cbn [parseCIDR_loop].
  - replace w with (net + size) by lia.
    rewrite contains_past_block by assumption.
    cbn. rewrite app_nil_r. reflexivity.
  - rewrite Z.mod_small by lia.
    rewrite contains_in_block by lia.
    rewrite inc_addr by lia.
    rewrite IH by lia.
    rewrite zrange_S. cbn [map]. rewrite <- app_assoc. reflexivity.
Qed.

(** With prefix length 0 every address is inside: the loop never leaves. *)
Lemma parseCIDR_loop_whole fuel :
  p = 0 ->
  forall w acc,
    0 <= w < 2 ^ 32 ->
    parseCIDR_loop fuel (cidr_net a b c d p) (addr w) acc = OutOfFuel.
Proof.
  intros ->. induction fuel as [|fuel IH]; intros w acc Hw; cbn [parseCIDR_loop].
  - reflexivity.
  - rewrite contains_addr by assumption.
    pose proof (val4_range a b c d Ha Hb Hc Hd).
    change (block_size 0) with (2 ^ 32).
    rewrite !Z.div_small by lia. cbn [Z.eqb].
    rewrite inc_addr by assumption.
    apply IH. apply Z.mod_pos_bound. lia.
Qed.
End Block.

(** ** [parseCIDR] on a valid IPv4 CIDR *)

Lemma parseCIDR_valid fuel s a b c d p :
  valid_ipv4_cidr s a b c d p ->
  parseCIDR fuel s
  = run_bind (parseCIDR_loop fuel (cidr_net a b c d p) (addr (network a b c d p)) [])
      (fun ips => if (length ips <? 2)%nat then Ret (Err ErrNetworkTooSmall)
                  else Ret (Ok (drop_ends ips))).
Proof.
  intros (E & Ha & Hb & Hc & Hd & Hp). unfold parseCIDR. rewrite E.
  change (is_nil (IP_To4 (cidr_ip a b c d))) with false. cbv iota.
  change (IPNet_Mask (cidr_net a b c d p)) with (net_CIDRMask p 32).
  rewrite IP_Mask_network by assumption. reflexivity.
Qed.

Lemma parseCIDR_loop_from_network a b c d p fuel :
  is_byte a -> is_byte b -> is_byte c -> is_byte d -> 1 <= p <= 32 ->
  block_size p < Z.of_nat fuel ->
  parseCIDR_loop fuel (cidr_net a b c d p) (addr (network a b c d p)) []
  = Ret (host_strings (network a b c d p) (Z.to_nat (block_size p))).
Proof.
  intros Ha Hb Hc Hd Hp Hf.
  destruct (network_block a b c d p Ha Hb Hc Hd ltac:(lia)) as (N0 & N1 & N2).
  pose proof (block_size_pos p ltac:(lia)) as HS.
  rewrite <- (Z.mod_small (network a b c d p) (2 ^ 32)) at 1 by lia.
  rewrite (parseCIDR_loop_block a b c d p Ha Hb Hc Hd ltac:(lia) ltac:(lia)
             (Z.to_nat (block_size p))) by lia.
  reflexivity.
Qed.

Lemma block_size_30 p : 1 <= p <= 30 -> 4 <= block_size p.
Proof.
  intros Hp. unfold block_size. change 4 with (2 ^ 2).
  apply Z.pow_le_mono_r; lia.
Qed.

Lemma parseCIDR_hosts fuel s a b c d p :
  valid_ipv4_cidr s a b c d p -> 1 <= p <= 30 ->
  block_size p < Z.of_nat fuel ->
  parseCIDR fuel s
  = Ret (Ok (host_strings (network a b c d p + 1) (Z.to_nat (block_size p - 2)))).
Proof.
  intros V Hp Hf. rewrite (parseCIDR_valid fuel s a b c d p V).
  destruct V as (E & Ha & Hb & Hc & Hd & Hp').
  rewrite parseCIDR_loop_from_network by (assumption || lia).
  pose proof (block_size_30 p Hp) as H4.
  cbn [run_bind]. unfold host_strings.
  rewrite length_map, zrange_length.
  destruct (Nat.ltb_spec (Z.to_nat (block_size p)) 2); [lia|].
  rewrite drop_ends_map.
  replace (Z.to_nat (block_size p)) with (S (S (Z.to_nat (block_size p - 2)))) by lia.
  rewrite drop_ends_zrange. reflexivity.
Qed.

Lemma parseCIDR_slash31 fuel s a b c d :
  valid_ipv4_cidr s a b c d 31 -> (3 <= fuel)%nat -> parseCIDR fuel s = Ret (Ok []).
Proof.
  intros V Hf. rewrite (parseCIDR_valid fuel s a b c d 31 V).
  destruct V as (E & Ha & Hb & Hc & Hd & Hp').
  rewrite parseCIDR_loop_from_network
    by (assumption || lia || (change (block_size 31) with 2; lia)).
  reflexivity.
Qed.

Lemma parseCIDR_slash32 fuel s a b c d :
  valid_ipv4_cidr s a b c d 32 -> (2 <= fuel)%nat ->
  parseCIDR fuel s = Ret (Err ErrNetworkTooSmall).
Proof.
  intros V Hf. rewrite (parseCIDR_valid fuel s a b c d 32 V).
  destruct V as (E & Ha & Hb & Hc & Hd & Hp').
  rewrite parseCIDR_loop_from_network
    by (assumption || lia || (change (block_size 32) with 1; lia)).
  reflexivity.
Qed.

Lemma parseCIDR_slash0 fuel s a b c d :
  valid_ipv4_cidr s a b c d 0 -> parseCIDR fuel s = OutOfFuel.
Proof.
  intros V. rewrite (parseCIDR_valid fuel s a b c d 0 V).
  destruct V as (E & Ha & Hb & Hc & Hd & Hp').
  destruct (network_block a b c d 0 Ha Hb Hc Hd Hp') as (N0 & N1 & N2).
  pose proof (block_size_pos 0 Hp').
  rewrite parseCIDR_loop_whole by (assumption || reflexivity || lia).
  reflexivity.
Qed.

(** More fuel does not change what a run returns. *)
Lemma parseCIDR_loop_more_fuel ipNet : forall fuel fuel' ip acc r,
  parseCIDR_loop fuel ipNet ip acc = Ret r -> (fuel <= fuel')%nat ->
  parseCIDR_loop fuel' ipNet ip acc = Ret r.
Proof.
  induction fuel as [|fuel IH]; intros fuel' ip acc r H Hle; [discriminate|].
  destruct fuel' as [|fuel']; [lia|]. cbn [parseCIDR_loop] in *.
  destruct (IPNet_Contains ipNet ip); [|assumption].
  apply IH; [assumption|lia].
Qed.

Lemma parseCIDR_more_fuel fuel fuel' s r :
  parseCIDR fuel s = Ret r -> (fuel <= fuel')%nat -> parseCIDR fuel' s = Ret r.
Proof.
  unfold parseCIDR. destruct (net_ParseCIDR s) as [|ip ipNet|]; try discriminate; auto.
  destruct (is_nil (IP_To4 ip)); auto.
  destruct (parseCIDR_loop fuel _ _ _) as [ips| |] eqn:E; try discriminate.
  intros H Hle. rewrite (parseCIDR_loop_more_fuel _ _ _ _ _ _ E Hle). exact H.
Qed.

Lemma parseCIDR_deterministic fuel fuel' s r r' :
  parseCIDR fuel s = Ret r -> parseCIDR fuel' s = Ret r' -> r = r'.
Proof.
  intros H H'.
  apply (parseCIDR_more_fuel _ (Nat.max fuel fuel')) in H; [|lia].
  apply (parseCIDR_more_fuel _ (Nat.max fuel fuel')) in H'; [|lia].
  congruence.
Qed.

(** ** The loop of [splitIntoSubnets] *)

Lemma lor_high_low hi lo n :
  0 <= n -> 0 <= lo < 2 ^ n -> Z.lor (hi * 2 ^ n) lo = hi * 2 ^ n + lo.
Proof.
  intros Hn Hlo.
  rewrite <- (Z.add_lor_land (hi * 2 ^ n) lo).
  assert (E : Z.land (hi * 2 ^ n) lo = 0); [|rewrite E; lia].
  apply Z.bits_inj'. intros i Hi.
  rewrite Z.land_spec, Z.bits_0.
  destruct (Z.lt_ge_cases i n) as [L|G].
  - rewrite Z.mul_pow2_bits_low by assumption. reflexivity.
  - destruct (Z.eq_dec lo 0) as [->|Nz].
    + rewrite Z.bits_0. apply andb_false_r.
    + rewrite (Z.bits_above_log2 lo i), andb_false_r; [reflexivity|lia|].
      apply Z.log2_lt_pow2; [lia|].
      apply Z.lt_le_trans with (2 ^ n); [lia|]. apply Z.pow_le_mono_r; lia.
Qed.

Lemma ip_to_uint32_bytes a b c d :
  is_byte a -> is_byte b -> is_byte c -> is_byte d ->
  ip_to_uint32 [a; b; c; d] = val4 a b c d.
Proof.
  unfold is_byte. intros Ha Hb Hc Hd.
  unfold ip_to_uint32, idx, u32, val4. cbn [nth].
  rewrite !Z.shiftl_mul_pow2 by lia.
  rewrite !Z.mod_small by (pow2_consts; lia).
  replace (b * 2 ^ 16) with (b * 2 ^ 16 + 0) by lia.
  rewrite (lor_high_low a (b * 2 ^ 16 + 0) 24) by (pow2_consts; lia).
  replace (a * 2 ^ 24 + (b * 2 ^ 16 + 0)) with ((a * 2 ^ 8 + b) * 2 ^ 16)
    by (pow2_consts; lia).
  rewrite (lor_high_low (a * 2 ^ 8 + b) (c * 2 ^ 8) 16) by (pow2_consts; lia).
  replace ((a * 2 ^ 8 + b) * 2 ^ 16 + c * 2 ^ 8)
    with (((a * 2 ^ 8 + b) * 2 ^ 8 + c) * 2 ^ 8) by (pow2_consts; lia).
  rewrite lor_high_low by (pow2_consts; lia).
  pow2_consts; lia.
Qed.

Lemma ip_to_uint32_addr w : 0 <= w < 2 ^ 32 -> ip_to_uint32 (addr w) = w.
Proof.
  intros Hw. destruct (addr_bytes w Hw) as (a & b & c & d & Ha & Hb & Hc & Hd & E & V).
  rewrite E, <- V. apply ip_to_uint32_bytes; assumption.
Qed.

Lemma store_uint32_addr w v : store_uint32 (addr w) v = addr v.
Proof. reflexivity. Qed.

Lemma IPNet_String_chunk w :
  IPNet_String (mkIPNet (addr w) (net_CIDRMask 24 32)) = chunk_string w.
Proof. reflexivity. Qed.

Lemma zrange_by_S k lo n : zrange_by k lo (S n) = lo :: zrange_by k (lo + k) n.
Proof.
  unfold zrange_by. cbn [seq map]. f_equal; [lia|].
  rewrite <- seq_shift, map_map. apply map_ext. intros i. lia.
Qed.

Lemma zrange_by_length k lo n : length (zrange_by k lo n) = n.
Proof. unfold zrange_by. rewrite length_map, length_seq. reflexivity. Qed.

Section Chunks.
Variables a b c d p : Z.
Hypothesis Ha : is_byte a.
Hypothesis Hb : is_byte b.
Hypothesis Hc : is_byte c.
Hypothesis Hd : is_byte d.
Hypothesis Hp : 0 <= p <= 32.

Let net := network a b c d p.
Let size := block_size p.

Lemma splitIntoSubnets_loop_block :
  1 <= p ->
  forall n w acc fuel,
    net <= w -> w + 256 * Z.of_nat (S n) = net + size -> (n < fuel)%nat ->
    splitIntoSubnets_loop fuel (cidr_net a b c d p) (addr w) acc
    = Ret (acc ++ chunk_strings w (S n)).
Proof.
  intros Hp1.
  destruct (network_block a b c d p Ha Hb Hc Hd Hp) as (N0 & N1 & N2).
  fold net size in N0, N1, N2.
  induction n as [|n IH]; intros w acc fuel Hw Hn Hf;
    (destruct fuel as [|fuel]; [lia|]); cbn [splitIntoSubnets_loop];
    rewrite IPNet_String_chunk, store_uint32_addr, ip_to_uint32_addr by lia;
    change (u32 step) with 256; unfold u32.
  - replace (w + 256) with (network a b c d p + block_size p)
      by (fold net size; lia).
    rewrite (contains_past_block a b c d p) by assumption.
    cbn [negb]. unfold chunk_strings. rewrite zrange_by_S. reflexivity.
  - rewrite Z.mod_small by lia.
    rewrite (contains_in_block a b c d p) by (assumption || (fold net size; lia)).
    cbn [negb]. rewrite IH by lia.
    unfold chunk_strings. rewrite (zrange_by_S 256 w (S n)). cbn [map].
    rewrite <- app_assoc. reflexivity.
Qed.

(** With prefix length 0 the next block is always inside. *)
Lemma splitIntoSubnets_loop_whole fuel :
  p = 0 ->
  forall w acc,
    0 <= w < 2 ^ 32 ->
    splitIntoSubnets_loop fuel (cidr_net a b c d p) (addr w) acc = OutOfFuel.
Proof.
  intros ->. induction fuel as [|fuel IH]; intros w acc Hw;
    cbn [splitIntoSubnets_loop]; [reflexivity|].
  rewrite store_uint32_addr, ip_to_uint32_addr by lia.
  change (u32 step) with 256. unfold u32.
  assert (HM : 0 <= (w + 256) mod 2 ^ 32 < 2 ^ 32) by (apply Z.mod_pos_bound; lia).
  rewrite contains_addr by assumption.
  pose proof (val4_range a b c d Ha Hb Hc Hd).
  change (block_size 0) with (2 ^ 32).
  rewrite !Z.div_small by lia. cbn [Z.eqb negb].
  apply IH. assumption.
Qed.
End Chunks.

(** ** [splitIntoSubnets] on a valid IPv4 CIDR *)

Lemma splitIntoSubnets_valid fuel s a b c d p :
  valid_ipv4_cidr s a b c d p -> p < 24 ->
  splitIntoSubnets fuel s
  = splitIntoSubnets_loop fuel (cidr_net a b c d p) (addr (network a b c d p)) [].
Proof.
  intros (E & Ha & Hb & Hc & Hd & Hp) H24. unfold splitIntoSubnets. rewrite E.
  change (IPNet_Mask (cidr_net a b c d p)) with (net_CIDRMask p 32).
  rewrite IPMask_Size_prefix by assumption.
  destruct (Z.leb_spec 24 p); [lia|]. cbn [orb negb Z.eqb Pos.eqb].
  rewrite IP_Mask_network by assumption. reflexivity.
Qed.

Lemma splitIntoSubnets_narrow fuel s a b c d p :
  valid_ipv4_cidr s a b c d p -> 24 <= p -> splitIntoSubnets fuel s = Ret [s].
Proof.
  intros (E & Ha & Hb & Hc & Hd & Hp) H24. unfold splitIntoSubnets. rewrite E.
  change (IPNet_Mask (cidr_net a b c d p)) with (net_CIDRMask p 32).
  rewrite IPMask_Size_prefix by assumption.
  destruct (Z.leb_spec 24 p); [|lia]. reflexivity.
Qed.

Lemma block_size_chunks p : 0 <= p <= 24 -> block_size p = 256 * 2 ^ (24 - p).
Proof.
  intros Hp. unfold block_size. change 256 with (2 ^ 8).
  rewrite <- Z.pow_add_r by lia. f_equal. lia.
Qed.

Lemma splitIntoSubnets_chunks fuel s a b c d p :
  valid_ipv4_cidr s a b c d p -> 1 <= p < 24 ->
  2 ^ (24 - p) <= Z.of_nat fuel ->
  splitIntoSubnets fuel s
  = Ret (chunk_strings (network a b c d p) (Z.to_nat (2 ^ (24 - p)))).
Proof.
  intros V Hp Hf. rewrite (splitIntoSubnets_valid fuel s a b c d p V) by lia.
  destruct V as (E & Ha & Hb & Hc & Hd & Hp').
  assert (HP : 0 < 2 ^ (24 - p)) by (apply Z.pow_pos_nonneg; lia).
  pose proof (block_size_chunks p ltac:(lia)) as HB.
  replace (Z.to_nat (2 ^ (24 - p))) with (S (Z.to_nat (2 ^ (24 - p) - 1))) by lia.
  rewrite (splitIntoSubnets_loop_block a b c d p Ha Hb Hc Hd Hp' ltac:(lia)
             (Z.to_nat (2 ^ (24 - p) - 1))) by lia.
  reflexivity.
Qed.

Lemma splitIntoSubnets_slash0 fuel s a b c d :
  valid_ipv4_cidr s a b c d 0 -> splitIntoSubnets fuel s = OutOfFuel.
Proof.
  intros V. rewrite (splitIntoSubnets_valid fuel s a b c d 0 V) by lia.
  destruct V as (E & Ha & Hb & Hc & Hd & Hp').
  destruct (network_block a b c d 0 Ha Hb Hc Hd Hp') as (N0 & N1 & N2).
  pose proof (block_size_pos 0 Hp').
  apply splitIntoSubnets_loop_whole; (assumption || reflexivity || lia).
Qed.

Lemma splitIntoSubnets_loop_more_fuel ipNet : forall fuel fuel' cur acc r,
  splitIntoSubnets_loop fuel ipNet cur acc = Ret r -> (fuel <= fuel')%nat ->
  splitIntoSubnets_loop fuel' ipNet cur acc = Ret r.
Proof.
  induction fuel as [|fuel IH]; intros fuel' cur acc r H Hle; [discriminate|].
  destruct fuel' as [|fuel']; [lia|]. cbn [splitIntoSubnets_loop] in *.
  destruct (negb (IPNet_Contains ipNet _)); [assumption|].
  apply IH; [assumption|lia].
Qed.

Lemma splitIntoSubnets_more_fuel fuel fuel' s r :
  splitIntoSubnets fuel s = Ret r -> (fuel <= fuel')%nat ->
  splitIntoSubnets fuel' s = Ret r.
Proof.
  unfold splitIntoSubnets.
  destruct (net_ParseCIDR s) as [|ip ipNet|]; try discriminate; auto.
  destruct (IPMask_Size (IPNet_Mask ipNet)) as [ones bits].
  destruct ((24 <=? ones) || negb (bits =? 32)); auto.
  destruct (is_nil _); auto.
  intros H Hle. eapply splitIntoSubnets_loop_more_fuel; eauto.
Qed.

(** ** The blocks of a subdivision, as sets of addresses *)

Lemma network_aligned a b c d p :
  0 <= p <= 24 -> network a b c d p mod 256 = 0.
Proof.
  intros Hp. unfold network. rewrite block_size_chunks by assumption.
  rewrite (Z.mul_comm 256), Z.mul_assoc. apply Z.mod_mul. lia.
Qed.

Lemma in_zrange_by k lo n x :
  In x (zrange_by k lo n) <-> exists i, 0 <= i < Z.of_nat n /\ x = lo + k * i.
Proof.
  unfold zrange_by. rewrite in_map_iff. split.
  - intros (i & <- & Hi). apply in_seq in Hi. exists (Z.of_nat i). split; [lia|reflexivity].
  - intros (i & Hi & ->). exists (Z.to_nat i). split; [|apply in_seq; lia].
    rewrite Z2Nat.id by lia. reflexivity.
Qed.

Lemma chunks_partition lo n :
  lo mod 256 = 0 ->
  (forall x, In x (zrange_by 256 lo n) -> x mod 256 = 0) /\
  (forall w, lo <= w < lo + 256 * Z.of_nat n <->
             exists x, In x (zrange_by 256 lo n) /\ x <= w < x + 256) /\
  (forall x y w, In x (zrange_by 256 lo n) -> In y (zrange_by 256 lo n) ->
                 x <= w < x + 256 -> y <= w < y + 256 -> x = y) /\
  StronglySorted Z.lt (zrange_by 256 lo n).
Proof.
  intros Hlo. split; [|split; [|split]].
  - intros x Hx. apply in_zrange_by in Hx. destruct Hx as (i & Hi & ->).
    rewrite (Z.mul_comm 256 i), Z.mod_add by lia. assumption.
  - intros w. split.
    + intros Hw. exists (lo + 256 * ((w - lo) / 256)). split.
      * apply in_zrange_by. exists ((w - lo) / 256). split; [|reflexivity].
        split; [apply Z.div_pos; lia|]. apply Z.div_lt_upper_bound; lia.
      * pose proof (Z.div_mod (w - lo) 256 ltac:(lia)).
        pose proof (Z.mod_pos_bound (w - lo) 256 ltac:(lia)). lia.
    + intros (x & Hx & Hw). apply in_zrange_by in Hx. destruct Hx as (i & Hi & ->). lia.
  - intros x y w Hx Hy Hwx Hwy.
    apply in_zrange_by in Hx, Hy.
    destruct Hx as (i & Hi & ->), Hy as (j & Hj & ->). f_equal. lia.
  - clear Hlo. revert lo. induction n as [|n IH]; intros lo.
    + constructor.
    + rewrite zrange_by_S. constructor; [apply IH|].
      apply Forall_forall. intros x Hx. apply in_zrange_by in Hx.
      destruct Hx as (i & Hi & ->). lia.
Qed.

(** ** [processCIDR] and the loop of [main] on blocks without hosts *)

Lemma processCIDR_empty timeoutMs maxThreads s fuel r :
  parseCIDR fuel s = Ret (Ok []) ->
  processCIDR timeoutMs maxThreads s r -> r = NoIPs.
Proof.
  intros E H. inversion H as [f e E'|f E'|f ips tr st E' Hne]; subst.
  - pose proof (parseCIDR_deterministic _ _ _ _ _ E E'). discriminate.
  - reflexivity.
  - pose proof (parseCIDR_deterministic _ _ _ _ _ E E') as X. inversion X; subst.
    contradiction.
Qed.

Lemma processCIDR_error timeoutMs maxThreads s fuel e r :
  parseCIDR fuel s = Ret (Err e) ->
  processCIDR timeoutMs maxThreads s r -> r = ParseFailed e.
Proof.
  intros E H. inversion H as [f e' E'|f E'|f ips tr st E' Hne]; subst.
  - pose proof (parseCIDR_deterministic _ _ _ _ _ E E') as X. inversion X; reflexivity.
  - pose proof (parseCIDR_deterministic _ _ _ _ _ E E'). discriminate.
  - pose proof (parseCIDR_deterministic _ _ _ _ _ E E'). discriminate.
Qed.

Lemma main_loop_app timeoutMs maxThreads l1 : forall l2 out,
  main_loop timeoutMs maxThreads (l1 ++ l2) out <->
  exists o1 o2, main_loop timeoutMs maxThreads l1 o1 /\
                main_loop timeoutMs maxThreads l2 o2 /\ out = o1 ++ o2.
Proof.
  induction l1 as [|c l1 IH]; intros l2 out; cbn [app].
  - split.
    + intros H. exists [], out. repeat split; [constructor|assumption].
    + intros (o1 & o2 & H1 & H2 & ->). inversion H1; subst. assumption.
  - split.
    + intros H. inversion H as [|fuel c' rest o Hs Hr|fuel c' rest subs items o Hs Hne Hp Hr];
        subst; apply IH in Hr; destruct Hr as (o1 & o2 & H1 & H2 & ->).
      * exists (NoSubnets c :: o1), o2. repeat split; [|assumption].
        econstructor; eauto.
      * exists (items ++ o1), o2. rewrite app_assoc. repeat split; [|assumption].
        econstructor; eauto.
    + intros (o1 & o2 & H1 & H2 & ->).
      inversion H1 as [|fuel c' rest o Hs Hr|fuel c' rest subs items o Hs Hne Hp Hr]; subst.
      * cbn [app]. econstructor; [eassumption|]. apply IH. eauto.
      * rewrite <- app_assoc. econstructor; try eassumption. apply IH. eauto.
Qed.

Lemma main_loop_single timeoutMs maxThreads s fuel r :
  splitIntoSubnets fuel s = Ret [s] ->
  (forall r', processCIDR timeoutMs maxThreads s r' <-> r' = r) ->
  forall out, main_loop timeoutMs maxThreads [s] out <-> out = [Chunk s r].
Proof.
  intros Hs Hr out. split.
  - intros H.
    inversion H as [|f c' rest o Hs' Hrest|f c' rest subs items o Hs' Hne Hp Hrest]; subst.
    + apply (splitIntoSubnets_more_fuel _ (Nat.max fuel f)) in Hs; [|lia].
      apply (splitIntoSubnets_more_fuel _ (Nat.max fuel f)) in Hs'; [|lia].
      congruence.
    + apply (splitIntoSubnets_more_fuel _ (Nat.max fuel f)) in Hs; [|lia].
      apply (splitIntoSubnets_more_fuel _ (Nat.max fuel f)) in Hs'; [|lia].
      assert (subs = [s]) by congruence. subst subs.
      inversion Hrest; subst. rewrite app_nil_r.
      inversion Hp as [|? ? r' o' Hpr Hps]; subst. inversion Hps; subst.
      apply Hr in Hpr. subst. reflexivity.
  - intros ->. change [Chunk s r] with ([Chunk s r] ++ []).
    apply (main_subnets _ _ fuel s [] [s]); [assumption|discriminate| |constructor].
    constructor; [apply Hr; reflexivity|constructor].
Qed.

(** ** The range expander: what the claims say *)

Ltac prove_valid :=
  unfold valid_ipv4_cidr, is_byte;
  repeat match goal with |- _ /\ _ => split end;
  try lia; vm_compute; reflexivity.

Lemma valid_whole_space : valid_ipv4_cidr "0.0.0.0/0" 0 0 0 0 0.
Proof. prove_valid. Qed.

(** X1. Expansion of a block with prefix length 1 to 30: the addresses
    strictly between the network address and the broadcast address, in
    ascending order, [2^(32-p) - 2] of them; the host bits of the address in
    the CIDR do not matter. *)
Lemma parseCIDR_expands fuel s a b c d p :
  valid_ipv4_cidr s a b c d p -> 1 <= p <= 30 ->
  block_size p < Z.of_nat fuel ->
  exists ips,
    parseCIDR fuel s = Ret (Ok ips) /\
    Z.of_nat (length ips) = 2 ^ (32 - p) - 2 /\
    ips = map (fun x => IP_String (addr x))
              (zrange (network a b c d p + 1) (Z.to_nat (block_size p - 2))) /\
    (forall x, In x (zrange (network a b c d p + 1) (Z.to_nat (block_size p - 2))) <->
               network a b c d p < x < network a b c d p + block_size p - 1) /\
    StronglySorted Z.lt (zrange (network a b c d p + 1) (Z.to_nat (block_size p - 2))).
Proof.
  intros V Hp Hf. eexists. split; [apply (parseCIDR_hosts fuel s a b c d p); assumption|].
  pose proof (block_size_30 p Hp) as H4.
  split; [|split; [reflexivity|split]].
  - unfold host_strings. rewrite length_map, zrange_length. fold (block_size p). lia.
  - intros x. unfold zrange. rewrite in_map_iff. split.
    + intros (i & <- & Hi). apply in_seq in Hi. lia.
    + intros Hx. exists (Z.to_nat (x - (network a b c d p + 1))).
      split; [lia|]. apply in_seq. lia.
  - generalize (network a b c d p + 1) as lo.
    induction (Z.to_nat (block_size p - 2)) as [|n IH]; intros lo.
    + constructor.
    + rewrite zrange_S. constructor; [apply IH|].
      apply Forall_forall. intros x Hx. unfold zrange in Hx.
      apply in_map_iff in Hx. destruct Hx as (i & <- & Hi). lia.
Qed.

Lemma zrange_ascending n : forall lo, StronglySorted Z.lt (zrange lo n).
Proof.
  induction n as [|n IH]; intros lo; [constructor|].
  rewrite zrange_S. constructor; [apply IH|].
  apply Forall_forall. intros x Hx. unfold zrange in Hx.
  apply in_map_iff in Hx. destruct Hx as (i & <- & Hi). lia.
Qed.

(** C1, as the code has it: from prefix length 1.  The block of [a.b.c.d/p]
    starts at its network address and holds [2^(32-p)] addresses, the last
    one the broadcast address.  For [1 <= p <= 30] every run of [parseCIDR]
    with more rounds than the block has addresses returns the same list and
    no error: the text of the [2^(32-p) - 2] addresses strictly between the
    two, each once, in ascending order, whatever the host bits of the address
    in the CIDR; and whatever a run returns is this list. *)
Theorem C1_parseCIDR_expands_from_prefix_1 :
  forall s a b c d p,
    valid_ipv4_cidr s a b c d p -> 1 <= p <= 30 ->
    let first := network a b c d p in
    let last := network a b c d p + 2 ^ (32 - p) - 1 in
    let hosts := zrange (first + 1) (Z.to_nat (2 ^ (32 - p) - 2)) in
    let ips := map (fun x => IP_String (addr x)) hosts in
    (forall fuel, 2 ^ (32 - p) < Z.of_nat fuel -> parseCIDR fuel s = Ret (Ok ips)) /\
    (forall fuel r, parseCIDR fuel s = Ret r -> r = Ok ips) /\
    Z.of_nat (length ips) = 2 ^ (32 - p) - 2 /\
    (forall x, In x hosts <-> first < x < last) /\
    StronglySorted Z.lt hosts /\
    first mod 2 ^ (32 - p) = 0 /\
    first <= val4 a b c d <= last.
Proof.
  intros s a b c d p V Hp first last hosts ips.
  pose proof (block_size_30 p Hp) as H4. unfold block_size in H4.
  assert (E : forall fuel, 2 ^ (32 - p) < Z.of_nat fuel -> parseCIDR fuel s = Ret (Ok ips)).
  { intros fuel Hf. apply (parseCIDR_hosts fuel s a b c d p V Hp Hf). }
  split; [exact E|]. split; [|split; [|split; [|split; [|split]]]].
  - intros fuel r H.
    pose proof (E (S (Z.to_nat (2 ^ (32 - p)))) ltac:(lia)) as E1.
    apply (parseCIDR_deterministic _ _ _ _ _ H E1).
  - unfold ips, hosts. rewrite length_map, zrange_length. lia.
  - intros x. unfold hosts, zrange, first, last. rewrite in_map_iff. split.
    + intros (i & <- & Hi). apply in_seq in Hi. lia.
    + intros Hx. exists (Z.to_nat (x - (network a b c d p + 1))).
      split; [lia|]. apply in_seq. lia.
  - apply zrange_ascending.
  - unfold first, network, block_size. apply Z.mod_mul. lia.
  - unfold first, last, network, block_size.
    pose proof (Z.div_mod (val4 a b c d) (2 ^ (32 - p)) ltac:(lia)) as D.
    pose proof (Z.mod_pos_bound (val4 a b c d) (2 ^ (32 - p)) ltac:(lia)) as B.
    lia.
Qed.

Lemma C1_witness :
  parseCIDR 5 "192.168.1.77/30" = Ret (Ok ["192.168.1.77"; "192.168.1.78"]) /\
  network 192 168 1 77 30 = val4 192 168 1 76.
Proof.
  assert (V : valid_ipv4_cidr "192.168.1.77/30" 192 168 1 77 30) by prove_valid.
  destruct (C1_parseCIDR_expands_from_prefix_1 "192.168.1.77/30" 192 168 1 77 30 V
              ltac:(lia)) as (E & _).
  split; [|vm_compute; reflexivity].
  rewrite (E 5%nat ltac:(vm_compute; reflexivity)). vm_compute. reflexivity.
Defined.

(** C1 as the claim states it fails.  It covers prefix length 0, and there
    the loop of [parseCIDR] never leaves: incrementing 255.255.255.255 wraps
    to 0.0.0.0, which is inside 0.0.0.0/0 again.  No run returns the
    [2^32 - 2] addresses, nor anything else. *)
Lemma C1_prefix_0_is_not_expanded :
  valid_ipv4_cidr "0.0.0.0/0" 0 0 0 0 0 /\
  ~ (exists fuel r, parseCIDR fuel "0.0.0.0/0" = Ret r).
Proof.
  split; [exact valid_whole_space|].
  intros (fuel & r & H).
  rewrite (parseCIDR_slash0 fuel "0.0.0.0/0" 0 0 0 0 valid_whole_space) in H.
  discriminate.
Qed.

(** Subdivision of a block with prefix length 1 to 23: /24 blocks at
    256-aligned bases, in ascending order, pairwise disjoint, covering
    exactly the addresses of the block. *)
Lemma splitIntoSubnets_partitions fuel s a b c d p :
  valid_ipv4_cidr s a b c d p -> 1 <= p < 24 ->
  2 ^ (24 - p) <= Z.of_nat fuel ->
  let bases := zrange_by 256 (network a b c d p) (Z.to_nat (2 ^ (24 - p))) in
  splitIntoSubnets fuel s = Ret (map chunk_string bases) /\
  (forall x, In x bases -> x mod 256 = 0) /\
  (forall w, network a b c d p <= w < network a b c d p + block_size p <->
             exists x, In x bases /\ x <= w < x + 256) /\
  (forall x y w, In x bases -> In y bases ->
                 x <= w < x + 256 -> y <= w < y + 256 -> x = y) /\
  StronglySorted Z.lt bases.
Proof.
  intros V Hp Hf bases.
  split; [apply (splitIntoSubnets_chunks fuel s a b c d p); assumption|].
  assert (HP : 0 < 2 ^ (24 - p)) by (apply Z.pow_pos_nonneg; lia).
  pose proof (chunks_partition (network a b c d p) (Z.to_nat (2 ^ (24 - p)))
                (network_aligned a b c d p ltac:(lia))) as (P1 & P2 & P3 & P4).
  rewrite block_size_chunks by lia.
  rewrite Z2Nat.id in P2 by lia. auto.
Qed.

(** Subdivision returns for every prefix length from 1. *)
Lemma splitIntoSubnets_returns s a b c d p :
  valid_ipv4_cidr s a b c d p -> 1 <= p ->
  exists subnets, forall fuel, (2 ^ 23 <= fuel)%nat ->
    splitIntoSubnets fuel s = Ret subnets.
Proof.
  intros V Hp. destruct (Z_lt_ge_dec p 24) as [L|G].
  - eexists. intros fuel Hf. apply (splitIntoSubnets_chunks fuel s a b c d p); auto.
    assert (2 ^ (24 - p) <= 2 ^ 23) by (apply Z.pow_le_mono_r; lia).
    assert (Z.of_nat (2 ^ 23) = 2 ^ 23) by (rewrite Nat2Z.inj_pow; reflexivity).
    lia.
  - eexists. intros fuel Hf. apply (splitIntoSubnets_narrow fuel s a b c d p); auto. lia.
Qed.

(** C2. The claim covers prefix length 0, and there [splitIntoSubnets] returns
    no sequence of blocks at all: after 255.255.255.0/24 the addition wraps
    to 0.0.0.0, which is inside the input block again. *)
Theorem C2_splitIntoSubnets_whole_space_returns_nothing :
  forall fuel subnets, splitIntoSubnets fuel "0.0.0.0/0" <> Ret subnets.
Proof.
  intros fuel subnets.
  rewrite (splitIntoSubnets_slash0 fuel "0.0.0.0/0" 0 0 0 0 valid_whole_space).
  discriminate.
Qed.

(** C5. For every valid IPv4 CIDR of prefix length 0 the containment check
    of the loop of [splitIntoSubnets] holds after every addition, the
    wrapped one included: the run is out of fuel whatever the fuel. *)
Theorem C5_splitIntoSubnets_prefix0_never_terminates :
  forall s a b c d fuel,
    valid_ipv4_cidr s a b c d 0 -> splitIntoSubnets fuel s = OutOfFuel.
Proof.
  intros s a b c d fuel V. apply (splitIntoSubnets_slash0 fuel s a b c d V).
Qed.

Lemma C5_witness :
  valid_ipv4_cidr "10.1.2.3/0" 10 1 2 3 0 /\
  splitIntoSubnets 100 "10.1.2.3/0" = OutOfFuel.
Proof.
  assert (V : valid_ipv4_cidr "10.1.2.3/0" 10 1 2 3 0) by prove_valid.
  split; [exact V|].
  apply (C5_splitIntoSubnets_prefix0_never_terminates "10.1.2.3/0" 10 1 2 3 100 V).
Defined.

(** C4, as the code has it.  A /32 block fails with "network too small for
    scanning".  A /31 block passes the check [len(ips) < 2] with its two
    addresses and expands to the empty list without an error; [processCIDR]
    then reports "No IPs to scan".  In both cases no probe runs, and the
    loop of [main] goes on with the CIDRs before and after it. *)
Theorem C4_blocks_without_hosts :
  forall s a b c d p timeoutMs maxThreads,
    valid_ipv4_cidr s a b c d p -> 31 <= p ->
    let expansion := if p =? 32 then Err ErrNetworkTooSmall else Ok [] in
    let report := if p =? 32 then ParseFailed ErrNetworkTooSmall else NoIPs in
    (forall fuel, (3 <= fuel)%nat -> parseCIDR fuel s = Ret expansion) /\
    (forall r, processCIDR timeoutMs maxThreads s r <-> r = report) /\
    outcomes_of report = [] /\
    (forall before after out,
        main_loop timeoutMs maxThreads (before ++ s :: after) out <->
        exists o1 o2,
          main_loop timeoutMs maxThreads before o1 /\
          main_loop timeoutMs maxThreads after o2 /\
          out = o1 ++ Chunk s report :: o2).
Proof.
  intros s a b c d p timeoutMs maxThreads V Hp expansion report.
  assert (Hp' : p = 31 \/ p = 32) by (destruct V as (_ & _ & _ & _ & _ & ?); lia).
  assert (E : forall fuel, (3 <= fuel)%nat -> parseCIDR fuel s = Ret expansion).
  { intros fuel Hf. subst expansion. destruct Hp' as [-> | ->]; cbn [Z.eqb Pos.eqb].
    - apply (parseCIDR_slash31 fuel s a b c d V Hf).
    - apply (parseCIDR_slash32 fuel s a b c d V). lia. }
  assert (R : forall r, processCIDR timeoutMs maxThreads s r <-> r = report).
  { intros r. pose proof (E 3%nat (le_n 3)) as E3. subst expansion report.
    destruct Hp' as [-> | ->]; cbn [Z.eqb Pos.eqb] in *; split.
    - apply (processCIDR_empty _ _ _ _ _ E3).
    - intros ->. apply (process_empty _ _ _ 3%nat E3).
    - apply (processCIDR_error _ _ _ _ _ _ E3).
    - intros ->. apply (process_error _ _ _ 3%nat _ E3). }
  split; [exact E|]. split; [exact R|].
  split; [subst report; destruct (p =? 32); reflexivity|].
  intros before after out.
  change (s :: after) with ([s] ++ after).
  rewrite main_loop_app.
  assert (S1 : forall o, main_loop timeoutMs maxThreads [s] o <-> o = [Chunk s report]).
  { apply (main_loop_single _ _ s 0%nat); [|exact R].
    apply (splitIntoSubnets_narrow 0 s a b c d p V). lia. }
  split.
  - intros (o1 & o2 & H1 & H2 & ->).
    apply main_loop_app in H2. destruct H2 as (o3 & o4 & H3 & H4 & ->).
    apply S1 in H3. subst o3. exists o1, o4. auto.
  - intros (o1 & o2 & H1 & H2 & ->).
    exists o1, ([Chunk s report] ++ o2). split; [assumption|]. split; [|reflexivity].
    apply main_loop_app. exists [Chunk s report], o2.
    split; [apply S1; reflexivity|]. auto.
Qed.

Lemma C4_witness :
  valid_ipv4_cidr "192.168.1.0/31" 192 168 1 0 31 /\
  parseCIDR 3 "192.168.1.0/31" = Ret (Ok []) /\
  (forall r, processCIDR 800 100 "192.168.1.0/31" r <-> r = NoIPs).
Proof.
  assert (V : valid_ipv4_cidr "192.168.1.0/31" 192 168 1 0 31) by prove_valid.
  split; [exact V|].
  destruct (C4_blocks_without_hosts "192.168.1.0/31" 192 168 1 0 31 800 100 V
              ltac:(lia)) as (E & R & _).
  split; [apply (E 3%nat (le_n 3))|exact R].
Defined.

(** C4 as the claim states it fails: on 192.168.1.0/31 [parseCIDR] returns
    the empty list and a nil error, and no run of it returns the error
    "network too small for scanning". *)
Lemma C4_slash31_is_not_an_error :
  parseCIDR 3 "192.168.1.0/31" = Ret (Ok []) /\
  ~ (exists fuel, parseCIDR fuel "192.168.1.0/31" = Ret (Err ErrNetworkTooSmall)).
Proof.
  assert (E : parseCIDR 3 "192.168.1.0/31" = Ret (Ok [])) by (vm_compute; reflexivity).
  split; [exact E|]. intros (fuel & H).
  pose proof (parseCIDR_deterministic _ _ _ _ _ E H). discriminate.
Qed.

(** ** Reading back the text of an address *)

Lemma digit_char_facts k :
  0 <= k <= 9 -> plain_digit (digit_char k) /\ digit_val (digit_char k) = k.
Proof.
  intros Hk.
  assert (Hc : k = 0 \/ k = 1 \/ k = 2 \/ k = 3 \/ k = 4 \/ k = 5 \/ k = 6 \/ k = 7
               \/ k = 8 \/ k = 9) by lia.
  unfold plain_digit.
  repeat (destruct Hc as [-> | Hc]); try subst k; vm_compute; intuition congruence.
Qed.

Lemma appendDecimal_digits x :
  list_ascii_of_string (appendDecimal x) = digits_of x.
Proof.
  unfold appendDecimal, digits_of.
  destruct (100 <=? x) eqn:E100; destruct (10 <=? x) eqn:E10; try reflexivity.
  apply Z.leb_le in E100. apply Z.leb_gt in E10. lia.
Qed.

Lemma list_ascii_of_string_app s1 s2 :
  list_ascii_of_string (s1 ++ s2)%string
  = list_ascii_of_string s1 ++ list_ascii_of_string s2.
Proof. induction s1 as [|c s1 IH]; cbn; [reflexivity|]. rewrite IH. reflexivity. Qed.

Lemma digits_of_plain x : is_byte x -> Forall plain_digit (digits_of x).
Proof.
  unfold is_byte, digits_of. intros Hx.
  destruct (Z.leb_spec 100 x); [|destruct (Z.leb_spec 10 x)];
    repeat constructor; apply digit_char_facts; div_lia.
Qed.

(** The loop of [parseIPv4Fields] over the digits of one field. *)
Lemma parse_field x pos fields first prev rest :
  is_byte x ->
  exists n lastc,
    Ascii.eqb lastc chr_dot = false /\
    parseIPv4_loop (mkV4 0 pos 0 fields) first prev (digits_of x ++ rest)
    = parseIPv4_loop (mkV4 x pos n fields) false lastc rest.
Proof.
  unfold is_byte, digits_of. intros Hx.
  destruct (Z.leb_spec 100 x) as [H100|H100]; [|destruct (Z.leb_spec 10 x) as [H10|H10]].
  - destruct (digit_char_facts (x / 100) ltac:(div_lia)) as ((D1 & _) & V1).
    destruct (digit_char_facts (x / 10 mod 10) ltac:(div_lia)) as ((D2 & _) & V2).
    destruct (digit_char_facts (x mod 10) ltac:(div_lia)) as ((D3 & N3 & _) & V3).
    exists 3%nat, (digit_char (x mod 10)). split; [exact N3|].
    cbn [app parseIPv4_loop]. unfold parseIPv4_char.
    cbn [v4_val v4_pos v4_digLen v4_fields Nat.eqb andb].
    rewrite D1, V1. cbn [Z.mul Z.add].
    destruct (Z.ltb_spec 255 (x / 100)); [div_lia|].
    cbn [parseIPv4_loop]. unfold parseIPv4_char.
    cbn [v4_val v4_pos v4_digLen v4_fields Nat.eqb andb].
    rewrite D2, V2.
    destruct (Z.eqb_spec (x / 100) 0); [div_lia|].
    destruct (Z.ltb_spec 255 (x / 100 * 10 + x / 10 mod 10)); [div_lia|].
    cbn [parseIPv4_loop]. unfold parseIPv4_char.
    cbn [v4_val v4_pos v4_digLen v4_fields Nat.eqb andb].
    rewrite D3, V3.
    destruct (Z.ltb_spec 255 ((x / 100 * 10 + x / 10 mod 10) * 10 + x mod 10)); [div_lia|].
    replace ((x / 100 * 10 + x / 10 mod 10) * 10 + x mod 10) with x by div_lia.
    reflexivity.
  - destruct (digit_char_facts (x / 10 mod 10) ltac:(div_lia)) as ((D2 & _) & V2).
    destruct (digit_char_facts (x mod 10) ltac:(div_lia)) as ((D3 & N3 & _) & V3).
    exists 2%nat, (digit_char (x mod 10)). split; [exact N3|].
    cbn [app parseIPv4_loop]. unfold parseIPv4_char.
    cbn [v4_val v4_pos v4_digLen v4_fields Nat.eqb andb].
    rewrite D2, V2. cbn [Z.mul Z.add].
    destruct (Z.ltb_spec 255 (x / 10 mod 10)); [div_lia|].
    cbn [parseIPv4_loop]. unfold parseIPv4_char.
    cbn [v4_val v4_pos v4_digLen v4_fields Nat.eqb andb].
    rewrite D3, V3.
    destruct (Z.eqb_spec (x / 10 mod 10) 0); [div_lia|].
    destruct (Z.ltb_spec 255 (x / 10 mod 10 * 10 + x mod 10)); [div_lia|].
    replace (x / 10 mod 10 * 10 + x mod 10) with x by div_lia.
    reflexivity.
  - destruct (digit_char_facts (x mod 10) ltac:(div_lia)) as ((D3 & N3 & _) & V3).
    exists 1%nat, (digit_char (x mod 10)). split; [exact N3|].
    cbn [app parseIPv4_loop]. unfold parseIPv4_char.
    cbn [v4_val v4_pos v4_digLen v4_fields Nat.eqb andb].
    rewrite D3, V3. cbn [Z.mul Z.add].
    destruct (Z.ltb_spec 255 (x mod 10)); [div_lia|].
    replace (x mod 10) with x by div_lia.
    reflexivity.
Qed.

(** The same loop over the dot after a field that is not the last. *)
Lemma parse_dot x pos n fields prev rest :
  is_byte x -> (pos < 3)%nat -> Ascii.eqb prev chr_dot = false ->
  no_more rest = false ->
  parseIPv4_loop (mkV4 x pos n fields) false prev (chr_dot :: rest)
  = parseIPv4_loop (mkV4 0 (S pos) 0 (fields ++ [x])) false chr_dot rest.
Proof.
  unfold is_byte. intros Hx Hpos Hprev Hrest.
  cbn [parseIPv4_loop]. unfold parseIPv4_char. rewrite Hrest.
  change (is_digit chr_dot) with false. change (Ascii.eqb chr_dot chr_dot) with true.
  rewrite Hprev. cbn [orb v4_pos v4_val v4_fields].
  destruct (Nat.eqb_spec pos 3); [lia|].
  unfold u8. rewrite Z.mod_small by lia. reflexivity.
Qed.

Lemma digits_of_more x rest : is_byte x -> no_more (digits_of x ++ rest) = false.
Proof.
  intros Hx. unfold digits_of.
  destruct (100 <=? x); [reflexivity|]. destruct (10 <=? x); reflexivity.
Qed.

Lemma digits_of_cons x : is_byte x -> exists c t, digits_of x = c :: t /\ plain_digit c.
Proof.
  intros Hx. pose proof (digits_of_plain x Hx) as F.
  destruct (digits_of x) as [|c t] eqn:E.
  - unfold digits_of in E.
    destruct (100 <=? x); [discriminate|]. destruct (10 <=? x); discriminate.
  - exists c, t. inversion F; auto.
Qed.

Lemma IP_String_dotted a b c d :
  list_ascii_of_string (IP_String [a; b; c; d]) = dotted a b c d.
Proof.
  change (IP_String [a; b; c; d])
    with (appendDecimal a ++ String chr_dot (appendDecimal b ++ String chr_dot
            (appendDecimal c ++ String chr_dot (appendDecimal d))))%string.
  unfold dotted.
  repeat (rewrite list_ascii_of_string_app; cbn [list_ascii_of_string]).
  rewrite !appendDecimal_digits. reflexivity.
Qed.

Lemma parseIPv4_dotted a b c d :
  is_byte a -> is_byte b -> is_byte c -> is_byte d ->
  parseIPv4 (dotted a b c d) = Some [a; b; c; d].
Proof.
  intros Ha Hb Hc Hd. unfold parseIPv4, dotted.
  destruct (parse_field a 0 [] true zero
              (chr_dot :: digits_of b ++ chr_dot :: digits_of c ++ chr_dot :: digits_of d) Ha)
    as (n1 & l1 & N1 & ->).
  rewrite parse_dot by (assumption || lia || apply digits_of_more; assumption).
  destruct (parse_field b 1 ([] ++ [a]) false chr_dot
              (chr_dot :: digits_of c ++ chr_dot :: digits_of d) Hb)
    as (n2 & l2 & N2 & ->).
  rewrite parse_dot by (assumption || lia || apply digits_of_more; assumption).
  destruct (parse_field c 2 (([] ++ [a]) ++ [b]) false chr_dot (chr_dot :: digits_of d) Hc)
    as (n3 & l3 & N3 & ->).
  rewrite <- (app_nil_r (digits_of d)).
  rewrite parse_dot by (assumption || lia || apply digits_of_more; assumption).
  destruct (parse_field d 3 ((([] ++ [a]) ++ [b]) ++ [c]) false chr_dot [] Hd)
    as (n4 & l4 & N4 & ->).
  cbn [parseIPv4_loop v4_pos v4_fields v4_val Nat.ltb Nat.leb app].
  unfold u8, is_byte in *. rewrite Z.mod_small by lia. reflexivity.
Qed.

Lemma ParseAddr_scan_digits whole ds rest :
  Forall plain_digit ds ->
  ParseAddr_scan whole (ds ++ chr_dot :: rest)
  = match parseIPv4 whole with Some f => AddrV4 f | None => AddrError end.
Proof.
  induction 1 as [|c ds (_ & Hdot & _ & Hcolon & Hpct) _ IH]; cbn [app ParseAddr_scan].
  - change (Ascii.eqb chr_dot chr_dot) with true. reflexivity.
  - rewrite Hdot, Hcolon, Hpct. exact IH.
Qed.

Lemma ParseAddr_dotted a b c d :
  is_byte a -> is_byte b -> is_byte c -> is_byte d ->
  ParseAddr (dotted a b c d) = AddrV4 [a; b; c; d].
Proof.
  intros Ha Hb Hc Hd. unfold ParseAddr.
  unfold dotted at 2. rewrite ParseAddr_scan_digits by (apply digits_of_plain; assumption).
  rewrite parseIPv4_dotted by assumption. reflexivity.
Qed.

Lemma cut_slash_app l m :
  Forall (fun c => Ascii.eqb c chr_slash = false) l ->
  cut_slash (l ++ chr_slash :: m) = Some (l, m).
Proof.
  induction 1 as [|c l Hc _ IH]; cbn [app cut_slash].
  - change (Ascii.eqb chr_slash chr_slash) with true. reflexivity.
  - rewrite Hc, IH. reflexivity.
Qed.

Lemma dotted_no_slash a b c d :
  is_byte a -> is_byte b -> is_byte c -> is_byte d ->
  Forall (fun c => Ascii.eqb c chr_slash = false) (dotted a b c d).
Proof.
  intros Ha Hb Hc Hd. unfold dotted.
  assert (P : forall x, is_byte x ->
                Forall (fun c => Ascii.eqb c chr_slash = false) (digits_of x)).
  { intros x Hx. eapply Forall_impl; [|apply digits_of_plain, Hx].
    intros ch (_ & _ & H & _). exact H. }
  repeat (apply Forall_app; split; [apply P; assumption|]; constructor; [reflexivity|]).
  apply P; assumption.
Qed.

(** The text of a /24 chunk parses to the chunk. *)
Lemma chunk_text_valid a b c d :
  is_byte a -> is_byte b -> is_byte c -> is_byte d ->
  valid_ipv4_cidr (IP_String [a; b; c; d] ++ "/24")%string a b c d 24.
Proof.
  intros Ha Hb Hc Hd. unfold valid_ipv4_cidr.
  split; [|repeat (split; [assumption|]); lia].
  unfold net_ParseCIDR.
  rewrite list_ascii_of_string_app, IP_String_dotted.
  change (list_ascii_of_string "/24") with (chr_slash :: list_ascii_of_string "24").
  rewrite cut_slash_app by (apply dotted_no_slash; assumption).
  rewrite ParseAddr_dotted by assumption. reflexivity.
Qed.

Lemma chunk_string_valid x :
  0 <= x < 2 ^ 32 ->
  exists a b c d, valid_ipv4_cidr (chunk_string x) a b c d 24 /\ val4 a b c d = x.
Proof.
  intros Hx. destruct (addr_bytes x Hx) as (a & b & c & d & Ha & Hb & Hc & Hd & E & V).
  exists a, b, c, d. split; [|exact V].
  unfold chunk_string. rewrite E. apply chunk_text_valid; assumption.
Qed.

(** Expanding a chunk of a subdivision gives its 254 host addresses. *)
Lemma chunk_string_hosts x fuel :
  0 <= x < 2 ^ 32 -> x mod 256 = 0 -> (256 < fuel)%nat ->
  parseCIDR fuel (chunk_string x) = Ret (Ok (host_strings (x + 1) 254)).
Proof.
  intros Hx Hal Hf. destruct (chunk_string_valid x Hx) as (a & b & c & d & V & E).
  rewrite (parseCIDR_hosts fuel _ a b c d 24 V) by (change (block_size 24) with 256; lia).
  unfold network. rewrite E. change (block_size 24) with 256.
  replace (x / 256 * 256) with x by div_lia. reflexivity.
Qed.

(** Every chunk of a subdivision is a valid IPv4 CIDR of prefix length 24
    at its base. *)
Lemma splitIntoSubnets_chunks_valid fuel s a b c d p :
  valid_ipv4_cidr s a b c d p -> 1 <= p < 24 ->
  2 ^ (24 - p) <= Z.of_nat fuel ->
  exists bases,
    splitIntoSubnets fuel s = Ret (map chunk_string bases) /\
    Forall (fun x => x mod 256 = 0 /\
                     exists a' b' c' d',
                       valid_ipv4_cidr (chunk_string x) a' b' c' d' 24 /\
                       val4 a' b' c' d' = x) bases.
Proof.
  intros V Hp Hf.
  destruct (splitIntoSubnets_partitions fuel s a b c d p V Hp Hf)
    as (E & Hal & Hcov & _).
  eexists. split; [exact E|].
  apply Forall_forall. intros x Hx. split; [apply Hal, Hx|].
  apply chunk_string_valid.
  destruct V as (_ & Ha & Hb & Hc & Hd & Hp').
  destruct (network_block a b c d p Ha Hb Hc Hd Hp') as (N0 & N1 & _).
  assert (Hin : network a b c d p <= x < network a b c d p + block_size p).
  { apply Hcov. exists x. split; [exact Hx|lia]. }
  lia.
Qed.

(** ** The dispatcher: goroutines in a list *)

Lemma count_app p l1 l2 : count p (l1 ++ l2) = (count p l1 + count p l2)%nat.
Proof. unfold count. rewrite filter_app, length_app. reflexivity. Qed.

Lemma count_cons p t l : count p (t :: l) = (b2n (p t) + count p l)%nat.
Proof. unfold count. cbn [filter]. destruct (p t); reflexivity. Qed.

Lemma count_le_length p l : (count p l <= length l)%nat.
Proof. unfold count. apply filter_length_le. Qed.

Lemma set_task_split ts : forall i old new,
  nth_error ts i = Some old ->
  exists l1 l2, ts = l1 ++ old :: l2 /\ set_task ts i new = l1 ++ new :: l2 /\
                length l1 = i.
Proof.
  induction ts as [|x ts IH]; intros [|i] old new H; cbn in H; try discriminate.
  - inversion H; subst. exists [], ts. auto.
  - destruct (IH i old new H) as (l1 & l2 & -> & E & L).
    exists (x :: l1), l2. cbn. rewrite E, L. auto.
Qed.

Lemma count_set_task p ts i old new :
  nth_error ts i = Some old ->
  (count p (set_task ts i new) + b2n (p old) = count p ts + b2n (p new))%nat.
Proof.
  intros H. destruct (set_task_split ts i old new H) as (l1 & l2 & -> & -> & _).
  rewrite !count_app, !count_cons. lia.
Qed.

Lemma total_app w l1 l2 : total w (l1 ++ l2) = (total w l1 + total w l2)%nat.
Proof.
  unfold total. induction l1 as [|x l1 IH]; cbn [app fold_right]; [reflexivity|].
  rewrite IH. lia.
Qed.

Lemma total_set_task w ts i old new :
  nth_error ts i = Some old ->
  (total w (set_task ts i new) + w old = total w ts + w new)%nat.
Proof.
  intros H. destruct (set_task_split ts i old new H) as (l1 & l2 & -> & -> & _).
  rewrite !total_app. cbn. lia.
Qed.

Lemma length_set_task ts : forall i t, length (set_task ts i t) = length ts.
Proof. induction ts as [|x ts IH]; intros [|i] t; cbn; auto. Qed.

Lemma map_ip_set_task ts i ip pc pc' :
  nth_error ts i = Some (mkTask ip pc) ->
  map t_ip (set_task ts i (mkTask ip pc')) = map t_ip ts.
Proof.
  intros H. destruct (set_task_split ts i _ (mkTask ip pc') H) as (l1 & l2 & -> & -> & _).
  rewrite !map_app. reflexivity.
Qed.

Lemma sent_results_set_task ts i old new :
  nth_error ts i = Some old ->
  Permutation (sent_results (set_task ts i new) ++ sent_of old)
              (sent_results ts ++ sent_of new).
Proof.
  intros H. destruct (set_task_split ts i old new H) as (l1 & l2 & -> & -> & _).
  unfold sent_results. rewrite !flat_map_app. cbn [flat_map].
  rewrite <- !app_assoc.
  apply Permutation_app_head.
  etransitivity; [apply Permutation_app_comm|].
  rewrite <- app_assoc.
  etransitivity; [apply Permutation_app_comm|].
  rewrite <- !app_assoc. apply Permutation_app_head, Permutation_app_comm.
Qed.

Lemma Forall_set_task (P : task -> Prop) ts : forall i t,
  Forall P ts -> P t -> Forall P (set_task ts i t).
Proof.
  induction ts as [|x ts IH]; intros [|i] t H Ht; cbn; auto;
    inversion H; subst; constructor; auto.
Qed.

Lemma nth_error_set_task ts : forall i j t,
  (i < length ts)%nat ->
  nth_error (set_task ts i t) j = if (j =? i)%nat then Some t else nth_error ts j.
Proof.
  induction ts as [|x ts IH]; intros [|i] [|j] t H; cbn in *; try lia; auto.
  apply IH. lia.
Qed.

Lemma firstn_S_nth_error {A} (l : list A) : forall k x,
  nth_error l k = Some x -> firstn (S k) l = firstn k l ++ [x].
Proof.
  induction l as [|y l IH]; intros [|k] x H; cbn in H; try discriminate.
  - inversion H; reflexivity.
  - cbn [firstn app]. f_equal. apply IH, H.
Qed.

Lemma count_pos_exists p ts :
  (0 < count p ts)%nat -> exists i t, nth_error ts i = Some t /\ p t = true.
Proof.
  induction ts as [|x ts IH]; [cbn; lia|].
  rewrite count_cons. destruct (p x) eqn:E.
  - intros _. exists 0%nat, x. auto.
  - cbn [b2n]. intros H. destruct (IH H) as (i & t & Hi & Ht). exists (S i), t. auto.
Qed.

Lemma count_zero_all p ts :
  count p ts = 0%nat -> forall i t, nth_error ts i = Some t -> p t = false.
Proof.
  induction ts as [|x ts IH]; intros H [|i] t Hi; cbn in Hi; try discriminate;
    rewrite count_cons in H; destruct (p x) eqn:E; cbn [b2n] in H; try lia.
  - inversion Hi; subst; assumption.
  - apply (IH H i t Hi).
Qed.

Lemma count_lt_length p ts i t :
  nth_error ts i = Some t -> p t = false -> (count p ts < length ts)%nat.
Proof.
  intros H Hp. destruct (set_task_split ts i t t H) as (l1 & l2 & -> & _ & _).
  rewrite count_app, count_cons, length_app, Hp. cbn [b2n length].
  pose proof (count_le_length p l1). pose proof (count_le_length p l2). lia.
Qed.

Lemma length_sent_results ts : length (sent_results ts) = count has_sent ts.
Proof.
  induction ts as [|t ts IH]; [reflexivity|].
  unfold sent_results in *. cbn [flat_map]. rewrite length_app, IH, count_cons.
  unfold sent_of, has_sent. destruct (t_pc t); reflexivity.
Qed.

Lemma nth_error_lt {A} (l : list A) i x : nth_error l i = Some x -> (i < length l)%nat.
Proof. intros H. apply nth_error_Some. congruence. Qed.

(** ** The invariant holds along every execution *)

Lemma invariant_init c : invariant c init.
Proof.
  constructor; cbn; auto; try discriminate.
Qed.

Lemma invariant_step c s e s' :
  invariant c s -> step_rel c s e s' -> invariant c s'.
Proof.
  intros [Isp Iip Iwg Isem Iceil Ires Iprog Iwait Iret Iok] Hstep.
  destruct Hstep as
    [s k ip Hm Hn | s k Hm Hn | s i ip Ht Hc | s i ip lib Ht | s i ip r Ht Hcl Hcap
    | s i ip r n Ht Hs | s i ip r Ht Hcap | s i ip r n Ht Hw | s Hw Hz | s Hw Hcl
    | s r rest Hm Hr | s Hm Hr Hcl | s n Hp ];
    try rewrite Hm in *.
  - (* spawn *)
    destruct Isp as [Hl Hwt].
    constructor; cbn [st_main st_tasks st_waiter st_wg st_sem st_results st_closed
                      st_progress st_pingResults].
    + rewrite length_app. cbn. split; [lia|assumption].
    + rewrite map_app, length_app, Iip, Hl. cbn [map length t_ip].
      replace (k + 1)%nat with (S k) by lia.
      symmetry. apply firstn_S_nth_error, Hn.
    + rewrite count_app, Iwg. cbn. lia.
    + rewrite count_app, Isem. cbn. lia.
    + assumption.
    + unfold sent_results in *. rewrite flat_map_app. cbn. rewrite app_nil_r. assumption.
    + rewrite count_app. lia.
    + rewrite Hwt in *. assumption.
    + discriminate.
    + apply Forall_app. split; [assumption|]. constructor; [exact I|constructor].
  - (* spawn the waiter *)
    destruct Isp as [Hl Hwt]. rewrite Hwt in Iwait.
    constructor; cbn [st_main st_tasks st_waiter st_wg st_sem st_results st_closed
                      st_progress st_pingResults]; auto; try discriminate.
    split; [|discriminate].
    apply nth_error_None in Hn.
    assert (length (map t_ip (st_tasks s)) = length (st_tasks s)) by apply length_map.
    rewrite Iip, length_firstn in H. lia.
  - (* acquire *)
    pose proof (nth_error_lt _ _ _ Ht) as L.
    constructor; cbn [st_main st_tasks st_waiter st_wg st_sem st_results st_closed
                      st_progress st_pingResults].
    + rewrite length_set_task. assumption.
    + rewrite length_set_task, (map_ip_set_task _ _ _ _ _ Ht). assumption.
    + pose proof (count_set_task not_exited _ _ _ (mkTask ip TPing) Ht) as X.
      cbn in X. lia.
    + pose proof (count_set_task holds_slot _ _ _ (mkTask ip TPing) Ht) as X.
      cbn in X. lia.
    + right. lia.
    + pose proof (sent_results_set_task _ _ _ (mkTask ip TPing) Ht) as X.
      cbn in X. rewrite !app_nil_r in X. rewrite X. assumption.
    + pose proof (count_set_task has_signalled _ _ _ (mkTask ip TPing) Ht) as X.
      cbn in X. lia.
    + assumption.
    + assumption.
    + apply Forall_set_task; [assumption|exact I].
  - (* probe *)
    pose proof (nth_error_lt _ _ _ Ht) as L.
    constructor; cbn [with_task st_main st_tasks st_waiter st_wg st_sem st_results
                      st_closed st_progress st_pingResults].
    + rewrite length_set_task. assumption.
    + rewrite length_set_task, (map_ip_set_task _ _ _ _ _ Ht). assumption.
    + pose proof (count_set_task not_exited _ _ _ (mkTask ip (TSend (pingIP lib ip (cfg_timeoutMs c)))) Ht) as X.
      cbn in X. lia.
    + pose proof (count_set_task holds_slot _ _ _ (mkTask ip (TSend (pingIP lib ip (cfg_timeoutMs c)))) Ht) as X.
      cbn in X. lia.
    + assumption.
    + pose proof (sent_results_set_task _ _ _ (mkTask ip (TSend (pingIP lib ip (cfg_timeoutMs c)))) Ht) as X.
      cbn in X. rewrite !app_nil_r in X. rewrite X. assumption.
    + pose proof (count_set_task has_signalled _ _ _ (mkTask ip (TSend (pingIP lib ip (cfg_timeoutMs c)))) Ht) as X.
      cbn in X. lia.
    + assumption.
    + assumption.
    + apply Forall_set_task; [assumption|].
      unfold result_ok, pingIP. cbn.
      destruct (ping_NewPinger lib ip); [|reflexivity].
      destruct (ping_Run lib _); reflexivity.
  - (* send *)
    pose proof (nth_error_lt _ _ _ Ht) as L.
    assert (Hok : result_ok (mkTask ip (TSend r))).
    { rewrite Forall_forall in Iok. apply Iok. eapply nth_error_In; eauto. }
    constructor; cbn [st_main st_tasks st_waiter st_wg st_sem st_results st_closed
                      st_progress st_pingResults].
    + rewrite length_set_task. assumption.
    + rewrite length_set_task, (map_ip_set_task _ _ _ _ _ Ht). assumption.
    + pose proof (count_set_task not_exited _ _ _ (mkTask ip (TRelease r)) Ht) as X.
      cbn in X. lia.
    + pose proof (count_set_task holds_slot _ _ _ (mkTask ip (TRelease r)) Ht) as X.
      cbn in X. lia.
    + assumption.
    + pose proof (sent_results_set_task _ _ _ (mkTask ip (TRelease r)) Ht) as X.
      cbn in X. rewrite !app_nil_r in X. rewrite X, app_assoc.
      apply Permutation_app_tail. assumption.
    + pose proof (count_set_task has_signalled _ _ _ (mkTask ip (TRelease r)) Ht) as X.
      cbn in X. lia.
    + assumption.
    + intros Hr. destruct (Iret Hr) as [Hc' _]. congruence.
    + apply Forall_set_task; [assumption|exact Hok].
  - (* release *)
    pose proof (nth_error_lt _ _ _ Ht) as L.
    assert (Hok : result_ok (mkTask ip (TRelease r))).
    { rewrite Forall_forall in Iok. apply Iok. eapply nth_error_In; eauto. }
    constructor; cbn [st_main st_tasks st_waiter st_wg st_sem st_results st_closed
                      st_progress st_pingResults].
    + rewrite length_set_task. assumption.
    + rewrite length_set_task, (map_ip_set_task _ _ _ _ _ Ht). assumption.
    + pose proof (count_set_task not_exited _ _ _ (mkTask ip (TProgress r)) Ht) as X.
      cbn in X. lia.
    + pose proof (count_set_task holds_slot _ _ _ (mkTask ip (TProgress r)) Ht) as X.
      cbn in X. lia.
    + destruct Iceil as [Z0|Zc]; [lia|]. right. lia.
    + pose proof (sent_results_set_task _ _ _ (mkTask ip (TProgress r)) Ht) as X.
      cbn in X. apply Permutation_app_inv_r in X. rewrite X. assumption.
    + pose proof (count_set_task has_signalled _ _ _ (mkTask ip (TProgress r)) Ht) as X.
      cbn in X. lia.
    + assumption.
    + assumption.
    + apply Forall_set_task; [assumption|exact Hok].
  - (* progress *)
    pose proof (nth_error_lt _ _ _ Ht) as L.
    assert (Hok : result_ok (mkTask ip (TProgress r))).
    { rewrite Forall_forall in Iok. apply Iok. eapply nth_error_In; eauto. }
    constructor; cbn [st_main st_tasks st_waiter st_wg st_sem st_results st_closed
                      st_progress st_pingResults].
    + rewrite length_set_task. assumption.
    + rewrite length_set_task, (map_ip_set_task _ _ _ _ _ Ht). assumption.
    + pose proof (count_set_task not_exited _ _ _ (mkTask ip (TDone r)) Ht) as X.
      cbn in X. lia.
    + pose proof (count_set_task holds_slot _ _ _ (mkTask ip (TDone r)) Ht) as X.
      cbn in X. lia.
    + assumption.
    + pose proof (sent_results_set_task _ _ _ (mkTask ip (TDone r)) Ht) as X.
      cbn in X. apply Permutation_app_inv_r in X. rewrite X. assumption.
    + pose proof (count_set_task has_signalled _ _ _ (mkTask ip (TDone r)) Ht) as X.
      cbn in X. lia.
    + assumption.
    + assumption.
    + apply Forall_set_task; [assumption|exact Hok].
  - (* done *)
    pose proof (nth_error_lt _ _ _ Ht) as L.
    assert (Hok : result_ok (mkTask ip (TDone r))).
    { rewrite Forall_forall in Iok. apply Iok. eapply nth_error_In; eauto. }
    constructor; cbn [st_main st_tasks st_waiter st_wg st_sem st_results st_closed
                      st_progress st_pingResults].
    + rewrite length_set_task. assumption.
    + rewrite length_set_task, (map_ip_set_task _ _ _ _ _ Ht). assumption.
    + pose proof (count_set_task not_exited _ _ _ (mkTask ip (TExit r)) Ht) as X.
      cbn in X. lia.
    + pose proof (count_set_task holds_slot _ _ _ (mkTask ip (TExit r)) Ht) as X.
      cbn in X. lia.
    + assumption.
    + pose proof (sent_results_set_task _ _ _ (mkTask ip (TExit r)) Ht) as X.
      cbn in X. apply Permutation_app_inv_r in X. rewrite X. assumption.
    + pose proof (count_set_task has_signalled _ _ _ (mkTask ip (TExit r)) Ht) as X.
      cbn in X. lia.
    + destruct (st_waiter s); try assumption; destruct Iwait; lia.
    + assumption.
    + apply Forall_set_task; [assumption|exact Hok].
  - (* the wait is over *)
    rewrite Hw in *.
    constructor; cbn [st_main st_tasks st_waiter st_wg st_sem st_results st_closed
                      st_progress st_pingResults]; auto.
    destruct (st_main s); destruct Isp; try discriminate; split; auto; discriminate.
  - (* close *)
    rewrite Hw in *.
    constructor; cbn [st_main st_tasks st_waiter st_wg st_sem st_results st_closed
                      st_progress st_pingResults]; auto.
    + destruct (st_main s); destruct Isp; try discriminate; split; auto; discriminate.
    + destruct Iwait. auto.
    + intros Hr. destruct (Iret Hr) as [_ Hr']. auto.
  - (* collect *)
    rewrite Hr in *.
    constructor; cbn [st_main st_tasks st_waiter st_wg st_sem st_results st_closed
                      st_progress st_pingResults]; auto; try discriminate.
    rewrite <- app_assoc. assumption.
  - (* return *)
    rewrite Hr in *.
    constructor; cbn [st_main st_tasks st_waiter st_wg st_sem st_results st_closed
                      st_progress st_pingResults]; auto.
  - (* the monitor receives *)
    constructor; cbn [st_main st_tasks st_waiter st_wg st_sem st_results st_closed
                      st_progress st_pingResults]; auto. lia.
Qed.

Lemma exec_invariant c tr s : exec c tr s -> invariant c s.
Proof.
  induction 1 as [|tr s e s' _ IH Hs]; [apply invariant_init|].
  eapply invariant_step; eauto.
Qed.

(** ** Every step uses up the measure *)

Lemma measure_step c s e s' :
  step_rel c s e s' -> (measure c s' < measure c s)%nat.
Proof.
  intros Hstep.
  destruct Hstep as
    [s k ip Hm Hn | s k Hm Hn | s i ip Ht Hc | s i ip lib Ht | s i ip r Ht Hcl Hcap
    | s i ip r n Ht Hs | s i ip r Ht Hcap | s i ip r n Ht Hw | s Hw Hz | s Hw Hcl
    | s r rest Hm Hr | s Hm Hr Hcl | s n Hp ];
    unfold measure;
    cbn [with_task st_main st_tasks st_waiter st_wg st_sem st_results st_closed
         st_progress st_pingResults];
    try rewrite Hm; try rewrite Hw; try rewrite Hr; try rewrite Hp;
    try rewrite length_app; cbn [length];
    try match goal with
      | Ht : nth_error (st_tasks ?s) ?i = Some ?old
        |- context [set_task (st_tasks ?s) ?i ?new] =>
          let X := fresh in
          pose proof (total_set_task weight _ _ _ new Ht) as X; cbn in X
      end;
    try lia.
  pose proof (nth_error_lt _ _ _ Hn). rewrite total_app. cbn. lia.
Qed.

Lemma exec_bounded c tr s :
  exec c tr s -> (length tr + measure c s <= 9 * length (cfg_ips c) + 7)%nat.
Proof.
  induction 1 as [|tr s e s' _ IH Hs].
  - unfold measure. cbn. lia.
  - pose proof (measure_step _ _ _ _ Hs). rewrite length_app. cbn [length]. lia.
Qed.

(** ** A step is always possible until the dispatcher returns *)

Lemma task_can_step c s i t :
  invariant c s -> st_main s <> MReturned ->
  nth_error (st_tasks s) i = Some t ->
  not_exited t = true ->
  t_pc t <> TAcquire ->
  exists e s', step_rel c s e s'.
Proof.
  intros Inv Hm Ht Hne Hacq.
  destruct Inv as [Isp Iip Iwg Isem Iceil Ires Iprog Iwait Iret Iok].
  assert (HN : (length (st_tasks s) <= length (cfg_ips c))%nat).
  { assert (X : length (map t_ip (st_tasks s)) = length (st_tasks s)) by apply length_map.
    rewrite Iip, length_firstn in X. lia. }
  assert (Hwg : (0 < st_wg s)%nat).
  { rewrite Iwg. pose proof (count_set_task not_exited _ _ _ t Ht) as X.
    rewrite Hne in X. cbn [b2n] in X.
    destruct (set_task_split _ _ _ t Ht) as (l1 & l2 & E & _ & _).
    rewrite E, count_app, count_cons, Hne. cbn. lia. }
  assert (Hcl : st_closed s = false).
  { destruct (st_waiter s); try assumption; destruct Iwait; lia. }
  destruct t as [ip pc]. cbn [t_pc] in Hacq.
  destruct pc as [| |r|r|r|r|r].
  - contradiction.
  - eexists. eexists. apply (step_probe c s i ip (lib_answering true) Ht).
  - eexists. eexists. apply (step_send c s i ip r Ht Hcl).
    apply Permutation_length in Ires. rewrite length_app, length_sent_results in Ires.
    pose proof (count_lt_length has_sent _ _ _ Ht eq_refl).
    unfold results_cap. lia.
  - assert (0 < st_sem s)%nat.
    { rewrite Isem. destruct (set_task_split _ _ _ (mkTask ip (TRelease r)) Ht)
        as (l1 & l2 & E & _ & _).
      rewrite E, count_app, count_cons. cbn. lia. }
    destruct (st_sem s) as [|n] eqn:En; [lia|].
    eexists. eexists. apply (step_release c s i ip r n Ht En).
  - eexists. eexists. apply (step_progress c s i ip r Ht).
    pose proof (count_lt_length has_signalled _ _ _ Ht eq_refl).
    unfold progress_cap. lia.
  - destruct (st_wg s) as [|n] eqn:En; [lia|].
    eexists. eexists. apply (step_done c s i ip r n Ht En).
  - discriminate.
Qed.

Lemma can_step c s :
  invariant c s -> 1 <= cfg_maxThreads c -> st_main s <> MReturned ->
  exists e s', step_rel c s e s'.
Proof.
  intros Inv Hthreads Hm. pose proof Inv as Inv0.
  destruct Inv as [Isp Iip Iwg Isem Iceil Ires Iprog Iwait Iret Iok].
  destruct (st_main s) as [k| |] eqn:Em; [| |contradiction].
  - destruct (nth_error (cfg_ips c) k) as [ip|] eqn:En.
    + eexists. eexists. apply (step_spawn c s k ip Em En).
    + eexists. eexists. apply (step_spawn_waiter c s k Em En).
  - destruct (st_results s) as [|r rest] eqn:Er.
    2:{ eexists. eexists. apply (step_collect c s r rest Em Er). }
    destruct (st_closed s) eqn:Ec.
    { eexists. eexists. apply (step_return c s Em Er Ec). }
    destruct Isp as [Hlen Hw].
    destruct (st_waiter s) eqn:Ew; [contradiction| | |destruct Iwait; congruence].
    2:{ eexists. eexists. apply (step_close c s Ew Ec). }
    destruct (st_wg s) as [|n] eqn:Eg.
    { eexists. eexists. apply (step_wait_done c s Ew Eg). }
    destruct (count_pos_exists not_exited (st_tasks s)) as (i & t & Ht & Hne); [lia|].
    assert (Hm' : st_main s <> MReturned) by congruence.
    destruct t as [ip pc].
    destruct pc as [| |r|r|r|r|r];
      try (apply (task_can_step c s i _ Inv0 Hm' Ht Hne); discriminate).
    destruct (Z_lt_ge_dec (Z.of_nat (st_sem s)) (cfg_maxThreads c)) as [Lt|Ge].
    + eexists. eexists. apply (step_acquire c s i ip Ht Lt).
    + destruct (count_pos_exists holds_slot (st_tasks s)) as (j & t & Hj & Hh); [lia|].
      apply (task_can_step c s j t Inv0 Hm' Hj).
      * destruct t as [ip' pc']. destruct pc'; cbn in Hh |- *; congruence.
      * destruct t as [ip' pc']. destruct pc'; cbn in Hh |- *; congruence.
Qed.

(** ** What has been collected when the dispatcher returns *)

Lemma all_exited_sent ts :
  count not_exited ts = 0%nat -> Forall result_ok ts ->
  map PingResult_IP (sent_results ts) = map t_ip ts.
Proof.
  induction ts as [|t ts IH]; intros Hc Hok; [reflexivity|].
  rewrite count_cons in Hc. inversion Hok as [|? ? Ht Hts]; subst.
  unfold sent_results in *. cbn [flat_map map]. rewrite map_app, IH by (assumption || lia).
  destruct t as [ip pc]. destruct pc; cbn in Hc; try lia.
  cbn. unfold result_ok in Ht. cbn in Ht. rewrite Ht. reflexivity.
Qed.

Lemma returned_outcomes c s :
  invariant c s -> st_main s = MReturned ->
  Permutation (map PingResult_IP (st_pingResults s)) (cfg_ips c) /\
  length (st_pingResults s) = length (cfg_ips c) /\
  count not_exited (st_tasks s) = 0%nat /\
  length (st_tasks s) = length (cfg_ips c).
Proof.
  intros [Isp Iip Iwg Isem Iceil Ires Iprog Iwait Iret Iok] Hm.
  destruct (Iret Hm) as [Hcl Hr]. rewrite Hm in Isp. destruct Isp as [Hlen _].
  assert (Hz : count not_exited (st_tasks s) = 0%nat).
  { rewrite <- Iwg.
    destruct (st_waiter s); [congruence|congruence| |]; destruct Iwait; congruence. }
  rewrite Hr, app_nil_r in Ires.
  assert (P : Permutation (map PingResult_IP (st_pingResults s)) (cfg_ips c)).
  { rewrite (Permutation_map PingResult_IP Ires).
    rewrite all_exited_sent by assumption.
    rewrite Iip, Hlen, firstn_all. reflexivity. }
  split; [exact P|]. split; [|auto].
  apply Permutation_length in P. rewrite length_map in P. exact P.
Qed.

(** ** The interpreter follows the transition system *)

Lemma pingIP_lib_answering alive ip timeoutMs :
  pingIP (lib_answering alive) ip timeoutMs = mkPingResult ip alive.
Proof. destruct alive; reflexivity. Qed.

Lemma PingResult_eqb_eq r r' :
  String.eqb (PingResult_IP r) (PingResult_IP r') && Bool.eqb (Alive r) (Alive r') = true ->
  r = r'.
Proof.
  destruct r as [ip a], r' as [ip' a']. cbn. intros H.
  apply andb_true_iff in H. destruct H as [H1 H2].
  apply String.eqb_eq in H1. apply Bool.eqb_prop in H2. congruence.
Qed.

Lemma do_step_sound c s e s' : do_step c s e = Some s' -> step_rel c s e s'.
Proof.
  destruct e as [k| |i|i r|i|i|i|i| | |r| |]; cbn [do_step]; unfold do_task.
  - destruct (st_main s) as [k'| |] eqn:Em; try discriminate.
    destruct (nth_error (cfg_ips c) k) as [ip|] eqn:En; try discriminate.
    destruct (Nat.eqb_spec k k'); [subst|discriminate].
    intros X; inversion X; subst. apply (step_spawn c s k' ip Em En).
  - destruct (st_main s) as [k'| |] eqn:Em; try discriminate.
    destruct (nth_error (cfg_ips c) k') as [ip|] eqn:En; try discriminate.
    intros X; inversion X; subst. apply (step_spawn_waiter c s k' Em En).
  - destruct (nth_error (st_tasks s) i) as [[ip pc]|] eqn:Et; try discriminate.
    cbn [t_ip t_pc]. destruct pc; try discriminate.
    destruct (Z.ltb_spec (Z.of_nat (st_sem s)) (cfg_maxThreads c)); [|discriminate].
    intros X; inversion X; subst. apply (step_acquire c s i ip Et). assumption.
  - destruct (nth_error (st_tasks s) i) as [[ip pc]|] eqn:Et; try discriminate.
    cbn [t_ip t_pc]. destruct pc; try discriminate.
    destruct (String.eqb_spec (PingResult_IP r) ip) as [E|]; [|discriminate].
    intros X; inversion X; subst.
    replace r with (pingIP (lib_answering (Alive r)) (PingResult_IP r) (cfg_timeoutMs c))
      by (rewrite pingIP_lib_answering; destruct r; reflexivity).
    apply (step_probe c s i _ _ Et).
  - destruct (nth_error (st_tasks s) i) as [[ip pc]|] eqn:Et; try discriminate.
    cbn [t_ip t_pc]. destruct pc; try discriminate.
    destruct (st_closed s) eqn:Ec; [discriminate|]. cbn [negb andb].
    destruct (Nat.ltb_spec (length (st_results s)) (results_cap c)); [|discriminate].
    intros X; inversion X; subst.
    pose proof (step_send c s i ip r Et Ec ltac:(assumption)) as P.
    rewrite Ec in P. exact P.
  - destruct (nth_error (st_tasks s) i) as [[ip pc]|] eqn:Et; try discriminate.
    cbn [t_ip t_pc]. destruct pc; try discriminate.
    destruct (st_sem s) as [|n] eqn:En; [discriminate|].
    intros X; inversion X; subst. apply (step_release c s i ip r n Et En).
  - destruct (nth_error (st_tasks s) i) as [[ip pc]|] eqn:Et; try discriminate.
    cbn [t_ip t_pc]. destruct pc; try discriminate.
    destruct (Nat.ltb_spec (st_progress s) (progress_cap c)); [|discriminate].
    intros X; inversion X; subst. apply (step_progress c s i ip r Et). assumption.
  - destruct (nth_error (st_tasks s) i) as [[ip pc]|] eqn:Et; try discriminate.
    cbn [t_ip t_pc]. destruct pc; try discriminate.
    destruct (st_wg s) as [|n] eqn:En; [discriminate|].
    intros X; inversion X; subst. apply (step_done c s i ip r n Et En).
  - destruct (st_waiter s) eqn:Ew; try discriminate.
    destruct (st_wg s) eqn:Eg; try discriminate.
    intros X; inversion X; subst.
    pose proof (step_wait_done c s Ew Eg) as P. rewrite Eg in P. exact P.
  - destruct (st_waiter s) eqn:Ew; try discriminate.
    destruct (st_closed s) eqn:Ec; try discriminate.
    intros X; inversion X; subst.
    pose proof (step_close c s Ew Ec) as P. exact P.
  - destruct (st_main s) eqn:Em; try discriminate.
    destruct (st_results s) as [|r' rest] eqn:Er; try discriminate.
    destruct (_ && _) eqn:E; [|discriminate].
    apply PingResult_eqb_eq in E. subst r'.
    intros X; inversion X; subst. apply (step_collect c s r rest Em Er).
  - destruct (st_main s) eqn:Em; try discriminate.
    destruct (st_results s) as [|r' rest] eqn:Er; try discriminate.
    destruct (st_closed s) eqn:Ec; try discriminate.
    intros X; inversion X; subst.
    pose proof (step_return c s Em Er Ec) as P. rewrite Ec in P. exact P.
  - destruct (st_progress s) as [|n] eqn:Ep; try discriminate.
    intros X; inversion X; subst. apply (step_monitor c s n Ep).
Qed.

Lemma do_steps_from c tr' : forall tr s s',
  exec c tr s -> do_steps c s tr' = Some s' -> exec c (tr ++ tr') s'.
Proof.
  induction tr' as [|e rest IH]; intros tr s s' Hex H; cbn [do_steps] in H.
  - inversion H; subst. rewrite app_nil_r. assumption.
  - destruct (do_step c s e) as [s1|] eqn:E; [|discriminate].
    apply do_step_sound in E.
    change (e :: rest) with ([e] ++ rest). rewrite app_assoc.
    apply (IH _ s1); [|assumption]. econstructor; eauto.
Qed.

Lemma do_steps_exec c tr s : do_steps c init tr = Some s -> exec c tr s.
Proof. intros H. apply (do_steps_from c tr [] init s (exec_init c) H). Qed.

(** ** The dispatcher: what the claims say *)

Lemma checked_threads_positive threads : 1 <= checked_threads threads.
Proof.
  unfold checked_threads, defaultConcurrency.
  destruct (Z.leb_spec threads 0); lia.
Qed.

Lemma two_ips_exec : exec two_ips two_ips_trace two_ips_final.
Proof. apply do_steps_exec. vm_compute. reflexivity. Defined.

(** C3. With a ceiling of at least 1, every execution of the dispatcher is
    bounded, can go on until [pingAllWithConcurrency] returns, and has then
    collected exactly one outcome per input address. *)
Theorem C3_dispatcher_one_outcome_per_address :
  forall c tr s,
    1 <= cfg_maxThreads c -> exec c tr s ->
    (st_main s = MReturned ->
       length (st_pingResults s) = length (cfg_ips c) /\
       Permutation (map PingResult_IP (st_pingResults s)) (cfg_ips c)) /\
    (st_main s <> MReturned -> exists e s', step_rel c s e s') /\
    (length tr + measure c s <= 9 * length (cfg_ips c) + 7)%nat.
Proof.
  intros c tr s Hthreads Hex. pose proof (exec_invariant c tr s Hex) as Inv.
  split; [|split].
  - intros Hm. destruct (returned_outcomes c s Inv Hm) as (P & L & _). auto.
  - intros Hm. apply (can_step c s Inv Hthreads Hm).
  - apply exec_bounded, Hex.
Qed.

Lemma C3_witness :
  1 <= cfg_maxThreads two_ips /\
  exec two_ips two_ips_trace two_ips_final /\
  length (st_pingResults two_ips_final) = 2%nat /\
  Permutation (map PingResult_IP (st_pingResults two_ips_final)) ["10.0.0.1"; "10.0.0.2"].
Proof.
  assert (H1 : 1 <= cfg_maxThreads two_ips) by (cbn; lia).
  split; [exact H1|]. split; [exact two_ips_exec|].
  destruct (C3_dispatcher_one_outcome_per_address two_ips two_ips_trace two_ips_final
              H1 two_ips_exec) as (R & _ & _).
  apply (R eq_refl).
Defined.

Lemma count_le_impl (p q : task -> bool) ts :
  (forall t, p t = true -> q t = true) -> (count p ts <= count q ts)%nat.
Proof.
  intros H. induction ts as [|t ts IH]; [reflexivity|].
  rewrite !count_cons. specialize (H t).
  destruct (p t), (q t); cbn [b2n]; try lia; try discriminate (H eq_refl).
Qed.

Lemma waiting_task_stays c s e s' i ip :
  step_rel c s e s' ->
  nth_error (st_tasks s) i = Some (mkTask ip TAcquire) ->
  e <> EAcquire i ->
  nth_error (st_tasks s') i = Some (mkTask ip TAcquire).
Proof.
  intros Hstep Hi He.
  destruct Hstep as
    [s k ip' Hm Hn | s k Hm Hn | s j ip' Ht Hc | s j ip' lib Ht | s j ip' r Ht Hcl Hcap
    | s j ip' r n Ht Hs | s j ip' r Ht Hcap | s j ip' r n Ht Hw | s Hw Hz | s Hw Hcl
    | s r rest Hm Hr | s Hm Hr Hcl | s n Hp ];
    cbn [with_task st_tasks]; try assumption;
    try (rewrite nth_error_set_task by (eapply nth_error_lt; eauto);
         destruct (Nat.eqb_spec i j); [subst; congruence|assumption]).
  rewrite nth_error_app1 by (eapply nth_error_lt; eauto). assumption.
Qed.

(** C7. The probes in flight are goroutines that hold a slot, the slots in
    use are what the semaphore counts, and the semaphore never holds more
    than the ceiling.  A goroutine that finds the semaphore full cannot
    pass; whatever happens next, it is still there, waiting. *)
Theorem C7_in_flight_at_most_ceiling :
  forall c tr s,
    0 <= cfg_maxThreads c -> exec c tr s ->
    Z.of_nat (in_flight s) <= cfg_maxThreads c /\
    (in_flight s <= st_sem s)%nat /\
    st_sem s = count holds_slot (st_tasks s) /\
    (forall i ip,
        nth_error (st_tasks s) i = Some (mkTask ip TAcquire) ->
        cfg_maxThreads c <= Z.of_nat (st_sem s) ->
        (forall s', ~ step_rel c s (EAcquire i) s') /\
        (forall e s', step_rel c s e s' ->
                      nth_error (st_tasks s') i = Some (mkTask ip TAcquire))).
Proof.
  intros c tr s Hthreads Hex. pose proof (exec_invariant c tr s Hex) as Inv.
  destruct Inv as [Isp Iip Iwg Isem Iceil Ires Iprog Iwait Iret Iok].
  assert (Hfl : (in_flight s <= st_sem s)%nat).
  { rewrite Isem. unfold in_flight. apply count_le_impl.
    intros [ip pc]. unfold probing, holds_slot. cbn. destruct pc; auto. }
  split; [lia|]. split; [exact Hfl|]. split; [exact Isem|].
  intros i ip Hi Hfull.
  assert (Hno : forall s', ~ step_rel c s (EAcquire i) s').
  { intros s' Hstep. inversion Hstep; subst. lia. }
  split; [exact Hno|].
  intros e s' Hstep. apply (waiting_task_stays c s e s' i ip Hstep Hi).
  intros ->. apply (Hno s' Hstep).
Qed.

Lemma C7_witness :
  0 <= cfg_maxThreads two_ips /\
  exec two_ips two_ips_trace two_ips_final /\
  Z.of_nat (in_flight two_ips_final) <= cfg_maxThreads two_ips.
Proof.
  assert (H0 : 0 <= cfg_maxThreads two_ips) by (cbn; lia).
  split; [exact H0|]. split; [exact two_ips_exec|].
  apply (C7_in_flight_at_most_ceiling two_ips two_ips_trace two_ips_final H0 two_ips_exec).
Defined.

(** ** The order of the events of one goroutine *)

Lemma occurrences_snoc p tr e :
  occurrences p (tr ++ [e]) = (occurrences p tr + b2n (p e))%nat.
Proof.
  unfold occurrences. rewrite filter_app, length_app. cbn. destruct (p e); reflexivity.
Qed.

Lemma existsb_occurrences p tr : existsb p tr = (0 <? occurrences p tr)%nat.
Proof.
  unfold occurrences. induction tr as [|e tr IH]; [reflexivity|].
  cbn. destruct (p e); cbn; [reflexivity|assumption].
Qed.

Lemma occurs_before_snoc a b tr e :
  occurs_before a b (tr ++ [e]) = occurs_before a b tr || (existsb a tr && b e).
Proof.
  induction tr as [|x tr IH]; cbn.
  - destruct (a e); reflexivity.
  - destruct (a x); cbn.
    + rewrite existsb_app. cbn. rewrite orb_false_r. 
      destruct (existsb b tr), (b e), (existsb a tr); reflexivity.
    + assumption.
Qed.

Lemma nth_error_snoc {A} (l : list A) x i :
  nth_error (l ++ [x]) i =
  if (i <? length l)%nat then nth_error l i
  else if (i =? length l)%nat then Some x else None.
Proof.
  destruct (Nat.ltb_spec i (length l)).
  - apply nth_error_app1. assumption.
  - rewrite nth_error_app2 by assumption.
    destruct (Nat.eqb_spec i (length l)) as [->|N].
    + rewrite Nat.sub_diag. reflexivity.
    + destruct (i - length l)%nat as [|k] eqn:E; [lia|]. cbn. destruct k; reflexivity.
Qed.

Lemma stage_step c s e s' i :
  step_rel c s e s' ->
  stage_at s' i
  = (stage_at s i + b2n (is_probe i e) + b2n (is_release i e) + b2n (is_progress i e))%nat /\
  (is_probe i e = true -> stage_at s i = 0%nat) /\
  (is_release i e = true -> stage_at s i = 1%nat) /\
  (is_progress i e = true -> stage_at s i = 2%nat).
Proof.
  intros Hstep. unfold stage_at.
  destruct Hstep as
    [s k ip' Hm Hn | s k Hm Hn | s j ip' Ht Hc | s j ip' lib Ht | s j ip' r Ht Hcl Hcap
    | s j ip' r n Ht Hs | s j ip' r Ht Hcap | s j ip' r n Ht Hw | s Hw Hz | s Hw Hcl
    | s r rest Hm Hr | s Hm Hr Hcl | s n Hp ];
    cbn [with_task st_tasks is_probe is_release is_progress b2n];
    try (repeat split; (lia || discriminate));
    try (rewrite nth_error_set_task by (eapply nth_error_lt; eauto);
         destruct (Nat.eqb_spec i j) as [->|Hij]; [rewrite Ht|];
         cbn [stage_of t_pc b2n]; repeat split; (lia || discriminate || reflexivity)).
  rewrite nth_error_snoc.
  destruct (Nat.ltb_spec i (length (st_tasks s))) as [L|G].
  - repeat split; (lia || discriminate).
  - assert (E : nth_error (st_tasks s) i = None) by (apply nth_error_None; assumption).
    rewrite E. destruct (i =? length (st_tasks s))%nat; cbn;
      repeat split; (lia || discriminate).
Qed.

Lemma trace_ok_init i : trace_ok [] 0 i.
Proof. constructor; reflexivity. Qed.

Lemma trace_ok_step tr e st i (bp br bs : bool) :
  trace_ok tr st i ->
  is_probe i e = bp -> is_release i e = br -> is_progress i e = bs ->
  (bp = true -> st = 0%nat /\ br = false /\ bs = false) ->
  (br = true -> st = 1%nat /\ bp = false /\ bs = false) ->
  (bs = true -> st = 2%nat /\ bp = false /\ br = false) ->
  trace_ok (tr ++ [e]) (st + b2n bp + b2n br + b2n bs) i.
Proof.
  intros [P R S PR RS RP SR] Ep Er Es Hp Hr Hs.
  constructor; rewrite ?occurrences_snoc, ?occurs_before_snoc, ?existsb_occurrences,
    ?Ep, ?Er, ?Es, ?P, ?R, ?S, ?PR, ?RS, ?RP, ?SR;
    destruct bp, br, bs;
    try (destruct Hp as (-> & ? & ?); [reflexivity|]);
    try (destruct Hr as (-> & ? & ?); [reflexivity|]);
    try (destruct Hs as (-> & ? & ?); [reflexivity|]);
    try discriminate; try reflexivity;
    cbn [b2n]; rewrite ?Nat.add_0_r;
    destruct st as [|[|[|[|st]]]]; reflexivity.
Qed.

Lemma exec_trace_ok c tr s :
  exec c tr s -> forall i, trace_ok tr (stage_at s i) i.
Proof.
  induction 1 as [|tr s e s' _ IH Hs]; intros i.
  - replace (stage_at init i) with 0%nat by (destruct i; reflexivity).
    apply trace_ok_init.
  - destruct (stage_step c s e s' i Hs) as (E & Hp & Hr & Hg).
    rewrite E.
    apply trace_ok_step; auto.
    + intros Hb. split; [auto|].
      destruct e; cbn in *; split; (reflexivity || discriminate).
    + intros Hb. split; [auto|].
      destruct e; cbn in *; split; (reflexivity || discriminate).
    + intros Hb. split; [auto|].
      destruct e; cbn in *; split; (reflexivity || discriminate).
Qed.

Lemma occurrences_In p tr e : In e tr -> p e = true -> (0 < occurrences p tr)%nat.
Proof.
  unfold occurrences. induction tr as [|x tr IH]; cbn; [contradiction|].
  intros [->|H] Hp.
  - rewrite Hp. cbn. lia.
  - specialize (IH H Hp). destruct (p x); cbn; lia.
Qed.

Lemma returned_stage c s i :
  invariant c s -> st_main s = MReturned ->
  (i < length (st_tasks s))%nat -> stage_at s i = 3%nat.
Proof.
  intros Inv Hm Hi. destruct (returned_outcomes c s Inv Hm) as (_ & _ & Hz & _).
  unfold stage_at. destruct (nth_error (st_tasks s) i) as [t|] eqn:E.
  - pose proof (count_zero_all _ _ Hz i t E) as X.
    destruct t as [ip pc]. destruct pc; cbn in X; try discriminate. reflexivity.
  - apply nth_error_None in E. lia.
Qed.

(** C8, as the code has it.  A goroutine sends at most one progress signal;
    when it has sent it, its probe is over (alive or dead) and it has released
    its slot, in this order: the release comes before the signal, never after
    it.  When the dispatcher has returned, every goroutine whose probe has
    ended has sent its signal, and so has the goroutine of every address. *)
Theorem C8_progress_signal_follows_release :
  forall c tr s i,
    exec c tr s ->
    (occurrences (is_progress i) tr <= 1)%nat /\
    (occurrences (is_progress i) tr = 1%nat ->
       occurrences (is_probe i) tr = 1%nat /\
       occurrences (is_release i) tr = 1%nat /\
       occurs_before (is_probe i) (is_release i) tr = true /\
       occurs_before (is_release i) (is_progress i) tr = true /\
       occurs_before (is_progress i) (is_release i) tr = false) /\
    (st_main s = MReturned ->
       (forall r, In (EProbe i r) tr -> occurrences (is_progress i) tr = 1%nat) /\
       ((i < length (cfg_ips c))%nat ->
          occurrences (is_probe i) tr = 1%nat /\
          occurrences (is_progress i) tr = 1%nat)).
Proof.
  intros c tr s i Hex.
  pose proof (exec_trace_ok c tr s Hex i) as [P R S PR RS RP SR].
  pose proof (exec_invariant c tr s Hex) as Inv.
  split; [|split].
  - rewrite S. destruct (3 <=? stage_at s i)%nat; cbn; lia.
  - intros H1. rewrite S in H1.
    destruct (Nat.leb_spec 3 (stage_at s i)) as [L|L]; [|discriminate].
    rewrite P, R, PR, RS.
    destruct (Nat.leb_spec 1 (stage_at s i)); [|lia].
    destruct (Nat.leb_spec 2 (stage_at s i)); [|lia].
    auto.
  - intros Hm. split.
    + intros r Hin.
      pose proof (occurrences_In (is_probe i) tr _ Hin ltac:(cbn; apply Nat.eqb_refl)) as Hpos.
      rewrite P in Hpos.
      assert (Hi : (i < length (st_tasks s))%nat).
      { unfold stage_at in Hpos.
        destruct (nth_error (st_tasks s) i) eqn:E; [eapply nth_error_lt; eauto|].
        cbn in Hpos. lia. }
      rewrite S, (returned_stage c s i Inv Hm Hi). reflexivity.
    + intros Hi. destruct (returned_outcomes c s Inv Hm) as (_ & _ & _ & Hl).
      rewrite P, S, (returned_stage c s i Inv Hm) by lia. split; reflexivity.
Qed.

Lemma C8_witness :
  exec two_ips two_ips_trace two_ips_final /\
  occurs_before (is_release 0) (is_progress 0) two_ips_trace = true.
Proof.
  split; [exact two_ips_exec|].
  destruct (C8_progress_signal_follows_release two_ips two_ips_trace two_ips_final 0
              two_ips_exec) as (_ & H & _).
  apply (H eq_refl).
Defined.

(** C8 as the claim states it fails: in this complete run each of the two
    goroutines releases its slot first and sends its progress signal
    afterwards; no signal comes before the release. *)
Lemma C8_signal_not_before_release :
  exec two_ips two_ips_trace two_ips_final /\
  st_main two_ips_final = MReturned /\
  occurrences (is_progress 0) two_ips_trace = 1%nat /\
  occurrences (is_progress 1) two_ips_trace = 1%nat /\
  occurs_before (is_progress 0) (is_release 0) two_ips_trace = false /\
  occurs_before (is_progress 1) (is_release 1) two_ips_trace = false.
Proof.
  split; [exact two_ips_exec|]. repeat split.
Qed.

(** ** The probe: what the claim says *)

Lemma time_limit_in_range timeoutMs :
  1 <= timeoutMs <= 9223372036854 ->
  wrap64 (timeoutMs * Millisecond) = timeoutMs * 1000000 /\ 0 < timeoutMs * 1000000 < 2 ^ 63.
Proof.
  intros H. unfold Millisecond. split; [|lia].
  unfold wrap64. rewrite Z.mod_small; lia.
Qed.

(** A call whose pinger gets a positive time limit returns, with the outcome
    that [pingIP] computes. *)
Lemma pingIP_call_returns lib ip timeoutMs :
  0 < wrap64 (timeoutMs * Millisecond) ->
  pingIP_call lib ip timeoutMs = Returns (pingIP lib ip timeoutMs).
Proof.
  intros H. unfold pingIP_call, pingIP, pinger_Run.
  destruct (ping_NewPinger lib ip) as [p|]; [|reflexivity].
  destruct (ping_Run lib (configure p timeoutMs)) as [stats|]; [|reflexivity].
  cbn [configure pinger_Timeout].
  destruct (Z.leb_spec (wrap64 (timeoutMs * Millisecond)) 0); [lia|reflexivity].
Qed.

(** Whatever returns is the outcome of [pingIP]. *)
Lemma pingIP_call_outcome lib ip timeoutMs r :
  pingIP_call lib ip timeoutMs = Returns r -> r = pingIP lib ip timeoutMs.
Proof.
  unfold pingIP_call, pingIP, pinger_Run.
  destruct (ping_NewPinger lib ip) as [p|]; [|intros H; inversion H; reflexivity].
  destruct (ping_Run lib (configure p timeoutMs)) as [stats|];
    [|intros H; inversion H; reflexivity].
  destruct (pinger_Timeout (configure p timeoutMs) <=? 0); [discriminate|].
  intros H; inversion H; reflexivity.
Qed.

(** C9, as the code has it.  The pinger gets the time limit
    [time.Duration(timeoutMs) * time.Millisecond], an [int64]; for a timeout
    from 1 to 9223372036854 ms this is that many milliseconds and positive.
    When the time limit is positive the call of [pingIP] returns, and what it
    returns is a [PingResult] for the address it was given, with no error
    beside it: [Alive = false] when the pinger cannot be built (a target that
    does not resolve), when the run returns an error, and when the run of the
    pinger with one packet and this time limit ends without a reply (timeout,
    unreachable host); [Alive = true] only when a reply was received. *)
Theorem C9_probe_failure_is_a_dead_outcome_within_time_limit :
  forall lib ip timeoutMs,
    let limit := wrap64 (timeoutMs * 1000000) in
    (1 <= timeoutMs <= 9223372036854 -> limit = timeoutMs * 1000000 /\ 0 < limit) /\
    (0 < limit ->
     exists alive,
       pingIP_call lib ip timeoutMs = Returns (mkPingResult ip alive) /\
       pingIP lib ip timeoutMs = mkPingResult ip alive /\
       (ping_NewPinger lib ip = None -> alive = false) /\
       (forall p, ping_NewPinger lib ip = Some p ->
          let run := ping_Run lib (mkPinger (pinger_addr p) true 1 limit "ip4") in
          (run = None -> alive = false) /\
          (forall stats, run = Some stats -> PacketsRecv stats <= 0 -> alive = false) /\
          (forall stats, run = Some stats -> 0 < PacketsRecv stats -> alive = true)) /\
       (alive = true ->
          exists p stats,
            ping_NewPinger lib ip = Some p /\
            ping_Run lib (mkPinger (pinger_addr p) true 1 limit "ip4") = Some stats /\
            0 < PacketsRecv stats)).
Proof.
  intros lib ip timeoutMs limit. split.
  - intros H. destruct (time_limit_in_range timeoutMs H) as [E R].
    unfold limit. unfold Millisecond in E. rewrite E. split; [reflexivity|lia].
  - intros Hpos.
    assert (Hc : pingIP_call lib ip timeoutMs = Returns (pingIP lib ip timeoutMs))
      by (apply pingIP_call_returns; exact Hpos).
    rewrite Hc. unfold pingIP, configure. fold limit.
    change (wrap64 (timeoutMs * Millisecond)) with limit.
    destruct (ping_NewPinger lib ip) as [p|] eqn:En.
    + destruct (ping_Run lib (mkPinger (pinger_addr p) true 1 limit "ip4"))
        as [stats|] eqn:Er.
      * exists (0 <? PacketsRecv stats).
        split; [reflexivity|]. split; [reflexivity|]. split; [discriminate|]. split.
        -- intros p' E'. inversion E'; subst p'. rewrite Er. cbv zeta.
           split; [discriminate|]. split.
           ++ intros st Es Hle. inversion Es; subst st. apply Z.ltb_ge. exact Hle.
           ++ intros st Es Hlt. inversion Es; subst st. apply Z.ltb_lt. exact Hlt.
        -- intros Ha. exists p, stats. split; [reflexivity|]. split; [exact Er|].
           apply Z.ltb_lt. exact Ha.
      * exists false.
        split; [reflexivity|]. split; [reflexivity|]. split; [reflexivity|]. split.
        -- intros p' E'. inversion E'; subst p'. rewrite Er. cbv zeta.
           split; [reflexivity|]. split; discriminate.
        -- discriminate.
    + exists false.
      split; [reflexivity|]. split; [reflexivity|]. split; [reflexivity|]. split.
      * discriminate.
      * discriminate.
Qed.

Lemma C9_witness :
  pingIP_call (lib_answering false) "10.0.0.1" 800 = Returns (mkPingResult "10.0.0.1" false) /\
  pingIP_call (mkPingLib (fun _ => None) (fun _ => None)) "10.0.0.256" 800
  = Returns (mkPingResult "10.0.0.256" false).
Proof.
  split.
  - destruct (C9_probe_failure_is_a_dead_outcome_within_time_limit
                (lib_answering false) "10.0.0.1" 800) as [_ H].
    destruct (H ltac:(vm_compute; reflexivity)) as (alive & E & _ & _ & Hp & _).
    destruct (Hp (mkPinger "10.0.0.1" false 0 0 "") eq_refl) as (_ & Hd & _).
    rewrite E, (Hd (mkStatistics 0) eq_refl ltac:(cbn; lia)). reflexivity.
  - destruct (C9_probe_failure_is_a_dead_outcome_within_time_limit
                (mkPingLib (fun _ => None) (fun _ => None)) "10.0.0.256" 800) as [_ H].
    destruct (H ltac:(vm_compute; reflexivity)) as (alive & E & _ & Hn & _).
    rewrite E, (Hn eq_refl). reflexivity.
Defined.

(** C9 as the claim states it fails: it speaks of every timeout.  With a
    timeout of 0 the time limit of the pinger is 0, and with 9223372036855,
    which passes the check of [main], the product overflows to a negative
    time limit; over a library whose run gets to its loop the call then
    yields no outcome, the process ends. *)
Lemma C9_no_outcome_without_time_limit :
  pingIP_call (lib_answering true) "10.0.0.1" 0 = Panics /\
  checked_timeout 9223372036855 = 9223372036855 /\
  wrap64 (9223372036855 * Millisecond) = -9223372036854551616 /\
  pingIP_call (lib_answering true) "10.0.0.1" 9223372036855 = Panics /\
  ~ (exists r, pingIP_call (lib_answering true) "10.0.0.1" 0 = Returns r).
Proof.
  split; [vm_compute; reflexivity|]. split; [vm_compute; reflexivity|].
  split; [vm_compute; reflexivity|]. split; [vm_compute; reflexivity|].
  intros (r & H). vm_compute in H. discriminate.
Qed.

(** ** The progress monitor: what the claim says *)

Lemma wrap64_small z : - 2 ^ 63 <= z < 2 ^ 63 -> wrap64 z = z.
Proof. intros H. unfold wrap64. rewrite Z.mod_small; lia. Qed.

Lemma showProgress_loop_estimates total evs : forall count,
  0 <= total < 2 ^ 63 -> 0 <= count ->
  count + Z.of_nat (length evs) < 2 ^ 63 ->
  Forall (estimate_ok total) (showProgress_loop total count evs).
Proof.
  induction evs as [|ev evs IH]; intros count Ht Hc Hn; cbn [showProgress_loop].
  - constructor.
  - cbn [length] in Hn. destruct ev as [elapsed| |elapsed].
    + rewrite (wrap64_small (count + 1)) by lia.
      rewrite (wrap64_small (total - (count + 1))) by lia.
      constructor; [|apply IH; lia].
      cbn [estimate_ok]. split; [lia|].
      unfold float64_of_int, fdiv, fmul.
      destruct (Qeq_bool (inject_Z (count + 1)) 0) eqn:E.
      * apply Qeq_bool_eq in E. unfold Qeq in E. cbn in E. lia.
      * eexists. split; [reflexivity|]. field.
        intros E0. unfold Qeq in E0. cbn in E0. lia.
    + constructor.
    + constructor; [exact I|constructor].
Qed.

(** C10. Every estimate that [showProgress] renders divides by a
    completed-count of at least 1, the count being incremented first; the
    quotient is finite and is [elapsed * (total - completed) / completed]. *)
Theorem C10_estimate_never_divides_by_zero :
  forall total evs,
    0 <= total < 2 ^ 63 -> Z.of_nat (length evs) < 2 ^ 63 ->
    Forall (estimate_ok total) (showProgress total evs).
Proof.
  intros total evs Ht Hn. apply showProgress_loop_estimates; lia.
Qed.

Lemma C10_witness :
  0 <= 2 < 2 ^ 63 /\
  Z.of_nat (length [ProgressValue 500; ProgressValue 900; DoneClosed 950]) < 2 ^ 63 /\
  Forall (estimate_ok 2)
    (showProgress 2 [ProgressValue 500; ProgressValue 900; DoneClosed 950]).
Proof.
  assert (H1 : 0 <= 2 < 2 ^ 63) by lia.
  assert (H2 : Z.of_nat (length [ProgressValue 500; ProgressValue 900; DoneClosed 950])
               < 2 ^ 63) by (cbn; lia).
  split; [exact H1|]. split; [exact H2|].
  apply (C10_estimate_never_divides_by_zero 2 _ H1 H2).
Defined.

(** ** The result reporter: sorting under the contract of [sort.Slice] *)

Lemma ordering_lessLastOctet : ordering lessLastOctet.
Proof.
  unfold ordering, lessLastOctet. repeat split.
  - intros a. apply Z.ltb_irrefl.
  - intros a b c H1 H2. apply Z.ltb_lt in H1, H2. apply Z.ltb_lt. lia.
  - intros a b c H1 H2. apply Z.ltb_ge in H1, H2. apply Z.ltb_ge. lia.
Qed.

Lemma StronglySorted_impl {A} (R Q : A -> A -> Prop) l :
  (forall a b, R a b -> Q a b) -> StronglySorted R l -> StronglySorted Q l.
Proof.
  intros H. induction 1 as [|a l Hs IH Hf]; constructor; auto.
  eapply Forall_impl; [|exact Hf]. auto.
Qed.

(** What the contract gives for the comparison of the reporter. *)
Lemma contract_octet_sorted sort_Slice l :
  sort_Slice_contract sort_Slice ->
  exists l',
    sort_Slice PingResult lessLastOctet l = Ret l' /\
    Permutation l' l /\ StronglySorted octet_le l'.
Proof.
  intros C. destruct (C PingResult lessLastOctet l ordering_lessLastOctet)
    as (l' & E & P & S).
  exists l'. split; [exact E|]. split; [exact P|].
  eapply StronglySorted_impl; [|exact S].
  intros a b H. unfold lessLastOctet in H. unfold octet_le. apply Z.ltb_ge in H. lia.
Qed.

Lemma key_injective l a b :
  NoDup (map lastOctetNum l) -> In a l -> In b l ->
  lastOctetNum a = lastOctetNum b -> a = b.
Proof.
  induction l as [|x l IH]; cbn [map]; intros Hn Ha Hb E; [contradiction|].
  inversion Hn as [|? ? Hx Hl]; subst.
  destruct Ha as [->|Ha], Hb as [->|Hb]; auto.
  - exfalso. apply Hx. rewrite E. apply in_map. assumption.
  - exfalso. apply Hx. rewrite <- E. apply in_map. assumption.
Qed.

(** Two sorted arrangements of outcomes with distinct keys are the same. *)
Lemma sorted_unique l1 : forall l2,
  Permutation l1 l2 -> NoDup (map lastOctetNum l1) ->
  StronglySorted octet_le l1 -> StronglySorted octet_le l2 -> l1 = l2.
Proof.
  induction l1 as [|a l1 IH]; intros l2 P Hn S1 S2.
  - apply Permutation_nil in P. subst. reflexivity.
  - destruct l2 as [|b l2]; [apply Permutation_sym, Permutation_nil in P; discriminate|].
    inversion S1 as [|? ? S1' F1]; subst. inversion S2 as [|? ? S2' F2]; subst.
    rewrite Forall_forall in F1, F2.
    assert (Hab : a = b).
    { assert (Ia : In a (b :: l2)) by (eapply Permutation_in; [exact P|left; reflexivity]).
      assert (Ib : In b (a :: l1))
        by (eapply Permutation_in; [apply Permutation_sym; exact P|left; reflexivity]).
      apply (key_injective (a :: l1)); auto; [left; reflexivity|].
      unfold octet_le in *.
      destruct Ia as [->|Ia]; [reflexivity|]. destruct Ib as [->|Ib]; [reflexivity|].
      specialize (F1 b Ib). specialize (F2 a Ia). lia. }
    subst b. f_equal. apply IH; auto.
    + eapply Permutation_cons_inv; eauto.
    + cbn [map] in Hn. inversion Hn; assumption.
Qed.

Section Inserting.
Context {A : Type} (less : A -> A -> bool).
Hypothesis Hless : ordering less.

Let R (a b : A) : Prop := less b a = false.

Lemma less_asym a b : less a b = true -> less b a = false.
Proof.
  destruct Hless as (Irr & Tr & _). intros H.
  destruct (less b a) eqn:E; [|reflexivity].
  pose proof (Tr a b a H E) as X. rewrite Irr in X. discriminate.
Qed.

Lemma insert_after_perm x l : Permutation (insert_after less x l) (x :: l).
Proof.
  induction l as [|y t IH]; cbn; [reflexivity|].
  destruct (less x y); [reflexivity|].
  rewrite IH. apply perm_swap.
Qed.

Lemma insert_before_perm x l : Permutation (insert_before less x l) (x :: l).
Proof.
  induction l as [|y t IH]; cbn; [reflexivity|].
  destruct (less y x); [|reflexivity].
  rewrite IH. apply perm_swap.
Qed.

Lemma insert_after_sorted x l :
  StronglySorted R l -> StronglySorted R (insert_after less x l).
Proof.
  destruct Hless as (Irr & Tr & Ntr).
  induction 1 as [|y t Hs IH Hf]; cbn.
  - repeat constructor.
  - destruct (less x y) eqn:E.
    + constructor; [constructor; assumption|].
      constructor; [apply less_asym, E|].
      rewrite Forall_forall in *. intros z Hz. unfold R in *.
      destruct (less z x) eqn:Ez; [|reflexivity].
      rewrite <- (Hf z Hz). symmetry. apply (Tr z x y Ez E).
    + constructor; [assumption|].
      rewrite Forall_forall in *. intros z Hz.
      apply (Permutation_in _ (insert_after_perm x t)) in Hz.
      destruct Hz as [<-|Hz]; [exact E|auto].
Qed.

Lemma insert_before_sorted x l :
  StronglySorted R l -> StronglySorted R (insert_before less x l).
Proof.
  destruct Hless as (Irr & Tr & Ntr).
  induction 1 as [|y t Hs IH Hf]; cbn.
  - repeat constructor.
  - destruct (less y x) eqn:E.
    + constructor; [assumption|].
      rewrite Forall_forall in *. intros z Hz.
      apply (Permutation_in _ (insert_before_perm x t)) in Hz.
      destruct Hz as [<-|Hz]; [apply less_asym, E|auto].
    + constructor; [constructor; assumption|].
      constructor; [exact E|].
      rewrite Forall_forall in *. intros z Hz. unfold R in *.
      apply (Ntr z y x); auto.
Qed.

Lemma fold_insert_after_perm l : forall acc,
  Permutation (fold_left (fun acc x => insert_after less x acc) l acc) (acc ++ l).
Proof.
  induction l as [|x l IH]; intros acc; cbn [fold_left].
  - rewrite app_nil_r. reflexivity.
  - rewrite IH, insert_after_perm. apply Permutation_middle.
Qed.

Lemma fold_insert_before_perm l : forall acc,
  Permutation (fold_left (fun acc x => insert_before less x acc) l acc) (acc ++ l).
Proof.
  induction l as [|x l IH]; intros acc; cbn [fold_left].
  - rewrite app_nil_r. reflexivity.
  - rewrite IH, insert_before_perm. apply Permutation_middle.
Qed.

Lemma fold_insert_after_sorted l : forall acc,
  StronglySorted R acc ->
  StronglySorted R (fold_left (fun acc x => insert_after less x acc) l acc).
Proof.
  induction l as [|x l IH]; intros acc H; cbn [fold_left]; [assumption|].
  apply IH, insert_after_sorted, H.
Qed.

Lemma fold_insert_before_sorted l : forall acc,
  StronglySorted R acc ->
  StronglySorted R (fold_left (fun acc x => insert_before less x acc) l acc).
Proof.
  induction l as [|x l IH]; intros acc H; cbn [fold_left]; [assumption|].
  apply IH, insert_before_sorted, H.
Qed.
End Inserting.

Lemma insertion_sort_contract : sort_Slice_contract insertion_sort.
Proof.
  intros A less l H. eexists. split; [reflexivity|]. split.
  - apply (fold_insert_after_perm less l []).
  - apply (fold_insert_after_sorted less H l []). constructor.
Qed.

Lemma reversing_sort_contract : sort_Slice_contract reversing_sort.
Proof.
  intros A less l H. eexists. split; [reflexivity|]. split.
  - apply (fold_insert_before_perm less l []).
  - apply (fold_insert_before_sorted less H l []). constructor.
Qed.

(** With distinct last octets every sorter that keeps the contract gives
    the arrangement of the insertion sort. *)
Lemma sort_Slice_determined sort_Slice l :
  sort_Slice_contract sort_Slice -> NoDup (map lastOctetNum l) ->
  sort_Slice PingResult lessLastOctet l = Ret (insertion_order lessLastOctet l).
Proof.
  intros C Hn.
  destruct (contract_octet_sorted sort_Slice l C) as (l1 & E1 & P1 & S1).
  destruct (contract_octet_sorted insertion_sort l insertion_sort_contract)
    as (l2 & E2 & P2 & S2).
  inversion E2; subst l2. rewrite E1. f_equal.
  apply sorted_unique; auto.
  - rewrite P1, P2. reflexivity.
  - eapply Permutation_NoDup; [|exact Hn].
    apply Permutation_map, Permutation_sym, P1.
Qed.

(** ** The algorithm of [sort.Slice], as far as it is embedded

    Whenever [pdqsort_func] returns, the slice is sorted; up to twelve
    elements it returns.  The slice is taken apart into the part before
    [data[a:b]], that part, and the part after it. *)

Section PdqSortFacts.
Context {A : Type} (less : A -> A -> bool).
Hypothesis Hless : ordering less.

Let R (a b : A) : Prop := less b a = false.

Lemma nth_error_middle (front : list A) x post :
  nth_error (front ++ x :: post) (length front) = Some x.
Proof. induction front as [|y front IH]; [reflexivity|exact IH]. Qed.

Lemma put_middle (front : list A) x post y :
  put (front ++ x :: post) (length front) y = front ++ y :: post.
Proof. induction front as [|z front IH]; cbn; [reflexivity|]. rewrite IH. reflexivity. Qed.

Lemma Less_adjacent (front : list A) y x post :
  Less less (front ++ y :: x :: post) (S (length front)) (length front) = less x y.
Proof.
  unfold Less. rewrite nth_error_middle.
  replace (front ++ y :: x :: post) with ((front ++ [y]) ++ x :: post)
    by (rewrite <- app_assoc; reflexivity).
  replace (S (length front)) with (length (front ++ [y]))
    by (rewrite length_app; cbn; lia).
  rewrite nth_error_middle. reflexivity.
Qed.

Lemma Swap_adjacent (front : list A) y x post :
  Swap (front ++ y :: x :: post) (S (length front)) (length front)
  = front ++ x :: y :: post.
Proof.
  unfold Swap. rewrite nth_error_middle.
  replace (front ++ y :: x :: post) with ((front ++ [y]) ++ x :: post) at 1
    by (rewrite <- app_assoc; reflexivity).
  replace (S (length front)) with (length (front ++ [y]))
    by (rewrite length_app; cbn; lia).
  rewrite nth_error_middle.
  replace (front ++ y :: x :: post) with ((front ++ [y]) ++ x :: post)
    by (rewrite <- app_assoc; reflexivity).
  rewrite put_middle, <- app_assoc. cbn [app].
  rewrite put_middle. reflexivity.
Qed.

Lemma sorted_snoc (l : list A) x :
  StronglySorted R l -> Forall (fun z => R z x) l -> StronglySorted R (l ++ [x]).
Proof.
  induction 1 as [|y l Hs IH Hf]; intros F; cbn.
  - repeat constructor.
  - inversion F as [|? ? Hy Hl]; subst. constructor; [apply IH, Hl|].
    apply Forall_app. split; [exact Hf|]. constructor; [exact Hy|constructor].
Qed.

Lemma sorted_snoc_inv (l : list A) x :
  StronglySorted R (l ++ [x]) -> StronglySorted R l /\ Forall (fun z => R z x) l.
Proof.
  induction l as [|y l IH]; cbn; intros H.
  - split; constructor.
  - inversion H as [|? ? Hs Hf]; subst. destruct (IH Hs) as [S1 F1].
    apply Forall_app in Hf. destruct Hf as [Hf Hx]. inversion Hx; subst.
    split; constructor; assumption.
Qed.

(** The inner loop takes the element after a sorted run to its place in the
    run. *)
Lemma insertionSort_inner_inserts (mid : list A) : forall front x post,
  StronglySorted R mid ->
  exists mid',
    insertionSort_inner less (length front) (length front + length mid)
      (front ++ mid ++ x :: post)
    = front ++ mid' ++ post /\
    Permutation mid' (mid ++ [x]) /\ StronglySorted R mid'.
Proof.
  destruct Hless as (Irr & Tr & Ntr).
  induction mid as [|y mid0 IH] using rev_ind; intros front x post Hs.
  - exists [x]. rewrite Nat.add_0_r. cbn [app length]. split; [|split].
    + destruct (length front) as [|k] eqn:E; cbn [insertionSort_inner]; [reflexivity|].
      rewrite Nat.ltb_irrefl. reflexivity.
    + reflexivity.
    + repeat constructor.
  - destruct (sorted_snoc_inv mid0 y Hs) as [Hs0 Hf0].
    rewrite length_app. cbn [length].
    replace (length front + (length mid0 + 1))%nat
      with (S (length (front ++ mid0))) by (rewrite length_app; lia).
    cbn [insertionSort_inner].
    replace (length front <? S (length (front ++ mid0)))%nat with true
      by (symmetry; apply Nat.ltb_lt; rewrite length_app; lia).
    cbn [andb].
    replace (front ++ (mid0 ++ [y]) ++ x :: post)
      with ((front ++ mid0) ++ y :: x :: post)
      by (rewrite <- ?app_assoc; reflexivity).
    rewrite Less_adjacent.
    destruct (less x y) eqn:E.
    + rewrite Swap_adjacent.
      replace ((front ++ mid0) ++ x :: y :: post) with (front ++ mid0 ++ x :: y :: post)
        by (rewrite <- app_assoc; reflexivity).
      replace (length (front ++ mid0)) with (length front + length mid0)%nat
        by (rewrite length_app; reflexivity).
      destruct (IH front x (y :: post) Hs0) as (mid' & E' & P' & S').
      exists (mid' ++ [y]). split; [|split].
      * rewrite E', <- app_assoc. reflexivity.
      * rewrite P', <- !app_assoc. apply Permutation_app_head. apply perm_swap.
      * apply sorted_snoc; [exact S'|].
        rewrite Forall_forall in *. intros z Hz.
        apply (Permutation_in _ P') in Hz. apply in_app_or in Hz.
        destruct Hz as [Hz|[<-|[]]]; [apply Hf0, Hz|].
        unfold R. apply (less_asym less (conj Irr (conj Tr Ntr))), E.
    + exists ((mid0 ++ [y]) ++ [x]). split; [|split].
      * rewrite <- ?app_assoc. reflexivity.
      * reflexivity.
      * apply sorted_snoc; [exact Hs|].
        apply Forall_app. split; [|constructor; [exact E|constructor]].
        rewrite Forall_forall in *. intros z Hz. unfold R in *.
        apply (Ntr x y z E (Hf0 z Hz)).
Qed.

(** The outer loop sorts what follows the run into it, element by element. *)
Lemma insertionSort_outer_sorts (rest : list A) : forall front mid post,
  StronglySorted R mid ->
  exists seg,
    insertionSort_outer less (length rest) (length front) (length front + length mid)
      (front ++ mid ++ rest ++ post)
    = front ++ seg ++ post /\
    Permutation seg (mid ++ rest) /\ StronglySorted R seg.
Proof.
  induction rest as [|x rest IH]; intros front mid post Hs.
  - exists mid. cbn [length insertionSort_outer app]. rewrite app_nil_r. auto.
  - cbn [length insertionSort_outer app].
    destruct (insertionSort_inner_inserts mid front x (rest ++ post) Hs)
      as (mid' & E & P & S').
    rewrite E.
    assert (L : length mid' = S (length mid)).
    { rewrite (Permutation_length P), length_app. cbn. lia. }
    replace (S (length front + length mid)) with (length front + length mid')%nat by lia.
    destruct (IH front mid' post S') as (seg & E2 & P2 & S2).
    exists seg. split; [exact E2|]. split; [|exact S2].
    rewrite P2, P, <- app_assoc. reflexivity.
Qed.

(** [insertionSort_func] sorts [data[a:b]] and leaves the rest in place. *)
Lemma insertionSort_func_sorts (front seg post : list A) :
  exists seg',
    insertionSort_func less (front ++ seg ++ post) (length front)
      (length front + length seg)
    = front ++ seg' ++ post /\
    Permutation seg' seg /\ StronglySorted R seg'.
Proof.
  unfold insertionSort_func. destruct seg as [|x rest].
  - exists []. rewrite Nat.add_0_r.
    replace (length front - (length front + 1))%nat with 0%nat by lia.
    cbn. split; [reflexivity|]. split; constructor.
  - cbn [length].
    replace (length front + S (length rest) - (length front + 1))%nat
      with (length rest) by lia.
    destruct (insertionSort_outer_sorts rest front [x] post ltac:(repeat constructor))
      as (seg' & E & P & S').
    cbn [length app] in E. exists seg'. split; [exact E|]. auto.
Qed.

(** Up to twelve elements [pdqsort_func] is this insertion sort. *)
Lemma sort_Slice_go_small (l : list A) :
  (length l <= 12)%nat ->
  exists l',
    sort_Slice_go A less l = Ret l' /\
    Permutation l' l /\ StronglySorted R l'.
Proof.
  intros Hl. unfold sort_Slice_go.
  replace (2 * length l + 1)%nat with (S (2 * length l)) by lia.
  cbn [pdqsort_func]. rewrite Nat.sub_0_r.
  replace (length l <=? maxInsertion)%nat with true
    by (symmetry; apply Nat.leb_le; exact Hl).
  destruct (insertionSort_func_sorts [] l []) as (l' & E & P & S').
  cbn [app length] in E. rewrite !app_nil_r in E. cbn [Nat.add] in E.
  exists l'. rewrite E. auto.
Qed.

(** *** The partition steps *)

Lemma nth_error_within (pre U rest : list A) k x :
  nth_error U k = Some x -> nth_error (pre ++ U ++ rest) (length pre + k) = Some x.
Proof.
  intros H. rewrite nth_error_app2 by lia.
  replace (length pre + k - length pre)%nat with k by lia.
  rewrite nth_error_app1; [exact H|]. apply nth_error_Some. congruence.
Qed.

(** [for i <= j && p(i) { i++ }] over [U], which lies at [i .. j]. *)
Lemma scan_up_split (q : A -> bool) (data : list A) (P : nat -> bool) :
  (forall k x, nth_error data k = Some x -> P k = q x) ->
  forall U n pre rest j,
    data = pre ++ U ++ rest -> S j = (length pre + length U)%nat ->
    (length U < n)%nat ->
    exists U1 U2,
      U = U1 ++ U2 /\ Forall (fun x => q x = true) U1 /\
      match U2 with [] => True | x :: _ => q x = false end /\
      scan_up n P (length pre) j = (length pre + length U1)%nat.
Proof.
  intros HP. induction U as [|x U IH]; intros n pre rest j Hd Hj Hn.
  - exists [], []. split; [reflexivity|]. split; [constructor|]. split; [exact I|].
    destruct n as [|n]; [cbn in Hn; lia|]. cbn [scan_up length] in *.
    replace (length pre <=? j)%nat with false by (symmetry; apply Nat.leb_gt; lia).
    cbn. lia.
  - destruct n as [|n]; [cbn in Hn; lia|]. cbn [scan_up length] in *.
    replace (length pre <=? j)%nat with true by (symmetry; apply Nat.leb_le; lia).
    cbn [andb].
    assert (Hx : nth_error data (length pre) = Some x).
    { rewrite Hd. apply nth_error_middle. }
    rewrite (HP _ _ Hx).
    destruct (q x) eqn:Eq.
    + destruct (IH n (pre ++ [x]) rest j) as (U1 & U2 & EU & F1 & H2 & Es).
      * rewrite Hd, <- app_assoc. reflexivity.
      * rewrite length_app. cbn. lia.
      * lia.
      * exists (x :: U1), U2. split; [cbn; rewrite EU; reflexivity|].
        split; [constructor; assumption|]. split; [exact H2|].
        rewrite length_app in Es. cbn [length] in Es.
        replace (S (length pre)) with (length pre + 1)%nat by lia.
        rewrite Es. cbn [length]. lia.
    + exists [], (x :: U). split; [reflexivity|]. split; [constructor|].
      split; [exact Eq|]. cbn. lia.
Qed.

(** [for i <= j && p(j) { j-- }] over [U], which lies at [i .. j]. *)
Lemma scan_down_split (q : A -> bool) (data : list A) (P : nat -> bool) :
  (forall k x, nth_error data k = Some x -> P k = q x) ->
  forall U n pre rest j,
    data = pre ++ U ++ rest -> S j = (length pre + length U)%nat ->
    (length U < n)%nat -> (1 <= length pre)%nat ->
    exists U1 U2,
      U = U1 ++ U2 /\ Forall (fun x => q x = true) U2 /\
      (U1 = [] \/ exists U0 x, U1 = U0 ++ [x] /\ q x = false) /\
      S (scan_down n P (length pre) j) = (length pre + length U1)%nat.
Proof.
  intros HP. induction U as [|x U IH] using rev_ind; intros n pre rest j Hd Hj Hn Hp.
  - exists [], []. split; [reflexivity|]. split; [constructor|]. split; [left; reflexivity|].
    destruct n as [|n]; [cbn in Hn; lia|]. cbn [scan_down length] in *.
    replace (length pre <=? j)%nat with false by (symmetry; apply Nat.leb_gt; lia).
    cbn. lia.
  - rewrite length_app in Hj, Hn. cbn [length] in Hj, Hn.
    destruct n as [|n]; [lia|]. cbn [scan_down].
    replace (length pre <=? j)%nat with true by (symmetry; apply Nat.leb_le; lia).
    cbn [andb].
    assert (Hx : nth_error data j = Some x).
    { rewrite Hd. replace j with (length pre + length U)%nat by lia.
      apply nth_error_within. apply nth_error_middle. }
    rewrite (HP _ _ Hx).
    destruct (q x) eqn:Eq.
    + destruct (IH n pre (x :: rest) (j - 1)%nat) as (U1 & U2 & EU & F2 & H1 & Es).
      * rewrite Hd, <- app_assoc. reflexivity.
      * lia.
      * lia.
      * exact Hp.
      * exists U1, (U2 ++ [x]). split; [rewrite EU, app_assoc; reflexivity|].
        split; [apply Forall_app; split; [exact F2|repeat constructor; exact Eq]|].
        split; [exact H1|exact Es].
    + exists (U ++ [x]), []. split; [rewrite app_nil_r; reflexivity|].
      split; [constructor|]. split; [right; exists U, x; auto|].
      rewrite length_app. cbn. lia.
Qed.

Lemma Less_pivot_r (front : list A) p rest k x :
  nth_error (front ++ p :: rest) k = Some x ->
  Less less (front ++ p :: rest) k (length front) = less x p.
Proof. intros H. unfold Less. rewrite H, nth_error_middle. reflexivity. Qed.

Lemma Less_pivot_l (front : list A) p rest k x :
  nth_error (front ++ p :: rest) k = Some x ->
  Less less (front ++ p :: rest) (length front) k = less p x.
Proof. intros H. unfold Less. rewrite H, nth_error_middle. reflexivity. Qed.

(** Two elements of the slice change places. *)
Lemma Swap_apart (l1 : list A) x l2 y l3 i j :
  i = length l1 -> j = S (length l1 + length l2) ->
  Swap (l1 ++ x :: l2 ++ y :: l3) i j = l1 ++ y :: l2 ++ x :: l3 /\
  Swap (l1 ++ x :: l2 ++ y :: l3) j i = l1 ++ y :: l2 ++ x :: l3.
Proof.
  intros -> ->.
  assert (Hx : nth_error (l1 ++ x :: l2 ++ y :: l3) (length l1) = Some x)
    by apply nth_error_middle.
  assert (Hy : nth_error (l1 ++ x :: l2 ++ y :: l3) (S (length l1 + length l2)) = Some y).
  { replace (l1 ++ x :: l2 ++ y :: l3) with ((l1 ++ x :: l2) ++ y :: l3)
      by (rewrite <- app_assoc; reflexivity).
    replace (S (length l1 + length l2)) with (length (l1 ++ x :: l2))
      by (rewrite length_app; cbn; lia).
    apply nth_error_middle. }
  assert (P1 : forall u v, put (l1 ++ u :: l2 ++ v :: l3) (length l1) y
                           = l1 ++ y :: l2 ++ v :: l3)
    by (intros; apply put_middle).
  assert (P2 : forall u v, put (l1 ++ u :: l2 ++ v :: l3) (S (length l1 + length l2)) x
                           = l1 ++ u :: l2 ++ x :: l3).
  { intros u v.
    replace (l1 ++ u :: l2 ++ v :: l3) with ((l1 ++ u :: l2) ++ v :: l3)
      by (rewrite <- app_assoc; reflexivity).
    replace (S (length l1 + length l2)) with (length (l1 ++ u :: l2))
      by (rewrite length_app; cbn; lia).
    rewrite put_middle, <- app_assoc. reflexivity. }
  unfold Swap. rewrite Hx, Hy. split.
  - rewrite P1, P2. reflexivity.
  - rewrite P2. apply put_middle.
Qed.

Lemma Swap_same (l1 : list A) x l3 :
  Swap (l1 ++ x :: l3) (length l1) (length l1) = l1 ++ x :: l3.
Proof. unfold Swap. rewrite nth_error_middle, !put_middle. reflexivity. Qed.

Lemma perm_ends (u v : A) M X :
  Permutation (v :: M ++ u :: X) (u :: M ++ v :: X).
Proof.
  rewrite <- (Permutation_middle M X u), <- (Permutation_middle M X v).
  apply perm_swap.
Qed.

(** One round of [partition_func]: the two scans over the part [U] that is
    not yet divided, between the elements below the pivot and those not below
    it. *)
Lemma partition_round front p L U G post :
  let data := front ++ p :: L ++ U ++ G ++ post in
  let i' := scan_up (S (length data)) (fun i => Less less data i (length front))
              (length front + 1 + length L) (length front + length L + length U) in
  let j' := scan_down (S (length data)) (fun j => negb (Less less data j (length front)))
              i' (length front + length L + length U) in
  exists U1 Uc U2,
    U = U1 ++ Uc ++ U2 /\
    Forall (fun z => less z p = true) U1 /\
    Forall (fun z => less z p = false) U2 /\
    i' = (length front + 1 + length L + length U1)%nat /\
    S j' = (i' + length Uc)%nat /\
    (Uc = [] \/ exists u M v, Uc = u :: M ++ [v] /\ less u p = false /\ less v p = true).
Proof.
  intros data i' j'.
  assert (Hup : forall k x, nth_error data k = Some x ->
                            Less less data k (length front) = less x p).
  { intros k x H. apply (Less_pivot_r front p _ k x H). }
  assert (Hdown : forall k x, nth_error data k = Some x ->
                   negb (Less less data k (length front)) = negb (less x p)).
  { intros k x H. rewrite (Hup k x H). reflexivity. }
  assert (Ld : length data
               = (length front + 1 + length L + length U + length G + length post)%nat).
  { unfold data. rewrite length_app. cbn [length]. rewrite !length_app. lia. }
  destruct (scan_up_split (fun x => less x p) data _ Hup U (S (length data))
              (front ++ p :: L) (G ++ post) (length front + length L + length U)%nat)
    as (U1 & U2 & EU & F1 & H2 & Ei).
  { unfold data. rewrite <- ?app_assoc. reflexivity. }
  { rewrite length_app. cbn [length]. lia. }
  { lia. }
  assert (Ei' : i' = (length front + 1 + length L + length U1)%nat).
  { unfold i'. replace (length front + 1 + length L)%nat with (length (front ++ p :: L))
      by (rewrite length_app; cbn [length]; lia).
    rewrite Ei, length_app. cbn [length]. lia. }
  assert (LU : length U = (length U1 + length U2)%nat) by (rewrite EU, length_app; lia).
  destruct (scan_down_split (fun x => negb (less x p)) data _ Hdown U2 (S (length data))
              (front ++ p :: L ++ U1) (G ++ post) (length front + length L + length U)%nat)
    as (Uc & U3 & EU2 & F3 & Hc & Ej).
  { unfold data. rewrite EU, <- !app_assoc. cbn [app]. rewrite <- ?app_assoc. reflexivity. }
  { rewrite length_app. cbn [length]. rewrite length_app. lia. }
  { lia. }
  { rewrite length_app. cbn [length]. lia. }
  assert (Lp : length (front ++ p :: L ++ U1) = i').
  { rewrite Ei', length_app. cbn [length]. rewrite length_app. lia. }
  rewrite Lp in Ej. fold j' in Ej.
  exists U1, Uc, U3. split; [rewrite EU, EU2; reflexivity|].
  split; [exact F1|]. split.
  { eapply Forall_impl; [|exact F3]. cbv beta. intros z Hz.
    apply negb_true_iff in Hz. exact Hz. }
  split; [exact Ei'|]. split; [exact Ej|].
  destruct Hc as [->|(U0 & v & -> & Hv)]; [left; reflexivity|right].
  apply negb_false_iff in Hv.
  destruct U0 as [|u M].
  - exfalso. rewrite EU2 in H2. cbn in H2. congruence.
  - exists u, M, v. split; [reflexivity|]. split; [|exact Hv].
    rewrite EU2 in H2. cbn in H2. exact H2.
Qed.

Lemma partition_loop_spec : forall n U front p L G post,
  Forall (fun z => less z p = true) L ->
  Forall (fun z => less z p = false) G ->
  (length U < n)%nat ->
  exists L' G',
    partition_loop less n (front ++ p :: L ++ U ++ G ++ post) (length front)
      (length front + 1 + length L) (length front + length L + length U)
    = (front ++ p :: L' ++ G' ++ post, (length front + length L')%nat) /\
    Permutation (L' ++ G') (L ++ U ++ G) /\
    Forall (fun z => less z p = true) L' /\
    Forall (fun z => less z p = false) G'.
Proof.
  induction n as [|n IH]; intros U front p L G post FL FG Hn; [lia|].
  cbn [partition_loop].
  destruct (partition_round front p L U G post)
    as (U1 & Uc & U2 & EU & F1 & F2 & Ei & Ej & Hc).
  cbv zeta in Ei, Ej.
  set (data := front ++ p :: L ++ U ++ G ++ post) in *.
  set (i' := scan_up _ _ _ _) in *.
  set (j' := scan_down _ _ _ _) in *.
  destruct Hc as [->|(u & M & v & -> & Hu & Hv)].
  - cbn [length] in Ej. replace (j' <? i')%nat with true
      by (symmetry; apply Nat.ltb_lt; lia).
    exists (L ++ U1), (U2 ++ G). split; [|split; [|split]].
    + f_equal; [|rewrite length_app; lia].
      unfold data. rewrite EU. cbn [app]. rewrite <- ?app_assoc. reflexivity.
    + rewrite EU. cbn [app]. rewrite <- ?app_assoc. reflexivity.
    + apply Forall_app. auto.
    + apply Forall_app. auto.
  - cbn [length] in Ej. rewrite length_app in Ej. cbn [length] in Ej.
    replace (j' <? i')%nat with false by (symmetry; apply Nat.ltb_ge; lia).
    assert (Ed : data = (front ++ p :: L ++ U1) ++ u :: M ++ v :: U2 ++ G ++ post).
    { unfold data. rewrite EU. cbn [app]. rewrite <- ?app_assoc. cbn [app].
      rewrite <- ?app_assoc. reflexivity. }
    assert (Lp : length (front ++ p :: L ++ U1) = i').
    { rewrite Ei, length_app. cbn [length]. rewrite length_app. lia. }
    rewrite Ed.
    rewrite (proj1 (Swap_apart (front ++ p :: L ++ U1) u M v (U2 ++ G ++ post) i' j'
                      (eq_sym Lp) ltac:(lia))).
    destruct (IH M front p (L ++ U1 ++ [v]) (u :: U2 ++ G) post) as (L' & G' & E & P & FL' & FG').
    { apply Forall_app. split; [exact FL|]. apply Forall_app. split; [exact F1|].
      repeat constructor. exact Hv. }
    { constructor; [exact Hu|]. apply Forall_app. auto. }
    { rewrite EU, !length_app in Hn. cbn [length] in Hn. rewrite length_app in Hn.
      cbn [length] in Hn. lia. }
    exists L', G'. split; [|split; [|split]]; [|  |exact FL'|exact FG'].
    + rewrite <- E. f_equal.
      * rewrite <- ?app_assoc. cbn [app]. rewrite <- ?app_assoc. cbn [app]. reflexivity.
      * rewrite Ei, !length_app. cbn [length]. lia.
      * rewrite !length_app. cbn [length]. lia.
    + rewrite P, EU. rewrite <- ?app_assoc. cbn [app]. rewrite <- ?app_assoc. cbn [app].
      apply Permutation_app_head, Permutation_app_head, perm_ends.
Qed.

(** The pivot goes back between the two parts. *)
Lemma Swap_pivot_back front p (L' : list A) rest :
  exists left,
    Swap (front ++ p :: L' ++ rest) (length front + length L') (length front)
    = front ++ left ++ p :: rest /\
    Permutation left L' /\ length left = length L'.
Proof.
  destruct L' as [|z L0 _] using rev_ind.
  - exists []. cbn [length app]. rewrite Nat.add_0_r, Swap_same. auto.
  - exists (z :: L0). rewrite <- app_assoc. cbn [app].
    rewrite (proj2 (Swap_apart front p L0 z rest (length front)
                      (length front + length (L0 ++ [z])) eq_refl
                      ltac:(rewrite length_app; cbn; lia))).
    split; [reflexivity|]. split.
    + rewrite <- (Permutation_middle L0 [] z), app_nil_r. reflexivity.
    + rewrite length_app. cbn. lia.
Qed.

(** The pivot comes to the front of the slice. *)
Lemma Swap_pivot_front front (S1 : list A) p S2 post :
  exists U,
    Swap (front ++ (S1 ++ p :: S2) ++ post) (length front) (length front + length S1)
    = front ++ p :: U ++ post /\
    Permutation U (S1 ++ S2).
Proof.
  destruct S1 as [|s S1].
  - exists S2. cbn [app length]. rewrite Nat.add_0_r, Swap_same. auto.
  - exists (S1 ++ s :: S2). cbn [app length]. rewrite <- ?app_assoc. cbn [app].
    rewrite (proj1 (Swap_apart front s S1 p (S2 ++ post) (length front)
                      (length front + S (length S1)) eq_refl ltac:(lia))).
    rewrite <- ?app_assoc. cbn [app]. split; [reflexivity|].
    symmetry. apply Permutation_middle.
Qed.

(** [partition_func]: the elements below the pivot, the pivot, the others. *)
Lemma partition_func_spec front S1 p S2 post :
  exists left right alreadyPartitioned,
    partition_func less (front ++ (S1 ++ p :: S2) ++ post) (length front)
      (length front + length (S1 ++ p :: S2)) (length front + length S1)
    = (front ++ left ++ p :: right ++ post, (length front + length left)%nat,
       alreadyPartitioned) /\
    Permutation (left ++ right) (S1 ++ S2) /\
    Forall (fun z => less z p = true) left /\
    Forall (fun z => less z p = false) right.
Proof.
  unfold partition_func.
  destruct (Swap_pivot_front front S1 p S2 post) as (U & ES & PU).
  rewrite ES.
  assert (LU : length U = (length S1 + length S2)%nat).
  { rewrite (Permutation_length PU), length_app. reflexivity. }
  replace (length front + length (S1 ++ p :: S2) - 1)%nat
    with (length front + length (@nil A) + length U)%nat
    by (rewrite length_app; cbn [length]; lia).
  replace (length front + 1)%nat with (length front + 1 + length (@nil A))%nat
    by (cbn [length]; lia).
  destruct (partition_round front p [] U [] post)
    as (U1 & Uc & U2 & EU & F1 & F2 & Ei & Ej & Hc).
  cbv zeta in Ei, Ej. cbn [app] in Ei, Ej. cbn [app].
  set (data := front ++ p :: U ++ post) in *.
  set (i' := scan_up _ _ _ _) in *.
  set (j' := scan_down _ _ _ _) in *.
  cbn [length] in Ei.
  destruct Hc as [->|(u & M & v & -> & Hu & Hv)].
  - cbn [length] in Ej. replace (j' <? i')%nat with true
      by (symmetry; apply Nat.ltb_lt; lia).
    cbn [app] in EU.
    destruct (Swap_pivot_back front p U1 (U2 ++ post)) as (left & E & P & Ll).
    exists left, U2, true. split; [|split; [|split]].
    + assert (Y : j' = (length front + length left)%nat) by lia.
      assert (X : Swap data j' (length front) = front ++ left ++ p :: U2 ++ post).
      { unfold data. rewrite EU, <- app_assoc.
        replace j' with (length front + length U1)%nat by lia. exact E. }
      rewrite X, Y. reflexivity.
    + rewrite P, <- PU, EU. reflexivity.
    + rewrite Forall_forall in *. intros z Hz. apply F1.
      apply (Permutation_in _ P), Hz.
    + exact F2.
  - cbn [length] in Ej. rewrite length_app in Ej. cbn [length] in Ej.
    replace (j' <? i')%nat with false by (symmetry; apply Nat.ltb_ge; lia).
    assert (Ed : data = (front ++ p :: U1) ++ u :: M ++ v :: U2 ++ post).
    { unfold data. rewrite EU. rewrite <- ?app_assoc. cbn [app].
      rewrite <- ?app_assoc. reflexivity. }
    assert (Lp : length (front ++ p :: U1) = i').
    { rewrite Ei, length_app. cbn [length]. lia. }
    rewrite Ed.
    rewrite (proj1 (Swap_apart (front ++ p :: U1) u M v (U2 ++ post) i' j'
                      (eq_sym Lp) ltac:(lia))).
    set (data2 := (front ++ p :: U1) ++ v :: M ++ u :: U2 ++ post).
    destruct (partition_loop_spec (S (length data2)) M front p (U1 ++ [v]) (u :: U2) post)
      as (L' & G' & E & P & FL' & FG').
    { apply Forall_app. split; [exact F1|]. repeat constructor. exact Hv. }
    { constructor; assumption. }
    { unfold data2. rewrite !length_app. cbn [length]. rewrite !length_app.
      cbn [length]. lia. }
    replace (partition_loop less (S (length data2)) data2 (length front) (S i') (j' - 1))
      with (front ++ p :: L' ++ G' ++ post, (length front + length L')%nat).
    2:{ rewrite <- E. f_equal.
        - unfold data2. rewrite <- ?app_assoc. cbn [app]. rewrite <- ?app_assoc.
          cbn [app]. reflexivity.
        - rewrite Ei, !length_app. cbn [length]. lia.
        - rewrite !length_app. cbn [length]. lia. }
    destruct (Swap_pivot_back front p L' (G' ++ post)) as (left & E2 & P2 & Ll).
    exists left, G', false. split; [|split; [|split]].
    + rewrite E2, Ll. reflexivity.
    + rewrite P2, P, <- PU, EU. rewrite <- ?app_assoc. cbn [app].
      rewrite <- ?app_assoc. cbn [app].
      apply Permutation_app_head, perm_ends.
    + rewrite Forall_forall in *. intros z Hz. apply FL'.
      apply (Permutation_in _ P2), Hz.
    + exact FG'.
Qed.

(** One round of [partitionEqual_func]: the scans over the part that is not
    yet divided, between the elements not above the pivot and those above. *)
Lemma partitionEqual_round front p E U G post :
  let data := front ++ p :: E ++ U ++ G ++ post in
  let i' := scan_up (S (length data)) (fun i => negb (Less less data (length front) i))
              (length front + 1 + length E) (length front + length E + length U) in
  let j' := scan_down (S (length data)) (fun j => Less less data (length front) j)
              i' (length front + length E + length U) in
  exists U1 Uc U2,
    U = U1 ++ Uc ++ U2 /\
    Forall (fun z => less p z = false) U1 /\
    Forall (fun z => less p z = true) U2 /\
    i' = (length front + 1 + length E + length U1)%nat /\
    S j' = (i' + length Uc)%nat /\
    (Uc = [] \/ exists u M v, Uc = u :: M ++ [v] /\ less p u = true /\ less p v = false).
Proof.
  intros data i' j'.
  assert (Hdown : forall k x, nth_error data k = Some x ->
                              Less less data (length front) k = less p x).
  { intros k x H. apply (Less_pivot_l front p _ k x H). }
  assert (Hup : forall k x, nth_error data k = Some x ->
                   negb (Less less data (length front) k) = negb (less p x)).
  { intros k x H. rewrite (Hdown k x H). reflexivity. }
  assert (Ld : length data
               = (length front + 1 + length E + length U + length G + length post)%nat).
  { unfold data. rewrite length_app. cbn [length]. rewrite !length_app. lia. }
  destruct (scan_up_split (fun x => negb (less p x)) data _ Hup U (S (length data))
              (front ++ p :: E) (G ++ post) (length front + length E + length U)%nat)
    as (U1 & U2 & EU & F1 & H2 & Ei).
  { unfold data. rewrite <- ?app_assoc. reflexivity. }
  { rewrite length_app. cbn [length]. lia. }
  { lia. }
  assert (Ei' : i' = (length front + 1 + length E + length U1)%nat).
  { unfold i'. replace (length front + 1 + length E)%nat with (length (front ++ p :: E))
      by (rewrite length_app; cbn [length]; lia).
    rewrite Ei, length_app. cbn [length]. lia. }
  assert (LU : length U = (length U1 + length U2)%nat) by (rewrite EU, length_app; lia).
  destruct (scan_down_split (fun x => less p x) data _ Hdown U2 (S (length data))
              (front ++ p :: E ++ U1) (G ++ post) (length front + length E + length U)%nat)
    as (Uc & U3 & EU2 & F3 & Hc & Ej).
  { unfold data. rewrite EU, <- ?app_assoc. cbn [app]. rewrite <- ?app_assoc. reflexivity. }
  { rewrite length_app. cbn [length]. rewrite length_app. lia. }
  { lia. }
  { rewrite length_app. cbn [length]. lia. }
  assert (Lp : length (front ++ p :: E ++ U1) = i').
  { rewrite Ei', length_app. cbn [length]. rewrite length_app. lia. }
  rewrite Lp in Ej. fold j' in Ej.
  exists U1, Uc, U3. split; [rewrite EU, EU2; reflexivity|].
  split.
  { eapply Forall_impl; [|exact F1]. cbv beta. intros z Hz.
    apply negb_true_iff in Hz. exact Hz. }
  split; [exact F3|]. split; [exact Ei'|]. split; [exact Ej|].
  destruct Hc as [->|(U0 & v & -> & Hv)]; [left; reflexivity|right].
  destruct U0 as [|u M].
  - exfalso. rewrite EU2 in H2. cbn in H2. rewrite Hv in H2. discriminate.
  - exists u, M, v. split; [reflexivity|]. split; [|exact Hv].
    rewrite EU2 in H2. cbn in H2. apply negb_false_iff in H2. exact H2.
Qed.

Lemma partitionEqual_loop_spec : forall n U front p E G post,
  Forall (fun z => less p z = false) E ->
  Forall (fun z => less p z = true) G ->
  (length U < n)%nat ->
  exists E' G',
    partitionEqual_loop less n (front ++ p :: E ++ U ++ G ++ post) (length front)
      (length front + 1 + length E) (length front + length E + length U)
    = (front ++ p :: E' ++ G' ++ post, (length front + 1 + length E')%nat) /\
    Permutation (E' ++ G') (E ++ U ++ G) /\
    Forall (fun z => less p z = false) E' /\
    Forall (fun z => less p z = true) G'.
Proof.
  induction n as [|n IH]; intros U front p E G post FE FG Hn; [lia|].
  cbn [partitionEqual_loop].
  destruct (partitionEqual_round front p E U G post)
    as (U1 & Uc & U2 & EU & F1 & F2 & Ei & Ej & Hc).
  cbv zeta in Ei, Ej.
  set (data := front ++ p :: E ++ U ++ G ++ post) in *.
  set (i' := scan_up _ _ _ _) in *.
  set (j' := scan_down _ _ _ _) in *.
  destruct Hc as [->|(u & M & v & -> & Hu & Hv)].
  - cbn [length] in Ej. replace (j' <? i')%nat with true
      by (symmetry; apply Nat.ltb_lt; lia).
    exists (E ++ U1), (U2 ++ G). split; [|split; [|split]].
    + f_equal; [|rewrite length_app; lia].
      unfold data. rewrite EU. cbn [app]. rewrite <- ?app_assoc. reflexivity.
    + rewrite EU. cbn [app]. rewrite <- ?app_assoc. reflexivity.
    + apply Forall_app. auto.
    + apply Forall_app. auto.
  - cbn [length] in Ej. rewrite length_app in Ej. cbn [length] in Ej.
    replace (j' <? i')%nat with false by (symmetry; apply Nat.ltb_ge; lia).
    assert (Ed : data = (front ++ p :: E ++ U1) ++ u :: M ++ v :: U2 ++ G ++ post).
    { unfold data. rewrite EU. cbn [app]. rewrite <- ?app_assoc. cbn [app].
      rewrite <- ?app_assoc. reflexivity. }
    assert (Lp : length (front ++ p :: E ++ U1) = i').
    { rewrite Ei, length_app. cbn [length]. rewrite length_app. lia. }
    rewrite Ed.
    rewrite (proj1 (Swap_apart (front ++ p :: E ++ U1) u M v (U2 ++ G ++ post) i' j'
                      (eq_sym Lp) ltac:(lia))).
    destruct (IH M front p (E ++ U1 ++ [v]) (u :: U2 ++ G) post)
      as (E' & G' & Eq & P & FE' & FG').
    { apply Forall_app. split; [exact FE|]. apply Forall_app. split; [exact F1|].
      repeat constructor. exact Hv. }
    { constructor; [exact Hu|]. apply Forall_app. auto. }
    { rewrite EU, !length_app in Hn. cbn [length] in Hn. rewrite length_app in Hn.
      cbn [length] in Hn. lia. }
    exists E', G'. split; [|split; [|split]]; [|  |exact FE'|exact FG'].
    + rewrite <- Eq. f_equal.
      * rewrite <- ?app_assoc. cbn [app]. rewrite <- ?app_assoc. cbn [app]. reflexivity.
      * rewrite Ei, !length_app. cbn [length]. lia.
      * rewrite !length_app. cbn [length]. lia.
    + rewrite P, EU. rewrite <- ?app_assoc. cbn [app]. rewrite <- ?app_assoc. cbn [app].
      apply Permutation_app_head, Permutation_app_head, perm_ends.
Qed.

(** [partitionEqual_func]: the pivot and the elements not above it, then the
    elements above it. *)
Lemma partitionEqual_func_spec front S1 p S2 post :
  exists E' G',
    partitionEqual_func less (front ++ (S1 ++ p :: S2) ++ post) (length front)
      (length front + length (S1 ++ p :: S2)) (length front + length S1)
    = (front ++ (p :: E') ++ G' ++ post, (length front + length (p :: E'))%nat) /\
    Permutation (E' ++ G') (S1 ++ S2) /\
    Forall (fun z => less p z = false) (p :: E') /\
    Forall (fun z => less p z = true) G'.
Proof.
  destruct Hless as (Irr & _).
  unfold partitionEqual_func.
  destruct (Swap_pivot_front front S1 p S2 post) as (U & ES & PU).
  rewrite ES.
  assert (LU : length U = (length S1 + length S2)%nat).
  { rewrite (Permutation_length PU), length_app. reflexivity. }
  replace (length front + length (S1 ++ p :: S2) - 1)%nat
    with (length front + length (@nil A) + length U)%nat
    by (rewrite length_app; cbn [length]; lia).
  replace (length front + 1)%nat with (length front + 1 + length (@nil A))%nat
    by (cbn [length]; lia).
  destruct (partitionEqual_loop_spec (S (length (front ++ p :: U ++ post))) U front p [] [] post)
    as (E' & G' & E & P & FE & FG).
  { constructor. }
  { constructor. }
  { rewrite length_app. cbn [length]. rewrite length_app. lia. }
  cbn [app] in E, P. rewrite app_nil_r in P.
  exists E', G'. split; [|split; [|split]].
  - rewrite E. cbn [app length]. f_equal. lia.
  - rewrite P. exact PU.
  - constructor; [apply Irr|exact FE].
  - exact FG.
Qed.

(** *** The choice of the pivot and the test for a sorted slice *)

Lemma median_func_one_of data a b c swaps :
  let m := fst (median_func less data a b c swaps) in m = a \/ m = b \/ m = c.
Proof.
  unfold median_func, order2_func.
  destruct (Less less data b a); destruct (Less less data c _);
    destruct (Less less data _ _); cbn; auto.
Qed.

Lemma choosePivot_func_within data a b pivot hint :
  choosePivot_func less data a b = Ret (pivot, hint) ->
  (13 <= b - a)%nat -> (a <= pivot < b)%nat.
Proof.
  unfold choosePivot_func. intros H Hl.
  pose proof (Nat.div_mod_eq (b - a) 4) as D.
  pose proof (Nat.mod_upper_bound (b - a) 4 ltac:(lia)) as B.
  replace (8 <=? b - a)%nat with true in H by (symmetry; apply Nat.leb_le; lia).
  destruct (shortestNinther <=? b - a)%nat; [discriminate|].
  pose proof (median_func_one_of data (a + (b - a) / 4 * 1) (a + (b - a) / 4 * 2)
                (a + (b - a) / 4 * 3) 0) as M.
  destruct (median_func less data _ _ _ 0) as [j swaps]. cbn [fst] in M.
  inversion H; subst. lia.
Qed.

Lemma R_transitive x y z : R x y -> R y z -> R x z.
Proof.
  destruct Hless as (_ & _ & Ntr). intros H1 H2. unfold R in *.
  apply (Ntr z y x H2 H1).
Qed.

(** [for i < b && !data.Less(i, i-1) { i++ }] gets to [b] only over an
    ascending run. *)
Lemma ascending_prefix_sorted (data : list A) b : forall U n pre x rest,
  data = pre ++ x :: U ++ rest -> b = S (length pre + length U) ->
  (length U < n)%nat ->
  ascending_prefix less n data (S (length pre)) b = b ->
  Sorted R (x :: U).
Proof.
  induction U as [|y U IH]; intros n pre x rest Hd Hb Hn H.
  - repeat constructor.
  - destruct n as [|n]; [cbn in Hn; lia|]. cbn [ascending_prefix length] in *.
    replace (S (length pre) <? b)%nat with true in H by (symmetry; apply Nat.ltb_lt; lia).
    cbn [andb] in H.
    replace (S (length pre) - 1)%nat with (length pre) in H by lia.
    assert (L : Less less data (S (length pre)) (length pre) = less y x)
      by (rewrite Hd; apply Less_adjacent).
    rewrite L in H.
    destruct (less y x) eqn:E; cbn [negb] in H; [lia|].
    constructor; [|constructor; exact E].
    apply (IH n (pre ++ [x]) y rest).
    + rewrite Hd, <- app_assoc. reflexivity.
    + rewrite length_app. cbn [length]. lia.
    + lia.
    + rewrite length_app. cbn [length].
      replace (length pre + 1)%nat with (S (length pre)) by lia. exact H.
Qed.

Lemma partialInsertionSort_func_sorted front (seg : list A) post :
  seg <> [] ->
  partialInsertionSort_func less (front ++ seg ++ post) (length front)
    (length front + length seg) = Ret true ->
  StronglySorted R seg.
Proof.
  intros Hne. unfold partialInsertionSort_func.
  destruct (Nat.eqb_spec
              (ascending_prefix less (S (length (front ++ seg ++ post)))
                 (front ++ seg ++ post) (length front + 1)
                 (length front + length seg))
              (length front + length seg)) as [E|_].
  - intros _. destruct seg as [|x U]; [contradiction|].
    apply Sorted_StronglySorted; [exact R_transitive|].
    apply (ascending_prefix_sorted (front ++ (x :: U) ++ post)
             (length front + length (x :: U)) U
             (S (length (front ++ (x :: U) ++ post))) front x post).
    + reflexivity.
    + cbn [length]. lia.
    + rewrite ?length_app. cbn [length]. rewrite ?length_app. lia.
    + replace (S (length front)) with (length front + 1)%nat by lia. exact E.
  - destruct (_ <? _)%nat; discriminate.
Qed.

(** *** Sorted parts make a sorted slice *)

Lemma sorted_app (l1 l2 : list A) :
  StronglySorted R l1 -> StronglySorted R l2 ->
  (forall x y, In x l1 -> In y l2 -> R x y) ->
  StronglySorted R (l1 ++ l2).
Proof.
  induction 1 as [|x l1 Hs IH Hf]; intros S2 H; cbn [app]; [exact S2|].
  constructor.
  - apply IH; [exact S2|]. intros a b Ha Hb. apply H; [right; exact Ha|exact Hb].
  - apply Forall_app. split; [exact Hf|].
    apply Forall_forall. intros y Hy. apply H; [left; reflexivity|exact Hy].
Qed.

Lemma sorted_all_related (l : list A) :
  (forall x y, In x l -> In y l -> R x y) -> StronglySorted R l.
Proof.
  induction l as [|x l IH]; intros H; constructor.
  - apply IH. intros a b Ha Hb. apply H; right; assumption.
  - apply Forall_forall. intros y Hy. apply H; [left; reflexivity|right; exact Hy].
Qed.

Lemma split_at (l : list A) k :
  (k < length l)%nat -> exists l1 x l2, l = l1 ++ x :: l2 /\ length l1 = k.
Proof.
  intros H. destruct (nth_error l k) as [x|] eqn:E.
  - destruct (nth_error_split l k E) as (l1 & l2 & E1 & E2). exists l1, x, l2. auto.
  - apply nth_error_None in E. lia.
Qed.

Lemma last_in_tail (front : list A) x l f q :
  front ++ x :: l = f ++ [q] -> In q (x :: l).
Proof.
  intros H. destruct (exists_last (l := x :: l) ltac:(discriminate)) as (l0 & z & E).
  rewrite E in H |- *. rewrite app_assoc in H. apply app_inj_tail in H.
  destruct H as [_ ->]. apply in_or_app. right. left. reflexivity.
Qed.

(** The parts of a partition, each sorted, with the pivot between them. *)
Lemma partition_assembled (left' right' left right S1 S2 : list A) p :
  Permutation left' left -> Permutation right' right ->
  Permutation (left ++ right) (S1 ++ S2) ->
  Forall (fun z => less z p = true) left ->
  Forall (fun z => less z p = false) right ->
  StronglySorted R left' -> StronglySorted R right' ->
  Permutation (left' ++ p :: right') (S1 ++ p :: S2) /\
  StronglySorted R (left' ++ p :: right').
Proof.
  destruct Hless as (Irr & Tr & Ntr).
  intros Pl Pr P Fl Fr Sl Sr. rewrite Forall_forall in Fl, Fr. split.
  - rewrite <- (Permutation_middle left' right' p), <- (Permutation_middle S1 S2 p).
    apply perm_skip. rewrite Pl, Pr. exact P.
  - apply sorted_app; [exact Sl| |].
    + constructor; [exact Sr|]. apply Forall_forall. intros y Hy.
      unfold R. apply Fr. apply (Permutation_in _ Pr), Hy.
    + intros x y Hx Hy. apply (Permutation_in _ Pl), Fl in Hx. unfold R.
      destruct Hy as [<-|Hy].
      * apply (less_asym less (conj Irr (conj Tr Ntr))), Hx.
      * apply (Permutation_in _ Pr), Fr in Hy.
        destruct (less y x) eqn:E; [|reflexivity].
        rewrite (Tr y x p E Hx) in Hy. discriminate.
Qed.

(** The parts that [partitionEqual_func] makes, when nothing in the slice
    is below [q] and the pivot is not above [q]. *)
Lemma partitionEqual_assembled (Eq G' G'' seg : list A) p q :
  less q p = false ->
  Forall (fun z => less z q = false) seg ->
  Permutation (Eq ++ G') seg ->
  Forall (fun z => less p z = false) Eq ->
  Forall (fun z => less p z = true) G' ->
  Permutation G'' G' -> StronglySorted R G'' ->
  Permutation (Eq ++ G'') seg /\ StronglySorted R (Eq ++ G'').
Proof.
  destruct Hless as (Irr & Tr & Ntr).
  intros Hq Hb P FE FG PG SG. rewrite Forall_forall in Hb, FE, FG. split.
  - rewrite PG. exact P.
  - apply sorted_app; [|exact SG|].
    + apply sorted_all_related. intros x y Hx Hy. unfold R.
      assert (Hy' : less y q = false).
      { apply Hb, (Permutation_in _ P), in_or_app. left. exact Hy. }
      apply (Ntr y q x Hy'). apply (Ntr q p x Hq). apply FE, Hx.
    + intros x y Hx Hy. unfold R.
      apply (Permutation_in _ PG), FG in Hy. apply FE in Hx.
      destruct (less y x) eqn:E; [|reflexivity].
      rewrite (Tr p y x Hy E) in Hx. discriminate.
Qed.

(** *** [pdqsort_func]

    Whenever the embedded part of [pdqsort_func] returns, [data[a:b]] is
    sorted and the rest of the slice is in place.  The elements of
    [data[a:b]] are not below [data[a-1]]: this is what [partitionEqual_func]
    relies on. *)
Lemma pdqsort_func_sorts : forall fuel front seg post limit wb wp data',
  (forall f0 q, front = f0 ++ [q] -> Forall (fun z => less z q = false) seg) ->
  pdqsort_func less fuel (front ++ seg ++ post) (length front)
    (length front + length seg) limit wb wp = Ret data' ->
  exists seg',
    data' = front ++ seg' ++ post /\ Permutation seg' seg /\ StronglySorted R seg'.
Proof.
  pose proof Hless as (Irr & Tr & Ntr).
  induction fuel as [|fuel IH]; intros front seg post limit wb wp data' Hb H;
    [discriminate|].
  cbn [pdqsort_func] in H.
  replace (length front + length seg - length front)%nat with (length seg) in H by lia.
  destruct (Nat.leb_spec (length seg) maxInsertion) as [Hs|Hs].
  { inversion H; subst.
    destruct (insertionSort_func_sorts front seg post) as (seg' & E & P & S').
    exists seg'. auto. }
  destruct (limit =? 0)%nat; [discriminate|].
  destruct wb; cbn [negb] in H; [|discriminate].
  destruct (choosePivot_func less _ _ _) as [[pivot hint]| |] eqn:Ec; try discriminate.
  cbn [run_bind] in H.
  unfold maxInsertion in Hs.
  pose proof (choosePivot_func_within _ _ _ _ _ Ec ltac:(lia)) as Hpv.
  destruct (split_at seg (pivot - length front) ltac:(lia)) as (S1 & p & S2 & Eseg & L1).
  assert (Epv : pivot = (length front + length S1)%nat) by lia.
  assert (Hne : seg <> []) by (intros ->; cbn in Hs; lia).
  clear Ec Hpv L1. subst pivot.
  (* what follows the test for a sorted slice *)
  assert (K : forall wp',
    (if (0 <? length front)%nat
        && negb (Less less (front ++ seg ++ post) (length front - 1)
                   (length front + length S1))
     then
       let '(data, mid) :=
         partitionEqual_func less (front ++ seg ++ post) (length front)
           (length front + length seg) (length front + length S1) in
       pdqsort_func less fuel data mid (length front + length seg) limit true wp'
     else
       let '(data, mid, alreadyPartitioned) :=
         partition_func less (front ++ seg ++ post) (length front)
           (length front + length seg) (length front + length S1) in
       let leftLen := (mid - length front)%nat in
       let rightLen := (length front + length seg - mid)%nat in
       let balanceThreshold := (length seg / 8)%nat in
       if (leftLen <? rightLen)%nat then
         run_bind (pdqsort_func less fuel data (length front) mid limit true true)
           (fun data =>
              pdqsort_func less fuel data (mid + 1) (length front + length seg) limit
                (balanceThreshold <=? leftLen)%nat alreadyPartitioned)
       else
         run_bind (pdqsort_func less fuel data (mid + 1) (length front + length seg)
                     limit true true)
           (fun data =>
              pdqsort_func less fuel data (length front) mid limit
                (balanceThreshold <=? rightLen)%nat alreadyPartitioned)) = Ret data' ->
    exists seg',
      data' = front ++ seg' ++ post /\ Permutation seg' seg /\ StronglySorted R seg').
  { intros wp' HK.
    destruct ((0 <? length front)%nat && negb (Less less _ _ _)) eqn:Eeq.
    - (* the elements equal to the pivot, then the rest *)
      apply andb_true_iff in Eeq. destruct Eeq as [Ha Hq].
      apply Nat.ltb_lt in Ha.
      destruct (exists_last (l := front) ltac:(intros ->; cbn in Ha; lia)) as (f0 & q & Ef).
      assert (Hqp : less q p = false).
      { apply negb_true_iff in Hq. rewrite <- Hq. unfold Less.
        replace (length front - 1)%nat with (length f0)
          by (rewrite Ef, length_app; cbn; lia).
        rewrite Ef, Eseg, <- ?app_assoc. cbn [app]. rewrite nth_error_middle.
        replace (f0 ++ q :: S1 ++ p :: S2 ++ post) with ((f0 ++ q :: S1) ++ p :: S2 ++ post)
          by (rewrite <- app_assoc; reflexivity).
        replace (length (f0 ++ [q]) + length S1)%nat with (length (f0 ++ q :: S1))
          by (rewrite !length_app; cbn [length]; lia).
        rewrite nth_error_middle. reflexivity. }
      pose proof (Hb f0 q Ef) as Hbq.
      rewrite Eseg in HK.
      destruct (partitionEqual_func_spec front S1 p S2 post) as (E' & G' & Ep & P & FE & FG).
      rewrite Ep in HK.
      assert (Lg : length (E' ++ G') = length (S1 ++ S2)) by (apply Permutation_length, P).
      rewrite !length_app in Lg.
      destruct (IH (front ++ p :: E') G' post limit true wp' data') as (G'' & Ed & PG & SG).
      + intros f1 q1 E1. apply last_in_tail in E1.
        rewrite Forall_forall in FE, FG |- *. intros g Hg.
        apply FE in E1. apply FG in Hg.
        destruct (less g q1) eqn:E; [|reflexivity].
        rewrite (Tr p g q1 Hg E) in E1. discriminate.
      + rewrite <- HK. f_equal.
        * rewrite <- app_assoc. reflexivity.
        * rewrite length_app. reflexivity.
        * rewrite !length_app. cbn [length]. lia.
      + destruct (partitionEqual_assembled (p :: E') G' G'' seg p q Hqp Hbq)
          as (Pf & Sf); auto.
        { rewrite Eseg. cbn [app]. rewrite <- (Permutation_middle S1 S2 p).
          apply perm_skip, P. }
        exists ((p :: E') ++ G''). split; [|split; assumption].
        rewrite Ed, <- ?app_assoc. reflexivity.
    - (* the elements below the pivot, the pivot, the rest *)
      rewrite Eseg in HK.
      destruct (partition_func_spec front S1 p S2 post)
        as (left & right & ap & Ep & P & Fl & Fr).
      rewrite Ep in HK. cbv zeta in HK.
      assert (Lg : length (left ++ right) = length (S1 ++ S2))
        by (apply Permutation_length, P).
      rewrite !length_app in Lg.
      assert (Hbl : forall f0 q, front = f0 ++ [q] ->
                                 Forall (fun z => less z q = false) left).
      { intros f0 q Ef. pose proof (Hb f0 q Ef) as F. rewrite Forall_forall in F |- *.
        intros z Hz. apply F. rewrite Eseg.
        assert (In z (left ++ right)) by (apply in_or_app; left; exact Hz).
        apply (Permutation_in _ P) in H0. apply in_app_or in H0.
        apply in_or_app. destruct H0; [left; assumption|right; right; assumption]. }
      assert (Hbr : forall (left' : list A) f0 q, front ++ left' ++ [p] = f0 ++ [q] ->
                                 Forall (fun z => less z q = false) right).
      { intros left' f0 q Ef. rewrite app_assoc in Ef. apply app_inj_tail in Ef.
        destruct Ef as [_ <-]. exact Fr. }
      match type of HK with (if ?c then _ else _) = _ => destruct c end.
      + match type of HK with
        | run_bind ?x _ = _ => destruct x as [data2| |] eqn:E1; try discriminate
        end.
        cbn [run_bind] in HK.
        destruct (IH front left (p :: right ++ post) limit true true data2 Hbl E1)
          as (left' & Ed2 & Pl & Sl).
        pose proof (Permutation_length Pl) as Ll.
        destruct (IH (front ++ left' ++ [p]) right post limit
                    (length (S1 ++ p :: S2) / 8 <=? length front + length left - length front)%nat
                    ap data' (Hbr left')) as (right' & Ed & Pr & Sr).
        { rewrite <- HK, Ed2. f_equal.
          - rewrite <- ?app_assoc. reflexivity.
          - rewrite !length_app. cbn [length]. lia.
          - rewrite !length_app. cbn [length]. lia. }
        destruct (partition_assembled left' right' left right S1 S2 p Pl Pr P Fl Fr Sl Sr)
          as (Pf & Sf).
        exists (left' ++ p :: right'). rewrite Eseg. split; [|split; assumption].
        rewrite Ed, <- ?app_assoc. reflexivity.
      + match type of HK with
        | run_bind ?x _ = _ => destruct x as [data2| |] eqn:E1; try discriminate
        end.
        cbn [run_bind] in HK.
        destruct (IH (front ++ left ++ [p]) right post limit true true data2 (Hbr left))
          as (right' & Ed2 & Pr & Sr).
        { rewrite <- E1. f_equal.
          - rewrite <- ?app_assoc. reflexivity.
          - rewrite !length_app. cbn [length]. lia.
          - rewrite !length_app. cbn [length]. lia. }
        destruct (IH front left (p :: right' ++ post) limit
                    (length (S1 ++ p :: S2) / 8
                     <=? length front + length (S1 ++ p :: S2)
                         - (length front + length left))%nat
                    ap data' Hbl) as (left' & Ed & Pl & Sl).
        { rewrite <- HK, Ed2. f_equal. rewrite <- ?app_assoc. reflexivity. }
        destruct (partition_assembled left' right' left right S1 S2 p Pl Pr P Fl Fr Sl Sr)
          as (Pf & Sf).
        exists (left' ++ p :: right'). rewrite Eseg. split; [|split; assumption].
        rewrite Ed, <- ?app_assoc. reflexivity. }
  destruct hint.
  - cbn [run_bind] in H. apply (K wp H).
  - destruct wp; cbn [andb] in H.
    + destruct (partialInsertionSort_func less _ _ _) as [[|]| |] eqn:Ep;
        try discriminate; cbn [run_bind] in H.
      * inversion H as [Hd]. exists seg. split; [reflexivity|]. split; [reflexivity|].
        apply (partialInsertionSort_func_sorted front seg post Hne Ep).
      * apply (K true H).
    + cbn [run_bind] in H. apply (K false H).
  - discriminate.
Qed.

(** What [sort.Slice] returns, as far as its algorithm is embedded, is the
    slice rearranged into ascending order. *)
Lemma sort_Slice_go_sorts (l l' : list A) :
  sort_Slice_go A less l = Ret l' ->
  Permutation l' l /\ StronglySorted R l'.
Proof.
  unfold sort_Slice_go. intros H.
  destruct (pdqsort_func_sorts (2 * length l + 1) [] l [] (bits_Len (length l)) true true l')
    as (seg' & E & P & S').
  - intros f0 q E. destruct f0; discriminate.
  - cbn [app length Nat.add]. rewrite app_nil_r. exact H.
  - cbn [app] in E. rewrite app_nil_r in E. subst seg'. auto.
Qed.
End PdqSortFacts.

(** ** The result reporter: what the claim says *)

(** C6, as the code has it.  The reporter hands its outcomes to
    [sort.Slice] with the comparison of the numeric last octets, which is an
    ordering as [sort.Slice] asks for.  Whatever [sort.Slice] does within its
    documented contract, the outcomes that [printResults] prints and that
    [saveSortedResultsToLog] writes are the input rearranged in ascending
    order of the numeric last octet.  For outcomes whose last octets are
    pairwise distinct the order is fully determined.  Nothing is promised
    about the order of outcomes with equal last octets: [sort.Slice] is not a
    stable sort.  10.0.0.2, 10.0.0.15, 10.0.0.3 come out as 10.0.0.2,
    10.0.0.3, 10.0.0.15, under every such sorter and under the algorithm of
    [sort.Slice] as it is embedded, and 10.0.1.3 comes before 10.0.0.5.
    The embedded algorithm itself gives the ascending order whenever it
    answers, and it answers for up to twelve outcomes. *)
Theorem C6_outcomes_sorted_by_last_octet :
  forall sort_Slice results timeoutMs,
    sort_Slice_contract sort_Slice ->
    (exists printed logged,
        printResults sort_Slice results timeoutMs
        = Ret (printed, render printed timeoutMs) /\
        saveSortedResultsToLog sort_Slice printed = Ret (logged, table logged) /\
        Permutation printed results /\
        StronglySorted octet_le printed /\
        Permutation logged results /\
        StronglySorted octet_le logged /\
        (NoDup (map lastOctetNum results) ->
           printed = insertion_order lessLastOctet results /\ logged = printed)) /\
    (forall a1 a2 a3,
        sort_Slice PingResult lessLastOctet
          [mkPingResult "10.0.0.2" a1; mkPingResult "10.0.0.15" a2;
           mkPingResult "10.0.0.3" a3]
        = Ret [mkPingResult "10.0.0.2" a1; mkPingResult "10.0.0.3" a3;
               mkPingResult "10.0.0.15" a2]) /\
    (forall a1 a2,
        sort_Slice PingResult lessLastOctet
          [mkPingResult "10.0.0.5" a1; mkPingResult "10.0.1.3" a2]
        = Ret [mkPingResult "10.0.1.3" a2; mkPingResult "10.0.0.5" a1]) /\
    ordering lessLastOctet /\
    (forall a1 a2 a3,
        printResults sort_Slice_go
          [mkPingResult "10.0.0.2" a1; mkPingResult "10.0.0.15" a2;
           mkPingResult "10.0.0.3" a3] timeoutMs
        = Ret ([mkPingResult "10.0.0.2" a1; mkPingResult "10.0.0.3" a3;
                mkPingResult "10.0.0.15" a2],
               render [mkPingResult "10.0.0.2" a1; mkPingResult "10.0.0.3" a3;
                       mkPingResult "10.0.0.15" a2] timeoutMs)) /\
    (forall printed shown,
        printResults sort_Slice_go results timeoutMs = Ret (printed, shown) ->
        shown = render printed timeoutMs /\
        Permutation printed results /\ StronglySorted octet_le printed) /\
    (forall logged rows,
        saveSortedResultsToLog sort_Slice_go results = Ret (logged, rows) ->
        rows = table logged /\
        Permutation logged results /\ StronglySorted octet_le logged) /\
    ((length results <= 12)%nat ->
     exists printed,
       printResults sort_Slice_go results timeoutMs
       = Ret (printed, render printed timeoutMs)).
Proof.
  intros sort_Slice results timeoutMs C.
  assert (G : forall sorted,
             sort_Slice_go PingResult lessLastOctet results = Ret sorted ->
             Permutation sorted results /\ StronglySorted octet_le sorted).
  { intros sorted E.
    destruct (sort_Slice_go_sorts lessLastOctet ordering_lessLastOctet results sorted E)
      as [P S'].
    split; [exact P|]. eapply StronglySorted_impl; [|exact S'].
    intros a b H. unfold lessLastOctet in H. unfold octet_le. apply Z.ltb_ge in H. lia. }
  split; [|split; [|split; [|split; [exact ordering_lessLastOctet|split; [|split; [|split]]]]]].
  4:{ intros a1 a2 a3. unfold printResults.
      replace (sort_Slice_go PingResult lessLastOctet
                 [mkPingResult "10.0.0.2" a1; mkPingResult "10.0.0.15" a2;
                  mkPingResult "10.0.0.3" a3])
        with (Ret [mkPingResult "10.0.0.2" a1; mkPingResult "10.0.0.3" a3;
                   mkPingResult "10.0.0.15" a2]);
        [reflexivity|].
      destruct a1, a2, a3; vm_compute; reflexivity. }
  4:{ intros printed shown H. unfold printResults in H.
      destruct (sort_Slice_go PingResult lessLastOctet results) as [sorted| |] eqn:E;
        try discriminate.
      cbn [run_bind] in H. inversion H; subst. split; [reflexivity|]. apply G. reflexivity. }
  4:{ intros logged rows H. unfold saveSortedResultsToLog in H.
      destruct (sort_Slice_go PingResult lessLastOctet results) as [sorted| |] eqn:E;
        try discriminate.
      cbn [run_bind] in H. inversion H; subst. split; [reflexivity|]. apply G. reflexivity. }
  4:{ intros Hl.
      destruct (sort_Slice_go_small lessLastOctet ordering_lessLastOctet results Hl)
        as (printed & E & _).
      exists printed. unfold printResults. rewrite E. reflexivity. }
  - destruct (contract_octet_sorted sort_Slice results C) as (printed & E1 & P1 & S1).
    destruct (contract_octet_sorted sort_Slice printed C) as (logged & E2 & P2 & S2).
    exists printed, logged.
    unfold printResults, saveSortedResultsToLog. rewrite E1, E2. cbn [run_bind].
    split; [reflexivity|]. split; [reflexivity|].
    split; [exact P1|]. split; [exact S1|].
    split; [rewrite P2; exact P1|]. split; [exact S2|].
    intros Hn.
    assert (X : printed = insertion_order lessLastOctet results).
    { rewrite (sort_Slice_determined sort_Slice results C Hn) in E1.
      inversion E1; reflexivity. }
    split; [exact X|].
    apply sorted_unique; auto.
    eapply Permutation_NoDup; [|exact Hn].
    apply Permutation_map. rewrite P2. apply Permutation_sym, P1.
  - intros a1 a2 a3. rewrite sort_Slice_determined; [reflexivity|assumption|].
    vm_compute. repeat constructor; cbn; intuition discriminate.
  - intros a1 a2. rewrite sort_Slice_determined; [reflexivity|assumption|].
    vm_compute. repeat constructor; cbn; intuition discriminate.
Qed.

Lemma C6_witness :
  sort_Slice_contract insertion_sort /\
  insertion_sort PingResult lessLastOctet
    [mkPingResult "10.0.0.2" true; mkPingResult "10.0.0.15" false;
     mkPingResult "10.0.0.3" true]
  = Ret [mkPingResult "10.0.0.2" true; mkPingResult "10.0.0.3" true;
         mkPingResult "10.0.0.15" false].
Proof.
  split; [exact insertion_sort_contract|].
  destruct (C6_outcomes_sorted_by_last_octet insertion_sort [] 800
              insertion_sort_contract) as (_ & E & _).
  apply (E true false true).
Defined.

(** C6 as the claim states it fails.  On these thirteen outcomes the
    partition step of [pdqsort_func] moves 10.0.1.1 from the end of the slice
    to the front of 10.0.0.1, and the insertion sort of the left part leaves
    the two, of equal last octet, in that order: the opposite of the input.
    Nor does the contract of [sort.Slice] ask for more: a sorter that inserts
    before the equal elements keeps it. *)
Lemma C6_equal_octets_not_kept_in_order :
  printResults sort_Slice_go thirteen 800
  = Ret (thirteen_sorted, render thirteen_sorted 800) /\
  ~ keeps_input_order thirteen thirteen_sorted /\
  sort_Slice_contract reversing_sort /\
  reversing_sort PingResult lessLastOctet
    [mkPingResult "10.0.0.5" true; mkPingResult "10.0.1.5" false]
  = Ret [mkPingResult "10.0.1.5" false; mkPingResult "10.0.0.5" true].
Proof.
  split; [vm_compute; reflexivity|]. split.
  - intros H. specialize (H 1). vm_compute in H. discriminate.
  - split; [exact reversing_sort_contract|]. vm_compute. reflexivity.
Qed.

(** ** Last octets within one chunk *)

Lemma split_no_dot s : no_dot s = true -> strings_Split_dot s = [s].
Proof.
  unfold no_dot. induction s as [|c s IH]; cbn; [reflexivity|].
  intros H. apply andb_true_iff in H. destruct H as [Hc Hs].
  destruct (Ascii.eqb c chr_dot); [discriminate|]. rewrite (IH Hs). reflexivity.
Qed.

Lemma split_app_dot s rest :
  no_dot s = true ->
  strings_Split_dot (s ++ String chr_dot rest) = s :: strings_Split_dot rest.
Proof.
  unfold no_dot. induction s as [|c s IH]; cbn.
  - intros _. reflexivity.
  - intros H. apply andb_true_iff in H. destruct H as [Hc Hs].
    destruct (Ascii.eqb c chr_dot); [discriminate|]. rewrite (IH Hs). reflexivity.
Qed.

Lemma appendDecimal_no_dot b : is_byte b -> no_dot (appendDecimal b) = true.
Proof.
  apply (byte_cases (fun b => no_dot (appendDecimal b))). vm_compute. reflexivity.
Qed.

Lemma Atoi_appendDecimal b :
  is_byte b -> strconv_Atoi (appendDecimal b) = (b, true).
Proof.
  intros Hb.
  assert (H : (fst (strconv_Atoi (appendDecimal b)) =? b)
              && snd (strconv_Atoi (appendDecimal b)) = true).
  { revert b Hb.
    apply (byte_cases (fun b => (fst (strconv_Atoi (appendDecimal b)) =? b)
                                && snd (strconv_Atoi (appendDecimal b)))).
    vm_compute. reflexivity. }
  apply andb_true_iff in H. destruct H as [H1 H2]. apply Z.eqb_eq in H1.
  destruct (strconv_Atoi (appendDecimal b)); cbn in *. congruence.
Qed.

Lemma getLastOctet_dotted a b c d :
  is_byte a -> is_byte b -> is_byte c -> is_byte d ->
  getLastOctet (IP_String [a; b; c; d]) = appendDecimal d.
Proof.
  intros Ha Hb Hc Hd. unfold getLastOctet.
  change (IP_String [a; b; c; d])
    with (appendDecimal a ++ String chr_dot (appendDecimal b ++ String chr_dot
            (appendDecimal c ++ String chr_dot (appendDecimal d))))%string.
  rewrite !split_app_dot, split_no_dot by (apply appendDecimal_no_dot; assumption).
  reflexivity.
Qed.

Lemma octet_of_ip_addr x :
  0 <= x < 2 ^ 32 -> octet_of_ip (IP_String (addr x)) = x mod 256.
Proof.
  intros Hx. unfold octet_of_ip, addr.
  rewrite getLastOctet_dotted by apply u8_is_byte.
  rewrite Atoi_appendDecimal by apply u8_is_byte. reflexivity.
Qed.

Lemma octets_in_window lo n :
  0 <= lo -> lo + Z.of_nat n <= 2 ^ 32 -> lo mod 256 + Z.of_nat n <= 256 ->
  map octet_of_ip (host_strings lo n) = zrange (lo mod 256) n.
Proof.
  revert lo. induction n as [|n IH]; intros lo H0 H1 H2; [reflexivity|].
  unfold host_strings in *. rewrite !zrange_S. cbn [map].
  rewrite octet_of_ip_addr by lia. f_equal.
  destruct n as [|n]; [reflexivity|].
  pose proof (Z.mod_pos_bound lo 256 ltac:(lia)) as B.
  pose proof (Z.div_mod lo 256 ltac:(lia)) as D.
  assert (E : (lo + 1) mod 256 = lo mod 256 + 1)
    by (symmetry; apply (Z.mod_unique (lo + 1) 256 (lo / 256)); lia).
  rewrite IH by lia. rewrite E. reflexivity.
Qed.

Lemma zrange_NoDup lo n : NoDup (zrange lo n).
Proof.
  revert lo. induction n as [|n IH]; intros lo; [constructor|].
  rewrite zrange_S. constructor; [|apply IH].
  unfold zrange. rewrite in_map_iff. intros (i & E & _). lia.
Qed.

Lemma aligned_window q S k :
  0 < S -> 0 < k -> S * k = 256 -> 0 <= q -> (q * S) mod 256 + S <= 256.
Proof.
  intros HS Hk E Hq.
  pose proof (Z.div_mod q k ltac:(lia)) as D.
  pose proof (Z.mod_pos_bound q k Hk) as B.
  replace (q * S) with (q mod k * S + (q / k) * 256) by nia.
  rewrite Z.mod_add by lia.
  rewrite Z.mod_small by nia. nia.
Qed.

(** The addresses of a chunk have pairwise distinct last octets. *)
Lemma chunk_hosts_distinct_octets fuel s a b c d p ips :
  valid_ipv4_cidr s a b c d p -> 24 <= p ->
  parseCIDR fuel s = Ret (Ok ips) -> NoDup (map octet_of_ip ips).
Proof.
  intros V Hp E. pose proof V as (_ & Ha & Hb & Hc & Hd & Hp').
  destruct (Z.eq_dec p 31) as [->|N31].
  { pose proof (parseCIDR_slash31 3 s a b c d V (le_n 3)) as E'.
    pose proof (parseCIDR_deterministic _ _ _ _ _ E E') as X. inversion X. constructor. }
  destruct (Z.eq_dec p 32) as [->|N32].
  { pose proof (parseCIDR_slash32 2 s a b c d V (le_n 2)) as E'.
    pose proof (parseCIDR_deterministic _ _ _ _ _ E E'). discriminate. }
  pose proof (parseCIDR_hosts (S (Z.to_nat (block_size p))) s a b c d p V
                ltac:(lia) ltac:(lia)) as E'.
  pose proof (parseCIDR_deterministic _ _ _ _ _ E E') as X. inversion X; subst ips.
  destruct (network_block a b c d p Ha Hb Hc Hd Hp') as (N0 & N1 & N2).
  pose proof (block_size_30 p ltac:(lia)) as H4.
  assert (HS : block_size p * 2 ^ (p - 24) = 256).
  { unfold block_size. rewrite <- Z.pow_add_r by lia.
    replace (32 - p + (p - 24)) with 8 by lia. reflexivity. }
  assert (HP : 0 < 2 ^ (p - 24)) by (apply Z.pow_pos_nonneg; lia).
  assert (HW : network a b c d p mod 256 + block_size p <= 256).
  { pose proof (val4_range a b c d Ha Hb Hc Hd) as HV.
    pose proof (block_size_pos p Hp') as HSpos.
    unfold network.
    apply (aligned_window _ _ (2 ^ (p - 24))); auto.
    apply Z.div_pos; [apply HV|exact HSpos]. }
  pose proof (Z.mod_pos_bound (network a b c d p) 256 ltac:(lia)).
  pose proof (Z.div_mod (network a b c d p) 256 ltac:(lia)).
  assert (E1 : (network a b c d p + 1) mod 256 = network a b c d p mod 256 + 1)
    by (symmetry; apply (Z.mod_unique _ 256 (network a b c d p / 256)); lia).
  rewrite octets_in_window; [apply zrange_NoDup|lia|lia|lia].
Qed.

(** What [processCIDR] hands to the reporter has pairwise distinct last
    octets, so the order that [printResults] and [saveSortedResultsToLog]
    give it does not depend on how [sort.Slice] treats equal keys. *)
Lemma processCIDR_distinct_octets timeoutMs maxThreads s a b c d p results :
  valid_ipv4_cidr s a b c d p -> 24 <= p ->
  processCIDR timeoutMs maxThreads s (Scanned results) ->
  NoDup (map lastOctetNum results).
Proof.
  intros V Hp H.
  inversion H as [| |fuel ips tr st E Hne Hex Hm]; subst.
  pose proof (chunk_hosts_distinct_octets fuel s a b c d p ips V Hp E) as Hn.
  pose proof (exec_invariant _ _ _ Hex) as Inv.
  destruct (returned_outcomes _ _ Inv Hm) as (P & _).
  cbn [cfg_ips] in P.
  replace (map lastOctetNum (st_pingResults st))
    with (map octet_of_ip (map PingResult_IP (st_pingResults st)))
    by (rewrite map_map; reflexivity).
  eapply Permutation_NoDup; [|exact Hn].
  apply Permutation_map, Permutation_sym, P.
Qed.

Lemma processCIDR_report_determined sort_Slice timeoutMs maxThreads s a b c d p results :
  sort_Slice_contract sort_Slice ->
  valid_ipv4_cidr s a b c d p -> 24 <= p ->
  processCIDR timeoutMs maxThreads s (Scanned results) ->
  printResults sort_Slice results timeoutMs
  = Ret (insertion_order lessLastOctet results,
         render (insertion_order lessLastOctet results) timeoutMs).
Proof.
  intros C V Hp H. unfold printResults.
  rewrite sort_Slice_determined; [reflexivity|assumption|].
  apply (processCIDR_distinct_octets timeoutMs maxThreads s a b c d p results V Hp H).
Qed.

(** ** What the loop of [main] hands to the reporter *)

Lemma process_subnets_distinct timeoutMs maxThreads subnets : forall items,
  Forall (fun sub => exists a b c d p, valid_ipv4_cidr sub a b c d p /\ 24 <= p) subnets ->
  process_subnets timeoutMs maxThreads subnets items ->
  Forall distinct_octets items.
Proof.
  induction subnets as [|sub subnets IH]; intros items Hv H;
    inversion H as [|? ? r out Hp Hrest]; subst; constructor.
  - inversion Hv as [|? ? (a & b & c & d & p & V & Hp24) _]; subst.
    destruct r as [e| |results]; cbn; auto.
    apply (processCIDR_distinct_octets timeoutMs maxThreads sub a b c d p results V Hp24 Hp).
  - inversion Hv; subst. apply IH; assumption.
Qed.

Lemma splitIntoSubnets_chunks_narrow fuel s a b c d p subnets :
  valid_ipv4_cidr s a b c d p ->
  splitIntoSubnets fuel s = Ret subnets ->
  Forall (fun sub => exists a b c d p, valid_ipv4_cidr sub a b c d p /\ 24 <= p) subnets.
Proof.
  intros V E. pose proof V as (_ & _ & _ & _ & _ & Hp).
  destruct (Z.eq_dec p 0) as [->|Hp0].
  { rewrite (splitIntoSubnets_slash0 fuel s a b c d V) in E. discriminate. }
  destruct (Z_lt_ge_dec p 24) as [L|G].
  - destruct (splitIntoSubnets_chunks_valid (Z.to_nat (2 ^ (24 - p))) s a b c d p V
                ltac:(lia)) as (bases & E' & F).
    { assert (0 < 2 ^ (24 - p)) by (apply Z.pow_pos_nonneg; lia). lia. }
    apply (splitIntoSubnets_more_fuel _ (Nat.max fuel (Z.to_nat (2 ^ (24 - p))))) in E;
      [|lia].
    apply (splitIntoSubnets_more_fuel _ (Nat.max fuel (Z.to_nat (2 ^ (24 - p))))) in E';
      [|lia].
    assert (subnets = map chunk_string bases) by congruence. subst subnets.
    apply Forall_map. eapply Forall_impl; [|exact F].
    intros x (_ & a' & b' & c' & d' & V' & _). exists a', b', c', d', 24.
    split; [exact V'|lia].
  - rewrite (splitIntoSubnets_narrow fuel s a b c d p V) in E by lia.
    inversion E; subst. constructor; [|constructor].
    exists a, b, c, d, p. split; [exact V|lia].
Qed.

(** X2. Every set of outcomes that the loop of [main] over valid IPv4 CIDRs
    has scanned has pairwise distinct last octets: what [sort.Slice] does
    with equal keys never shows in a report. *)
Lemma main_loop_distinct_octets timeoutMs maxThreads cidrs : forall out,
  Forall (fun s => exists a b c d p, valid_ipv4_cidr s a b c d p) cidrs ->
  main_loop timeoutMs maxThreads cidrs out ->
  Forall distinct_octets out.
Proof.
  induction cidrs as [|s cidrs IH]; intros out Hv H;
    inversion H as [|fuel ? ? o Hs Hr|fuel ? ? subs items o Hs Hne Hp Hr]; subst.
  - constructor.
  - inversion Hv; subst. constructor; [exact I|]. apply IH; assumption.
  - inversion Hv as [|? ? (a & b & c & d & p & V) Hv']; subst.
    apply Forall_app. split; [|apply IH; assumption].
    apply (process_subnets_distinct timeoutMs maxThreads subs); [|exact Hp].
    apply (splitIntoSubnets_chunks_narrow fuel s a b c d p subs V Hs).
Qed.

(* ================================================================= *)
(** * Further properties of [main.go] *)

(** ** Texts *)

Lemma string_app_assoc (a b c : string) : ((a ++ b) ++ c = a ++ (b ++ c))%string.
Proof. induction a as [|x a IH]; cbn; [reflexivity|]. rewrite IH. reflexivity. Qed.

Lemma string_app_nil_r (a : string) : (a ++ "")%string = a.
Proof. induction a as [|x a IH]; cbn; [reflexivity|]. rewrite IH. reflexivity. Qed.

Lemma string_length_app (a b : string) :
  String.length (a ++ b) = (String.length a + String.length b)%nat.
Proof. induction a as [|x a IH]; cbn; [reflexivity|]. rewrite IH. reflexivity. Qed.

Lemma spaces_length n : String.length (spaces n) = n.
Proof. induction n as [|n IH]; cbn; [reflexivity|]. rewrite IH. reflexivity. Qed.

Lemma substring_skip (a b : string) n :
  substring (String.length a) n (a ++ b) = substring 0 n b.
Proof. induction a as [|x a IH]; cbn; [reflexivity|exact IH]. Qed.

Lemma substring_prefix (a b : string) :
  substring 0 (String.length a) (a ++ b) = a.
Proof. induction a as [|x a IH]; cbn; [destruct b; reflexivity|]. rewrite IH. reflexivity. Qed.

Lemma forallb_rev_true {A} (p : A -> bool) l :
  forallb p l = true -> forallb p (rev l) = true.
Proof.
  rewrite !forallb_forall. intros H x Hx. apply H, in_rev, Hx.
Qed.

Lemma ascii_cases (P : ascii -> bool) :
  forallb P (map ascii_of_nat (seq 0 256)) = true -> forall c, P c = true.
Proof.
  intros H c. rewrite forallb_forall in H. apply H.
  rewrite <- (ascii_nat_embedding c). apply in_map, in_seq.
  pose proof (nat_ascii_bounded c). lia.
Qed.

(** ** [splitCIDRs] and [isValidCIDR] *)

Lemma cidr_char_plain c :
  cidr_char c = true ->
  (RuneSelf <=? nat_of_ascii c)%nat = false /\ asciiSpace c = false /\
  is_separator c = false.
Proof.
  intros H.
  assert (X : negb (cidr_char c)
              || (negb (RuneSelf <=? nat_of_ascii c)%nat && negb (asciiSpace c)
                  && negb (is_separator c)) = true).
  { revert c H. intros c _. revert c. apply ascii_cases. vm_compute. reflexivity. }
  rewrite H in X. cbn [negb orb] in X.
  apply andb_true_iff in X. destruct X as [X X3].
  apply andb_true_iff in X. destruct X as [X1 X2].
  apply negb_true_iff in X1, X2, X3. auto.
Qed.

Lemma cut_slash_spec s a m :
  cut_slash s = Some (a, m) -> s = a ++ chr_slash :: m.
Proof.
  revert a. induction s as [|c s IH]; cbn; intros a H; [discriminate|].
  destruct (Ascii.eqb c chr_slash) eqn:E.
  - apply Ascii.eqb_eq in E. inversion H; subst. reflexivity.
  - destruct (cut_slash s) as [[a' m']|]; [|discriminate].
    inversion H; subst. cbn. rewrite (IH a' eq_refl). reflexivity.
Qed.

Lemma parseIPv4_loop_chars s : forall st first prev st',
  parseIPv4_loop st first prev s = Some st' -> forallb cidr_char s = true.
Proof.
  induction s as [|c rest IH]; cbn; intros st first prev st' H; [reflexivity|].
  destruct (parseIPv4_char st first (no_more rest) prev c) as [st1|] eqn:E;
    [|discriminate].
  rewrite (IH _ _ _ _ H), andb_true_r.
  unfold parseIPv4_char in E. unfold cidr_char.
  destruct (is_digit c); [reflexivity|].
  destruct (Ascii.eqb c chr_dot); [reflexivity|discriminate].
Qed.

Lemma dtoi_loop_chars s : forall n i n' j,
  dtoi_loop s n i = (n', j, true) ->
  (j <= i + length s)%nat /\ (j = (i + length s)%nat -> forallb is_digit s = true).
Proof.
  induction s as [|c rest IH]; cbn [dtoi_loop length forallb]; intros n i n' j H.
  - destruct (i =? 0)%nat; inversion H; subst. split; [lia|reflexivity].
  - destruct (is_digit c).
    + destruct (big <=? n * 10 + digit_val c); [discriminate|].
      destruct (IH _ _ _ _ H) as [L F]. split; [lia|].
      intros E. apply F. lia.
    + destruct (i =? 0)%nat; inversion H; subst. split; [lia|]. intros E. lia.
Qed.

Lemma is_digit_cidr_char l : forallb is_digit l = true -> forallb cidr_char l = true.
Proof.
  induction l as [|c l IH]; cbn; [reflexivity|].
  intros H. apply andb_true_iff in H. destruct H as [H1 H2].
  rewrite (IH H2). unfold cidr_char. rewrite H1. reflexivity.
Qed.

(** A text that [net.ParseCIDR] takes for an IPv4 CIDR is made of digits,
    '.' and '/', and is not empty. *)
Lemma net_ParseCIDR_chars s ip ipNet :
  net_ParseCIDR s = CIDROk ip ipNet -> cidr_text s = true /\ s <> "".
Proof.
  unfold net_ParseCIDR, cidr_text. intros H.
  destruct (cut_slash (list_ascii_of_string s)) as [[a m]|] eqn:Ec; [|discriminate].
  apply cut_slash_spec in Ec.
  split; [|intros ->; destruct a; discriminate].
  rewrite Ec, forallb_app. cbn [forallb].
  destruct (ParseAddr a) as [|f|] eqn:Ea; try discriminate.
  apply ParseAddr_scan_v4 in Ea. unfold parseIPv4 in Ea.
  destruct (parseIPv4_loop _ _ _ a) as [st|] eqn:El; [|discriminate].
  rewrite (parseIPv4_loop_chars _ _ _ _ _ El).
  destruct (dtoi m) as [[n i] ok] eqn:Ed.
  destruct ok; [|discriminate]. cbn [negb orb] in H.
  destruct (Nat.eqb_spec i (length m)) as [Ei|]; [|discriminate].
  unfold dtoi in Ed. destruct (dtoi_loop_chars _ _ _ _ _ Ed) as [_ F].
  rewrite (is_digit_cidr_char m (F Ei)). reflexivity.
Qed.

Lemma isValidCIDR_true s :
  isValidCIDR s = Ret true ->
  (exists a b c d p, valid_ipv4_cidr s a b c d p) /\ cidr_text s = true /\ s <> "".
Proof.
  unfold isValidCIDR. destruct (net_ParseCIDR s) as [|ip ipNet|] eqn:E; try discriminate.
  intros _. destruct (net_ParseCIDR_ok s ip ipNet E) as (a & b & c & d & p & V & _).
  split; [exists a, b, c, d, p; exact V|]. apply (net_ParseCIDR_chars s ip ipNet E).
Qed.

Lemma splitCIDRs_loop_kept (P : string -> Prop) parts : forall cidrs out,
  (forall s, isValidCIDR s = Ret true -> P s) ->
  Forall P cidrs -> splitCIDRs_loop parts cidrs = Ret out -> Forall P out.
Proof.
  induction parts as [|part rest IH]; intros cidrs out HP Hc H; cbn [splitCIDRs_loop] in H.
  - inversion H; subst. exact Hc.
  - destruct (strings_TrimSpace part) as [t| |]; try discriminate. cbn [run_bind] in H.
    destruct (negb (String.eqb t "")); [|apply (IH _ _ HP Hc H)].
    destruct (isValidCIDR t) as [[|]| |] eqn:E; try discriminate; cbn [run_bind] in H.
    + apply (IH _ _ HP) in H; [exact H|].
      apply Forall_app. split; [exact Hc|]. constructor; [apply HP, E|constructor].
    + apply (IH _ _ HP Hc H).
Qed.

Lemma splitCIDRs_all_valid input cidrs :
  splitCIDRs input = Ret cidrs -> Forall (fun s => isValidCIDR s = Ret true) cidrs.
Proof.
  intros H. unfold splitCIDRs in H.
  refine (splitCIDRs_loop_kept _ _ [] cidrs _ (Forall_nil _) H). auto.
Qed.

(** The fields are made of bytes of the text. *)
Lemma FieldsFunc_loop_chars (P : ascii -> bool) f s : forall start,
  forallb P (list_ascii_of_string s) = true ->
  match start with Some field => forallb P (list_ascii_of_string field) = true | None => True end ->
  Forall (fun field => forallb P (list_ascii_of_string field) = true)
         (FieldsFunc_loop f s start).
Proof.
  induction s as [|c s IH]; intros start Hs Hst; cbn [FieldsFunc_loop].
  - destruct start; [constructor; [exact Hst|constructor]|constructor].
  - cbn in Hs. apply andb_true_iff in Hs. destruct Hs as [Hc Hs].
    destruct (f c); destruct start as [field|].
    + constructor; [exact Hst|]. apply IH; [exact Hs|exact I].
    + apply IH; [exact Hs|exact I].
    + apply IH; [exact Hs|]. rewrite list_ascii_of_string_app, forallb_app, Hst. cbn. rewrite Hc. reflexivity.
    + apply IH; [exact Hs|]. cbn. rewrite Hc. reflexivity.
Qed.

Lemma plain_char_ascii c : plain_char c = true -> (RuneSelf <=? nat_of_ascii c)%nat = false.
Proof.
  unfold plain_char, is_ascii, RuneSelf. intros H.
  apply andb_true_iff in H. destruct H as [H _]. apply Nat.ltb_lt in H.
  apply Nat.leb_gt. exact H.
Qed.

Lemma trim_scan_plain l :
  forallb plain_char l = true ->
  exists l', trim_scan l = Ret l' /\ forallb plain_char l' = true.
Proof.
  induction l as [|c l IH]; intros H; cbn [trim_scan].
  - exists []. auto.
  - pose proof H as H0. cbn in H. apply andb_true_iff in H. destruct H as [Hc Hl].
    rewrite (plain_char_ascii c Hc).
    destruct (asciiSpace c); [apply IH, Hl|]. exists (c :: l). auto.
Qed.

Lemma TrimSpace_plain s :
  plain_text s = true ->
  exists t, strings_TrimSpace s = Ret t /\ plain_text t = true.
Proof.
  unfold plain_text, strings_TrimSpace. intros H.
  destruct (trim_scan_plain _ H) as (l1 & E1 & P1). rewrite E1. cbn [run_bind].
  destruct (trim_scan_plain (rev l1) (forallb_rev_true _ _ P1)) as (l2 & E2 & P2).
  rewrite E2. cbn [run_bind]. eexists. split; [reflexivity|].
  rewrite list_ascii_of_string_of_list_ascii. apply forallb_rev_true, P2.
Qed.

Lemma ParseAddr_scan_colon whole rest :
  ParseAddr_scan whole rest = AddrV6Text -> In chr_colon rest.
Proof.
  induction rest as [|c rest IH]; cbn [ParseAddr_scan]; [discriminate|].
  destruct (Ascii.eqb c chr_dot).
  - destruct (parseIPv4 whole); discriminate.
  - destruct (Ascii.eqb c chr_colon) eqn:E.
    + intros _. left. apply Ascii.eqb_eq, E.
    + destruct (Ascii.eqb c chr_percent); [discriminate|].
      intros H. right. apply IH, H.
Qed.

(** [isValidCIDR] answers for every text without ':'. *)
Lemma isValidCIDR_plain s :
  plain_text s = true -> exists valid, isValidCIDR s = Ret valid.
Proof.
  unfold plain_text, isValidCIDR, net_ParseCIDR. intros H.
  destruct (cut_slash (list_ascii_of_string s)) as [[a m]|] eqn:Ec; [|eauto].
  destruct (ParseAddr a) as [|f|] eqn:Ea; [eauto| |].
  - destruct (dtoi m) as [[n i] ok].
    destruct (negb ok || negb (i =? length m)%nat || (n <? 0) || (32 <? n)); eauto.
  - exfalso. apply ParseAddr_scan_colon in Ea.
    apply cut_slash_spec in Ec. rewrite Ec, forallb_app in H.
    apply andb_true_iff in H. destruct H as [H _].
    rewrite forallb_forall in H. specialize (H _ Ea).
    unfold plain_char in H. rewrite Ascii.eqb_refl, andb_false_r in H. discriminate.
Qed.

Lemma splitCIDRs_loop_plain parts : forall cidrs,
  Forall (fun part => plain_text part = true) parts ->
  exists out, splitCIDRs_loop parts cidrs = Ret out.
Proof.
  induction parts as [|part rest IH]; intros cidrs H; cbn [splitCIDRs_loop]; [eauto|].
  inversion H as [|? ? Hp Hr]; subst.
  destruct (TrimSpace_plain part Hp) as (t & Et & Pt). rewrite Et. cbn [run_bind].
  destruct (negb (String.eqb t "")); [|apply IH, Hr].
  destruct (isValidCIDR_plain t Pt) as (valid & Ev). rewrite Ev. cbn [run_bind].
  destruct valid; apply IH, Hr.
Qed.

(** On a value of ASCII bytes without ':' [splitCIDRs] returns. *)
Lemma splitCIDRs_plain input :
  plain_text input = true -> exists cidrs, splitCIDRs input = Ret cidrs.
Proof.
  intros H. unfold splitCIDRs, strings_FieldsFunc.
  apply splitCIDRs_loop_plain.
  apply (FieldsFunc_loop_chars plain_char is_separator input None H I).
Qed.

(** X3. On a value of [-c] made of ASCII bytes without ':' [splitCIDRs]
    returns a list.  Whatever it returns, there and on any other value on
    which the embedding answers (bytes from [utf8.RuneSelf] on at the edge of
    a field and the text of IPv6 addresses are not embedded), has passed
    [isValidCIDR]: every element is a text that [net.ParseCIDR] takes for an
    IPv4 CIDR, made of digits, '.' and '/' only (no separator and no space is
    left in it) and not empty. *)
Theorem splitCIDRs_keeps_valid_only input :
  (plain_text input = true -> exists cidrs, splitCIDRs input = Ret cidrs) /\
  (forall cidrs,
     splitCIDRs input = Ret cidrs ->
     Forall (fun s => (exists a b c d p, valid_ipv4_cidr s a b c d p) /\
                      cidr_text s = true /\ s <> "" /\ isValidCIDR s = Ret true) cidrs).
Proof.
  split; [apply splitCIDRs_plain|].
  intros cidrs H. eapply Forall_impl; [|apply (splitCIDRs_all_valid input cidrs H)].
  intros s E. destruct (isValidCIDR_true s E) as (V & T & N). auto.
Qed.

Lemma splitCIDRs_keeps_valid_only_witness :
  plain_text " 10.0.0.0/30,, 10.0.0.300/24 192.168.1.0/24 ," = true /\
  Forall (fun s => (exists a b c d p, valid_ipv4_cidr s a b c d p) /\
                   cidr_text s = true /\ s <> "" /\ isValidCIDR s = Ret true)
         ["10.0.0.0/30"; "192.168.1.0/24"].
Proof.
  split; [reflexivity|].
  apply (proj2 (splitCIDRs_keeps_valid_only " 10.0.0.0/30,, 10.0.0.300/24 192.168.1.0/24 ,")).
  vm_compute. reflexivity.
Defined.

(** The fields of a text that is laid out as CIDRs and separators. *)
Lemma fields_text f s : forall rest acc,
  forallb (fun c => negb (f c)) (list_ascii_of_string s) = true ->
  FieldsFunc_loop f (s ++ rest) (Some acc) = FieldsFunc_loop f rest (Some (acc ++ s)%string).
Proof.
  induction s as [|c s IH]; intros rest acc H; cbn.
  - rewrite string_app_nil_r. reflexivity.
  - cbn in H. apply andb_true_iff in H. destruct H as [Hc Hs].
    apply negb_true_iff in Hc. rewrite Hc, (IH rest _ Hs), string_app_assoc. reflexivity.
Qed.

Lemma fields_text_start f s rest :
  forallb (fun c => negb (f c)) (list_ascii_of_string s) = true -> s <> "" ->
  FieldsFunc_loop f (s ++ rest) None = FieldsFunc_loop f rest (Some s).
Proof.
  destruct s as [|c s]; [contradiction|]. intros H _. cbn in H |- *.
  apply andb_true_iff in H. destruct H as [Hc Hs]. apply negb_true_iff in Hc.
  rewrite Hc. apply (fields_text f s rest (String c "") Hs).
Qed.

Lemma fields_separators f sep : forall rest,
  forallb f (list_ascii_of_string sep) = true ->
  FieldsFunc_loop f (sep ++ rest) None = FieldsFunc_loop f rest None.
Proof.
  induction sep as [|c sep IH]; intros rest H; cbn; [reflexivity|].
  cbn in H. apply andb_true_iff in H. destruct H as [Hc Hs].
  rewrite Hc. apply (IH rest Hs).
Qed.

Lemma fields_separators_end f sep rest acc :
  forallb f (list_ascii_of_string sep) = true -> sep <> "" ->
  FieldsFunc_loop f (sep ++ rest) (Some acc) = acc :: FieldsFunc_loop f rest None.
Proof.
  destruct sep as [|c sep]; [contradiction|]. intros H _. cbn in H |- *.
  apply andb_true_iff in H. destruct H as [Hc Hs].
  rewrite Hc. f_equal. apply (fields_separators f sep rest Hs).
Qed.

Lemma cidr_text_no_separator s :
  cidr_text s = true ->
  forallb (fun c => negb (is_separator c)) (list_ascii_of_string s) = true.
Proof.
  unfold cidr_text. induction (list_ascii_of_string s) as [|c l IH]; cbn; [reflexivity|].
  intros H. apply andb_true_iff in H. destruct H as [Hc Hl].
  destruct (cidr_char_plain c Hc) as (_ & _ & S). rewrite S, (IH Hl). reflexivity.
Qed.

Lemma fields_of_items items :
  well_separated items = true ->
  Forall (fun it => cidr_text (fst it) = true /\ fst it <> "") items ->
  FieldsFunc_loop is_separator (join_fields items) None = map fst items.
Proof.
  induction items as [|[s sep] rest IH]; intros W H; [reflexivity|].
  cbn [join_fields map fst]. cbn [well_separated] in W.
  apply andb_true_iff in W. destruct W as [W Wr].
  apply andb_true_iff in W. destruct W as [Ws Wn].
  inversion H as [|? ? [Ht Hne] Hr]; subst. cbn [fst] in Ht, Hne.
  rewrite (fields_text_start _ s _ (cidr_text_no_separator s Ht) Hne).
  destruct rest as [|it rest'].
  - cbn [join_fields map]. rewrite string_app_nil_r.
    destruct sep as [|c sep]; [reflexivity|].
    rewrite <- (string_app_nil_r (String c sep)).
    rewrite (fields_separators_end _ _ "" s Ws ltac:(discriminate)). reflexivity.
  - apply negb_true_iff in Wn. apply String.eqb_neq in Wn.
    rewrite (fields_separators_end _ sep _ s Ws Wn). f_equal.
    apply (IH Wr Hr).
Qed.

Lemma trim_scan_cidr l :
  forallb cidr_char l = true -> trim_scan l = Ret l.
Proof.
  destruct l as [|c l]; [reflexivity|]. cbn [forallb trim_scan]. intros H.
  apply andb_true_iff in H. destruct H as [Hc _].
  destruct (cidr_char_plain c Hc) as (R & S & _). rewrite R, S. reflexivity.
Qed.

Lemma TrimSpace_cidr_text s : cidr_text s = true -> strings_TrimSpace s = Ret s.
Proof.
  unfold cidr_text, strings_TrimSpace. intros H.
  rewrite (trim_scan_cidr _ H). cbn [run_bind].
  rewrite trim_scan_cidr by (apply forallb_rev_true; exact H). cbn [run_bind].
  rewrite rev_involutive, string_of_list_ascii_of_string. reflexivity.
Qed.

Lemma splitCIDRs_loop_valid parts : forall cidrs,
  Forall (fun s => isValidCIDR s = Ret true) parts ->
  splitCIDRs_loop parts cidrs = Ret (cidrs ++ parts).
Proof.
  induction parts as [|s parts IH]; intros cidrs H; cbn [splitCIDRs_loop].
  - rewrite app_nil_r. reflexivity.
  - inversion H as [|? ? Hs Hp]; subst.
    destruct (isValidCIDR_true s Hs) as (_ & T & N).
    rewrite (TrimSpace_cidr_text s T). cbn [run_bind].
    apply String.eqb_neq in N. rewrite N. cbn [negb]. rewrite Hs. cbn [run_bind].
    rewrite (IH _ Hp), <- app_assoc. reflexivity.
Qed.

(** X4. A list of valid IPv4 CIDRs written with commas and spaces between
    them, in any number, before the first and after the last as well, is
    read back as that list, in order.  A text of separators only gives the
    empty list. *)
Theorem splitCIDRs_round_trip lead items :
  separator_text lead = true -> well_separated items = true ->
  Forall (fun it => isValidCIDR (fst it) = Ret true) items ->
  splitCIDRs (lead ++ join_fields items) = Ret (map fst items).
Proof.
  intros Hl W H. unfold splitCIDRs, strings_FieldsFunc.
  rewrite (fields_separators _ lead _ Hl), fields_of_items.
  - apply (splitCIDRs_loop_valid (map fst items) []).
    apply Forall_map. exact H.
  - exact W.
  - eapply Forall_impl; [|exact H]. intros it E.
    destruct (isValidCIDR_true _ E) as (_ & T & N). auto.
Qed.

Lemma splitCIDRs_round_trip_witness :
  splitCIDRs " 10.0.0.0/30, 192.168.1.77/24" = Ret ["10.0.0.0/30"; "192.168.1.77/24"] /\
  splitCIDRs ", ," = Ret [].
Proof.
  split.
  - apply (splitCIDRs_round_trip " " [("10.0.0.0/30", ", "); ("192.168.1.77/24", "")]).
    + reflexivity.
    + reflexivity.
    + repeat constructor.
  - apply (splitCIDRs_round_trip ", ," []).
    + reflexivity.
    + reflexivity.
    + constructor.
Defined.

(** ** [main]: what reaches the scan *)

Lemma splitIntoSubnets_loop_nonempty ipNet : forall fuel current subnets out,
  splitIntoSubnets_loop fuel ipNet current subnets = Ret out -> out <> [].
Proof.
  induction fuel as [|fuel IH]; intros current subnets out H; [discriminate|].
  cbn [splitIntoSubnets_loop] in H.
  destruct (negb (IPNet_Contains ipNet _)).
  - inversion H; subst. destruct subnets; discriminate.
  - apply (IH _ _ _ H).
Qed.

Lemma splitIntoSubnets_nonempty fuel s out :
  isValidCIDR s = Ret true -> splitIntoSubnets fuel s = Ret out -> out <> [].
Proof.
  unfold isValidCIDR, splitIntoSubnets.
  destruct (net_ParseCIDR s) as [|ip ipNet|]; try discriminate. intros _.
  destruct (IPMask_Size (IPNet_Mask ipNet)) as [ones bits].
  destruct ((24 <=? ones) || negb (bits =? 32)); [intros H; inversion H; discriminate|].
  destruct (is_nil _); [intros H; inversion H; discriminate|].
  apply splitIntoSubnets_loop_nonempty.
Qed.

Lemma valid_parse_not_format_error timeoutMs maxThreads s a b c d p r :
  valid_ipv4_cidr s a b c d p ->
  processCIDR timeoutMs maxThreads s r ->
  r <> ParseFailed ErrInvalidCIDR /\ r <> ParseFailed ErrIPv6NotSupported.
Proof.
  intros V H. inversion H as [fuel e E| |]; subst; [|split; discriminate..].
  rewrite (parseCIDR_valid fuel s a b c d p V) in E.
  destruct (parseCIDR_loop fuel _ _ _) as [ips| |]; try discriminate.
  cbn [run_bind] in E. destruct (length ips <? 2)%nat; inversion E; subst.
  split; discriminate.
Qed.

Lemma process_subnets_ok timeoutMs maxThreads subnets : forall items,
  Forall (fun sub => exists a b c d p, valid_ipv4_cidr sub a b c d p /\ 24 <= p) subnets ->
  process_subnets timeoutMs maxThreads subnets items ->
  Forall item_ok items.
Proof.
  induction subnets as [|sub subnets IH]; intros items Hv H;
    inversion H as [|? ? r out Hp Hrest]; subst; constructor.
  - inversion Hv as [|? ? (a & b & c & d & p & V & Hp24) _]; subst.
    cbn [item_ok]. split; [exists a, b, c, d, p; auto|].
    destruct (valid_parse_not_format_error _ _ _ _ _ _ _ _ _ V Hp) as [N1 N2].
    split; [exact N1|]. split; [exact N2|].
    destruct r as [e| |results]; cbn; auto.
    apply (processCIDR_distinct_octets timeoutMs maxThreads sub a b c d p results V Hp24 Hp).
  - inversion Hv; subst. apply IH; assumption.
Qed.

Lemma main_loop_items_ok timeoutMs maxThreads cidrs : forall out,
  Forall (fun s => isValidCIDR s = Ret true) cidrs ->
  main_loop timeoutMs maxThreads cidrs out ->
  Forall item_ok out.
Proof.
  induction cidrs as [|s cidrs IH]; intros out Hv H;
    inversion H as [|fuel ? ? o Hs Hr|fuel ? ? subs items o Hs Hne Hp Hr]; subst.
  - constructor.
  - inversion Hv as [|? ? Hs' _]; subst.
    exfalso. apply (splitIntoSubnets_nonempty fuel s [] Hs' Hs). reflexivity.
  - inversion Hv as [|? ? Hs' Hv']; subst.
    destruct (isValidCIDR_true s Hs') as ((a & b & c & d & p & V) & _).
    apply Forall_app. split; [|apply IH; assumption].
    apply (process_subnets_ok timeoutMs maxThreads subs); [|exact Hp].
    apply (splitIntoSubnets_chunks_narrow fuel s a b c d p subs V Hs).
Qed.

Lemma chunk_item_ok timeoutMs maxThreads sub a b c d p r :
  valid_ipv4_cidr sub a b c d p -> 24 <= p ->
  processCIDR timeoutMs maxThreads sub r -> item_ok (Chunk sub r).
Proof.
  intros V Hp24 Hp. cbn [item_ok]. split; [exists a, b, c, d, p; auto|].
  destruct (valid_parse_not_format_error _ _ _ _ _ _ _ _ _ V Hp) as [N1 N2].
  split; [exact N1|]. split; [exact N2|].
  destruct r as [e| |results]; cbn; auto.
  apply (processCIDR_distinct_octets timeoutMs maxThreads sub a b c d p results V Hp24 Hp).
Qed.

(** X5. What [main] passes on.  The time limit and the ceiling are at least
    1: the flag when it is positive, the default otherwise.  On a value of
    [-c] made of ASCII bytes without ':' [splitCIDRs] returns.  In every round
    of the loop over what it returns, whether or not the loop gets to its end
    (on a CIDR of prefix length 0 it does not), the subdivision, when it
    returns, is not empty (the warning that no subnets were found is never
    reached), and every chunk that [processCIDR] gets is a valid IPv4 CIDR of
    prefix length 24 or more, for which it never reports an error of the
    format of the chunk and whose outcomes have pairwise distinct last
    octets.  So is every item of a run of [main] that gets to the end of its
    loop. *)
Theorem main_scans_valid_chunks cidrs timeout threads :
  let t := checked_timeout timeout in
  let n := checked_threads threads in
  (1 <= t /\ 1 <= n /\
   (0 < timeout -> t = timeout) /\ (timeout <= 0 -> t = defaultTimeout) /\
   (0 < threads -> n = threads) /\ (threads <= 0 -> n = defaultConcurrency)) /\
  (plain_text cidrs = true -> exists cidrList, splitCIDRs cidrs = Ret cidrList) /\
  (forall cidrList cidr fuel subnets,
     splitCIDRs cidrs = Ret cidrList -> In cidr cidrList ->
     splitIntoSubnets fuel cidr = Ret subnets ->
     subnets <> [] /\
     forall subnet r, In subnet subnets -> processCIDR t n subnet r ->
                      item_ok (Chunk subnet r)) /\
  (forall mkdir_ok open_ok t' n' items,
     main cidrs mkdir_ok open_ok timeout threads (Scans t' n' items) ->
     t' = t /\ n' = n /\ Forall item_ok items).
Proof.
  intros t n. split; [|split; [|split]].
  - unfold t, n, checked_timeout, checked_threads, defaultTimeout, defaultConcurrency.
    destruct (Z.leb_spec timeout 0), (Z.leb_spec threads 0); repeat split; lia.
  - apply splitCIDRs_plain.
  - intros cidrList cidr fuel subnets Hs Hin Hsub.
    pose proof (proj1 (Forall_forall _ _) (splitCIDRs_all_valid _ _ Hs) cidr Hin) as Hv.
    split; [apply (splitIntoSubnets_nonempty fuel cidr subnets Hv Hsub)|].
    destruct (isValidCIDR_true cidr Hv) as ((a & b & c & d & p & V) & _).
    pose proof (splitIntoSubnets_chunks_narrow fuel cidr a b c d p subnets V Hsub) as F.
    intros subnet r Hi Hp.
    destruct (proj1 (Forall_forall _ _) F subnet Hi) as (a' & b' & c' & d' & p' & V' & Hp').
    apply (chunk_item_ok t n subnet a' b' c' d' p' r V' Hp' Hp).
  - intros mkdir_ok open_ok t' n' items H.
    inversion H as [| | | |cidrList items' Hc Hm Ho Hs Hne Hl]; subst.
    split; [reflexivity|]. split; [reflexivity|].
    refine (main_loop_items_ok _ _ cidrList items _ Hl).
    apply (splitCIDRs_all_valid _ _ Hs).
Qed.

(** A run of [main] on 10.0.0.0/30 with one slot. *)
Lemma main_loop_on_one_block :
  main_loop 800 1 ["10.0.0.0/30"]
    [Chunk "10.0.0.0/30" (Scanned (st_pingResults two_ips_final))].
Proof.
  change [Chunk "10.0.0.0/30" (Scanned (st_pingResults two_ips_final))]
    with ([Chunk "10.0.0.0/30" (Scanned (st_pingResults two_ips_final))] ++ []).
  apply (main_subnets _ _ 1%nat "10.0.0.0/30" [] ["10.0.0.0/30"]);
    [reflexivity|discriminate| |constructor].
  constructor; [|constructor].
  apply (process_scan _ _ _ 10%nat ["10.0.0.1"; "10.0.0.2"] two_ips_trace two_ips_final);
    [exact parse_10_30|discriminate|exact two_ips_exec|reflexivity].
Qed.

Lemma main_on_one_block :
  main "10.0.0.0/30" true true 800 1
       (Scans 800 1 [Chunk "10.0.0.0/30" (Scanned (st_pingResults two_ips_final))]).
Proof.
  apply (main_scans "10.0.0.0/30" true true 800 1 ["10.0.0.0/30"]
           [Chunk "10.0.0.0/30" (Scanned (st_pingResults two_ips_final))]);
    try reflexivity; try discriminate.
  exact main_loop_on_one_block.
Qed.

Lemma main_scans_valid_chunks_witness :
  Forall item_ok [Chunk "10.0.0.0/30" (Scanned (st_pingResults two_ips_final))] /\
  (exists cidrList, splitCIDRs "10.0.0.0/30, 0.0.0.0/0" = Ret cidrList) /\
  (forall r, processCIDR 800 100 "10.0.0.0/30" r ->
             item_ok (Chunk "10.0.0.0/30" r)).
Proof.
  split; [|split].
  - destruct (main_scans_valid_chunks "10.0.0.0/30" 800 1) as (_ & _ & _ & H).
    apply (H true true 800 1 _ main_on_one_block).
  - destruct (main_scans_valid_chunks "10.0.0.0/30, 0.0.0.0/0" 800 100) as (_ & H & _).
    apply H. reflexivity.
  - intros r Hr.
    destruct (main_scans_valid_chunks "10.0.0.0/30, 0.0.0.0/0" 0 0) as (_ & _ & H & _).
    destruct (H ["10.0.0.0/30"; "0.0.0.0/0"] "10.0.0.0/30" 1%nat ["10.0.0.0/30"]
                ltac:(vm_compute; reflexivity) ltac:(left; reflexivity)
                ltac:(vm_compute; reflexivity)) as [_ Hc].
    apply (Hc "10.0.0.0/30" r ltac:(left; reflexivity) Hr).
Defined.

Lemma main_loop_distinct_octets_witness :
  Forall distinct_octets [Chunk "10.0.0.0/30" (Scanned (st_pingResults two_ips_final))].
Proof.
  apply (main_loop_distinct_octets 800 1 ["10.0.0.0/30"] _); [|exact main_loop_on_one_block].
  constructor; [|constructor].
  exists 10, 0, 0, 0, 30. prove_valid.
Defined.

(** ** [splitIntoSubnets] and [parseCIDR] from prefix length 1 *)

(** X6. From prefix length 1 on [splitIntoSubnets] returns, within 2^23
    rounds of its loop: [2^(24-p)] chunks below prefix length 24, and from 24
    on the argument alone, as it was typed. *)
Theorem splitIntoSubnets_from_prefix_1 s a b c d p :
  valid_ipv4_cidr s a b c d p -> 1 <= p ->
  exists subnets,
    (forall fuel, (2 ^ 23 <= fuel)%nat -> splitIntoSubnets fuel s = Ret subnets) /\
    (p < 24 -> Z.of_nat (length subnets) = 2 ^ (24 - p)) /\
    (24 <= p -> subnets = [s]).
Proof.
  intros V Hp. destruct (Z_lt_ge_dec p 24) as [L|G].
  - exists (chunk_strings (network a b c d p) (Z.to_nat (2 ^ (24 - p)))).
    assert (HP : 0 < 2 ^ (24 - p)) by (apply Z.pow_pos_nonneg; lia).
    split; [|split].
    + intros fuel Hf. apply (splitIntoSubnets_chunks fuel s a b c d p); auto.
      assert (2 ^ (24 - p) <= 2 ^ 23) by (apply Z.pow_le_mono_r; lia).
      assert (Z.of_nat (2 ^ 23) = 2 ^ 23) by (rewrite Nat2Z.inj_pow; reflexivity).
      lia.
    + intros _. unfold chunk_strings. rewrite length_map, zrange_by_length. lia.
    + lia.
  - exists [s]. split; [|split].
    + intros fuel _. apply (splitIntoSubnets_narrow fuel s a b c d p); auto. lia.
    + lia.
    + reflexivity.
Qed.

Lemma splitIntoSubnets_from_prefix_1_witness :
  exists subnets,
    (forall fuel, (2 ^ 23 <= fuel)%nat -> splitIntoSubnets fuel "10.0.0.77/23" = Ret subnets) /\
    length subnets = 2%nat.
Proof.
  assert (V : valid_ipv4_cidr "10.0.0.77/23" 10 0 0 77 23) by prove_valid.
  destruct (splitIntoSubnets_from_prefix_1 "10.0.0.77/23" 10 0 0 77 23 V ltac:(lia))
    as (subnets & H1 & H2 & _).
  exists subnets. split; [exact H1|].
  specialize (H2 ltac:(lia)). change (2 ^ (24 - 23)) with 2 in H2. lia.
Defined.

Lemma in_zrange lo n w : In w (zrange lo n) <-> lo <= w < lo + Z.of_nat n.
Proof.
  unfold zrange. rewrite in_map_iff. split.
  - intros (i & <- & Hi). apply in_seq in Hi. lia.
  - intros Hw. exists (Z.to_nat (w - lo)). split; [lia|]. apply in_seq. lia.
Qed.

(** X7. The chunks of a block of prefix length 1 to 23 are expanded one by
    one: [parseCIDR] gives for each chunk its 254 addresses from .1 to .254.
    So the addresses of the block that get scanned are those whose last
    octet is neither 0 nor 255. *)
Theorem subdivision_scans_hosts_of_chunks fuel s a b c d p :
  valid_ipv4_cidr s a b c d p -> 1 <= p < 24 ->
  2 ^ (24 - p) <= Z.of_nat fuel ->
  let bases := zrange_by 256 (network a b c d p) (Z.to_nat (2 ^ (24 - p))) in
  splitIntoSubnets fuel s = Ret (map chunk_string bases) /\
  Forall (fun x =>
            forall fuel', (256 < fuel')%nat ->
              parseCIDR fuel' (chunk_string x) = Ret (Ok (host_strings (x + 1) 254)))
         bases /\
  (forall w, network a b c d p <= w < network a b c d p + block_size p ->
     ((exists x, In x bases /\ In w (zrange (x + 1) 254)) <->
      w mod 256 <> 0 /\ w mod 256 <> 255)).
Proof.
  intros V Hp Hf bases.
  destruct (splitIntoSubnets_partitions fuel s a b c d p V Hp Hf)
    as (E & Hal & Hcov & _).
  fold bases in E, Hal, Hcov.
  pose proof V as (_ & Ha & Hb & Hc & Hd & Hp').
  destruct (network_block a b c d p Ha Hb Hc Hd Hp') as (N0 & N1 & _).
  split; [exact E|]. split.
  - apply Forall_forall. intros x Hx fuel' Hf'.
    apply chunk_string_hosts; [|apply Hal, Hx|exact Hf'].
    assert (Hin : network a b c d p <= x < network a b c d p + block_size p).
    { apply Hcov. exists x. split; [exact Hx|lia]. }
    lia.
  - intros w Hw. split.
    + intros (x & Hx & Hin). apply in_zrange in Hin.
      pose proof (Hal x Hx) as Ax.
      assert (Em : w mod 256 = w - x).
      { symmetry. apply (Z.mod_unique w 256 (x / 256)); [lia|].
        pose proof (Z.div_mod x 256 ltac:(lia)). lia. }
      lia.
    + intros [W0 W255]. destruct (proj1 (Hcov w) Hw) as (x & Hx & Hin).
      exists x. split; [exact Hx|]. apply in_zrange.
      pose proof (Hal x Hx) as Ax.
      assert (Em : w mod 256 = w - x).
      { symmetry. apply (Z.mod_unique w 256 (x / 256)); [lia|].
        pose proof (Z.div_mod x 256 ltac:(lia)). lia. }
      lia.
Qed.

Lemma subdivision_scans_hosts_of_chunks_witness :
  splitIntoSubnets 2 "10.0.0.77/23" = Ret ["10.0.0.0/24"; "10.0.1.0/24"] /\
  parseCIDR 300 "10.0.1.0/24" = Ret (Ok (host_strings (val4 10 0 1 0 + 1) 254)).
Proof.
  assert (V : valid_ipv4_cidr "10.0.0.77/23" 10 0 0 77 23) by prove_valid.
  destruct (subdivision_scans_hosts_of_chunks 2 "10.0.0.77/23" 10 0 0 77 23 V
              ltac:(lia) ltac:(cbn; lia)) as (E & F & _).
  split; [exact E|].
  apply (proj1 (Forall_forall _ _) F (val4 10 0 1 0)); [|lia].
  vm_compute. right. left. reflexivity.
Defined.

Lemma parseCIDR_expands_witness :
  exists ips, parseCIDR 10 "10.0.0.0/30" = Ret (Ok ips) /\ Z.of_nat (length ips) = 2.
Proof.
  assert (V : valid_ipv4_cidr "10.0.0.0/30" 10 0 0 0 30) by prove_valid.
  destruct (parseCIDR_expands 10 "10.0.0.0/30" 10 0 0 0 30 V ltac:(lia)
              ltac:(vm_compute; reflexivity)) as (ips & E & L & _).
  exists ips. split; [exact E|exact L].
Defined.

(** ** [inc] on a slice of any length *)

Lemma idx_middle (pre : list Z) x suf : idx (pre ++ x :: suf) (length pre) = x.
Proof. unfold idx. rewrite app_nth2, Nat.sub_diag by lia. reflexivity. Qed.

Lemma upd_middle (pre : list Z) x suf v :
  upd (pre ++ x :: suf) (length pre) v = pre ++ v :: suf.
Proof. induction pre as [|y pre IH]; cbn; [reflexivity|]. rewrite IH. reflexivity. Qed.

Lemma inc_from_prefix pre : forall suf,
  inc_from (length pre) (pre ++ suf) = inc_from (length pre) pre ++ suf.
Proof.
  induction pre as [|x p IH] using rev_ind; intros suf; [reflexivity|].
  unfold byte in *. rewrite length_app, Nat.add_1_r. cbn [length inc_from].
  rewrite <- app_assoc. cbn [app].
  rewrite !upd_middle, !idx_middle.
  destruct (0 <? u8 (x + 1)).
  - rewrite <- app_assoc. reflexivity.
  - do 2 rewrite IH. rewrite <- app_assoc. reflexivity.
Qed.

Lemma inc_snoc p x :
  inc (p ++ [x]) = if 0 <? u8 (x + 1) then p ++ [u8 (x + 1)] else inc p ++ [u8 (x + 1)].
Proof.
  unfold inc. rewrite length_app, Nat.add_1_r. cbn [length inc_from].
  rewrite !upd_middle, !idx_middle.
  destruct (0 <? u8 (x + 1)); [reflexivity|]. apply inc_from_prefix.
Qed.

Lemma be_value_snoc p x : be_value (p ++ [x]) = be_value p * 256 + x.
Proof. unfold be_value. rewrite fold_left_app. reflexivity. Qed.

Lemma be_value_range p :
  Forall is_byte p -> 0 <= be_value p < 256 ^ Z.of_nat (length p).
Proof.
  induction p as [|x p IH] using rev_ind; intros H.
  - cbn. lia.
  - apply Forall_app in H. destruct H as [Hp Hx]. inversion Hx as [|? ? Bx _]; subst.
    specialize (IH Hp). rewrite be_value_snoc, length_app, Nat.add_1_r, Nat2Z.inj_succ.
    rewrite Z.pow_succ_r by lia. unfold is_byte in Bx. nia.
Qed.

(** X8. [inc] adds one to the number that the bytes spell, most significant
    byte first, and wraps to zero after the largest; the length stays. *)
Theorem inc_is_successor ip :
  Forall is_byte ip ->
  length (inc ip) = length ip /\ Forall is_byte (inc ip) /\
  be_value (inc ip) = (be_value ip + 1) mod 256 ^ Z.of_nat (length ip).
Proof.
  induction ip as [|x p IH] using rev_ind; intros H.
  - cbn. split; [reflexivity|]. split; [constructor|]. reflexivity.
  - apply Forall_app in H. destruct H as [Hp Hx]. inversion Hx as [|? ? Bx _]; subst.
    destruct (IH Hp) as (IL & IB & IV).
    pose proof (be_value_range p Hp) as R.
    assert (P : 0 < 256 ^ Z.of_nat (length p)) by (apply Z.pow_pos_nonneg; lia).
    assert (EL : length (p ++ [x]) = S (length p))
      by (rewrite length_app; cbn [length]; lia).
    rewrite inc_snoc, EL, Nat2Z.inj_succ, Z.pow_succ_r by lia.
    unfold is_byte, u8 in *.
    destruct (Z.ltb_spec 0 ((x + 1) mod 256)) as [G|G].
    + assert (x + 1 < 256) by div_lia.
      rewrite Z.mod_small in * by lia.
      split; [rewrite length_app; apply Nat.add_1_r|].
      split; [apply Forall_app; split; [assumption|constructor; [lia|constructor]]|].
      rewrite !be_value_snoc. rewrite Z.mod_small; nia.
    + assert (Ex : x = 255) by div_lia. subst x.
      change ((255 + 1) mod 256) with 0.
      split; [rewrite length_app, IL; apply Nat.add_1_r|].
      split; [apply Forall_app; split; [assumption|constructor; [lia|constructor]]|].
      rewrite !be_value_snoc, IV.
      replace (be_value p * 256 + 255 + 1) with ((be_value p + 1) * 256) by lia.
      rewrite (Z.mul_comm 256 (256 ^ _)).
      rewrite Z.mul_mod_distr_r by lia. lia.
Qed.

Lemma inc_is_successor_witness :
  be_value (inc [10; 0; 255; 255]) = be_value [10; 1; 0; 0] /\
  be_value (inc [255; 255; 255; 255]) = 0.
Proof.
  split.
  - rewrite (proj2 (proj2 (inc_is_successor [10; 0; 255; 255]
               ltac:(repeat constructor; unfold is_byte; lia)))).
    reflexivity.
  - rewrite (proj2 (proj2 (inc_is_successor [255; 255; 255; 255]
               ltac:(repeat constructor; unfold is_byte; lia)))).
    reflexivity.
Defined.

(** ** The dispatcher: blocking, return, deadlock *)

(** X9. Once a goroutine has its slot, nothing that it does afterwards can
    block: [results] and [progress] have room for every goroutine's one
    value, the semaphore holds its slot, and the wait group counts it.  This
    holds for every ceiling and whatever the collector and the monitor do. *)
Theorem slot_holder_never_blocks c tr s i ip r :
  exec c tr s ->
  (nth_error (st_tasks s) i = Some (mkTask ip (TSend r)) ->
     exists s', step_rel c s (ESendResult i) s') /\
  (nth_error (st_tasks s) i = Some (mkTask ip (TRelease r)) ->
     exists s', step_rel c s (ERelease i) s') /\
  (nth_error (st_tasks s) i = Some (mkTask ip (TProgress r)) ->
     exists s', step_rel c s (EProgress i) s') /\
  (nth_error (st_tasks s) i = Some (mkTask ip (TDone r)) ->
     exists s', step_rel c s (EDone i) s').
Proof.
  intros Hex. pose proof (exec_invariant c tr s Hex) as Inv.
  destruct Inv as [Isp Iip Iwg Isem Iceil Ires Iprog Iwait Iret Iok].
  assert (HN : (length (st_tasks s) <= length (cfg_ips c))%nat).
  { assert (X : length (map t_ip (st_tasks s)) = length (st_tasks s)) by apply length_map.
    rewrite Iip, length_firstn in X. lia. }
  assert (Hrun : forall t, nth_error (st_tasks s) i = Some t -> not_exited t = true ->
                           (0 < st_wg s)%nat /\ st_closed s = false).
  { intros t Ht Hne.
    assert (Hwg : (0 < st_wg s)%nat).
    { rewrite Iwg. destruct (set_task_split _ _ _ t Ht) as (l1 & l2 & E & _ & _).
      rewrite E, count_app, count_cons, Hne. cbn. lia. }
    split; [exact Hwg|].
    destruct (st_waiter s); try assumption; destruct Iwait; lia. }
  repeat split; intros Ht; destruct (Hrun _ Ht eq_refl) as [Hwg Hcl].
  - eexists. apply (step_send c s i ip r Ht Hcl).
    apply Permutation_length in Ires. rewrite length_app, length_sent_results in Ires.
    pose proof (count_lt_length has_sent _ _ _ Ht eq_refl).
    unfold results_cap. lia.
  - assert (0 < st_sem s)%nat.
    { rewrite Isem. destruct (set_task_split _ _ _ (mkTask ip (TRelease r)) Ht)
        as (l1 & l2 & E & _ & _).
      rewrite E, count_app, count_cons. cbn. lia. }
    destruct (st_sem s) as [|n] eqn:En; [lia|].
    eexists. apply (step_release c s i ip r n Ht En).
  - eexists. apply (step_progress c s i ip r Ht).
    pose proof (count_lt_length has_signalled _ _ _ Ht eq_refl).
    unfold progress_cap. lia.
  - destruct (st_wg s) as [|n] eqn:En; [lia|].
    eexists. apply (step_done c s i ip r n Ht En).
Qed.

Lemma probe_over_exec : exec two_ips probe_over_trace probe_over.
Proof. apply do_steps_exec. vm_compute. reflexivity. Defined.

Lemma slot_holder_never_blocks_witness :
  exists s', step_rel two_ips probe_over (ESendResult 0) s'.
Proof.
  apply (proj1 (slot_holder_never_blocks two_ips probe_over_trace probe_over 0
                  "10.0.0.1" (mkPingResult "10.0.0.1" true) probe_over_exec)).
  reflexivity.
Defined.

Lemma returned_tasks_exited c s :
  invariant c s -> st_main s = MReturned ->
  map t_ip (st_tasks s) = cfg_ips c /\
  Forall (fun t => exists r, t_pc t = TExit r /\ PingResult_IP r = t_ip t) (st_tasks s).
Proof.
  intros Inv Hm.
  destruct (returned_outcomes c s Inv Hm) as (_ & _ & Hz & Hlen).
  destruct Inv as [Isp Iip Iwg Isem Iceil Ires Iprog Iwait Iret Iok].
  split; [rewrite Iip, Hlen; apply firstn_all|].
  apply Forall_forall. intros t Hin.
  destruct (In_nth_error _ _ Hin) as (i & Hi).
  pose proof (count_zero_all not_exited _ Hz i t Hi) as Hx.
  pose proof (proj1 (Forall_forall _ _) Iok t Hin) as Hok.
  destruct t as [ip pc]. unfold not_exited in Hx. cbn in Hx.
  destruct pc as [| |r|r|r|r|r]; try discriminate.
  exists r. split; [reflexivity|]. exact Hok.
Qed.

(** X10. When [pingAllWithConcurrency] has returned, every goroutine has run
    to its end with an outcome for its own address, the closing goroutine
    has ended, the semaphore is empty, the wait group is at zero, [results]
    is closed and drained; the only thing that can still happen is that the
    monitor takes a signal that is left in [progress]. *)
Theorem returned_dispatcher_is_quiet c tr s :
  exec c tr s -> st_main s = MReturned ->
  map t_ip (st_tasks s) = cfg_ips c /\
  Forall (fun t => exists r, t_pc t = TExit r /\ PingResult_IP r = t_ip t) (st_tasks s) /\
  st_waiter s = WExit /\ st_wg s = 0%nat /\ st_sem s = 0%nat /\
  st_closed s = true /\ st_results s = [] /\
  (forall e s', step_rel c s e s' -> e = EMonitor).
Proof.
  intros Hex Hm. pose proof (exec_invariant c tr s Hex) as Inv.
  destruct (returned_tasks_exited c s Inv Hm) as (Hips & Hall).
  destruct Inv as [Isp Iip Iwg Isem Iceil Ires Iprog Iwait Iret Iok].
  destruct (Iret Hm) as [Hcl Hr].
  assert (Hw : st_waiter s = WExit).
  { destruct (st_waiter s); try reflexivity; try congruence; destruct Iwait; congruence. }
  assert (Hwg : st_wg s = 0%nat) by (rewrite Hw in Iwait; apply Iwait).
  assert (Hsem : st_sem s = 0%nat).
  { rewrite Isem. clear - Hall. induction Hall as [|t ts (r & E & _) _ IH]; [reflexivity|].
    rewrite count_cons, IH. unfold holds_slot. rewrite E. reflexivity. }
  split; [exact Hips|].
  split; [exact Hall|]. split; [exact Hw|]. split; [exact Hwg|].
  split; [exact Hsem|]. split; [exact Hcl|]. split; [exact Hr|].
  intros e s' Hstep.
  assert (Hno : forall i ip pc, nth_error (st_tasks s) i = Some (mkTask ip pc) ->
                                exists r, pc = TExit r).
  { intros i ip pc Hi. apply nth_error_In in Hi.
    destruct (proj1 (Forall_forall _ _) Hall _ Hi) as (r & E & _). exists r. exact E. }
  inversion Hstep; subst; try reflexivity; try congruence;
    match goal with
    | H : nth_error (st_tasks s) _ = Some _ |- _ =>
        destruct (Hno _ _ _ H) as (? & ?); discriminate
    end.
Qed.

Lemma returned_dispatcher_is_quiet_witness :
  st_sem two_ips_final = 0%nat /\ st_waiter two_ips_final = WExit.
Proof.
  destruct (returned_dispatcher_is_quiet two_ips two_ips_trace two_ips_final
              two_ips_exec eq_refl) as (_ & _ & Hw & _ & Hs & _).
  split; assumption.
Defined.

Lemma completes_within n : forall c tr s,
  1 <= cfg_maxThreads c -> exec c tr s -> (measure c s <= n)%nat ->
  exists tr' s', exec c (tr ++ tr') s' /\ st_main s' = MReturned /\
                 (length tr' <= measure c s)%nat.
Proof.
  induction n as [|n IH]; intros c tr s Hth Hex Hn.
  - destruct (st_main s) eqn:Em.
    + unfold measure in Hn. rewrite Em in Hn. lia.
    + unfold measure in Hn. rewrite Em in Hn. lia.
    + exists [], s. rewrite app_nil_r. split; [exact Hex|]. split; [exact Em|]. cbn. lia.
  - destruct (st_main s) eqn:Em.
    3:{ exists [], s. rewrite app_nil_r. split; [exact Hex|]. split; [exact Em|]. cbn. lia. }
    all: destruct (can_step c s (exec_invariant c tr s Hex) Hth ltac:(congruence))
           as (e & s1 & Hstep);
         pose proof (measure_step c s e s1 Hstep) as Hlt;
         destruct (IH c (tr ++ [e]) s1 Hth (exec_step c tr s e s1 Hex Hstep) ltac:(lia))
           as (tr' & s' & Hex' & Hm' & Hl);
         exists (e :: tr'), s';
         (split; [rewrite <- app_assoc in Hex'; exact Hex'|]);
         (split; [exact Hm'|]); cbn [length]; lia.
Qed.

(** In an execution every probe event carries the outcome of [pingIP] over
    some behaviour of the library. *)
Lemma exec_probes c tr s :
  exec c tr s ->
  Forall (fun e => forall i r, e = EProbe i r ->
                   exists lib ip, r = pingIP lib ip (cfg_timeoutMs c)) tr.
Proof.
  induction 1 as [|tr s e s' _ IH Hstep]; [constructor|].
  apply Forall_app. split; [exact IH|]. constructor; [|constructor].
  intros i r E. subst e. inversion Hstep; subst. eauto.
Qed.

(** X11. With a ceiling of at least 1 and a timeout from 1 to 9223372036854
    ms every call of [pingIP] returns, and every execution of the dispatcher
    can be continued to its return, in no more steps than the measure of its
    state, and has then one outcome per address. *)
Theorem dispatcher_can_always_return c tr s :
  1 <= cfg_maxThreads c -> 1 <= cfg_timeoutMs c <= 9223372036854 -> exec c tr s ->
  (forall lib ip,
     pingIP_call lib ip (cfg_timeoutMs c) = Returns (pingIP lib ip (cfg_timeoutMs c))) /\
  exists tr' s',
    exec c (tr ++ tr') s' /\ st_main s' = MReturned /\
    (length tr' <= measure c s)%nat /\
    Permutation (map PingResult_IP (st_pingResults s')) (cfg_ips c) /\
    Forall (fun e => forall i r, e = EProbe i r ->
                     exists lib ip, pingIP_call lib ip (cfg_timeoutMs c) = Returns r)
           (tr ++ tr').
Proof.
  intros Hth Ht Hex.
  assert (Hret : forall lib ip,
             pingIP_call lib ip (cfg_timeoutMs c) = Returns (pingIP lib ip (cfg_timeoutMs c))).
  { intros lib ip. apply pingIP_call_returns.
    destruct (time_limit_in_range _ Ht) as [E R]. rewrite E. lia. }
  split; [exact Hret|].
  destruct (completes_within (measure c s) c tr s Hth Hex (le_n _))
    as (tr' & s' & Hex' & Hm & Hl).
  exists tr', s'. split; [exact Hex'|]. split; [exact Hm|]. split; [exact Hl|].
  split; [apply (returned_outcomes c s' (exec_invariant _ _ _ Hex') Hm)|].
  eapply Forall_impl; [|apply (exec_probes c _ s' Hex')].
  cbv beta. intros e H i r E. destruct (H i r E) as (lib & ip & ->).
  exists lib, ip. apply Hret.
Qed.

Lemma dispatcher_can_always_return_witness :
  exists tr' s',
    exec two_ips (probe_over_trace ++ tr') s' /\ st_main s' = MReturned.
Proof.
  destruct (dispatcher_can_always_return two_ips probe_over_trace probe_over
              ltac:(cbn; lia) ltac:(cbn; lia) probe_over_exec)
    as (_ & tr' & s' & H1 & H2 & _).
  exists tr', s'. split; assumption.
Defined.

(** Without a slot to give, no goroutine passes the semaphore. *)
Lemma no_slot_all_waiting c tr s :
  cfg_maxThreads c <= 0 -> exec c tr s ->
  Forall (fun t => t_pc t = TAcquire) (st_tasks s).
Proof.
  intros Hz Hex. induction Hex as [|tr s e s' _ IH Hstep]; [constructor|].
  assert (Hno : forall i ip pc, nth_error (st_tasks s) i = Some (mkTask ip pc) ->
                                pc = TAcquire).
  { intros i ip pc Hi. apply nth_error_In in Hi.
    apply (proj1 (Forall_forall _ _) IH _ Hi). }
  inversion Hstep; subst; cbn [st_tasks with_task]; try assumption;
    try match goal with
    | H : nth_error (st_tasks s) _ = Some _ |- _ =>
        pose proof (Hno _ _ _ H); try discriminate
    end.
  - apply Forall_app. split; [assumption|]. constructor; [reflexivity|constructor].
  - lia.
Qed.

(** X12. With a ceiling of 0 and an address to probe,
    [pingAllWithConcurrency] never returns: no goroutine gets past the
    semaphore, and every execution stops within [9 * N + 7] steps short of
    the return.  [main] never passes such a ceiling. *)
Theorem no_slot_never_returns c tr s :
  cfg_maxThreads c = 0 -> cfg_ips c <> [] -> exec c tr s ->
  st_main s <> MReturned /\
  (length tr <= 9 * length (cfg_ips c) + 7)%nat /\
  (forall i ip, nth_error (st_tasks s) i = Some (mkTask ip TAcquire) ->
                forall s', ~ step_rel c s (EAcquire i) s') /\
  (forall threads, checked_threads threads <> 0).
Proof.
  intros Hz Hne Hex.
  pose proof (no_slot_all_waiting c tr s ltac:(lia) Hex) as Hall.
  split; [|split; [|split]].
  - intros Hm.
    destruct (returned_tasks_exited c s (exec_invariant c tr s Hex) Hm) as (Hips & Hex').
    destruct (st_tasks s) as [|t ts].
    + cbn in Hips. congruence.
    + inversion Hall as [|? ? Ha _]; subst. inversion Hex' as [|? ? (r & Hr & _) _]; subst.
      congruence.
  - pose proof (exec_bounded c tr s Hex). lia.
  - intros i ip Hi s' Hstep. inversion Hstep; subst. lia.
  - intros threads. unfold checked_threads, defaultConcurrency.
    destruct (Z.leb_spec threads 0); lia.
Qed.

Lemma no_slot_exec : exec no_slot [ESpawn 0; ESpawnWaiter] no_slot_stuck.
Proof. apply do_steps_exec. vm_compute. reflexivity. Defined.

Lemma no_slot_never_returns_witness :
  st_main no_slot_stuck <> MReturned /\
  (forall s', ~ step_rel no_slot no_slot_stuck (EAcquire 0) s').
Proof.
  destruct (no_slot_never_returns no_slot [ESpawn 0; ESpawnWaiter] no_slot_stuck
              eq_refl ltac:(discriminate) no_slot_exec) as (H1 & _ & H3 & _).
  split; [exact H1|]. apply (H3 0%nat "10.0.0.1" eq_refl).
Defined.

Lemma signals_accounted c tr s :
  exec c tr s ->
  (occurrences is_monitor tr + st_progress s = count has_signalled (st_tasks s))%nat.
Proof.
  induction 1 as [|tr s e s' _ IH Hstep]; [reflexivity|].
  rewrite occurrences_snoc.
  destruct Hstep as
    [s k ip Hm Hn | s k Hm Hn | s i ip Ht Hc | s i ip lib Ht | s i ip r Ht Hcl Hcap
    | s i ip r n Ht Hs | s i ip r Ht Hcap | s i ip r n Ht Hw | s Hw Hz | s Hw Hcl
    | s r rest Hm Hr | s Hm Hr Hcl | s n Hp ];
    cbn [with_task st_tasks st_progress is_monitor b2n];
    try match goal with
      | Ht : nth_error (st_tasks ?s) ?i = Some ?old
        |- context [set_task (st_tasks ?s) ?i ?new] =>
          let X := fresh in
          pose proof (count_set_task has_signalled _ _ _ new Ht) as X; cbn in X
      end;
    try rewrite count_app; try rewrite Hp in IH; cbn; try lia.
Qed.

(** X13. The monitor never takes more signals than there are addresses;
    when the dispatcher returns, the signals taken and those still in
    [progress] are one per address. *)
Theorem monitor_signals_bounded c tr s :
  exec c tr s ->
  (occurrences is_monitor tr + st_progress s <= length (cfg_ips c))%nat /\
  (st_main s = MReturned ->
   (occurrences is_monitor tr + st_progress s = length (cfg_ips c))%nat).
Proof.
  intros Hex. pose proof (signals_accounted c tr s Hex) as E.
  pose proof (exec_invariant c tr s Hex) as Inv.
  split.
  - destruct Inv as [Isp Iip Iwg Isem Iceil Ires Iprog Iwait Iret Iok].
    assert (HN : (length (st_tasks s) <= length (cfg_ips c))%nat).
    { assert (X : length (map t_ip (st_tasks s)) = length (st_tasks s)) by apply length_map.
      rewrite Iip, length_firstn in X. lia. }
    pose proof (count_le_length has_signalled (st_tasks s)). lia.
  - intros Hm. destruct (returned_tasks_exited c s Inv Hm) as (Hips & Hall).
    rewrite E, <- Hips, length_map. clear - Hall.
    induction Hall as [|t ts (r & Er & _) _ IH]; [reflexivity|].
    rewrite count_cons, IH. unfold has_signalled. rewrite Er. reflexivity.
Qed.

Lemma monitor_signals_bounded_witness :
  (occurrences is_monitor two_ips_trace + st_progress two_ips_final = 2)%nat.
Proof.
  apply (proj2 (monitor_signals_bounded two_ips two_ips_trace two_ips_final two_ips_exec)).
  reflexivity.
Defined.

(** ** The time limit of a probe *)

(** X14. The time limit of a probe.  [main] replaces a flag that is not
    positive by 800.  Up to 9223372036854 milliseconds [pingIP] runs the
    pinger with that limit, in nanoseconds, one packet, privileged, over
    ip4; beyond, the product with [time.Millisecond] overflows, and the
    pinger gets another limit. *)
Theorem probe_time_limit lib ip flag pinger :
  ping_NewPinger lib ip = Some pinger ->
  let t := checked_timeout flag in
  1 <= t /\
  (flag <= 9223372036854 ->
     0 < t * 1000000 < 2 ^ 63 /\
     pingIP lib ip t
     = match ping_Run lib (mkPinger (pinger_addr pinger) true 1 (t * 1000000) "ip4") with
       | None => mkPingResult ip false
       | Some stats => mkPingResult ip (0 <? PacketsRecv stats)
       end) /\
  (9223372036854 < flag < 2 ^ 63 ->
     pinger_Timeout (configure pinger t) <> t * 1000000).
Proof.
  intros E t.
  assert (Ht : 1 <= t /\ (0 < flag -> t = flag) /\ (flag <= 0 -> t = 800)).
  { unfold t, checked_timeout, defaultTimeout. destruct (Z.leb_spec flag 0); lia. }
  destruct Ht as (T1 & T2 & T3). split; [exact T1|]. split.
  - intros Hf. assert (R : 0 < t * 1000000 < 2 ^ 63).
    { destruct (Z_le_gt_dec flag 0); [rewrite T3 by lia; lia|rewrite T2 by lia; lia]. }
    split; [exact R|].
    unfold pingIP. rewrite E. unfold configure, Millisecond.
    rewrite wrap64_small by lia. reflexivity.
  - intros Hf. rewrite T2 by lia. unfold configure, Millisecond.
    cbn [pinger_Timeout]. unfold wrap64.
    pose proof (Z.mod_pos_bound (flag * 1000000 + 2 ^ 63) (2 ^ 64) ltac:(lia)). lia.
Qed.

Lemma probe_time_limit_witness :
  pingIP (lib_answering true) "10.0.0.1" (checked_timeout 0)
  = mkPingResult "10.0.0.1" true.
Proof.
  destruct (probe_time_limit (lib_answering true) "10.0.0.1" 0
              (mkPinger "10.0.0.1" false 0 0 "") eq_refl) as (_ & H & _).
  destruct (H ltac:(lia)) as [_ P]. rewrite P. reflexivity.
Defined.

(** ** The progress monitor and [formatDuration] *)

Lemma quot_rem_Q d S :
  0 < S ->
  (inject_Z (Z.quot d S) + inject_Z (Z.rem d S) / inject_Z S) * inject_Z S == inject_Z d.
Proof.
  intros HS.
  assert (N : ~ inject_Z S == 0).
  { intros H. unfold Qeq in H. cbn in H. lia. }
  rewrite (Z.quot_rem' d S) at 3.
  rewrite inject_Z_plus, inject_Z_mult. field. exact N.
Qed.

(** X15. The unit that [formatDuration] picks and the number it prints:
    whole milliseconds, at most 999, below one second (so for every negative
    duration as well); seconds from 1 up to 60; minutes from 1. *)
Theorem formatDuration_unit d :
  match formatDuration d with
  | InMs n =>
      d < 1000000000 /\ n = Z.quot d 1000000 /\ n <= 999 /\
      (0 <= d -> 0 <= n /\ n * 1000000 <= d < (n + 1) * 1000000) /\
      (d < 0 -> n <= 0)
  | InSeconds x =>
      1000000000 <= d < 60000000000 /\
      exists q, x = Finite q /\ q * inject_Z 1000000000 == inject_Z d /\
                (1 <= q)%Q /\ (q < 60)%Q
  | InMinutes x =>
      60000000000 <= d /\
      exists q, x = Finite q /\ q * inject_Z 60000000000 == inject_Z d /\ (1 <= q)%Q
  end.
Proof.
  unfold formatDuration.
  change Second with 1000000000. change Minute with 60000000000.
  destruct (Z.ltb_spec d 1000000000) as [L1|G1].
  - unfold Duration_Milliseconds. split; [exact L1|]. split; [reflexivity|].
    split; [|split].
    + destruct (Z_lt_ge_dec d 0) as [N|P].
      * pose proof (Z.quot_opp_l (- d) 1000000 ltac:(lia)) as E.
        rewrite Z.opp_involutive in E.
        pose proof (Z.quot_pos (- d) 1000000 ltac:(lia) ltac:(lia)). lia.
      * rewrite Z.quot_div_nonneg by lia. div_lia.
    + intros P. rewrite Z.quot_div_nonneg by lia. div_lia.
    + intros N. pose proof (Z.quot_opp_l (- d) 1000000 ltac:(lia)) as E.
      rewrite Z.opp_involutive in E.
      pose proof (Z.quot_pos (- d) 1000000 ltac:(lia) ltac:(lia)). lia.
  - destruct (Z.ltb_spec d 60000000000) as [L2|G2].
    + split; [lia|]. unfold Duration_Seconds, fadd, fdiv, float64_of_int.
      change Second with 1000000000.
      change (Qeq_bool (inject_Z 1000000000) 0) with false. cbv iota.
      eexists. split; [reflexivity|].
      pose proof (quot_rem_Q d 1000000000 ltac:(lia)) as E.
      split; [exact E|].
      assert (P : (0 < inject_Z 1000000000)%Q) by reflexivity.
      split.
      * apply (Qmult_le_r _ _ _ P). rewrite E, Qmult_1_l.
        rewrite <- Zle_Qle. lia.
      * apply (Qmult_lt_r _ _ _ P). rewrite E.
        change (60 * inject_Z 1000000000)%Q with (inject_Z 60 * inject_Z 1000000000)%Q.
        rewrite <- inject_Z_mult, <- Zlt_Qlt. lia.
    + split; [lia|]. unfold Duration_Minutes, fadd, fdiv, float64_of_int.
      change Minute with 60000000000.
      change (Qeq_bool (inject_Z 60 * inject_Z 1000000000) 0) with false. cbv iota.
      eexists. split; [reflexivity|].
      assert (E60 : inject_Z 60 * inject_Z 1000000000 == inject_Z 60000000000)
        by reflexivity.
      pose proof (quot_rem_Q d 60000000000 ltac:(lia)) as E.
      assert (E' : (inject_Z (Z.quot d 60000000000) +
                    inject_Z (Z.rem d 60000000000) / (inject_Z 60 * inject_Z 1000000000))
                   * inject_Z 60000000000 == inject_Z d).
      { rewrite E60. exact E. }
      split; [exact E'|].
      assert (P : (0 < inject_Z 60000000000)%Q) by reflexivity.
      apply (Qmult_le_r _ _ _ P). rewrite E', Qmult_1_l.
      rewrite <- Zle_Qle. lia.
Qed.

Lemma inject_Z_nonzero z : z <> 0 -> ~ inject_Z z == 0.
Proof. intros H E. unfold Qeq in E. cbn in E. lia. Qed.

Lemma inject_Z_pos z : 0 < z -> (0 < inject_Z z)%Q.
Proof. intros H. unfold Qlt. cbn. lia. Qed.

Lemma inject_Z_nonneg z : 0 <= z -> (0 <= inject_Z z)%Q.
Proof. intros H. unfold Qle. cbn. lia. Qed.

Lemma Duration_of_nonneg q bound :
  (0 <= q)%Q -> (q <= inject_Z bound)%Q -> bound < 2 ^ 63 ->
  exists z, Duration_of_float64 (Finite q) = Ret z /\ 0 <= z <= bound /\
            (q == 0 -> z = 0).
Proof.
  intros H0 Hb Hlt. unfold Duration_of_float64.
  assert (N : 0 <= Qnum q).
  { unfold Qle in H0. cbn in H0. lia. }
  rewrite Z.quot_div_nonneg by lia.
  set (z := Qnum q / Z.pos (Qden q)).
  assert (F0 : 0 <= z) by (apply Z.div_pos; lia).
  assert (F1 : z <= bound).
  { unfold Qle in Hb. cbn in Hb. rewrite Z.mul_1_r in Hb.
    assert (z < bound + 1); [|lia].
    apply Z.div_lt_upper_bound; lia. }
  exists z.
  destruct (Z.leb_spec (- 2 ^ 63) z); [|lia].
  destruct (Z.ltb_spec z (2 ^ 63)); [|lia].
  split; [reflexivity|]. split; [lia|].
  intros E. unfold Qeq in E. cbn in E. unfold z.
  replace (Qnum q) with 0 by lia. reflexivity.
Qed.

Lemma showProgress_loop_lines total es : forall count,
  1 <= total < 2 ^ 63 -> 0 <= count ->
  count + Z.of_nat (length es) <= total ->
  Forall (fun e => 0 <= e /\ e * total < 2 ^ 63) es ->
  length (showProgress_loop total count (map ProgressValue es)) = length es /\
  forall i line,
    nth_error (showProgress_loop total count (map ProgressValue es)) i = Some line ->
    line_shows total (count + Z.of_nat i + 1) line.
Proof.
  induction es as [|e es IH]; intros count Ht Hc Hn Hes; cbn [map showProgress_loop].
  - split; [reflexivity|]. intros [|i] line H; discriminate.
  - cbn [length] in Hn. inversion Hes as [|? ? [He0 He1] Hes']; subst.
    rewrite (wrap64_small (count + 1)) by lia.
    rewrite (wrap64_small (total - (count + 1))) by lia.
    destruct (IH (count + 1) Ht ltac:(lia) ltac:(lia) Hes') as [IHl IHn].
    split; [cbn [length]; rewrite IHl; reflexivity|].
    intros [|i] line H; cbn [nth_error] in H.
    2:{ replace (count + Z.of_nat (S i) + 1) with (count + 1 + Z.of_nat i + 1) by lia.
        apply IHn, H. }
    inversion H; subst line. clear H.
    replace (count + Z.of_nat 0 + 1) with (count + 1) by lia.
    set (k := count + 1). assert (Hk : 1 <= k <= total) by (unfold k; lia).
    cbn [line_shows]. split; [reflexivity|]. split; [reflexivity|].
    pose proof (inject_Z_nonzero k ltac:(lia)) as Nk.
    pose proof (inject_Z_nonzero total ltac:(lia)) as Nt.
    assert (Pk : (0 < inject_Z k)%Q) by (apply inject_Z_pos; lia).
    assert (Pt : (0 < inject_Z total)%Q) by (apply inject_Z_pos; lia).
    split.
    + unfold float64_of_int, fdiv, fmul.
      destruct (Qeq_bool (inject_Z total) 0) eqn:E;
        [apply Qeq_bool_eq in E; contradiction|].
      eexists. split; [reflexivity|].
      assert (E1 : inject_Z k / inject_Z total * 100
                   == inject_Z (100 * k) / inject_Z total).
      { rewrite inject_Z_mult. change (inject_Z 100) with 100%Q. field. exact Nt. }
      split; [exact E1|]. rewrite E1. split.
      * apply Qlt_shift_div_l; [exact Pt|]. rewrite Qmult_0_l.
        apply inject_Z_pos. lia.
      * apply Qle_shift_div_r; [exact Pt|]. rewrite <- inject_Z_mult, <- Zle_Qle. lia.
    + unfold line_durations, float64_of_int, fdiv, fmul.
      destruct (Qeq_bool (inject_Z k) 0) eqn:E;
        [apply Qeq_bool_eq in E; contradiction|].
      set (q := (inject_Z e / inject_Z k * inject_Z (total - k))%Q).
      assert (Q0 : (0 <= q)%Q).
      { unfold q. apply Qmult_le_0_compat.
        - apply Qle_shift_div_l; [exact Pk|]. rewrite Qmult_0_l.
          apply inject_Z_nonneg. exact He0.
        - apply inject_Z_nonneg. lia. }
      assert (Q1 : (q <= inject_Z (e * (total - k)))%Q).
      { unfold q. rewrite inject_Z_mult.
        apply Qmult_le_compat_r; [|apply inject_Z_nonneg; lia].
        apply Qle_shift_div_r; [exact Pk|].
        rewrite <- inject_Z_mult, <- Zle_Qle. nia. }
      destruct (Duration_of_nonneg q (e * (total - k)) Q0 Q1 ltac:(nia))
        as (z & Ez & Hz & Hzero).
      exists z. rewrite Ez. split; [reflexivity|]. split; [exact Hz|].
      intros Ek. apply Hzero. unfold q. rewrite Ek, Z.sub_diag.
      change (inject_Z 0) with 0%Q. apply Qmult_0_r.
Qed.

(** X16. In a scan of [total] addresses, the [k]-th signal makes the monitor
    show the count [k], [100 * k / total] percent, which is above 0 and at
    most 100, and a remaining time that is not negative and not above
    [elapsed * (total - k)]; on the last signal the remaining time is 0. *)
Theorem showProgress_lines total es :
  1 <= total < 2 ^ 63 -> Z.of_nat (length es) <= total ->
  Forall (fun e => 0 <= e /\ e * total < 2 ^ 63) es ->
  length (showProgress total (map ProgressValue es)) = length es /\
  forall i line,
    nth_error (showProgress total (map ProgressValue es)) i = Some line ->
    line_shows total (Z.of_nat i + 1) line.
Proof.
  intros Ht Hn Hes.
  destruct (showProgress_loop_lines total es 0 Ht ltac:(lia) ltac:(lia) Hes) as [L N].
  split; [exact L|]. intros i line H. apply (N i line H).
Qed.

Lemma showProgress_lines_witness :
  length (showProgress 2 (map ProgressValue [500; 900])) = 2%nat /\
  line_shows 2 2 (Running (Finite (inject_Z 2 / inject_Z 2 * 100)) 2 2 900
                          (Finite (inject_Z 900 / inject_Z 2 * inject_Z 0))).
Proof.
  destruct (showProgress_lines 2 [500; 900] ltac:(lia) ltac:(cbn; lia)
              ltac:(repeat constructor; lia)) as [L N].
  split; [exact L|]. apply (N 1%nat). reflexivity.
Defined.

Lemma showProgress_loop_done total es elapsed rest : forall count,
  showProgress_loop total count (map ProgressValue es ++ DoneClosed elapsed :: rest)
  = showProgress_loop total count (map ProgressValue es) ++ [Completed total elapsed].
Proof.
  induction es as [|e es IH]; intros count; cbn [map app showProgress_loop].
  - reflexivity.
  - rewrite IH. reflexivity.
Qed.

Lemma showProgress_loop_closed total es rest : forall count,
  showProgress_loop total count (map ProgressValue es ++ ProgressClosed :: rest)
  = showProgress_loop total count (map ProgressValue es).
Proof.
  induction es as [|e es IH]; intros count; cbn [map app showProgress_loop].
  - reflexivity.
  - rewrite IH. reflexivity.
Qed.

(** X17. The monitor shows one line per signal until [done] is closed; then
    it shows the closing line, which says [total] of [total] whatever the
    number of signals it has seen, and nothing that comes later.  When
    [progress] is closed it stops without a closing line. *)
Theorem showProgress_stops total es :
  (forall elapsed rest,
     showProgress total (map ProgressValue es ++ DoneClosed elapsed :: rest)
     = showProgress total (map ProgressValue es) ++ [Completed total elapsed]) /\
  (forall rest,
     showProgress total (map ProgressValue es ++ ProgressClosed :: rest)
     = showProgress total (map ProgressValue es)) /\
  length (showProgress total (map ProgressValue es)) = length es.
Proof.
  unfold showProgress. split; [|split].
  - intros elapsed rest. apply showProgress_loop_done.
  - intros rest. apply showProgress_loop_closed.
  - generalize 0. induction es as [|e es IH]; intros count; [reflexivity|].
    cbn [map showProgress_loop length]. rewrite IH. reflexivity.
Qed.

(** ** The reports: [getLastOctet], the grid, the table *)

Lemma no_dot_cons c s :
  no_dot (String c s) = negb (Ascii.eqb c chr_dot) && no_dot s.
Proof. reflexivity. Qed.

Lemma split_dot_spec s :
  exists parts lastp,
    strings_Split_dot s = parts ++ [lastp] /\
    Forall (fun p => no_dot p = true) (parts ++ [lastp]) /\
    join_dot (parts ++ [lastp]) = s /\
    (parts = [] <-> no_dot s = true).
Proof.
  induction s as [|c s (parts & lastp & E & F & J & N)].
  - exists [], "". cbn. repeat split; auto.
  - cbn [strings_Split_dot]. rewrite no_dot_cons.
    destruct (Ascii.eqb c chr_dot) eqn:Ec.
    + apply Ascii.eqb_eq in Ec. subst c.
      exists ("" :: parts), lastp. rewrite E. cbn [app].
      split; [reflexivity|]. split; [constructor; [reflexivity|exact F]|].
      split.
      * cbn [join_dot]. rewrite J. destruct (parts ++ [lastp]) eqn:X; [|reflexivity].
        destruct parts; discriminate.
      * cbn. split; discriminate.
    + rewrite E. destruct parts as [|p ps]; cbn [app].
      * exists [], (String c lastp). cbn [app].
        split; [reflexivity|].
        cbn in J. subst s.
        assert (Hl : no_dot lastp = true) by (inversion F; assumption).
        split; [constructor; [rewrite no_dot_cons, Ec, Hl; reflexivity|constructor]|].
        split; [reflexivity|]. cbn. rewrite Hl. split; auto.
      * exists (String c p :: ps), lastp. cbn [app].
        split; [reflexivity|].
        pose proof (Forall_inv F) as Fp. pose proof (Forall_inv_tail F) as Fr.
        cbn beta in Fp.
        split; [constructor; [rewrite no_dot_cons, Ec, Fp; reflexivity|exact Fr]|].
        split.
        -- cbn [join_dot app] in J |- *.
           destruct (ps ++ [lastp]) eqn:X; [destruct ps; discriminate|].
           rewrite <- J. reflexivity.
        -- cbn. split; [discriminate|].
           intros Hs. destruct N as [_ N]. discriminate (N Hs).
Qed.

Lemma join_dot_snoc parts lastp :
  parts <> [] ->
  exists pre, join_dot (parts ++ [lastp]) = (pre ++ String chr_dot lastp)%string.
Proof.
  induction parts as [|p ps IH]; intros H; [contradiction|].
  destruct ps as [|q qs].
  - exists p. reflexivity.
  - destruct (IH ltac:(discriminate)) as (pre & E).
    exists (p ++ String chr_dot pre)%string.
    change (join_dot ((p :: q :: qs) ++ [lastp]))
      with (p ++ String chr_dot (join_dot ((q :: qs) ++ [lastp])))%string.
    rewrite E. rewrite string_app_assoc. reflexivity.
Qed.

(** X18. [getLastOctet] returns the text after the last '.', and the whole
    text when there is no '.'; the guard for an empty list of parts never
    fires, [strings.Split] giving at least one part. *)
Theorem getLastOctet_after_last_dot ip :
  no_dot (getLastOctet ip) = true /\
  (length (strings_Split_dot ip) <> 0)%nat /\
  (if no_dot ip then getLastOctet ip = ip
   else exists pre, ip = (pre ++ String chr_dot (getLastOctet ip))%string).
Proof.
  destruct (split_dot_spec ip) as (parts & lastp & E & F & J & N).
  assert (L : (length (strings_Split_dot ip) <> 0)%nat).
  { rewrite E, length_app. cbn [length]. lia. }
  assert (G : getLastOctet ip = lastp).
  { unfold getLastOctet. destruct (Nat.eqb_spec (length (strings_Split_dot ip)) 0);
      [contradiction|].
    rewrite E. apply last_last. }
  rewrite G. split; [|split; [exact L|]].
  - apply Forall_app in F. destruct F as [_ F]. inversion F; assumption.
  - destruct (no_dot ip) eqn:D.
    + destruct N as [_ N]. rewrite (N eq_refl) in J. cbn in J. congruence.
    + destruct (join_dot_snoc parts lastp) as (pre & P).
      { intros X. destruct N as [N _]. discriminate (N X). }
      exists pre. rewrite <- J. exact P.
Qed.

Lemma rows_of_cons {A} n (l : list A) :
  l <> [] -> rows_of (S n) l = firstn columns l :: rows_of n (skipn columns l).
Proof. destruct l; [contradiction|reflexivity]. Qed.

Lemma rows_of_spec {A} n : forall l : list A,
  (length l <= n)%nat ->
  concat (rows_of n l) = l /\
  Forall (fun row => (1 <= length row <= columns)%nat) (rows_of n l) /\
  (forall i row, nth_error (rows_of n l) i = Some row ->
                 (S i < length (rows_of n l))%nat -> length row = columns) /\
  (length (rows_of n l) * columns < length l + columns)%nat /\
  (length l <= length (rows_of n l) * columns)%nat.
Proof.
  assert (Hc : columns = 20%nat) by reflexivity.
  induction n as [|n IH]; intros l Hl.
  - destruct l; [|cbn in Hl; lia]. cbn. rewrite Hc.
    split; [reflexivity|]. split; [constructor|].
    split; [intros [|i] row H; discriminate|lia].
  - destruct (Nat.eq_dec (length l) 0) as [Z|NZ].
    { apply length_zero_iff_nil in Z. subst l. cbn. rewrite Hc.
      split; [reflexivity|]. split; [constructor|].
      split; [intros [|i] row H; discriminate|lia]. }
    rewrite rows_of_cons by (intros ->; apply NZ; reflexivity).
    pose proof (length_firstn columns l) as Hf.
    pose proof (length_skipn columns l) as Hs.
    destruct (IH (skipn columns l) ltac:(lia)) as (I1 & I2 & I3 & I4 & I5).
    rewrite Hc in Hf, Hs, I4, I5.
    split; [|split; [|split; [|split]]].
    + cbn [concat]. rewrite I1. apply firstn_skipn.
    + constructor; [rewrite Hc; lia|exact I2].
    + intros i row H Hi. cbn [length] in Hi. destruct i as [|i]; cbn [nth_error] in H.
      * assert (E : row = firstn columns l) by congruence.
        rewrite Hc in Hi. rewrite E, Hc. lia.
      * apply (I3 i row H). lia.
    + cbn [length]. rewrite Hc. lia.
    + cbn [length]. rewrite Hc. lia.
Qed.


Lemma ascii_text_app a b : ascii_text (a ++ b) = ascii_text a && ascii_text b.
Proof. unfold ascii_text. rewrite list_ascii_of_string_app. apply forallb_app. Qed.

Lemma ascii_text_cons c s : ascii_text (String c s) = is_ascii c && ascii_text s.
Proof. reflexivity. Qed.

Lemma appendDecimal_text b :
  is_byte b ->
  ascii_text (appendDecimal b) = true /\
  (1 <= String.length (appendDecimal b) <= 3)%nat.
Proof.
  intros Hb.
  assert (H : ascii_text (appendDecimal b)
              && (1 <=? String.length (appendDecimal b))%nat
              && (String.length (appendDecimal b) <=? 3)%nat = true).
  { revert b Hb.
    apply (byte_cases (fun b => ascii_text (appendDecimal b)
                                && (1 <=? String.length (appendDecimal b))%nat
                                && (String.length (appendDecimal b) <=? 3)%nat)).
    vm_compute. reflexivity. }
  apply andb_true_iff in H. destruct H as [H H3].
  apply andb_true_iff in H. destruct H as [H1 H2].
  apply Nat.leb_le in H2, H3. auto.
Qed.

Lemma IP_String_text a b c d :
  is_byte a -> is_byte b -> is_byte c -> is_byte d ->
  ascii_text (IP_String [a; b; c; d]) = true /\
  (7 <= String.length (IP_String [a; b; c; d]) <= 15)%nat.
Proof.
  intros Ha Hb Hc Hd.
  destruct (appendDecimal_text a Ha) as [A1 A2].
  destruct (appendDecimal_text b Hb) as [B1 B2].
  destruct (appendDecimal_text c Hc) as [C1 C2].
  destruct (appendDecimal_text d Hd) as [D1 D2].
  change (IP_String [a; b; c; d])
    with (appendDecimal a ++ String chr_dot (appendDecimal b ++ String chr_dot
            (appendDecimal c ++ String chr_dot (appendDecimal d))))%string.
  split.
  - rewrite !ascii_text_app, !ascii_text_cons, !ascii_text_app, !ascii_text_cons,
      !ascii_text_app, !ascii_text_cons, A1, B1, C1, D1.
    reflexivity.
  - rewrite !string_length_app. cbn [String.length].
    rewrite !string_length_app. cbn [String.length].
    rewrite !string_length_app. cbn [String.length]. lia.
Qed.

Lemma dotted_outcome_text res :
  dotted_outcome res ->
  ascii_text (PingResult_IP res) = true /\
  (7 <= String.length (PingResult_IP res) <= 15)%nat /\
  ascii_text (getLastOctet (PingResult_IP res)) = true /\
  (1 <= String.length (getLastOctet (PingResult_IP res)) <= 3)%nat.
Proof.
  intros (x & Hx & E). rewrite E. unfold addr.
  pose proof (IP_String_text _ _ _ _ (u8_is_byte (Z.shiftr x 24))
                (u8_is_byte (Z.shiftr x 16)) (u8_is_byte (Z.shiftr x 8))
                (u8_is_byte x)) as [T1 T2].
  rewrite getLastOctet_dotted by apply u8_is_byte.
  destruct (appendDecimal_text (u8 x) (u8_is_byte x)) as [D1 D2].
  auto.
Qed.

Lemma fmt_left_ascii width s :
  ascii_text s = true ->
  fmt_left width s = Ret (s ++ spaces (width - String.length s))%string.
Proof. intros H. unfold fmt_left. fold (ascii_text s). rewrite H. reflexivity. Qed.

Lemma colored_text res :
  dotted_outcome res ->
  ascii_text (colored res) = true /\
  String.length (colored res)
  = (9 + String.length (getLastOctet (PingResult_IP res)))%nat.
Proof.
  intros H. destruct (dotted_outcome_text res H) as (_ & _ & T & _).
  unfold colored. split.
  - rewrite !ascii_text_app, T. destruct (Alive res); reflexivity.
  - rewrite !string_length_app. destruct (Alive res); cbn; lia.
Qed.

Lemma line_loop_cells row : forall line,
  Forall dotted_outcome row ->
  line_loop (map colored row) line
  = Ret (line ++ String.concat "" (map cell15 row))%string.
Proof.
  induction row as [|res row IH]; intros line H; cbn [map line_loop].
  - cbn. rewrite string_app_nil_r. reflexivity.
  - inversion H as [|? ? Hr Hrow]; subst.
    destruct (colored_text res Hr) as [T _].
    rewrite (fmt_left_ascii 15 _ T). cbn [run_bind]. rewrite (IH _ Hrow).
    fold (cell15 res). f_equal. rewrite string_app_assoc. f_equal.
    destruct row as [|r2 row]; [cbn; rewrite string_app_nil_r; reflexivity|].
    reflexivity.
Qed.

Lemma rows_of_map {A B} (f : A -> B) n : forall l,
  rows_of n (map f l) = map (map f) (rows_of n l).
Proof.
  induction n as [|n IH]; intros l; [reflexivity|].
  destruct l as [|x l]; [reflexivity|].
  rewrite (rows_of_cons n (map f (x :: l))) by (cbn; discriminate).
  rewrite (rows_of_cons n (x :: l)) by discriminate.
  cbn [map]. change (f x :: map f l) with (map f (x :: l)).
  rewrite <- IH. f_equal.
  - first [apply firstn_map | symmetry; apply firstn_map].
  - f_equal. first [apply skipn_map | symmetry; apply skipn_map].
Qed.

Lemma run_map_ext {A B} (f : A -> run B) (g : A -> B) l :
  Forall (fun x => f x = Ret (g x)) l -> run_map f l = Ret (map g l).
Proof.
  induction 1 as [|x l Hx _ IH]; cbn [run_map map]; [reflexivity|].
  rewrite Hx, IH. reflexivity.
Qed.

Lemma Forall_concat {A} (P : A -> Prop) (ls : list (list A)) :
  Forall P (concat ls) -> Forall (Forall P) ls.
Proof.
  induction ls as [|l ls IH]; cbn [concat]; intros H; [constructor|].
  apply Forall_app in H. destruct H. constructor; auto.
Qed.

(** X20. For the outcomes of a scan every cell of the grid is 15 bytes wide:
    9 bytes of colour codes, the last octet, and spaces that fill the octet
    up to 6 columns.  A printed row is the cells one after the other. *)
Theorem grid_lines_aligned results :
  Forall dotted_outcome results ->
  grid_lines results
  = Ret (map (fun row => String.concat "" (map cell15 row))
             (rows_of (length results) results)) /\
  Forall (fun res =>
            String.length (cell15 res) = 15%nat /\
            exists pad, cell15 res = (colored res ++ spaces pad)%string /\
                        (String.length (getLastOctet (PingResult_IP res)) + pad = 6)%nat)
         results.
Proof.
  intros H. split.
  - unfold grid_lines. rewrite length_map, rows_of_map.
    assert (R : Forall (Forall dotted_outcome) (rows_of (length results) results)).
    { apply Forall_concat.
      rewrite (proj1 (rows_of_spec (length results) results (le_n _))). exact H. }
    induction R as [|row rows Hrow _ IH]; [reflexivity|].
    cbn [map run_map]. rewrite (line_loop_cells row "" Hrow). cbn [run_bind].
    rewrite IH. reflexivity.
  - eapply Forall_impl; [|exact H]. intros res Hr.
    destruct (colored_text res Hr) as [_ L].
    destruct (dotted_outcome_text res Hr) as (_ & _ & _ & D).
    unfold cell15. rewrite string_length_app, spaces_length, L.
    split; [lia|].
    exists (15 - (9 + String.length (getLastOctet (PingResult_IP res))))%nat.
    split; [reflexivity|lia].
Qed.

Lemma two_outcomes_dotted : Forall dotted_outcome two_outcomes.
Proof.
  constructor; [|constructor; [|constructor]].
  - exists (val4 10 0 0 2). split; [vm_compute; split; [discriminate|reflexivity]|reflexivity].
  - exists (val4 10 0 0 1). split; [vm_compute; split; [discriminate|reflexivity]|reflexivity].
Qed.

Lemma grid_lines_aligned_witness :
  grid_lines two_outcomes
  = Ret [String.concat "" (map cell15 two_outcomes)] /\
  Forall (fun res => String.length (cell15 res) = 15%nat) two_outcomes.
Proof.
  destruct (grid_lines_aligned two_outcomes two_outcomes_dotted) as [E F].
  split; [exact E|].
  eapply Forall_impl; [|exact F]. intros res [L _]. exact L.
Defined.

Lemma log_rows_table rows : forall file,
  Forall dotted_outcome rows ->
  log_rows file rows = Ret (file ++ map table_row rows).
Proof.
  induction rows as [|res rows IH]; intros file H; cbn [log_rows map].
  - rewrite app_nil_r. reflexivity.
  - inversion H as [|? ? Hr Hrows]; subst.
    destruct (dotted_outcome_text res Hr) as (T & _).
    rewrite (fmt_left_ascii 15 _ T). cbn [run_bind]. rewrite (IH _ Hrows).
    unfold logToFile. rewrite <- app_assoc. cbn [app]. f_equal. f_equal. f_equal.
    unfold table_row. rewrite !string_app_assoc. reflexivity.
Qed.

Lemma table_row_columns res :
  dotted_outcome res ->
  substring 0 (String.length (PingResult_IP res)) (table_row res) = PingResult_IP res /\
  substring 16 (String.length (status_of res)) (table_row res) = status_of res.
Proof.
  intros Hr. destruct (dotted_outcome_text res Hr) as (_ & L & _).
  unfold table_row. split; [apply substring_prefix|].
  set (ip := PingResult_IP res) in *.
  replace (ip ++ spaces (15 - String.length ip) ++ " " ++ status_of res
              ++ String chr_newline "")%string
    with ((ip ++ spaces (15 - String.length ip) ++ " ")
          ++ (status_of res ++ String chr_newline ""))%string
    by (rewrite !string_app_assoc; reflexivity).
  replace 16%nat with (String.length (ip ++ spaces (15 - String.length ip) ++ " ")%string).
  - rewrite substring_skip. apply substring_prefix.
  - rewrite !string_length_app, spaces_length. cbn [String.length]. lia.
Qed.

(** X21. The table in the log.  [saveSortedResultsToLog] appends to the log
    the title with the CIDR and the time limit, the column heads, a rule,
    one row per outcome in ascending order of the last octet, and a closing
    rule, each as one write that ends in a line feed.  In every row the
    status begins at column 16, under the head of its column. *)
Theorem log_table_aligned sort_Slice logFile results cidr timeoutMs :
  sort_Slice_contract sort_Slice -> Forall dotted_outcome results ->
  exists sorted,
    Permutation sorted results /\ StronglySorted octet_le sorted /\
    saveSortedResultsToLog_file sort_Slice logFile results cidr timeoutMs
    = Ret (sorted,
           logFile ++
           [("=== Results for Subnet: " ++ cidr ++ " (Timeout: " ++ fmt_d timeoutMs
             ++ " ms) ===" ++ String chr_newline "")%string;
            ("IP Address      Status" ++ String chr_newline "")%string;
            ("-----------------------" ++ String chr_newline "")%string]
           ++ map table_row sorted
           ++ [("=======================" ++ String chr_newline "")%string]) /\
    Forall (fun res =>
              substring 0 (String.length (PingResult_IP res)) (table_row res)
              = PingResult_IP res /\
              substring 16 (String.length (status_of res)) (table_row res)
              = status_of res) sorted /\
    substring 16 6 "IP Address      Status" = "Status".
Proof.
  intros C H.
  destruct (contract_octet_sorted sort_Slice results C) as (sorted & E & P & S).
  assert (Hs : Forall dotted_outcome sorted).
  { apply Forall_forall. intros res Hin.
    apply (proj1 (Forall_forall _ _) H). eapply Permutation_in; eauto. }
  exists sorted. split; [exact P|]. split; [exact S|]. split; [|split].
  - unfold saveSortedResultsToLog_file. rewrite E. cbn [run_bind].
    rewrite (log_rows_table sorted _ Hs). cbn [run_bind].
    unfold logToFile. rewrite <- !app_assoc. cbn [app].
    rewrite !string_app_assoc. reflexivity.
  - eapply Forall_impl; [|exact Hs]. apply table_row_columns.
  - reflexivity.
Qed.

Lemma log_table_aligned_witness :
  exists sorted file,
    saveSortedResultsToLog_file insertion_sort [] two_outcomes "10.0.0.0/30" 800
    = Ret (sorted, file) /\ length file = 6%nat.
Proof.
  destruct (log_table_aligned insertion_sort [] two_outcomes "10.0.0.0/30" 800
              insertion_sort_contract two_outcomes_dotted) as (sorted & P & _ & E & _).
  exists sorted. eexists. split; [exact E|].
  apply Permutation_length in P. cbn [app length]. rewrite length_app, length_map, P.
  reflexivity.
Defined.

(** ** The order of a report *)

Lemma keys_sorted l :
  StronglySorted octet_le l <-> StronglySorted Z.le (map lastOctetNum l).
Proof.
  induction l as [|a l IH]; cbn [map]; split; intros H; try constructor;
    inversion H as [|? ? Hs Hf]; subst.
  - apply IH, Hs.
  - rewrite Forall_map. exact Hf.
  - apply IH, Hs.
  - rewrite Forall_map in Hf. exact Hf.
Qed.

Lemma zrange_sorted lo n : StronglySorted Z.le (zrange lo n).
Proof.
  revert lo. induction n as [|n IH]; intros lo; [constructor|].
  rewrite zrange_S. constructor; [apply IH|].
  apply Forall_forall. intros x Hx. unfold zrange in Hx.
  apply in_map_iff in Hx. destruct Hx as (i & <- & Hi). lia.
Qed.

(** The last octets of the hosts of a block of prefix length 24 to 30 go up
    one by one. *)
Lemma hosts_octets a b c d p :
  is_byte a -> is_byte b -> is_byte c -> is_byte d -> 24 <= p <= 30 ->
  map octet_of_ip (host_strings (network a b c d p + 1) (Z.to_nat (block_size p - 2)))
  = zrange (network a b c d p mod 256 + 1) (Z.to_nat (block_size p - 2)).
Proof.
  intros Ha Hb Hc Hd Hp.
  destruct (network_block a b c d p Ha Hb Hc Hd ltac:(lia)) as (N0 & N1 & N2).
  pose proof (block_size_30 p ltac:(lia)) as H4.
  assert (HS : block_size p * 2 ^ (p - 24) = 256).
  { unfold block_size. rewrite <- Z.pow_add_r by lia.
    replace (32 - p + (p - 24)) with 8 by lia. reflexivity. }
  assert (HP : 0 < 2 ^ (p - 24)) by (apply Z.pow_pos_nonneg; lia).
  assert (HW : network a b c d p mod 256 + block_size p <= 256).
  { pose proof (val4_range a b c d Ha Hb Hc Hd) as HV.
    pose proof (block_size_pos p ltac:(lia)) as HSpos.
    unfold network.
    apply (aligned_window _ _ (2 ^ (p - 24))); auto.
    apply Z.div_pos; [apply HV|exact HSpos]. }
  pose proof (Z.mod_pos_bound (network a b c d p) 256 ltac:(lia)).
  pose proof (Z.div_mod (network a b c d p) 256 ltac:(lia)).
  assert (E1 : (network a b c d p + 1) mod 256 = network a b c d p mod 256 + 1)
    by (symmetry; apply (Z.mod_unique _ 256 (network a b c d p / 256)); lia).
  rewrite octets_in_window; [rewrite E1; reflexivity|lia|lia|lia].
Qed.

Lemma addresses_in_key_order l1 l2 :
  Permutation l1 l2 ->
  NoDup (map octet_of_ip l1) ->
  StronglySorted Z.le (map octet_of_ip l1) ->
  StronglySorted Z.le (map octet_of_ip l2) ->
  l1 = l2.
Proof.
  intros P Hn S1 S2.
  set (mk := fun ip => mkPingResult ip false).
  assert (K : forall l, map lastOctetNum (map mk l) = map octet_of_ip l).
  { intros l. rewrite map_map. reflexivity. }
  assert (E : map mk l1 = map mk l2).
  { apply sorted_unique.
    - apply Permutation_map, P.
    - rewrite K. exact Hn.
    - apply keys_sorted. rewrite K. exact S1.
    - apply keys_sorted. rewrite K. exact S2. }
  apply (f_equal (map PingResult_IP)) in E.
  rewrite !map_map in E. cbn [mk PingResult_IP] in E. rewrite !map_id in E. exact E.
Qed.

(** X22. What [processCIDR] reports for a block of prefix length 24 to 30,
    which is what [main] gives it: every host of the block is probed once,
    and both the grid and the log list the hosts in ascending order of their
    addresses, whatever the interleaving of the goroutines and whatever
    [sort.Slice] does within its contract.  With a ceiling of at least 1
    there is such a report. *)
Theorem report_in_address_order sort_Slice timeoutMs maxThreads s a b c d p :
  sort_Slice_contract sort_Slice -> valid_ipv4_cidr s a b c d p -> 24 <= p <= 30 ->
  let hosts := host_strings (network a b c d p + 1) (Z.to_nat (block_size p - 2)) in
  (forall r, processCIDR timeoutMs maxThreads s r ->
     exists results sorted,
       r = Scanned results /\
       Permutation (map PingResult_IP results) hosts /\
       printResults sort_Slice results timeoutMs = Ret (sorted, render sorted timeoutMs) /\
       saveSortedResultsToLog sort_Slice sorted = Ret (sorted, table sorted) /\
       map PingResult_IP sorted = hosts) /\
  (1 <= maxThreads -> exists r, processCIDR timeoutMs maxThreads s r).
Proof.
  intros C V Hp hosts. pose proof V as (_ & Ha & Hb & Hc & Hd & Hp').
  pose proof (block_size_30 p ltac:(lia)) as H4.
  pose proof (parseCIDR_hosts (S (Z.to_nat (block_size p))) s a b c d p V
                ltac:(lia) ltac:(lia)) as E'.
  fold hosts in E'.
  assert (Hne : hosts <> []).
  { unfold hosts, host_strings. intros X. apply (f_equal (@length _)) in X.
    rewrite length_map, zrange_length in X. cbn in X. lia. }
  split.
  - intros r H.
    inversion H as [fuel e E|fuel E|fuel ips tr st E Hips Hex Hm]; subst;
      pose proof (parseCIDR_deterministic _ _ _ _ _ E E') as X;
      [discriminate|congruence|].
    assert (ips = hosts) by congruence. subst ips. clear X.
    set (results := st_pingResults st) in *.
    destruct (returned_outcomes _ _ (exec_invariant _ _ _ Hex) Hm) as (P & _).
    cbn [cfg_ips] in P. fold results in P.
    pose proof (processCIDR_distinct_octets timeoutMs maxThreads s a b c d p results
                  V ltac:(lia) H) as Hn.
    destruct (contract_octet_sorted sort_Slice results C) as (sorted & Es & Ps & Ss).
    assert (Hns : NoDup (map lastOctetNum sorted)).
    { eapply Permutation_NoDup; [|exact Hn]. apply Permutation_map, Permutation_sym, Ps. }
    exists results, sorted. split; [reflexivity|]. split; [exact P|].
    split; [unfold printResults; rewrite Es; reflexivity|]. split.
    + destruct (contract_octet_sorted sort_Slice sorted C) as (again & Ea & Pa & Sa).
      assert (again = sorted).
      { apply sorted_unique; auto.
        eapply Permutation_NoDup; [|exact Hns].
        apply Permutation_map, Permutation_sym, Pa. }
      subst again. unfold saveSortedResultsToLog. rewrite Ea. reflexivity.
    + apply addresses_in_key_order.
      * rewrite (Permutation_map PingResult_IP Ps). exact P.
      * rewrite map_map. exact Hns.
      * rewrite map_map. apply keys_sorted, Ss.
      * unfold hosts. rewrite hosts_octets by (assumption || lia). apply zrange_sorted.
  - intros Hth.
    destruct (completes_within _ (mkConfig hosts timeoutMs maxThreads) [] init
                Hth (exec_init _) (le_n _)) as (tr & st & Hex & Hm & _).
    exists (Scanned (st_pingResults st)).
    apply (process_scan _ _ _ _ hosts tr st E' Hne Hex Hm).
Qed.

Lemma report_in_address_order_witness :
  exists sorted,
    printResults insertion_sort (st_pingResults two_ips_final) 800
    = Ret (sorted, render sorted 800) /\
    map PingResult_IP sorted = ["10.0.0.1"; "10.0.0.2"].
Proof.
  assert (V : valid_ipv4_cidr "10.0.0.0/30" 10 0 0 0 30) by prove_valid.
  destruct (report_in_address_order insertion_sort 800 1 "10.0.0.0/30" 10 0 0 0 30
              insertion_sort_contract V ltac:(lia)) as (R & _).
  destruct (R (Scanned (st_pingResults two_ips_final))) as (results & sorted & E & _ & Pr & _ & O).
  - apply (process_scan _ _ _ 10%nat ["10.0.0.1"; "10.0.0.2"] two_ips_trace two_ips_final);
      [exact parse_10_30|discriminate|exact two_ips_exec|reflexivity].
  - inversion E; subst results. exists sorted. split; [exact Pr|exact O].
Defined.

(** ** The log of a chunk *)

Lemma host_strings_dotted lo n :
  0 <= lo -> lo + Z.of_nat n <= 2 ^ 32 ->
  Forall (fun ip => exists x, 0 <= x < 2 ^ 32 /\ ip = IP_String (addr x)) (host_strings lo n).
Proof.
  intros H0 H1. unfold host_strings. apply Forall_map, Forall_forall.
  intros x Hx. apply in_zrange in Hx. exists x. split; [lia|reflexivity].
Qed.

Lemma outcomes_dotted results ips :
  Permutation (map PingResult_IP results) ips ->
  Forall (fun ip => exists x, 0 <= x < 2 ^ 32 /\ ip = IP_String (addr x)) ips ->
  Forall dotted_outcome results.
Proof.
  intros P F. apply Forall_forall. intros res Hin.
  apply (proj1 (Forall_forall _ _) F).
  eapply Permutation_in; [exact P|]. apply in_map, Hin.
Qed.

(** X23. The log of a chunk.  For a block of prefix length 31 or 32
    [processCIDR] writes nothing to the log.  For a block of prefix length 24
    to 30 it appends the opening line, the title, the column heads, a rule,
    one row per host in ascending order of the addresses, a rule and the
    closing line: the hosts and six lines more, after what the log held. *)
Theorem processCIDR_log_of_chunk sort_Slice logFile timeoutMs maxThreads s a b c d p r :
  sort_Slice_contract sort_Slice -> valid_ipv4_cidr s a b c d p -> 24 <= p ->
  processCIDR timeoutMs maxThreads s r ->
  (31 <= p -> processCIDR_file sort_Slice logFile s timeoutMs r = Ret logFile) /\
  (p <= 30 ->
   exists sorted,
     map PingResult_IP sorted
     = host_strings (network a b c d p + 1) (Z.to_nat (block_size p - 2)) /\
     processCIDR_file sort_Slice logFile s timeoutMs r
     = Ret (logFile ++ chunk_log s timeoutMs sorted) /\
     Z.of_nat (length (chunk_log s timeoutMs sorted)) = block_size p + 4).
Proof.
  intros C V Hp H. pose proof V as (_ & Ha & Hb & Hc & Hd & Hp'). split.
  - intros H31. destruct (Z.eq_dec p 31) as [->|N31].
    + rewrite (processCIDR_empty _ _ _ 3 r (parseCIDR_slash31 3 s a b c d V (le_n 3)) H).
      reflexivity.
    + assert (p = 32) by lia. subst p.
      rewrite (processCIDR_error _ _ _ 2 _ r (parseCIDR_slash32 2 s a b c d V (le_n 2)) H).
      reflexivity.
  - intros H30.
    pose proof (block_size_30 p ltac:(lia)) as H4.
    pose proof (parseCIDR_hosts (S (Z.to_nat (block_size p))) s a b c d p V
                  ltac:(lia) ltac:(lia)) as E'.
    set (hosts := host_strings (network a b c d p + 1) (Z.to_nat (block_size p - 2))) in *.
    inversion H as [fuel e E|fuel E|fuel ips tr st E Hips Hex Hm]; subst;
      pose proof (parseCIDR_deterministic _ _ _ _ _ E E') as X.
    { discriminate. }
    { exfalso. assert (L : length hosts = 0%nat) by (inversion X; reflexivity).
      unfold hosts, host_strings in L. rewrite length_map, zrange_length in L. lia. }
    assert (ips = hosts) by congruence. subst ips. clear X.
    set (results := st_pingResults st) in *.
    destruct (returned_outcomes _ _ (exec_invariant _ _ _ Hex) Hm) as (P & _).
    cbn [cfg_ips] in P. fold results in P.
    pose proof (processCIDR_distinct_octets timeoutMs maxThreads s a b c d p results
                  V ltac:(lia) H) as Hn.
    destruct (network_block a b c d p Ha Hb Hc Hd Hp') as (N0 & N1 & _).
    assert (Hd0 : Forall dotted_outcome results).
    { apply (outcomes_dotted results hosts P). apply host_strings_dotted; lia. }
    destruct (contract_octet_sorted sort_Slice results C) as (sorted & Es & Ps & Ss).
    assert (Hns : NoDup (map lastOctetNum sorted)).
    { eapply Permutation_NoDup; [|exact Hn]. apply Permutation_map, Permutation_sym, Ps. }
    assert (Hds : Forall dotted_outcome sorted).
    { apply Forall_forall. intros res Hin.
      apply (proj1 (Forall_forall _ _) Hd0). eapply Permutation_in; eauto. }
    destruct (contract_octet_sorted sort_Slice sorted C) as (again & Ea & Pa & Sa).
    assert (again = sorted).
    { apply sorted_unique; auto.
      eapply Permutation_NoDup; [|exact Hns].
      apply Permutation_map, Permutation_sym, Pa. }
    subst again.
    assert (Ho : map PingResult_IP sorted = hosts).
    { apply addresses_in_key_order.
      - rewrite (Permutation_map PingResult_IP Ps). exact P.
      - rewrite map_map. exact Hns.
      - rewrite map_map. apply keys_sorted, Ss.
      - unfold hosts. rewrite hosts_octets by (assumption || lia). apply zrange_sorted. }
    exists sorted. split; [exact Ho|]. split.
    + unfold processCIDR_file. fold results. rewrite Es. cbn [run_bind].
      unfold saveSortedResultsToLog_file. rewrite Ea. cbn [run_bind].
      rewrite (log_rows_table sorted _ Hds). cbn [run_bind snd].
      unfold chunk_log, logToFile. rewrite <- !app_assoc. cbn [app].
      rewrite !string_app_assoc. reflexivity.
    + unfold chunk_log. rewrite !length_app, length_map. cbn [length].
      apply (f_equal (@length _)) in Ho. rewrite length_map in Ho. rewrite Ho.
      unfold hosts, host_strings. rewrite length_map, zrange_length. lia.
Qed.

Lemma processCIDR_log_of_chunk_witness :
  exists sorted,
    map PingResult_IP sorted = ["10.0.0.1"; "10.0.0.2"] /\
    processCIDR_file insertion_sort [] "10.0.0.0/30" 800
      (Scanned (st_pingResults two_ips_final))
    = Ret (chunk_log "10.0.0.0/30" 800 sorted).
Proof.
  assert (V : valid_ipv4_cidr "10.0.0.0/30" 10 0 0 0 30) by prove_valid.
  assert (H : processCIDR 800 1 "10.0.0.0/30" (Scanned (st_pingResults two_ips_final))).
  { apply (process_scan _ _ _ 10%nat ["10.0.0.1"; "10.0.0.2"] two_ips_trace two_ips_final);
      [exact parse_10_30|discriminate|exact two_ips_exec|reflexivity]. }
  destruct (processCIDR_log_of_chunk insertion_sort [] 800 1 "10.0.0.0/30" 10 0 0 0 30 _
              insertion_sort_contract V ltac:(lia) H) as (_ & R).
  destruct (R ltac:(lia)) as (sorted & O & E & _).
  exists sorted. split; [exact O|exact E].
Defined.
